(** * Zeplin sync plug-ins: a shallow embedding and its properties

    The repository holds two host adapters that import Zeplin design data:
    - the Logseq adapter ([ZeplinClient], [LogseqPagesManager],
      [LogseqBlocksManager], [LogseqAssetsManager], [ComponentSynchronizer]);
    - the Obsidian adapter ([ObsidianSynchronizer]);
    and a generic [retry] helper.

    Part I embeds the TypeScript sources as Rocq functions, one module per
    source unit.  Part II holds the notions that the properties are stated
    with and the sample data.  Part III states and proves the properties.

    Conventions of the embedding.
    - A JS string is a [string], the list of its code units, which are
      taken to be below 128 (ASCII text): the character classes
      ([Js.isWhiteSpace], [Js.isLineTerminator]) and the case mappings
      ([Js.Canonicalize], [Js.toLowerCase]) are those of the code units
      below 128.  A property that would not hold of a text with other
      code units is stated for ASCII text ([Js.asciiText]).
    - A JS number that the code computes with is a rational ([Q]) or an
      integer ([Z]); numbers that are only printed are integers.  A
      multiplication rounds its exact result to the nearest double
      ([Js.fl64], [Js.mul64]); infinities and NaN are not represented.
    - An optional field is an [option]; JS truthiness of an optional string
      is [Js.truthy] (present and non-empty).
    - The logger only writes to the console and is left out. *)

From stdpp Require Import base strings list gmap.
From Stdlib Require Import ZArith QArith Qround Qminmax Qpower Lia Lqa Ascii String
  List DecimalString.
Import ListNotations.
Close Scope Q_scope.
Open Scope string_scope.

(* ===================================================================== *)
(** * Part I.  The embedding                                              *)
(* ===================================================================== *)

(** ** JavaScript primitives used by the sources *)

Module Js.

(** [if (s)] for [s : string | undefined]. *)
Definition truthy (o : option string) : bool :=
  match o with
  | Some s => negb (String.eqb s "")
  | None => false
  end.

(** [a || b] where [a : string | undefined] and [b : string]. *)
Definition or_else (o : option string) (d : string) : string :=
  match o with
  | Some s => if String.eqb s "" then d else s
  | None => d
  end.

(** A template literal renders [undefined] as the word itself. *)
Definition show (o : option string) : string :=
  match o with
  | Some s => s
  | None => "undefined"
  end.

(** Decimal rendering of an integer inside a template literal. *)
Definition show_nat (n : nat) : string := NilZero.string_of_uint (Nat.to_uint n).

Definition show_Z (z : Z) : string := NilZero.string_of_int (Z.to_int z).

(** [Array.prototype.join]. *)
Fixpoint join (sep : string) (l : list string) : string :=
  match l with
  | [] => ""
  | [x] => x
  | x :: r => x ++ sep ++ join sep r
  end.

(** [tags.map(t => `#${t}`).join(' ')] *)
Definition hashTags (l : list string) : string :=
  join " " (map (fun t => "#" ++ t) l).

(** The code units below 128, on which the classes and mappings below are
    those of the engine. *)
Definition isAscii (c : ascii) : bool := (nat_of_ascii c <? 128)%nat.

Definition asciiText (s : string) : bool :=
  forallb isAscii (list_ascii_of_string s).

(** Characters matched by [\s] and stripped by [trim]: the white space and
    line terminator code points below 128. *)
Definition isWhiteSpace (c : ascii) : bool :=
  let n := nat_of_ascii c in
  (n =? 9)%nat || (n =? 10)%nat || (n =? 11)%nat || (n =? 12)%nat
  || (n =? 13)%nat || (n =? 32)%nat.

(** Line terminators, the characters that [.] never matches: those below
    128 (line feed and carriage return). *)
Definition isLineTerminator (c : ascii) : bool :=
  let n := nat_of_ascii c in (n =? 10)%nat || (n =? 13)%nat.

(** [Canonicalize] of a case-insensitive RegExp: the upper-case mapping,
    on the code units below 128. *)
Definition Canonicalize (c : ascii) : ascii :=
  let n := nat_of_ascii c in
  if ((97 <=? n) && (n <=? 122))%nat then ascii_of_nat (n - 32) else c.

(** [String.prototype.replace] with a global single-character class. *)
Definition replaceAll (cls : ascii -> bool) (by_ : ascii -> list ascii)
  (s : list ascii) : list ascii :=
  flat_map (fun c => if cls c then by_ c else [c]) s.

Fixpoint trimStart (s : list ascii) : list ascii :=
  match s with
  | [] => []
  | c :: r => if isWhiteSpace c then trimStart r else s
  end.

Fixpoint trimEnd (s : list ascii) : list ascii :=
  match s with
  | [] => []
  | c :: r =>
      match trimEnd r with
      | [] => if isWhiteSpace c then [] else [c]
      | r' => c :: r'
      end
  end.

Definition trim (s : list ascii) : list ascii := trimEnd (trimStart s).

(** [xs && xs.length > 0] for an optional array. *)
Definition nonEmpty {A : Type} (o : option (list A)) : bool :=
  match o with
  | Some l => (0 <? List.length l)%nat
  | None => false
  end.

Definition orNil {A : Type} (o : option (list A)) : list A :=
  match o with
  | Some l => l
  | None => []
  end.

(** [Math.round]: the nearest integer, ties towards plus infinity. *)
Definition Math_round (x : Q) : Z := Qfloor (x + (1 # 2))%Q.

(** *** Number arithmetic (IEEE 754 binary64)

    The result of an arithmetic operation is the double nearest to the exact
    result, ties to the even significand. *)

(** The nearest integer, ties to the even one. *)
Definition roundHalfEven (q : Q) : Z :=
  let f := Qfloor q in
  match Qcompare (q - inject_Z f) (1 # 2) with
  | Lt => f
  | Gt => (f + 1)%Z
  | Eq => if Z.even f then f else (f + 1)%Z
  end.

(** The binary exponent of a positive real [q]: the [k] with
    [2^k <= q < 2^(k+1)]. *)
Definition floorLog2 (q : Q) : Z :=
  let k := (Z.log2 (Qnum q) - Z.log2 (Zpos (Qden q)))%Z in
  if Qle_bool (2 ^ k) q then k else (k - 1)%Z.

(** The double nearest to a positive real: 53 significant bits, or a
    multiple of [2^-1074] in the subnormal range. *)
Definition fl64pos (q : Q) : Q :=
  let e := Z.max (-1074) (floorLog2 q - 52) in
  Qred (inject_Z (roundHalfEven (q / 2 ^ e)) * 2 ^ e).

Definition fl64 (q : Q) : Q :=
  match Qnum q with
  | Z0 => 0%Q
  | Zpos _ => fl64pos q
  | Zneg _ => (- fl64pos (- q))%Q
  end.

(** [x * y] on Numbers. *)
Definition mul64 (x y : Q) : Q := fl64 (x * y).

(** A [Math.pow] on a natural exponent that answers the double nearest to
    the exact power.  (ECMA-262 leaves the precision of [Math.pow] to the
    engine; what is proved of [retry] holds for every such function, and
    this one serves in the sample evaluations.) *)
Definition pow64 (base : Q) (exponent : nat) : Q :=
  fl64 (base ^ Z.of_nat exponent).

(** [String.prototype.toLowerCase], on the code units below 128. *)
Definition toLowerCase (c : ascii) : ascii :=
  let n := nat_of_ascii c in
  if ((65 <=? n) && (n <=? 90))%nat then ascii_of_nat (n + 32) else c.

End Js.

(** ** utils/retry.ts *)

Module Retry.

(** What a rejected promise carries: an [Error] object or any other value
    (shown by its [String(...)] rendering). *)
Inductive Thrown : Type :=
| ErrorObject (message : string)
| OtherValue (rendering : string).

(** [error instanceof Error ? error : new Error(String(error))] *)
Definition toError (error : Thrown) : Thrown :=
  match error with
  | ErrorObject _ => error
  | OtherValue r => ErrorObject r
  end.

Record RetryOptions : Type := {
  maxAttempts : nat;
  initialDelay : Q;
  maxDelay : Q;
  backoffMultiplier : Q;
  (** [onRetry(attempt, error)]: [None] when the callback returns, the
      value it throws otherwise. *)
  onRetry : nat -> Thrown -> option Thrown
}.

Definition DEFAULT_OPTIONS : RetryOptions :=
  {| maxAttempts := 3; initialDelay := 1000; maxDelay := 10000;
     backoffMultiplier := 2; onRetry := fun _ _ => None |}.

(** What one call of [retry] did: how the returned promise settled, how many
    times [fn] was invoked, and the arguments of the [sleep] calls in
    order. *)
Record Run (T : Type) : Type := {
  settled : Thrown + T;
  invocations : nat;
  slept : list Q
}.
Arguments settled {T} _.
Arguments invocations {T} _.
Arguments slept {T} _.

Section RetryLoop.
Context {T : Type}.
(** The engine's [Math.pow], on a base and a natural exponent (the exponent
    of every call is [attempt - 1]). *)
Variable Math_pow : Q -> nat -> Q.
(** [fn k] is how the [k]-th invocation of the callback settles. *)
Variable fn : nat -> Thrown + T.
Variable opts : RetryOptions.

(** [Math.min(initialDelay * Math.pow(backoffMultiplier, attempt - 1),
    maxDelay)] *)
Definition delay (attempt : nat) : Q :=
  Qmin (Js.mul64 (initialDelay opts)
          (Math_pow (backoffMultiplier opts) (attempt - 1)))
       (maxDelay opts).

(** The [for] loop, by recursion on the number of iterations left
    ([maxAttempts - attempt + 1]).  What [onRetry] throws leaves the
    [catch] clause it is called in and rejects the promise. *)
Fixpoint loop (remaining attempt : nat) (lastError : Thrown) : Run T :=
  match remaining with
  | O => {| settled := inl lastError; invocations := 0; slept := [] |}
  | S remaining' =>
      match fn attempt with
      | inr v => {| settled := inr v; invocations := 1; slept := [] |}
      | inl error =>
          let lastError := toError error in
          if (attempt =? maxAttempts opts)%nat then
            {| settled := inl lastError; invocations := 1; slept := [] |}
          else
            match onRetry opts attempt lastError with
            | Some thrown =>
                {| settled := inl thrown; invocations := 1; slept := [] |}
            | None =>
                let rest := loop remaining' (S attempt) lastError in
                {| settled := settled rest;
                   invocations := S (invocations rest);
                   slept := delay attempt :: slept rest |}
            end
      end
  end.

(** [lastError] is declared without a value: it starts as [undefined]. *)
Definition retry : Run T := loop (maxAttempts opts) 1 (OtherValue "undefined").

End RetryLoop.

End Retry.

(** ** types/zeplin.ts *)

Module Zeplin.

Record ZeplinProject : Type := {
  project_id : string;
  project_name : string;
  platform : string;
  status : string;
  number_of_screens : nat;
  number_of_components : nat;
  number_of_text_styles : nat;
  number_of_colors : nat
}.

Record Thumbnails : Type := {
  small : option string;
  medium : option string;
  large : option string
}.

Record ZeplinAsset : Type := {
  url : option string;
  original_url : option string;
  thumbnails : option Thumbnails
}.

Record LatestVersion : Type := { version_image : option ZeplinAsset }.

(** The image-bearing fields that [ZeplinComponent] and [ZeplinScreen]
    share; [extractImageUrl] reads nothing else. *)
Record ItemImages : Type := {
  image : option ZeplinAsset;
  images : option (list ZeplinAsset);
  latest_version : option LatestVersion
}.

(** [name] is optional: the synchronizers overwrite it with the result of a
    map lookup. *)
Record ZeplinSection : Type := {
  section_id : string;
  section_name : option string
}.

Record ZeplinComponent : Type := {
  component_id : string;
  component_name : string;
  component_description : option string;
  component_images : ItemImages;
  component_updated : Z;
  component_section : option ZeplinSection
}.

Record ZeplinScreen : Type := {
  screen_id : string;
  screen_name : string;
  screen_description : option string;
  screen_images : ItemImages;
  screen_updated : Z;
  screen_section : option ZeplinSection;
  tags : option (list string)
}.

Record ZeplinColor : Type := {
  color_id : string;
  color_name : option string;
  r : Q;
  g : Q;
  b : Q;
  a : Q
}.

Record ZeplinTextStyle : Type := {
  style_id : string;
  style_name : string;
  font_family : string;
  font_size : Z;
  font_weight : Z
}.

(** Optional chaining into an image: [asset?.thumbnails?.f] and [asset?.f]. *)
Definition thumb (f : Thumbnails -> option string) (asset : option ZeplinAsset)
  : option string :=
  match asset with
  | Some a => match thumbnails a with Some t => f t | None => None end
  | None => None
  end.

Definition field (f : ZeplinAsset -> option string) (asset : option ZeplinAsset)
  : option string :=
  match asset with
  | Some a => f a
  | None => None
  end.

End Zeplin.

(** ** The fragment of ECMAScript regular expressions that the sources build

    [new RegExp(source, 'i')] and [RegExp.prototype.test], for patterns made
    of characters, identity escapes of syntax characters, [.], the [*]
    quantifier and the assertions [^] and [$].  Anything else is outside the
    fragment and [compile] answers [None]. *)

Module RegExp.

Inductive Atom : Type :=
| Char (c : ascii)
| Dot.

Inductive Token : Type :=
| TAtom (a : Atom)
| TStar
| TStart
| TEnd.

Inductive Term : Type :=
| AssertStart
| AssertEnd
| One (a : Atom)
| Star (a : Atom).

Record t : Type := { terms : list Term; ignoreCase : bool }.

Definition isSyntaxCharacter (c : ascii) : bool :=
  existsb (Ascii.eqb c) (list_ascii_of_string "^$\.*+?()[]{}|").

Definition consOpt {A : Type} (x : A) (o : option (list A)) : option (list A) :=
  match o with
  | Some l => Some (x :: l)
  | None => None
  end.

Fixpoint tokenize (s : list ascii) : option (list Token) :=
  match s with
  | [] => Some []
  | c :: rest =>
      if Ascii.eqb c "\" then
        match rest with
        | d :: rest' =>
            if isSyntaxCharacter d then consOpt (TAtom (Char d)) (tokenize rest')
            else None
        | [] => None
        end
      else if Ascii.eqb c "." then consOpt (TAtom Dot) (tokenize rest)
      else if Ascii.eqb c "*" then consOpt TStar (tokenize rest)
      else if Ascii.eqb c "^" then consOpt TStart (tokenize rest)
      else if Ascii.eqb c "$" then consOpt TEnd (tokenize rest)
      else if isSyntaxCharacter c then None
      else consOpt (TAtom (Char c)) (tokenize rest)
  end.

Fixpoint parseTerms (ts : list Token) : option (list Term) :=
  match ts with
  | [] => Some []
  | TAtom a :: rest =>
      match rest with
      | TStar :: rest' => consOpt (Star a) (parseTerms rest')
      | _ => consOpt (One a) (parseTerms rest)
      end
  | TStart :: rest => consOpt AssertStart (parseTerms rest)
  | TEnd :: rest => consOpt AssertEnd (parseTerms rest)
  | TStar :: _ => None
  end.

Definition compile (source : list ascii) (ignoreCase : bool) : option t :=
  match tokenize source with
  | Some ts =>
      match parseTerms ts with
      | Some tms => Some {| terms := tms; ignoreCase := ignoreCase |}
      | None => None
      end
  | None => None
  end.

(** One atom against one code unit of the subject (a code unit below 128:
    the case folding and the line terminators are those of ASCII text). *)
Definition atomMatches (ic : bool) (a : Atom) (c : ascii) : bool :=
  match a with
  | Char p =>
      if ic then Ascii.eqb (Js.Canonicalize p) (Js.Canonicalize c)
      else Ascii.eqb p c
  | Dot => negb (Js.isLineTerminator c)
  end.

(** Can [tms] match a prefix of [s]?  [atStart] tells whether [s] begins at
    index 0 of the subject.  Backtracking over a starred atom is the inner
    recursion on the subject. *)
Fixpoint matchTerms (ic : bool) (tms : list Term) (atStart : bool)
  (s : list ascii) {struct tms} : bool :=
  match tms with
  | [] => true
  | AssertStart :: rest => atStart && matchTerms ic rest atStart s
  | AssertEnd :: rest =>
      match s with
      | [] => matchTerms ic rest atStart s
      | _ :: _ => false
      end
  | One a :: rest =>
      match s with
      | c :: s' => atomMatches ic a c && matchTerms ic rest false s'
      | [] => false
      end
  | Star a :: rest =>
      (fix star (atStart : bool) (s : list ascii) {struct s} : bool :=
         matchTerms ic rest atStart s
         || match s with
            | c :: s' => atomMatches ic a c && star false s'
            | [] => false
            end) atStart s
  end.

(** [test]: a match is looked for at every start index. *)
Fixpoint searchFrom (re : t) (atStart : bool) (s : list ascii) : bool :=
  matchTerms (ignoreCase re) (terms re) atStart s
  || match s with
     | _ :: s' => searchFrom re false s'
     | [] => false
     end.

Definition test (re : t) (s : list ascii) : bool := searchFrom re true s.

End RegExp.

(** ** [rgbaToHex], the same text in both synchronizers *)

Module Color.

Definition hexDigit (d : Z) : ascii :=
  nth (Z.to_nat d) (list_ascii_of_string "0123456789abcdef") "0"%char.

(** Digits of a non-negative integer in base 16, most significant first. *)
Fixpoint hexDigits (fuel : nat) (n : Z) (acc : string) : string :=
  match fuel with
  | O => acc
  | S fuel' =>
      let acc' := String (hexDigit (n mod 16)) acc in
      if (n / 16 =? 0)%Z then acc' else hexDigits fuel' (n / 16) acc'
  end.

(** [Number.prototype.toString(16)] on an integer. *)
Definition toString16 (n : Z) : string :=
  if (n <? 0)%Z then "-" ++ hexDigits (S (Z.to_nat (Z.log2 (- n)))) (- n) ""
  else hexDigits (S (Z.to_nat (Z.log2 n))) n "".

Definition toHex (n : Q) : string :=
  let hex := toString16 (Js.Math_round (Js.mul64 n 255)) in
  if (String.length hex =? 1)%nat then "0" ++ hex else hex.

Definition rgbaToHex (r g b a : Q) : string :=
  let alpha := if Qlt_le_dec a 1 then toHex a else "" in
  "#" ++ toHex r ++ toHex g ++ toHex b ++ alpha.

End Color.

(** ** sync/obsidian-synchronizer.ts *)

Module Obsidian.
Import Zeplin.

Definition nl : string := String (ascii_of_nat 10) "".

(** *** sanitizePath *)

(** The character class of the first [replace]: the double quote (code 34)
    and the eight characters of the string below. *)
Definition isIllegal (c : ascii) : bool :=
  existsb (Ascii.eqb c)
    (ascii_of_nat 34 :: list_ascii_of_string "<>:/\|?*").

(** [.replace(/\s+/g, ' ')]: [inRun] tells that the character before was
    white space, whose run has already been replaced. *)
Fixpoint collapseSpaces (inRun : bool) (s : list ascii) : list ascii :=
  match s with
  | [] => []
  | c :: rest =>
      if Js.isWhiteSpace c then
        if inRun then collapseSpaces true rest
        else " "%char :: collapseSpaces true rest
      else c :: collapseSpaces false rest
  end.

Definition sanitizeChars (name : list ascii) : list ascii :=
  Js.trim (collapseSpaces false (Js.replaceAll isIllegal (fun _ => ["-"%char]) name)).

Definition sanitizePath (name : string) : string :=
  string_of_list_ascii (sanitizeChars (list_ascii_of_string name)).

(** *** Exclusion filter *)

(** The character class of the escaping [replace]. *)
Definition isEscaped (c : ascii) : bool :=
  existsb (Ascii.eqb c) (list_ascii_of_string ".+^${}()|[]\").

(** The source text of the regular expression. *)
Definition globToRegexSource (pattern : list ascii) : list ascii :=
  let regexPattern :=
    Js.replaceAll (Ascii.eqb "?") (fun _ => ["."%char])
      (Js.replaceAll (Ascii.eqb "*") (fun _ => list_ascii_of_string ".*")
         (Js.replaceAll isEscaped (fun c => ["\"%char; c]) pattern)) in
  ("^"%char :: regexPattern ++ ["$"%char])%list.

(** [None] stands for the [SyntaxError] of the [RegExp] constructor (or a
    pattern outside the modelled fragment). *)
Definition globToRegex (pattern : string) : option RegExp.t :=
  RegExp.compile (globToRegexSource (list_ascii_of_string pattern)) true.

(** [Array.prototype.some] over a callback that may throw. *)
Fixpoint some {A : Type} (f : A -> option bool) (l : list A) : option bool :=
  match l with
  | [] => Some false
  | x :: rest =>
      match f x with
      | Some true => Some true
      | Some false => some f rest
      | None => None
      end
  end.

Definition shouldExclude (excludePatterns : list string) (name : string)
  : option bool :=
  if (List.length excludePatterns =? 0)%nat then Some false
  else
    some (fun pattern =>
            match globToRegex pattern with
            | Some regex => Some (RegExp.test regex (list_ascii_of_string name))
            | None => None
            end) excludePatterns.

(** [String.prototype.split('\n')]; [cur] is the piece being read, reversed. *)
Fixpoint splitLines (s : list ascii) (cur : list ascii) : list (list ascii) :=
  match s with
  | [] => [rev cur]
  | c :: rest =>
      if Ascii.eqb c (ascii_of_nat 10) then rev cur :: splitLines rest []
      else splitLines rest (c :: cur)
  end.

(** The constructor's parsing of the [excludePatterns] setting. *)
Definition parseExcludePatterns (setting : string) : list string :=
  map string_of_list_ascii
    (filter (fun p => (0 <? List.length p)%nat)
       (map Js.trim (splitLines (list_ascii_of_string setting) []))).

(** *** extractImageUrl *)

Definition extractImageUrl (item : ItemImages) : option string :=
  if Js.truthy (thumb large (image item)) then thumb large (image item)
  else if Js.truthy (field original_url (image item)) then field original_url (image item)
  else if Js.truthy (thumb medium (image item)) then thumb medium (image item)
  else if Js.truthy (field url (image item)) then field url (image item)
  else None.

(** *** Markdown rendering; [now] is [new Date().toISOString()] *)

Definition buildComponentMarkdown (project : ZeplinProject)
  (component : ZeplinComponent) (now : string) : string :=
  let content := "" in
  let content := content ++ "**Type:** Component" ++ nl in
  let content :=
    match component_section component with
    | Some section => content ++ "**Section:** " ++ Js.show (section_name section) ++ nl
    | None => content
    end in
  let content :=
    content ++ "**Zeplin URL:** [View in Zeplin](https://app.zeplin.io/project/"
      ++ project_id project ++ "/components?coid=" ++ component_id component
      ++ ")" ++ nl ++ nl in
  let content :=
    if Js.truthy (component_description component) then
      content ++ "## Description" ++ nl ++ nl
        ++ Js.show (component_description component) ++ nl ++ nl
    else content in
  let imageUrl := extractImageUrl (component_images component) in
  let content :=
    if Js.truthy imageUrl then
      (content ++ "## Preview" ++ nl ++ nl)
        ++ "![" ++ component_name component ++ "](" ++ Js.show imageUrl ++ ")"
        ++ nl ++ nl
    else content in
  content ++ "---" ++ nl ++ "*Synced from Zeplin on " ++ now ++ "*" ++ nl.

Definition buildScreenMarkdown (project : ZeplinProject)
  (screen : ZeplinScreen) (now : string) : string :=
  let content := "" in
  let content := content ++ "**Type:** Screen" ++ nl in
  let content :=
    match screen_section screen with
    | Some section => content ++ "**Section:** " ++ Js.show (section_name section) ++ nl
    | None => content
    end in
  let content :=
    if Js.nonEmpty (tags screen) then
      content ++ "**Tags:** "
        ++ Js.hashTags (Js.orNil (tags screen)) ++ nl
    else content in
  let content :=
    content ++ "**Zeplin URL:** [View in Zeplin](https://app.zeplin.io/project/"
      ++ project_id project ++ "/screen/" ++ screen_id screen ++ ")" ++ nl ++ nl in
  let content :=
    if Js.truthy (screen_description screen) then
      content ++ "## Description" ++ nl ++ nl
        ++ Js.show (screen_description screen) ++ nl ++ nl
    else content in
  let imageUrl := extractImageUrl (screen_images screen) in
  let content :=
    if Js.truthy imageUrl then
      (content ++ "## Preview" ++ nl ++ nl)
        ++ "![" ++ screen_name screen ++ "](" ++ Js.show imageUrl ++ ")"
        ++ nl ++ nl
    else content in
  content ++ "---" ++ nl ++ "*Synced from Zeplin on " ++ now ++ "*" ++ nl.

End Obsidian.

(** ** zeplin/client.ts *)

Module Client.
Import Zeplin.

(** A JS [Error] object, identified by its message. *)
Inductive Error : Type := mkError (message : string).

(** [error.response]: the HTTP status and [data?.message]. *)
Record Response : Type := { http_status : Z; data_message : option string }.

(** The parts of an [AxiosError] that [handleError] reads; [request] tells
    whether [error.request] is set. *)
Record AxiosError : Type := {
  response : option Response;
  request : bool;
  axios_message : string
}.

Definition handleError (error : AxiosError) : Error :=
  match response error with
  | Some resp =>
      let status := http_status resp in
      let message := Js.or_else (data_message resp) (axios_message error) in
      if (status =? 401)%Z then
        mkError "Invalid Zeplin API token. Please check your settings."
      else if (status =? 403)%Z then
        mkError "Access forbidden. Check your project permissions."
      else if (status =? 404)%Z then
        mkError "Resource not found."
      else if (status =? 429)%Z then
        mkError "Rate limit exceeded. Please try again later."
      else mkError ("Zeplin API error: " ++ message)
  | None =>
      if request error then
        mkError "Unable to reach Zeplin API. Check your internet connection."
      else mkError ("Request failed: " ++ axios_message error)
  end.

(** What the Zeplin REST API answers to each [GET], before the response
    interceptor runs. *)
Record Remote : Type := {
  GET_projects : AxiosError + list ZeplinProject;
  GET_project : string -> AxiosError + ZeplinProject;
  GET_components : string -> AxiosError + list ZeplinComponent;
  GET_component : string -> string -> AxiosError + ZeplinComponent;
  GET_screens : string -> AxiosError + list ZeplinScreen;
  GET_screen : string -> string -> AxiosError + ZeplinScreen;
  GET_colors : string -> AxiosError + list ZeplinColor;
  GET_text_styles : string -> AxiosError + list ZeplinTextStyle;
  GET_screen_sections : string -> AxiosError + list ZeplinSection
}.

(** [this.client.get] with the response interceptor installed by the
    constructor: a failed request rejects with what [handleError] throws. *)
Definition get {A : Type} (answer : AxiosError + A) : Error + A :=
  match answer with
  | inl error => inl (handleError error)
  | inr data => inr data
  end.

(** [try { ... } catch (error) { ... }] around a promise. *)
Definition tryCatch {A : Type} (body : Error + A) (handler : Error -> Error + A)
  : Error + A :=
  match body with
  | inl error => handler error
  | inr v => inr v
  end.

Definition getProjects (api : Remote) : Error + list ZeplinProject :=
  tryCatch (get (GET_projects api)) (fun error => inl error).

Definition getProject (api : Remote) (projectId : string) : Error + ZeplinProject :=
  tryCatch (get (GET_project api projectId)) (fun error => inl error).

Definition getComponents (api : Remote) (projectId : string)
  : Error + list ZeplinComponent :=
  tryCatch (get (GET_components api projectId)) (fun error => inl error).

Definition getComponent (api : Remote) (projectId componentId : string)
  : Error + ZeplinComponent :=
  tryCatch (get (GET_component api projectId componentId)) (fun error => inl error).

Definition getScreens (api : Remote) (projectId : string)
  : Error + list ZeplinScreen :=
  tryCatch (get (GET_screens api projectId)) (fun error => inl error).

Definition getScreen (api : Remote) (projectId screenId : string)
  : Error + ZeplinScreen :=
  tryCatch (get (GET_screen api projectId screenId)) (fun error => inl error).

Definition getColors (api : Remote) (projectId : string)
  : Error + list ZeplinColor :=
  tryCatch (get (GET_colors api projectId)) (fun error => inl error).

Definition getTextStyles (api : Remote) (projectId : string)
  : Error + list ZeplinTextStyle :=
  tryCatch (get (GET_text_styles api projectId)) (fun error => inl error).

Definition getSections (api : Remote) (projectId : string)
  : Error + list ZeplinSection :=
  tryCatch (get (GET_screen_sections api projectId)) (fun error => inl error).

Definition testConnection (api : Remote) : Error + bool :=
  tryCatch
    (match getProjects api with
     | inl error => inl error
     | inr _ => inr true
     end)
    (fun _ => inr false).

End Client.

(** ** The Logseq adapter *)

Module Logseq.
Import Zeplin.
Export Client.

(** *** types/logseq.ts *)

Inductive PropVal : Type :=
| PStr (s : string)
| PNum (n : Z).

#[local] Set Warnings "-register-all".
Inductive BlockCreateInput : Type :=
| mkInput (content : string) (properties : option (gmap string PropVal))
    (children : list BlockCreateInput).

Inductive ImageStorage : Type := inline | assets.

Record PluginConfig : Type := {
  defaultNamespace : string;
  imageStorage : ImageStorage
}.

(** *** The host graph behind [logseq.Editor] and [logseq.DB]

    Pages and blocks with their property maps.  A block hangs under a parent
    block or, at the top of a page, under the page (by uuid).  The numbers
    stand for the host's uuid strings, which are never empty and hence
    truthy; they are handed out from a counter.  Both lists are in creation
    order. *)

Record BlockEntity : Type := {
  uuid : nat;
  parent : nat;
  content : string;
  properties : gmap string PropVal
}.

Record PageEntity : Type := {
  page_name : string;
  page_uuid : nat;
  page_properties : gmap string PropVal
}.

Record Graph : Type := {
  pages : list PageEntity;
  blocks : list BlockEntity;
  fresh : nat
}.

Definition emptyGraph : Graph := {| pages := []; blocks := []; fresh := 1 |}.

(** What a run of the plug-in depends on besides the graph. *)
Record Fetched : Type := { data : list ascii; contentType : option string }.

Record Env : Type := {
  api : Remote;
  (** [axios.get(url, { responseType: 'arraybuffer' })]; [None] is a network
      error or a timeout. *)
  fetch : string -> option Fetched;
  (** [Date.now()] *)
  now : Z;
  config : PluginConfig
}.

(** Promises over the graph: a computation changes the graph and resolves
    or rejects. *)
Definition M (A : Type) : Type := Graph -> (Error + A) * Graph.

Definition ret {A : Type} (v : A) : M A := fun g => (inr v, g).

Definition throw {A : Type} (error : Error) : M A := fun g => (inl error, g).

Definition bind {A B : Type} (m : M A) (k : A -> M B) : M B :=
  fun g =>
    match m g with
    | (inr v, g') => k v g'
    | (inl error, g') => (inl error, g')
    end.

Definition catch {A : Type} (body : M A) (handler : Error -> M A) : M A :=
  fun g =>
    match body g with
    | (inr v, g') => (inr v, g')
    | (inl error, g') => handler error g'
    end.

(** A call of the Zeplin client, which does not touch the graph. *)
Definition call {A : Type} (answer : Error + A) : M A := fun g => (answer, g).

Notation "'await' x <- m ; k" := (bind m (fun x => k))
  (at level 10, x name, m at level 100, k at level 200).
Notation "'await_' m ; k" := (bind m (fun _ => k))
  (at level 10, m at level 100, k at level 200).

Fixpoint forEach {A : Type} (f : A -> M unit) (l : list A) : M unit :=
  match l with
  | [] => ret tt
  | x :: rest => await_ f x ; forEach f rest
  end.

Definition orEmpty (o : option (gmap string PropVal)) : gmap string PropVal :=
  match o with
  | Some m => m
  | None => ∅
  end.

Definition Editor_getPage (pageName : string) (g : Graph) : option PageEntity :=
  List.find (fun p => String.eqb (page_name p) pageName) (pages g).

(** [createPage(name, properties, { createFirstBlock: true })].  The editor
    of the model creates the page and answers it; that the host may answer
    [null] instead is not modelled. *)
Definition Editor_createPage (pageName : string)
  (props : option (gmap string PropVal)) : M (option PageEntity) :=
  fun g =>
    let page := {| page_name := pageName; page_uuid := fresh g;
                   page_properties := orEmpty props |} in
    let first := {| uuid := S (fresh g); parent := fresh g; content := "";
                    properties := ∅ |} in
    (inr (Some page),
     {| pages := (pages g ++ [page])%list; blocks := (blocks g ++ [first])%list;
        fresh := S (S (fresh g)) |}).

Definition Editor_getBlock (blockUuid : nat) (g : Graph) : option BlockEntity :=
  List.find (fun b => (uuid b =? blockUuid)%nat) (blocks g).

Definition Editor_getPageBlocksTree (pageName : string) (g : Graph)
  : list BlockEntity :=
  match Editor_getPage pageName g with
  | Some page => filter (fun b => (parent b =? page_uuid page)%nat) (blocks g)
  | None => []
  end.

Definition Editor_appendBlockInPage (pageName : string) (text : string)
  : M (option BlockEntity) :=
  fun g =>
    match Editor_getPage pageName g with
    | Some page =>
        let block := {| uuid := fresh g; parent := page_uuid page;
                        content := text; properties := ∅ |} in
        (inr (Some block),
         {| pages := pages g; blocks := (blocks g ++ [block])%list;
            fresh := S (fresh g) |})
    | None => (inr None, g)
    end.

(** [insertBlock(parent, content, { sibling: false, properties })]: [null]
    when the parent block does not exist. *)
Definition Editor_insertBlock (parentBlockUuid : nat) (text : string)
  (props : option (gmap string PropVal)) : M (option BlockEntity) :=
  fun g =>
    match Editor_getBlock parentBlockUuid g with
    | Some _ =>
        let block := {| uuid := fresh g; parent := parentBlockUuid;
                        content := text; properties := orEmpty props |} in
        (inr (Some block),
         {| pages := pages g; blocks := (blocks g ++ [block])%list;
            fresh := S (fresh g) |})
    | None => (inr None, g)
    end.

Definition setContent (blockUuid : nat) (text : string) (b : BlockEntity)
  : BlockEntity :=
  if (uuid b =? blockUuid)%nat then
    {| uuid := uuid b; parent := parent b; content := text;
       properties := properties b |}
  else b.

(** [updateBlock(uuid, content)] rejects when the block does not exist. *)
Definition Editor_updateBlock (blockUuid : nat) (text : string) : M unit :=
  fun g =>
    match Editor_getBlock blockUuid g with
    | Some _ =>
        (inr tt,
         {| pages := pages g; blocks := map (setContent blockUuid text) (blocks g);
            fresh := fresh g |})
    | None => (inl (mkError "Block not found"), g)
    end.

Definition setBlockProperty (blockUuid : nat) (key : string) (value : PropVal)
  (b : BlockEntity) : BlockEntity :=
  if (uuid b =? blockUuid)%nat then
    {| uuid := uuid b; parent := parent b; content := content b;
       properties := <[key := value]> (properties b) |}
  else b.

Definition setPageProperty (pageUuid : nat) (key : string) (value : PropVal)
  (p : PageEntity) : PageEntity :=
  if (page_uuid p =? pageUuid)%nat then
    {| page_name := page_name p; page_uuid := page_uuid p;
       page_properties := <[key := value]> (page_properties p) |}
  else p.

(** [upsertBlockProperty(uuid, key, value)] on a block or on a page. *)
Definition Editor_upsertBlockProperty (entityUuid : nat) (key : string)
  (value : PropVal) : M unit :=
  fun g =>
    (inr tt,
     {| pages := map (setPageProperty entityUuid key value) (pages g);
        blocks := map (setBlockProperty entityUuid key value) (blocks g);
        fresh := fresh g |}).

Definition hasZeplinId (zeplinId : string) (b : BlockEntity) : bool :=
  match properties b !! "zeplin-id" with
  | Some (PStr zid) => String.eqb zid zeplinId
  | _ => false
  end.

(** The Datalog query of [findBlockByZeplinId]: the blocks whose
    [zeplin-id] property equals the given string. *)
Definition DB_q_zeplin_id (zeplinId : string) (g : Graph) : list BlockEntity :=
  filter (hasZeplinId zeplinId) (blocks g).

(** *** logseq/pages.ts *)

(** The loop over [Object.entries(properties)]. *)
Definition upsertAll (entityUuid : nat) (props : gmap string PropVal) : M unit :=
  forEach (fun kv => Editor_upsertBlockProperty entityUuid (fst kv) (snd kv))
    (map_to_list props).

Definition ensurePage (pageName : string) (props : option (gmap string PropVal))
  : M nat :=
  catch
    (fun g =>
       match Editor_getPage pageName g with
       | None =>
           (await page <- Editor_createPage pageName props ;
            match page with
            | None => throw (mkError ("Failed to create page: " ++ pageName))
            | Some page => ret (page_uuid page)
            end) g
       | Some page =>
           (await_ match props with
                   | Some props => upsertAll (page_uuid page) props
                   | None => ret tt
                   end ;
            ret (page_uuid page)) g
       end)
    (fun error => throw error).

Definition getPageFirstBlockUuid (pageName : string) : M (option nat) :=
  catch
    (fun g =>
       match Editor_getPage pageName g with
       | None => ret None g
       | Some _ =>
           match Editor_getPageBlocksTree pageName g with
           | [] =>
               (await block <- Editor_appendBlockInPage pageName "" ;
                ret (option_map uuid block)) g
           | first :: _ => ret (Some (uuid first)) g
           end
       end)
    (fun _ => ret None).

Definition pageExists (pageName : string) : M bool :=
  catch
    (fun g =>
       match Editor_getPage pageName g with
       | Some _ => ret true g
       | None => ret false g
       end)
    (fun _ => ret false).

Definition ensureNamespacedPage (namespace pageName : string)
  (props : option (gmap string PropVal)) : M nat :=
  let fullPageName := namespace ++ "/" ++ pageName in
  await_ ensurePage namespace None ;
  ensurePage fullPageName props.

(** The loop of [ensureNamespace]; [first] tells that [i === 0].  The
    result starts as the empty string, which is [None] here. *)
Fixpoint ensureNamespaceFrom (first : bool) (currentPath : string)
  (lastUuid : option nat) (parts : list string) : M (option nat) :=
  match parts with
  | [] => ret lastUuid
  | part :: rest =>
      let currentPath := if first then part else currentPath ++ "/" ++ part in
      await lastUuid <- ensurePage currentPath None ;
      ensureNamespaceFrom false currentPath (Some lastUuid) rest
  end.

Definition ensureNamespace (parts : list string) : M (option nat) :=
  ensureNamespaceFrom true "" None parts.

Inductive PageKind : Type := Components | Screens | Colors | TextStyles.

Definition showPageKind (k : PageKind) : string :=
  match k with
  | Components => "Components"
  | Screens => "Screens"
  | Colors => "Colors"
  | TextStyles => "TextStyles"
  end.

(** [name.replace(/\//g, '-')] *)
Definition sanitized (name : string) : string :=
  string_of_list_ascii
    (Js.replaceAll (Ascii.eqb "/") (fun _ => ["-"%char]) (list_ascii_of_string name)).

Definition buildZeplinPageName (namespace projectName : string)
  (itemType : PageKind) (itemName : option string) : string :=
  if Js.truthy itemName then
    namespace ++ "/" ++ sanitized projectName ++ "/" ++ showPageKind itemType
      ++ "/" ++ sanitized (Js.show itemName)
  else namespace ++ "/" ++ sanitized projectName ++ "/" ++ showPageKind itemType.

(** *** logseq/blocks.ts *)

(** [createBlock] on a node and its subtree.  The host calls of the model
    never reject, so the [catch] branch (log and answer [null]) is not
    taken. *)
Fixpoint createNode (node : BlockCreateInput) (parentBlockUuid : nat)
  (g : Graph) {struct node} : (Error + option nat) * Graph :=
  match node with
  | mkInput text props children =>
      match Editor_insertBlock parentBlockUuid text props g with
      | (inr (Some block), g1) =>
          let g2 :=
            (fix each (l : list BlockCreateInput) (g : Graph) {struct l} : Graph :=
               match l with
               | [] => g
               | child :: rest => each rest (snd (createNode child (uuid block) g))
               end) children g1 in
          (inr (Some (uuid block)), g2)
      | (inr None, g1) => (inr None, g1)
      | (inl _, g1) => (inr None, g1)
      end
  end.

Definition createBlock (parentBlockUuid : nat) (text : string)
  (props : option (gmap string PropVal)) (children : list BlockCreateInput)
  : M (option nat) :=
  createNode (mkInput text props children) parentBlockUuid.

Definition updateBlock (blockUuid : nat) (text : string) : M bool :=
  catch (await_ Editor_updateBlock blockUuid text ; ret true)
        (fun _ => ret false).

Definition findBlockByZeplinId (zeplinId : string) : M (option nat) :=
  catch
    (fun g =>
       match DB_q_zeplin_id zeplinId g with
       | block :: _ => ret (Some (uuid block)) g
       | [] => ret None g
       end)
    (fun _ => ret None).

Definition upsertBlock (env : Env) (parentBlockUuid : nat) (text : string)
  (zeplinId : string) (props : option (gmap string PropVal))
  (children : list BlockCreateInput) : M (option nat) :=
  await existingBlockUuid <- findBlockByZeplinId zeplinId ;
  match existingBlockUuid with
  | Some existingBlockUuid =>
      await_ updateBlock existingBlockUuid text ;
      await_ match props with
             | Some _ =>
                 fun g =>
                   match Editor_getBlock existingBlockUuid g with
                   | Some _ =>
                       Editor_upsertBlockProperty existingBlockUuid
                         "zeplin-updated" (PNum (now env)) g
                   | None => ret tt g
                   end
             | None => ret tt
             end ;
      ret (Some existingBlockUuid)
  | None =>
      let fullProperties :=
        <["zeplin-synced" := PNum (now env)]>
          (<["zeplin-id" := PStr zeplinId]> (orEmpty props)) in
      createBlock parentBlockUuid text (Some fullProperties) children
  end.

Definition createBlockTree (parentBlockUuid : nat) (tree : list BlockCreateInput)
  : M unit :=
  forEach
    (fun node =>
       match node with
       | mkInput text props children =>
           await_ createBlock parentBlockUuid text props children ; ret tt
       end) tree.

(** *** logseq/assets.ts *)

Definition base64Alphabet : list ascii :=
  list_ascii_of_string
    "ABCDEFGHIJKLMNOPQRSTUVWXYZabcdefghijklmnopqrstuvwxyz0123456789+/".

Definition base64Char (n : N) : ascii := nth (N.to_nat n) base64Alphabet "="%char.

(** [Buffer.from(bytes).toString('base64')] *)
Fixpoint base64 (bytes : list ascii) : list ascii :=
  match bytes with
  | [] => []
  | [x] =>
      let n := N_of_ascii x in
      [base64Char (n / 4); base64Char ((n mod 4) * 16); "="%char; "="%char]
  | [x; y] =>
      let n := (N_of_ascii x * 256 + N_of_ascii y)%N in
      [base64Char (n / 1024); base64Char ((n / 16) mod 64);
       base64Char ((n mod 16) * 4); "="%char]
  | x :: y :: z :: rest =>
      let n := (N_of_ascii x * 65536 + N_of_ascii y * 256 + N_of_ascii z)%N in
      base64Char (n / 262144) :: base64Char ((n / 4096) mod 64)
      :: base64Char ((n / 64) mod 64) :: base64Char (n mod 64) :: base64 rest
  end%N.

(** [downloadImage(url, filename)]; the file name only reaches the log.
    Both branches on [assetsPath] return the data URL. *)
Definition downloadImage (env : Env) (imageUrl : string) : Error + option string :=
  tryCatch
    (match fetch env imageUrl with
     | Some response =>
         let base64 := string_of_list_ascii (base64 (data response)) in
         let mimeType := Js.or_else (contentType response) "image/png" in
         let dataUrl := "data:" ++ mimeType ++ ";base64," ++ base64 in
         inr (Some dataUrl)
     | None => inl (mkError "Network Error")
     end)
    (fun _ => inr None).

Definition createImageMarkdown (imagePath altText : string) : string :=
  if String.prefix "data:" imagePath then
    "![" ++ altText ++ "](" ++ imagePath ++ ")"
  else "![" ++ altText ++ "](../assets/" ++ imagePath ++ ")".

(** The complement of the class of the first [replace] of
    [sanitizeFilename]: lower-case letters and digits. *)
Definition isSlugChar (c : ascii) : bool :=
  let n := nat_of_ascii c in
  ((97 <=? n) && (n <=? 122))%nat || ((48 <=? n) && (n <=? 57))%nat.

(** [.replace(/[^a-z0-9]+/g, '-')]; [inRun] tells that the character before
    was outside the class, its run being replaced already. *)
Fixpoint hyphenate (inRun : bool) (s : list ascii) : list ascii :=
  match s with
  | [] => []
  | c :: rest =>
      if isSlugChar c then c :: hyphenate false rest
      else if inRun then hyphenate true rest
      else "-"%char :: hyphenate true rest
  end.

Fixpoint stripLeadingHyphens (s : list ascii) : list ascii :=
  match s with
  | [] => []
  | c :: rest => if Ascii.eqb c "-" then stripLeadingHyphens rest else s
  end.

Fixpoint stripTrailingHyphens (s : list ascii) : list ascii :=
  match s with
  | [] => []
  | c :: rest =>
      match stripTrailingHyphens rest with
      | [] => if Ascii.eqb c "-" then [] else [c]
      | rest' => c :: rest'
      end
  end.

(** The second [replace], with the anchored alternatives for the two ends. *)
Definition sanitizeFilenameChars (name : list ascii) : list ascii :=
  stripTrailingHyphens
    (stripLeadingHyphens (hyphenate false (map Js.toLowerCase name))).

Definition sanitizeFilename (name : string) : string :=
  string_of_list_ascii (sanitizeFilenameChars (list_ascii_of_string name)).

(** The alternatives of the capture group, in the order of the pattern. *)
Definition imageExtensions : list (list ascii) :=
  map list_ascii_of_string ["png"; "jpg"; "jpeg"; "gif"; "svg"; "webp"].

(** Does [s] begin with [alternative], letter case aside?  Answers the
    text that was matched and what follows it. *)
Fixpoint matchAlternative (alternative s : list ascii)
  : option (list ascii * list ascii) :=
  match alternative with
  | [] => Some ([], s)
  | a :: alternative' =>
      match s with
      | c :: s' =>
          if Ascii.eqb (Js.Canonicalize a) (Js.Canonicalize c) then
            match matchAlternative alternative' s' with
            | Some (matched, rest) => Some (c :: matched, rest)
            | None => None
            end
          else None
      | [] => None
      end
  end.

(** The part [(png|...|webp)(\?|$)] of the pattern, tried right after a dot:
    the first alternative that is followed by a question mark or by the end
    of the text. *)
Fixpoint matchExtension (alternatives : list (list ascii)) (s : list ascii)
  : option (list ascii) :=
  match alternatives with
  | [] => None
  | alternative :: others =>
      match matchAlternative alternative s with
      | Some (matched, []) => Some matched
      | Some (matched, c :: _) =>
          if Ascii.eqb c "?" then Some matched else matchExtension others s
      | None => matchExtension others s
      end
  end.

(** [url.match(/\.(png|jpg|jpeg|gif|svg|webp)(\?|$)/i)]: the capture of the
    leftmost match. *)
Fixpoint matchImageExtension (url : list ascii) : option (list ascii) :=
  match url with
  | [] => None
  | c :: rest =>
      if Ascii.eqb c "." then
        match matchExtension imageExtensions rest with
        | Some matched => Some matched
        | None => matchImageExtension rest
        end
      else matchImageExtension rest
  end.

Definition getImageExtension (imageUrl : string) : string :=
  Js.or_else
    (option_map string_of_list_ascii
       (matchImageExtension (list_ascii_of_string imageUrl)))
    "png".

Inductive ItemType : Type := component | screen.

Definition showItemType (t : ItemType) : string :=
  match t with
  | component => "component"
  | screen => "screen"
  end.

Definition buildImageFilename (env : Env) (projectName : string)
  (itemType : ItemType) (itemName imageUrl : string) : string :=
  let sanitizedProject := sanitizeFilename projectName in
  let sanitizedItem := sanitizeFilename itemName in
  let ext := getImageExtension imageUrl in
  let timestamp := now env in
  "zeplin-" ++ sanitizedProject ++ "-" ++ showItemType itemType ++ "-"
    ++ sanitizedItem ++ "-" ++ Js.show_Z timestamp ++ "." ++ ext.

(** *** sync/synchronizer.ts *)

Definition firstImage (item : ItemImages) : option ZeplinAsset :=
  match images item with
  | Some (first :: _) => Some first
  | _ => None
  end.

Definition latestImage (item : ItemImages) : option ZeplinAsset :=
  match latest_version item with
  | Some v => version_image v
  | None => None
  end.

Definition extractImageUrl (item : ItemImages) : option string :=
  if Js.truthy (thumb large (image item)) then thumb large (image item)
  else if Js.truthy (field original_url (image item)) then field original_url (image item)
  else if Js.truthy (thumb medium (image item)) then thumb medium (image item)
  else if Js.truthy (field url (image item)) then field url (image item)
  else if Js.truthy (thumb large (latestImage item)) then thumb large (latestImage item)
  else if Js.truthy (field original_url (latestImage item)) then
    field original_url (latestImage item)
  else if Js.truthy (field url (latestImage item)) then field url (latestImage item)
  else if Js.nonEmpty (images item) then
    if Js.truthy (thumb large (firstImage item)) then thumb large (firstImage item)
    else if Js.truthy (field original_url (firstImage item)) then
      field original_url (firstImage item)
    else if Js.truthy (field url (firstImage item)) then field url (firstImage item)
    else None
  else None.

(** The file name that [buildImageFilename] computes first is passed to
    [downloadImage], which only logs it. *)
Definition downloadAndFormatImage (env : Env) (imageUrl itemName : string)
  : Error + option string :=
  tryCatch
    (match imageStorage (config env) with
     | inline =>
         match downloadImage env imageUrl with
         | inl error => inl error
         | inr dataUrl =>
             if Js.truthy dataUrl then
               inr (Some (createImageMarkdown (Js.show dataUrl) itemName))
             else inr None
         end
     | assets => inr (Some ("![" ++ itemName ++ "](" ++ imageUrl ++ ")"))
     end)
    (fun _ => inr (Some ("![" ++ itemName ++ "](" ++ imageUrl ++ ")"))).

Definition buildComponentContent (component : ZeplinComponent) : string :=
  let section :=
    match component_section component with
    | Some s => " (" ++ Js.show (section_name s) ++ ")"
    | None => ""
    end in
  "**" ++ component_name component ++ "**" ++ section.

Definition leaf (text : string) : BlockCreateInput := mkInput text (Some ∅) [].

(** The child pushed for the image, if any. *)
Definition imageChild (env : Env) (imageUrl : option string) (itemName : string)
  : M (list BlockCreateInput) :=
  if Js.truthy imageUrl then
    await imageContent <- call (downloadAndFormatImage env (Js.show imageUrl) itemName) ;
    if Js.truthy imageContent then ret [leaf (Js.show imageContent)] else ret []
  else ret [].

Definition syncComponent (env : Env) (project : ZeplinProject)
  (component : ZeplinComponent) (parentBlockUuid : nat) : M unit :=
  await fullComponent <-
    call (getComponent (api env) (project_id project) (component_id component)) ;
  let text := buildComponentContent fullComponent in
  let props : gmap string PropVal :=
    <["zeplin-url" := PStr ("https://app.zeplin.io/project/" ++ project_id project
                              ++ "/components?coid=" ++ component_id fullComponent)]>
      (<["zeplin-updated" := PNum (component_updated fullComponent)]>
         (<["zeplin-type" := PStr "component"]>
            (<["zeplin-id" := PStr (component_id fullComponent)]> ∅))) in
  let children :=
    if Js.truthy (component_description fullComponent) then
      [leaf (Js.show (component_description fullComponent))]
    else [] in
  await image <-
    imageChild env (extractImageUrl (component_images fullComponent))
      (component_name fullComponent) ;
  let children := (children ++ image)%list in
  await_ upsertBlock env parentBlockUuid text (component_id component)
           (Some props) children ;
  ret tt.

Definition syncComponents (env : Env) (project : ZeplinProject) : M unit :=
  await components <- call (getComponents (api env) (project_id project)) ;
  let componentsPageName :=
    defaultNamespace (config env) ++ "/" ++ project_name project ++ "/Components" in
  await pageUuid <- getPageFirstBlockUuid componentsPageName ;
  match pageUuid with
  | None => throw (mkError "Failed to get components page first block")
  | Some pageUuid =>
      forEach (fun component => syncComponent env project component pageUuid)
        components
  end.

(** The children that [syncScreenAsPage] pushes before the image, in the
    order of the pushes. *)
Definition screenChildren (link : string) (fullScreen : ZeplinScreen)
  : list BlockCreateInput :=
  let children :=
    [leaf ("**Zeplin URL:** [View in Zeplin](" ++ link ++ ")")] in
  let children :=
    if Js.truthy (screen_description fullScreen) then
      (children ++ [leaf ("**Description:** "
                            ++ Js.show (screen_description fullScreen))%string])%list
    else children in
  let children :=
    if Js.nonEmpty (tags fullScreen) then
      (children ++ [leaf ("**Tags:** "
                            ++ Js.hashTags (Js.orNil (tags fullScreen)))%string])%list
    else children in
  let children :=
    match screen_section fullScreen with
    | Some s =>
        (children ++ [leaf ("**Section:** " ++ Js.show (section_name s))%string])%list
    | None => children
    end in
  children.

Definition syncScreenAsPage (env : Env) (project : ZeplinProject)
  (screen : ZeplinScreen) (indexPageUuid : nat) : M unit :=
  await fullScreen <-
    call (getScreen (api env) (project_id project) (screen_id screen)) ;
  let screenPageName :=
    defaultNamespace (config env) ++ "/" ++ project_name project ++ "/Screens/"
      ++ screen_name fullScreen in
  let link :=
    "https://app.zeplin.io/project/" ++ project_id project ++ "/screen/"
      ++ screen_id fullScreen in
  await_ ensurePage screenPageName
           (Some (<["zeplin-url" := PStr link]>
                    (<["zeplin-updated" := PNum (screen_updated fullScreen)]>
                       (<["zeplin-type" := PStr "screen"]>
                          (<["zeplin-id" := PStr (screen_id fullScreen)]> ∅))))) ;
  await screenPageBlockUuid <- getPageFirstBlockUuid screenPageName ;
  match screenPageBlockUuid with
  | None =>
      throw (mkError ("Failed to get first block for screen page: " ++ screenPageName))
  | Some screenPageBlockUuid =>
      await_ createBlock indexPageUuid ("[[" ++ screenPageName ++ "]]")
               (Some (<["zeplin-type" := PStr "screen"]>
                        (<["zeplin-id" := PStr (screen_id fullScreen)]> ∅))) [] ;
      let children := screenChildren link fullScreen in
      await image <-
        imageChild env (extractImageUrl (screen_images fullScreen))
          (screen_name fullScreen) ;
      let children := (children ++ image)%list in
      createBlockTree screenPageBlockUuid children
  end.

Definition syncScreens (env : Env) (project : ZeplinProject) : M unit :=
  await screens <- call (getScreens (api env) (project_id project)) ;
  let screensIndexPageName :=
    defaultNamespace (config env) ++ "/" ++ project_name project ++ "/Screens" in
  await_ ensurePage screensIndexPageName None ;
  await indexPageUuid <- getPageFirstBlockUuid screensIndexPageName ;
  match indexPageUuid with
  | None => throw (mkError "Failed to get screens index page first block")
  | Some indexPageUuid =>
      forEach (fun screen => syncScreenAsPage env project screen indexPageUuid)
        screens
  end.

Definition syncDesignTokens (env : Env) (project : ZeplinProject) : M unit :=
  let tokensPageName :=
    defaultNamespace (config env) ++ "/" ++ project_name project ++ "/Design Tokens" in
  await pageUuid <- getPageFirstBlockUuid tokensPageName ;
  match pageUuid with
  | None => throw (mkError "Failed to get design tokens page first block")
  | Some pageUuid =>
      await_ (if (0 <? number_of_colors project)%nat then
                await colors <- call (getColors (api env) (project_id project)) ;
                await_ createBlock pageUuid
                         ("## Colors (" ++ Js.show_nat (List.length colors) ++ ")")
                         None [] ;
                forEach
                  (fun color =>
                     let colorName := Js.or_else (color_name color) "Unnamed" in
                     let hexColor :=
                       Color.rgbaToHex (r color) (g color) (b color) (a color) in
                     await_ createBlock pageUuid (colorName ++ ": `" ++ hexColor ++ "`")
                              (Some (<["zeplin-type" := PStr "color"]>
                                       (<["zeplin-id" := PStr (color_id color)]> ∅)))
                              [] ;
                     ret tt) colors
              else ret tt) ;
      if (0 <? number_of_text_styles project)%nat then
        await textStyles <- call (getTextStyles (api env) (project_id project)) ;
        await_ createBlock pageUuid
                 ("## Text Styles (" ++ Js.show_nat (List.length textStyles) ++ ")")
                 None [] ;
        forEach
          (fun style =>
             let styleInfo :=
               style_name style ++ ": " ++ font_family style ++ " "
                 ++ Js.show_Z (font_size style) ++ "px / "
                 ++ Js.show_Z (font_weight style) in
             await_ createBlock pageUuid styleInfo
                      (Some (<["zeplin-type" := PStr "text-style"]>
                               (<["zeplin-id" := PStr (style_id style)]> ∅)))
                      [] ;
             ret tt) textStyles
      else ret tt
  end.

Definition createProjectStructure (env : Env) (project : ZeplinProject) : M unit :=
  let namespace := defaultNamespace (config env) in
  let projectPageName := namespace ++ "/" ++ project_name project in
  await_ ensurePage projectPageName
           (Some (<["zeplin-synced" := PNum (now env)]>
                    (<["zeplin-platform" := PStr (platform project)]>
                       (<["zeplin-type" := PStr "project"]>
                          (<["zeplin-id" := PStr (project_id project)]> ∅))))) ;
  await_ ensurePage (projectPageName ++ "/Components") None ;
  await_ ensurePage (projectPageName ++ "/Screens") None ;
  await_ ensurePage (projectPageName ++ "/Design Tokens") None ;
  ret tt.

Definition syncProject (env : Env) (projectId : string) : M unit :=
  catch
    (await project <- call (getProject (api env) projectId) ;
     await_ createProjectStructure env project ;
     await_ (if (0 <? number_of_components project)%nat then syncComponents env project
             else ret tt) ;
     await_ (if (0 <? number_of_screens project)%nat then syncScreens env project
             else ret tt) ;
     await_ syncDesignTokens env project ;
     ret tt)
    (fun error => throw error).

End Logseq.

(** ** sync/obsidian-synchronizer.ts: the parts that write to the vault *)

Module ObsidianSync.
Import Zeplin.
Export Client.

(** The settings that the synchronizer reads ([imageStorage] and
    [templateFormat] are declared and never read). *)
Record ObsidianSettings : Type := {
  defaultFolder : string;
  excludePatterns : string;
  createProjectFolder : bool;
  organizeBySections : bool
}.

(** *** The vault behind [app.vault]

    The folders and the files with their contents, by path.  [createFolder]
    and [create] reject when something is already at the path. *)

Record Vault : Type := {
  folders : gset string;
  files : gmap string string
}.

Definition emptyVault : Vault := {| folders := ∅; files := ∅ |}.

Inductive TAbstractFile : Type := TFile | TFolder.

Definition getAbstractFileByPath (path : string) (v : Vault) : option TAbstractFile :=
  match files v !! path with
  | Some _ => Some TFile
  | None => if decide (path ∈ folders v) then Some TFolder else None
  end.

Record Env : Type := {
  api : Remote;
  (** [new Date().toISOString()] *)
  nowISO : string;
  settings : ObsidianSettings
}.

(** Promises over the vault. *)
Definition V (A : Type) : Type := Vault -> (Error + A) * Vault.

Definition ret {A : Type} (x : A) : V A := fun v => (inr x, v).

Definition throw {A : Type} (error : Error) : V A := fun v => (inl error, v).

Definition bind {A B : Type} (m : V A) (k : A -> V B) : V B :=
  fun v =>
    match m v with
    | (inr x, v') => k x v'
    | (inl error, v') => (inl error, v')
    end.

Definition catch {A : Type} (body : V A) (handler : Error -> V A) : V A :=
  fun v =>
    match body v with
    | (inr x, v') => (inr x, v')
    | (inl error, v') => handler error v'
    end.

Definition call {A : Type} (answer : Error + A) : V A := fun v => (answer, v).

Notation "'await' x <- m ; k" := (bind m (fun x => k))
  (at level 10, x name, m at level 100, k at level 200).
Notation "'await_' m ; k" := (bind m (fun _ => k))
  (at level 10, m at level 100, k at level 200).

Definition vault_createFolder (path : string) : V unit :=
  fun v =>
    match getAbstractFileByPath path v with
    | Some _ => (inl (mkError "Folder already exists."), v)
    | None => (inr tt, {| folders := {[path]} ∪ folders v; files := files v |})
    end.

Definition vault_create (path content : string) : V unit :=
  fun v =>
    match getAbstractFileByPath path v with
    | Some _ => (inl (mkError "File already exists."), v)
    | None => (inr tt, {| folders := folders v; files := <[path := content]> (files v) |})
    end.

Definition vault_modify (path content : string) : V unit :=
  fun v => (inr tt, {| folders := folders v; files := <[path := content]> (files v) |}).

(** *** The synchronizer *)

Definition ensureFolder (path : string) : V unit :=
  fun v =>
    match getAbstractFileByPath path v with
    | Some _ => ret tt v
    | None => vault_createFolder path v
    end.

(** The text before the last slash, if there is a slash. *)
Fixpoint beforeLastSlash (path : list ascii) : option (list ascii) :=
  match path with
  | [] => None
  | c :: rest =>
      match beforeLastSlash rest with
      | Some before => Some (c :: before)
      | None => if Ascii.eqb c "/" then Some [] else None
      end
  end.

(** [path.substring(0, path.lastIndexOf('/'))]: empty without a slash. *)
Definition parentPathOf (path : string) : string :=
  match beforeLastSlash (list_ascii_of_string path) with
  | Some before => string_of_list_ascii before
  | None => ""
  end.

Definition writeFile (path content : string) : V unit :=
  fun v =>
    match getAbstractFileByPath path v with
    | Some TFile => vault_modify path content v
    | _ =>
        let parentPath := parentPathOf path in
        (await_ (if String.eqb parentPath "" then ret tt
                 else
                   fun v =>
                     match getAbstractFileByPath parentPath v with
                     | Some _ => ret tt v
                     | None => vault_createFolder parentPath v
                     end) ;
         vault_create path content) v
    end.

Definition excludeList (env : Env) : list string :=
  Obsidian.parseExcludePatterns (excludePatterns (settings env)).

(** [items.filter(x => !this.shouldExclude(x.name))]; an exception of the
    callback ends the filtering. *)
Fixpoint filterIncluded {A : Type} (patterns : list string) (name : A -> string)
  (items : list A) : Error + list A :=
  match items with
  | [] => inr []
  | x :: rest =>
      match Obsidian.shouldExclude patterns (name x) with
      | None => inl (mkError "Invalid regular expression")
      | Some excluded =>
          match filterIncluded patterns name rest with
          | inl error => inl error
          | inr kept => inr (if excluded then kept else x :: kept)
          end
      end
  end.

Definition projectBase (env : Env) (project : ZeplinProject) : string :=
  if createProjectFolder (settings env) then
    defaultFolder (settings env) ++ "/" ++ Obsidian.sanitizePath (project_name project)
  else defaultFolder (settings env).

Definition createProjectStructure (env : Env) (project : ZeplinProject) : V unit :=
  let basePath := projectBase env project in
  await_ ensureFolder basePath ;
  await_ ensureFolder (basePath ++ "/Components") ;
  await_ ensureFolder (basePath ++ "/Screens") ;
  await_ ensureFolder (basePath ++ "/Design Tokens") ;
  let indexPath := basePath ++ "/README.md" in
  let nl := Obsidian.nl in
  let indexContent :=
    "# " ++ project_name project ++ nl ++ nl
    ++ "**Platform:** " ++ platform project ++ nl
    ++ "**Screens:** " ++ Js.show_nat (number_of_screens project) ++ nl
    ++ "**Components:** " ++ Js.show_nat (number_of_components project) ++ nl
    ++ "**Colors:** " ++ Js.show_nat (number_of_colors project) ++ nl
    ++ "**Text Styles:** " ++ Js.show_nat (number_of_text_styles project) ++ nl
    ++ "**Status:** " ++ status project ++ nl ++ nl
    ++ "## Contents" ++ nl ++ nl
    ++ "- [[" ++ basePath ++ "/Screens|Screens]]" ++ nl
    ++ "- [[" ++ basePath ++ "/Components|Components]]" ++ nl
    ++ "- [[" ++ basePath ++ "/Design Tokens|Design Tokens]]" ++ nl ++ nl
    ++ "---" ++ nl
    ++ "*Synced from Zeplin*" ++ nl
    ++ "*Last updated: " ++ nowISO env ++ "*" ++ nl in
  writeFile indexPath indexContent.

(** [new Map(sections.map(s => [s.id, s.name || 'Unknown']))]: a later entry
    for the same id replaces an earlier one. *)
Definition sectionMapOf (sections : list ZeplinSection) : gmap string string :=
  fold_left
    (fun m s => <[section_id s := Js.or_else (section_name s) "Unknown"]> m)
    sections ∅.

(** [if (full.section?.id) full.section.name = sectionMap.get(full.section.id)] *)
Definition populateSection (sectionMap : gmap string string)
  (section : option ZeplinSection) : option ZeplinSection :=
  match section with
  | Some s =>
      if String.eqb (section_id s) "" then Some s
      else Some {| section_id := section_id s;
                   section_name := sectionMap !! section_id s |}
  | None => None
  end.

(** The file of an item, by the [organizeBySections] setting. *)
Definition itemPath (env : Env) (basePath : string) (name : string)
  (section : option ZeplinSection) : string :=
  let fileName := Obsidian.sanitizePath name ++ ".md" in
  match section with
  | Some s =>
      if organizeBySections (settings env) && Js.truthy (section_name s) then
        let sectionFolder := Obsidian.sanitizePath (Js.show (section_name s)) in
        basePath ++ "/" ++ sectionFolder ++ "/" ++ fileName
      else basePath ++ "/" ++ fileName
  | None => basePath ++ "/" ++ fileName
  end.

Fixpoint startsWith (pattern s : list ascii) : bool :=
  match pattern with
  | [] => true
  | p :: pattern' =>
      match s with
      | c :: s' => Ascii.eqb p c && startsWith pattern' s'
      | [] => false
      end
  end.

(** [s.replace(pattern, '')] with a string pattern: the first occurrence
    goes. *)
Fixpoint removeFirst (pattern s : list ascii) : list ascii :=
  match s with
  | [] => []
  | c :: rest =>
      if startsWith pattern s then skipn (List.length pattern) s
      else c :: removeFirst pattern rest
  end.

Definition withoutMd (path : string) : string :=
  string_of_list_ascii
    (removeFirst (list_ascii_of_string ".md") (list_ascii_of_string path)).

Definition indexHeader (title : string) (kept skipped : nat) : string :=
  let nl := Obsidian.nl in
  let indexContent := "# " ++ title ++ nl ++ nl in
  let indexContent := indexContent ++ "Total: " ++ Js.show_nat kept in
  let indexContent :=
    if (0 <? skipped)%nat then
      indexContent ++ " (" ++ Js.show_nat skipped ++ " excluded by filters)"
    else indexContent in
  indexContent ++ nl ++ nl.

Definition withSection (component : ZeplinComponent)
  (section : option ZeplinSection) : ZeplinComponent :=
  {| component_id := component_id component;
     component_name := component_name component;
     component_description := component_description component;
     component_images := component_images component;
     component_updated := component_updated component;
     component_section := section |}.

Definition screenWithSection (screen : ZeplinScreen)
  (section : option ZeplinSection) : ZeplinScreen :=
  {| screen_id := screen_id screen;
     screen_name := screen_name screen;
     screen_description := screen_description screen;
     screen_images := screen_images screen;
     screen_updated := screen_updated screen;
     screen_section := section;
     tags := tags screen |}.

(** The loop over the filtered components; it carries [indexContent]. *)
Fixpoint componentLoop (env : Env) (project : ZeplinProject)
  (sectionMap : gmap string string) (basePath : string)
  (components : list ZeplinComponent) (indexContent : string) : V string :=
  match components with
  | [] => ret indexContent
  | component :: rest =>
      await fullComponent <-
        call (getComponent (api env) (project_id project) (component_id component)) ;
      let fullComponent :=
        withSection fullComponent
          (populateSection sectionMap (component_section fullComponent)) in
      let filePath :=
        itemPath env basePath (component_name fullComponent)
          (component_section fullComponent) in
      let content :=
        Obsidian.buildComponentMarkdown project fullComponent (nowISO env) in
      await_ writeFile filePath content ;
      let indexContent :=
        indexContent ++ "- [[" ++ withoutMd filePath ++ "|"
          ++ component_name fullComponent ++ "]]" ++ Obsidian.nl in
      componentLoop env project sectionMap basePath rest indexContent
  end.

Definition syncComponents (env : Env) (project : ZeplinProject) : V unit :=
  await sections <- call (getSections (api env) (project_id project)) ;
  let sectionMap := sectionMapOf sections in
  await components <- call (getComponents (api env) (project_id project)) ;
  let basePath := projectBase env project ++ "/Components" in
  await filteredComponents <-
    call (filterIncluded (excludeList env) component_name components) ;
  let skippedCount := List.length components - List.length filteredComponents in
  let indexContent :=
    indexHeader "Components" (List.length filteredComponents) skippedCount in
  await indexContent <-
    componentLoop env project sectionMap basePath filteredComponents indexContent ;
  writeFile (basePath ++ ".md") indexContent.

Fixpoint screenLoop (env : Env) (project : ZeplinProject)
  (sectionMap : gmap string string) (basePath : string)
  (screens : list ZeplinScreen) (indexContent : string) : V string :=
  match screens with
  | [] => ret indexContent
  | screen :: rest =>
      await fullScreen <-
        call (getScreen (api env) (project_id project) (screen_id screen)) ;
      let fullScreen :=
        screenWithSection fullScreen
          (populateSection sectionMap (screen_section fullScreen)) in
      let filePath :=
        itemPath env basePath (screen_name fullScreen) (screen_section fullScreen) in
      let content := Obsidian.buildScreenMarkdown project fullScreen (nowISO env) in
      await_ writeFile filePath content ;
      let indexContent :=
        indexContent ++ "- [[" ++ withoutMd filePath ++ "|"
          ++ screen_name fullScreen ++ "]]" ++ Obsidian.nl in
      screenLoop env project sectionMap basePath rest indexContent
  end.

Definition syncScreens (env : Env) (project : ZeplinProject) : V unit :=
  await sections <- call (getSections (api env) (project_id project)) ;
  let sectionMap := sectionMapOf sections in
  await screens <- call (getScreens (api env) (project_id project)) ;
  let basePath := projectBase env project ++ "/Screens" in
  await filteredScreens <-
    call (filterIncluded (excludeList env) screen_name screens) ;
  let skippedCount := List.length screens - List.length filteredScreens in
  let indexContent :=
    indexHeader "Screens" (List.length filteredScreens) skippedCount in
  await indexContent <-
    screenLoop env project sectionMap basePath filteredScreens indexContent ;
  writeFile (basePath ++ ".md") indexContent.

Definition colorLine (color : ZeplinColor) : string :=
  let colorName := Js.or_else (color_name color) "Unnamed" in
  let hexColor := Color.rgbaToHex (r color) (g color) (b color) (a color) in
  "- **" ++ colorName ++ "**: `" ++ hexColor ++ "`" ++ Obsidian.nl.

Definition styleLine (style : ZeplinTextStyle) : string :=
  "- **" ++ style_name style ++ "**: " ++ font_family style ++ " "
    ++ Js.show_Z (font_size style) ++ "px / " ++ Js.show_Z (font_weight style)
    ++ Obsidian.nl.

Definition syncDesignTokens (env : Env) (project : ZeplinProject) : V unit :=
  let nl := Obsidian.nl in
  let basePath := projectBase env project ++ "/Design Tokens" in
  let content := "# Design Tokens" ++ nl ++ nl in
  await content <-
    (if (0 <? number_of_colors project)%nat then
       await colors <- call (getColors (api env) (project_id project)) ;
       let content :=
         content ++ "## Colors (" ++ Js.show_nat (List.length colors) ++ ")" ++ nl ++ nl in
       let content := fold_left (fun acc color => acc ++ colorLine color) colors content in
       ret (content ++ nl)
     else ret content) ;
  await content <-
    (if (0 <? number_of_text_styles project)%nat then
       await textStyles <- call (getTextStyles (api env) (project_id project)) ;
       let content :=
         content ++ "## Text Styles (" ++ Js.show_nat (List.length textStyles) ++ ")"
           ++ nl ++ nl in
       ret (fold_left (fun acc style => acc ++ styleLine style) textStyles content)
     else ret content) ;
  writeFile (basePath ++ ".md") content.

Definition syncProject (env : Env) (projectId : string) : V unit :=
  catch
    (await project <- call (getProject (api env) projectId) ;
     await_ createProjectStructure env project ;
     await_ (if (0 <? number_of_components project)%nat then syncComponents env project
             else ret tt) ;
     await_ (if (0 <? number_of_screens project)%nat then syncScreens env project
             else ret tt) ;
     await_ syncDesignTokens env project ;
     ret tt)
    (fun error => throw error).

End ObsidianSync.

(* ===================================================================== *)
(** * Part II.  Notions of the specification and sample data             *)
(* ===================================================================== *)

(** ** Notions used in the statements and proofs *)

Section SanitizeNotions.
Import Js Obsidian.

Definition startsClean (s : list ascii) : Prop :=
  match s with
  | [] => True
  | c :: _ => isWhiteSpace c = false
  end.

(** White space occurs only as single blanks; [inRun] tells that a blank
    came just before. *)
Fixpoint normalSpaces (inRun : bool) (s : list ascii) : Prop :=
  match s with
  | [] => True
  | c :: rest =>
      if isWhiteSpace c then inRun = false /\ c = " "%char /\ normalSpaces true rest
      else normalSpaces false rest
  end.

Definition legal (s : list ascii) : Prop := Forall (fun c => isIllegal c = false) s.

End SanitizeNotions.

(** Glob matching as the specification words it: [*] stands for any run of
    characters, [?] for any single character, every other character for
    itself up to letter case (that of ASCII text), and the pattern has to
    use up the whole name.  [wild] tells which characters a wildcard may
    stand for. *)
Inductive globMatches (wild : ascii -> bool) : list ascii -> list ascii -> Prop :=
| glob_end : globMatches wild [] []
| glob_star run p s :
    forallb wild run = true -> globMatches wild p s ->
    globMatches wild ("*"%char :: p) (run ++ s)%list
| glob_question c p s :
    wild c = true -> globMatches wild p s ->
    globMatches wild ("?"%char :: p) (c :: s)
| glob_literal x c p s :
    x <> "*"%char -> x <> "?"%char ->
    Js.Canonicalize x = Js.Canonicalize c -> globMatches wild p s ->
    globMatches wild (x :: p) (c :: s).

(** Some pattern of the set matches the whole name. *)
Definition excludedBy (wild : ascii -> bool) (patterns : list string)
  (name : string) : Prop :=
  exists pattern, In pattern patterns
    /\ globMatches wild (list_ascii_of_string pattern) (list_ascii_of_string name).

Definition anyCharacter (c : ascii) : bool := true.

Definition notLineTerminator (c : ascii) : bool := negb (Js.isLineTerminator c).

Section GlobNotions.
Import Js RegExp Obsidian.

(** What the three [replace] calls make of one pattern character. *)
Definition encode (c : ascii) : list ascii :=
  if isEscaped c then ["\"%char; c]
  else if Ascii.eqb c "*" then list_ascii_of_string ".*"
  else if Ascii.eqb c "?" then ["."%char]
  else [c].

Definition tokensOf (c : ascii) : list Token :=
  if Ascii.eqb c "*" then [TAtom Dot; TStar]
  else if Ascii.eqb c "?" then [TAtom Dot]
  else [TAtom (Char c)].

Definition termOf (c : ascii) : Term :=
  if Ascii.eqb c "*" then Star Dot
  else if Ascii.eqb c "?" then One Dot
  else One (Char c).

Definition replaced (pattern : list ascii) : list ascii :=
  replaceAll (Ascii.eqb "?") (fun _ => ["."%char])
    (replaceAll (Ascii.eqb "*") (fun _ => list_ascii_of_string ".*")
       (replaceAll isEscaped (fun c => ["\"%char; c]) pattern)).

Definition notStarHead (ts : list Token) : Prop :=
  match ts with
  | TStar :: _ => False
  | _ => True
  end.

End GlobNotions.

Section ColorNotions.
Import Js Color.

(** Two hex digits of a byte, as the claim words the rendering. *)
Definition twoDigits (k : Z) : string :=
  String (hexDigit (k / 16)) (String (hexDigit (k mod 16)) "").

Definition padded (k : Z) : string :=
  let hex := toString16 k in
  if (String.length hex =? 1)%nat then "0" ++ hex else hex.

End ColorNotions.

Section ImageNotions.
Import Zeplin.

(** The first present (non-empty) candidate of a list. *)
Fixpoint firstPresent (candidates : list (option string)) : option string :=
  match candidates with
  | [] => None
  | c :: rest => if Js.truthy c then c else firstPresent rest
  end.

(** The four fields of one image, in the order large thumbnail, original
    URL, medium thumbnail, generic URL. *)
Definition assetCandidates (asset : option ZeplinAsset) : list (option string) :=
  [thumb large asset; field original_url asset;
   thumb medium asset; field url asset].

(** The candidates as the claim lists them: the primary image, then the
    latest-version image, then the first entry of [images], each with the
    four fields. *)
Definition claimedCandidates (item : ItemImages) : list (option string) :=
  (assetCandidates (image item) ++ assetCandidates (Logseq.latestImage item)
     ++ assetCandidates (Logseq.firstImage item))%list.

(** The fields a fallback image is asked for: no medium thumbnail. *)
Definition fallbackCandidates (asset : option ZeplinAsset) : list (option string) :=
  [thumb large asset; field original_url asset; field url asset].

(** The candidates that the Logseq synchronizer consults. *)
Definition consultedCandidates (item : ItemImages) : list (option string) :=
  (assetCandidates (image item) ++ fallbackCandidates (Logseq.latestImage item)
     ++ fallbackCandidates (Logseq.firstImage item))%list.

End ImageNotions.

(** An entity whose primary image has a medium and a large thumbnail. *)
Definition mediumAndLarge : Zeplin.ItemImages :=
  {| Zeplin.image :=
       Some {| Zeplin.url := None; Zeplin.original_url := None;
               Zeplin.thumbnails :=
                 Some {| Zeplin.small := None;
                         Zeplin.medium := Some "https://cdn.zeplin.io/m.png";
                         Zeplin.large := Some "https://cdn.zeplin.io/l.png" |} |};
     Zeplin.images := None;
     Zeplin.latest_version := None |}.

(** An entity whose only image field is the medium thumbnail of its latest
    version. *)
Definition onlyLatestMedium : Zeplin.ItemImages :=
  {| Zeplin.image := None;
     Zeplin.images := None;
     Zeplin.latest_version :=
       Some {| Zeplin.version_image :=
                 Some {| Zeplin.url := None; Zeplin.original_url := None;
                         Zeplin.thumbnails :=
                           Some {| Zeplin.small := None;
                                   Zeplin.medium := Some "https://cdn.zeplin.io/m.png";
                                   Zeplin.large := None |} |} |} |}.

Section RenderNotions.
Import Zeplin Obsidian.

(** The fields of the rendered content, in the order of the claim. *)
Inductive FieldKind : Type :=
| TypeLabel | SectionName | Tags | DeepLink | Description | Image | Provenance.

Definition rank (k : FieldKind) : nat :=
  match k with
  | TypeLabel => 1
  | SectionName => 2
  | Tags => 3
  | DeepLink => 4
  | Description => 5
  | Image => 6
  | Provenance => 7
  end.

(** A field that is rendered only when [present]. *)
Definition optional (present : bool) (k : FieldKind) (text : string)
  : list (FieldKind * string) :=
  if present then [(k, text)] else [].

Definition isSome {A : Type} (o : option A) : bool :=
  match o with
  | Some _ => true
  | None => false
  end.

(** The section name of an entity, when it has one. *)
Definition sectionNameOf (s : option ZeplinSection) : option string :=
  match s with
  | Some section => section_name section
  | None => None
  end.

Definition sectionText (name : option string) : string :=
  "**Section:** " ++ Js.show name ++ nl.

Definition provenanceText (now : string) : string :=
  "---" ++ nl ++ "*Synced from Zeplin on " ++ now ++ "*" ++ nl.

Definition imageText (name : string) (imageUrl : option string) : string :=
  "## Preview" ++ nl ++ nl ++ "![" ++ name ++ "](" ++ Js.show imageUrl ++ ")"
    ++ nl ++ nl.

Definition descriptionText (d : option string) : string :=
  "## Description" ++ nl ++ nl ++ Js.show d ++ nl ++ nl.

Definition typeText (label : string) : string := "**Type:** " ++ label ++ nl.

Definition tagsText (t : option (list string)) : string :=
  "**Tags:** " ++ Js.hashTags (Js.orNil t) ++ nl.

(** The deep link of a screen: [.../project/{projectId}/screen/{screenId}]. *)
Definition screenLinkText (projectId screenId : string) : string :=
  "**Zeplin URL:** [View in Zeplin](https://app.zeplin.io/project/"
    ++ projectId ++ "/screen/" ++ screenId ++ ")" ++ nl ++ nl.

(** The deep link of a component:
    [.../project/{projectId}/components?coid={componentId}]. *)
Definition componentLinkText (projectId componentId : string) : string :=
  "**Zeplin URL:** [View in Zeplin](https://app.zeplin.io/project/"
    ++ projectId ++ "/components?coid=" ++ componentId ++ ")" ++ nl ++ nl.

(** The fields of a screen that the claim requires, absent ones left out. *)
Definition screenFields (project : ZeplinProject) (screen : ZeplinScreen)
  (now : string) : list (FieldKind * string) :=
  ([(TypeLabel, typeText "Screen")]
   ++ optional (isSome (sectionNameOf (screen_section screen))) SectionName
        (sectionText (sectionNameOf (screen_section screen)))
   ++ optional (Js.nonEmpty (tags screen)) Tags (tagsText (tags screen))
   ++ [(DeepLink, screenLinkText (project_id project) (screen_id screen))]
   ++ optional (Js.truthy (screen_description screen)) Description
        (descriptionText (screen_description screen))
   ++ optional (Js.truthy (extractImageUrl (screen_images screen))) Image
        (imageText (screen_name screen) (extractImageUrl (screen_images screen)))
   ++ [(Provenance, provenanceText now)])%list.

Definition componentFields (project : ZeplinProject) (component : ZeplinComponent)
  (now : string) : list (FieldKind * string) :=
  ([(TypeLabel, typeText "Component")]
   ++ optional (isSome (sectionNameOf (component_section component))) SectionName
        (sectionText (sectionNameOf (component_section component)))
   ++ [(DeepLink, componentLinkText (project_id project) (component_id component))]
   ++ optional (Js.truthy (component_description component)) Description
        (descriptionText (component_description component))
   ++ optional (Js.truthy (extractImageUrl (component_images component))) Image
        (imageText (component_name component)
           (extractImageUrl (component_images component)))
   ++ [(Provenance, provenanceText now)])%list.

Definition concatTexts (fields : list (FieldKind * string)) : string :=
  fold_right (fun f acc => snd f ++ acc) "" fields.

(** A section line without a name, put after the type label. *)
Definition withUndefinedSection (fields : list (FieldKind * string))
  : list (FieldKind * string) :=
  match fields with
  | label :: rest => label :: (SectionName, sectionText None) :: rest
  | [] => []
  end.

(** Strictly increasing ranks: every field at most once and in order. *)
Fixpoint increasing (ranks : list nat) : bool :=
  match ranks with
  | [] => true
  | x :: rest =>
      match rest with
      | [] => true
      | y :: _ => (x <? y)%nat && increasing rest
      end
  end.

Definition inOrder (fields : list (FieldKind * string)) : bool :=
  increasing (map (fun f => rank (fst f)) fields).

End RenderNotions.

Section LogseqRenderNotions.
Import Zeplin.

(** The field a rendered block or line holds, read off its leading text. *)
Definition kindOfText (text : string) : option FieldKind :=
  if String.prefix "**Type:**" text then Some TypeLabel
  else if String.prefix "**Section:**" text then Some SectionName
  else if String.prefix "**Tags:**" text then Some Tags
  else if String.prefix "**Zeplin URL:**" text then Some DeepLink
  else if String.prefix "**Description:**" text then Some Description
  else if String.prefix "![" text then Some Image
  else if String.prefix "---" text then Some Provenance
  else None.

Definition childText (child : Logseq.BlockCreateInput) : string :=
  match child with
  | Logseq.mkInput text _ _ => text
  end.

Definition childKinds (children : list Logseq.BlockCreateInput)
  : list (option FieldKind) :=
  map (fun child => kindOfText (childText child)) children.

Definition kindsInOrder (kinds : list (option FieldKind)) : bool :=
  increasing (map (fun k => match k with Some k => rank k | None => 0 end) kinds).

End LogseqRenderNotions.

(** A screen with a description, a tag and a section. *)
Definition loginScreen : Zeplin.ZeplinScreen :=
  {| Zeplin.screen_id := "s1";
     Zeplin.screen_name := "Login";
     Zeplin.screen_description := Some "Sign-in form";
     Zeplin.screen_images :=
       {| Zeplin.image := None; Zeplin.images := None;
          Zeplin.latest_version := None |};
     Zeplin.screen_updated := 1700000000;
     Zeplin.screen_section :=
       Some {| Zeplin.section_id := "sec1";
               Zeplin.section_name := Some "Onboarding" |};
     Zeplin.tags := Some ["auth"] |}.

(** A screen and a component in a section that carries no name. *)
Definition straySection : Zeplin.ZeplinSection :=
  {| Zeplin.section_id := "sec9"; Zeplin.section_name := None |}.

Definition strayScreen : Zeplin.ZeplinScreen :=
  {| Zeplin.screen_id := "s2";
     Zeplin.screen_name := "Splash";
     Zeplin.screen_description := None;
     Zeplin.screen_images :=
       {| Zeplin.image := None; Zeplin.images := None;
          Zeplin.latest_version := None |};
     Zeplin.screen_updated := 1700000000;
     Zeplin.screen_section := Some straySection;
     Zeplin.tags := None |}.

Definition strayComponent : Zeplin.ZeplinComponent :=
  {| Zeplin.component_id := "c2"; Zeplin.component_name := "Badge";
     Zeplin.component_description := None;
     Zeplin.component_images :=
       {| Zeplin.image := None; Zeplin.images := None;
          Zeplin.latest_version := None |};
     Zeplin.component_updated := 1700000000;
     Zeplin.component_section := Some straySection |}.

Definition homeProject : Zeplin.ZeplinProject :=
  {| Zeplin.project_id := "p1"; Zeplin.project_name := "Demo";
     Zeplin.platform := "web"; Zeplin.status := "active";
     Zeplin.number_of_screens := 1; Zeplin.number_of_components := 1;
     Zeplin.number_of_text_styles := 0; Zeplin.number_of_colors := 0 |}.

Section ClientNotions.
Import Zeplin Client.

(** The failure categories of the specification. *)
Inductive Category : Type :=
| Unauthorized | Forbidden | NotFound | RateLimited | TransportUnreachable | Other.

(** The category of a failed request: derived from the HTTP status when a
    response arrived; without a response, unreachable when the request was
    sent and other when it could not even be set up. *)
Definition categoryOf (error : AxiosError) : Category :=
  match response error with
  | Some resp =>
      if (http_status resp =? 401)%Z then Unauthorized
      else if (http_status resp =? 403)%Z then Forbidden
      else if (http_status resp =? 404)%Z then NotFound
      else if (http_status resp =? 429)%Z then RateLimited
      else Other
  | None => if request error then TransportUnreachable else Other
  end.

(** The category that a raised [Error] carries, read off its message. *)
Definition categoryOfError (error : Error) : Category :=
  match error with
  | mkError message =>
      if String.eqb message "Invalid Zeplin API token. Please check your settings."
      then Unauthorized
      else if String.eqb message "Access forbidden. Check your project permissions."
      then Forbidden
      else if String.eqb message "Resource not found." then NotFound
      else if String.eqb message "Rate limit exceeded. Please try again later."
      then RateLimited
      else if String.eqb message
                "Unable to reach Zeplin API. Check your internet connection."
      then TransportUnreachable
      else Other
  end.

End ClientNotions.

Section PropagationNotions.
Import Zeplin Logseq.

Definition succeeds {A : Type} (m : M A) : Prop :=
  forall g, exists v g1, m g = (inr v, g1).

(** The name of a page of the project: [`${namespace}/${project.name}`]
    and what follows it. *)
Definition pageNamed (env : Env) (project : ZeplinProject) (suffix : string)
  : string :=
  defaultNamespace (config env) ++ "/" ++ project_name project ++ suffix.

(** The two steps of [syncProject] that the counts of the project guard. *)
Definition componentsStage (env : Env) (project : ZeplinProject) : M unit :=
  if (0 <? number_of_components project)%nat then syncComponents env project
  else ret tt.

Definition screensStage (env : Env) (project : ZeplinProject) : M unit :=
  if (0 <? number_of_screens project)%nat then syncScreens env project
  else ret tt.

(** The first half of [syncDesignTokens]: the colours, written below the
    block [pageUuid]. *)
Definition colorsPart (env : Env) (project : ZeplinProject) (pageUuid : nat)
  : M unit :=
  if (0 <? number_of_colors project)%nat then
    await colors <- call (getColors (api env) (project_id project)) ;
    await_ createBlock pageUuid
             ("## Colors (" ++ Js.show_nat (List.length colors) ++ ")")
             None [] ;
    forEach
      (fun color =>
         let colorName := Js.or_else (color_name color) "Unnamed" in
         let hexColor :=
           Color.rgbaToHex (r color) (Zeplin.g color) (b color) (a color) in
         await_ createBlock pageUuid (colorName ++ ": `" ++ hexColor ++ "`")
                  (Some (<["zeplin-type" := PStr "color"]>
                           (<["zeplin-id" := PStr (color_id color)]> ∅)))
                  [] ;
         ret tt) colors
  else ret tt.

(** How far a run of [syncProject] from the graph [g] has got: the project
    was fetched and its pages are there ([g1]); the components are synced as
    well ([g2]); the screens too ([g3]). *)
Definition afterStructure (env : Env) (projectId : string)
  (project : ZeplinProject) (g g1 : Graph) : Prop :=
  GET_project (api env) projectId = inr project
  /\ createProjectStructure env project g = (inr tt, g1).

Definition afterComponents (env : Env) (projectId : string)
  (project : ZeplinProject) (g g2 : Graph) : Prop :=
  exists g1, afterStructure env projectId project g g1
             /\ componentsStage env project g1 = (inr tt, g2).

Definition afterScreens (env : Env) (projectId : string)
  (project : ZeplinProject) (g g3 : Graph) : Prop :=
  exists g2, afterComponents env projectId project g g2
             /\ screensStage env project g2 = (inr tt, g3).

End PropagationNotions.

(** ** Sample data *)

(** An unauthorized answer to every request. *)
Definition unauthorized : Client.AxiosError :=
  {| Client.response := Some {| Client.http_status := 401;
                                Client.data_message := Some "Unauthorized" |};
     Client.request := true;
     Client.axios_message := "Request failed with status code 401" |}.

Definition rejectingRemote : Client.Remote :=
  {| Client.GET_projects := inl unauthorized;
     Client.GET_project := fun _ => inl unauthorized;
     Client.GET_components := fun _ => inl unauthorized;
     Client.GET_component := fun _ _ => inl unauthorized;
     Client.GET_screens := fun _ => inl unauthorized;
     Client.GET_screen := fun _ _ => inl unauthorized;
     Client.GET_colors := fun _ => inl unauthorized;
     Client.GET_text_styles := fun _ => inl unauthorized;
     Client.GET_screen_sections := fun _ => inl unauthorized |}.

(** A run against the rejecting remote, without network for images. *)
Definition rejectingEnv : Logseq.Env :=
  {| Logseq.api := rejectingRemote;
     Logseq.fetch := fun _ => None;
     Logseq.now := 1700000000;
     Logseq.config := {| Logseq.defaultNamespace := "Zeplin";
                         Logseq.imageStorage := Logseq.assets |} |}.

Section UpsertNotions.
Import Zeplin Logseq.

(** What an update does to one block of the graph. *)
Definition refreshed (env : Env) (existing : nat) (text : string)
  (props : option (gmap string PropVal)) (b : BlockEntity) : BlockEntity :=
  if (uuid b =? existing)%nat then
    {| uuid := uuid b; parent := parent b; content := text;
       properties :=
         match props with
         | Some _ => <["zeplin-updated" := PNum (now env)]> (properties b)
         | None => properties b
         end |}
  else b.

End UpsertNotions.

(** The same environment ten minutes later. *)
Definition laterEnv : Logseq.Env :=
  {| Logseq.api := rejectingRemote;
     Logseq.fetch := fun _ => None;
     Logseq.now := 1700000600;
     Logseq.config := Logseq.config rejectingEnv |}.

(** A graph with one page and its first block (uuid 2). *)
Definition onePageGraph : Logseq.Graph :=
  snd (Logseq.Editor_createPage "Zeplin/Demo/Components" None Logseq.emptyGraph).

(** The scenario of the specification: [upsert(parent, "A", id = "c1")], then
    [upsert(parent, "B", id = "c1")]. *)
Definition syncedOnce : Logseq.Graph :=
  snd (Logseq.upsertBlock rejectingEnv 2 "A" "c1" (Some ∅)
         [Logseq.mkInput "child" (Some ∅) []] onePageGraph).

Definition syncedTwice : Logseq.Graph :=
  snd (Logseq.upsertBlock laterEnv 2 "B" "c1" (Some ∅)
         [Logseq.mkInput "child" (Some ∅) []] syncedOnce).

(** A project with one component (whose image is a plain URL), one screen
    and one colour. *)
Definition demoProject : Zeplin.ZeplinProject :=
  {| Zeplin.project_id := "p1"; Zeplin.project_name := "Demo";
     Zeplin.platform := "web"; Zeplin.status := "active";
     Zeplin.number_of_screens := 1; Zeplin.number_of_components := 1;
     Zeplin.number_of_text_styles := 0; Zeplin.number_of_colors := 1 |}.

Definition buttonComponent : Zeplin.ZeplinComponent :=
  {| Zeplin.component_id := "c1"; Zeplin.component_name := "Button";
     Zeplin.component_description := Some "Primary";
     Zeplin.component_images :=
       {| Zeplin.image :=
            Some {| Zeplin.url := Some "https://cdn.zeplin.io/button.png";
                    Zeplin.original_url := None; Zeplin.thumbnails := None |};
          Zeplin.images := None; Zeplin.latest_version := None |};
     Zeplin.component_updated := 1700000000;
     Zeplin.component_section := None |}.

Definition redColor : Zeplin.ZeplinColor :=
  {| Zeplin.color_id := "col1"; Zeplin.color_name := Some "Red";
     Zeplin.r := 1; Zeplin.g := 0; Zeplin.b := 0; Zeplin.a := 1 |}.

Definition demoRemote : Client.Remote :=
  {| Client.GET_projects := inr [demoProject];
     Client.GET_project := fun _ => inr demoProject;
     Client.GET_components := fun _ => inr [buttonComponent];
     Client.GET_component := fun _ _ => inr buttonComponent;
     Client.GET_screens := fun _ => inr [loginScreen];
     Client.GET_screen := fun _ _ => inr loginScreen;
     Client.GET_colors := fun _ => inr [redColor];
     Client.GET_text_styles := fun _ => inr [];
     Client.GET_screen_sections := fun _ => inr [] |}.

(** Direct image links, and a network on which every image fetch fails. *)
Definition demoEnv (storage : Logseq.ImageStorage) : Logseq.Env :=
  {| Logseq.api := demoRemote;
     Logseq.fetch := fun _ => None;
     Logseq.now := 1700000000;
     Logseq.config := {| Logseq.defaultNamespace := "Zeplin";
                         Logseq.imageStorage := storage |} |}.

(** The same remote, except that the details of a screen cannot be
    fetched. *)
Definition screenFailingRemote : Client.Remote :=
  {| Client.GET_projects := inr [demoProject];
     Client.GET_project := fun _ => inr demoProject;
     Client.GET_components := fun _ => inr [buttonComponent];
     Client.GET_component := fun _ _ => inr buttonComponent;
     Client.GET_screens := fun _ => inr [loginScreen];
     Client.GET_screen := fun _ _ => inl unauthorized;
     Client.GET_colors := fun _ => inr [redColor];
     Client.GET_text_styles := fun _ => inr [];
     Client.GET_screen_sections := fun _ => inr [] |}.

Definition screenFailingEnv : Logseq.Env :=
  {| Logseq.api := screenFailingRemote;
     Logseq.fetch := fun _ => None;
     Logseq.now := 1700000000;
     Logseq.config := {| Logseq.defaultNamespace := "Zeplin";
                         Logseq.imageStorage := Logseq.assets |} |}.

(** The requests of a sync, and a remote that answers all of them but
    one, for a project with components, screens, colours and text
    styles. *)
Inductive Request : Type :=
| RProject | RComponents | RComponent | RScreens | RScreen | RColors | RTextStyles.

Definition isRequest (r1 r2 : Request) : bool :=
  match r1, r2 with
  | RProject, RProject | RComponents, RComponents | RComponent, RComponent
  | RScreens, RScreens | RScreen, RScreen | RColors, RColors
  | RTextStyles, RTextStyles => true
  | _, _ => false
  end.

Definition fullProject : Zeplin.ZeplinProject :=
  {| Zeplin.project_id := "p1"; Zeplin.project_name := "Demo";
     Zeplin.platform := "web"; Zeplin.status := "active";
     Zeplin.number_of_screens := 1; Zeplin.number_of_components := 1;
     Zeplin.number_of_text_styles := 1; Zeplin.number_of_colors := 1 |}.

Definition answerUnless {A : Type} (failing request : Request) (answer : A)
  : Client.AxiosError + A :=
  if isRequest failing request then inl unauthorized else inr answer.

Definition remoteFailingAt (failing : Request) : Client.Remote :=
  {| Client.GET_projects := inr [fullProject];
     Client.GET_project := fun _ => answerUnless failing RProject fullProject;
     Client.GET_components := fun _ => answerUnless failing RComponents [buttonComponent];
     Client.GET_component := fun _ _ => answerUnless failing RComponent buttonComponent;
     Client.GET_screens := fun _ => answerUnless failing RScreens [loginScreen];
     Client.GET_screen := fun _ _ => answerUnless failing RScreen loginScreen;
     Client.GET_colors := fun _ => answerUnless failing RColors [redColor];
     Client.GET_text_styles := fun _ => answerUnless failing RTextStyles [];
     Client.GET_screen_sections := fun _ => inr [] |}.

Definition envFailingAt (failing : Request) : Logseq.Env :=
  {| Logseq.api := remoteFailingAt failing;
     Logseq.fetch := fun _ => None;
     Logseq.now := 1700000000;
     Logseq.config := {| Logseq.defaultNamespace := "Zeplin";
                         Logseq.imageStorage := Logseq.assets |} |}.

(** The graphs that a run against it goes through: the pages of the project,
    the components, the index page of the screens and its first block. *)
Definition structureGraph : Logseq.Graph :=
  snd (Logseq.createProjectStructure screenFailingEnv demoProject Logseq.emptyGraph).

Definition componentsGraph : Logseq.Graph :=
  snd (componentsStage screenFailingEnv demoProject structureGraph).

Definition indexGraph : Logseq.Graph :=
  snd (Logseq.getPageFirstBlockUuid "Zeplin/Demo/Screens"
         (snd (Logseq.ensurePage "Zeplin/Demo/Screens" None componentsGraph))).

Definition firstRun : (Client.Error + unit) * Logseq.Graph :=
  Logseq.syncProject (demoEnv Logseq.assets) "p1" Logseq.emptyGraph.

Definition secondRun : (Client.Error + unit) * Logseq.Graph :=
  Logseq.syncProject (demoEnv Logseq.assets) "p1" (snd firstRun).

Definition unitsOf (zeplinId : string) (g : Logseq.Graph) : list string :=
  map Logseq.content (Logseq.DB_q_zeplin_id zeplinId g).

Definition inlineRun : (Client.Error + unit) * Logseq.Graph :=
  Logseq.syncProject (demoEnv Logseq.inline) "p1" Logseq.emptyGraph.

Definition childrenOf (parentUuid : nat) (g : Logseq.Graph) : list string :=
  map Logseq.content
    (filter (fun b => (Logseq.parent b =? parentUuid)%nat) (Logseq.blocks g)).

(** ** Further notions *)

(** The time slept in all. *)
Definition totalSlept (delays : list Q) : Q := fold_right Qplus 0%Q delays.

(** The invocations from [attempt] to [k - 1] fail, and [onRetry], called
    with the number of the attempt and the error kept for it, returns each
    time. *)
Definition quietBefore {T : Type} (fn : nat -> Retry.Thrown + T)
  (opts : Retry.RetryOptions) (attempt k : nat) : Prop :=
  forall j, attempt <= j < k ->
    exists e, fn j = inl e
              /\ Retry.onRetry opts j (Retry.toError e) = None.

(** Options whose [onRetry] throws, and a callback that would succeed at its
    second invocation. *)
Definition stoppingOptions : Retry.RetryOptions :=
  {| Retry.maxAttempts := 3; Retry.initialDelay := 1000; Retry.maxDelay := 10000;
     Retry.backoffMultiplier := 2;
     Retry.onRetry := fun _ _ => Some (Retry.ErrorObject "stop") |}.

Definition secondTimeLucky (k : nat) : Retry.Thrown + nat :=
  if (k <? 2)%nat then inl (Retry.ErrorObject "down") else inr k.

(** The same text up to the case of ASCII letters. *)
Definition sameLetters (s1 s2 : list ascii) : Prop :=
  map Js.Canonicalize s1 = map Js.Canonicalize s2.

(** A pattern without wildcards. *)
Definition literalPattern (p : list ascii) : bool :=
  forallb (fun c => negb (Ascii.eqb c "*") && negb (Ascii.eqb c "?")) p.

Definition lineFeed : ascii := ascii_of_nat 10.

(** What the constructor keeps of the setting: a pattern is not empty, has
    no white space at its ends and no line feed inside. *)
Definition tidyPattern (p : string) : Prop :=
  p <> ""
  /\ Js.trim (list_ascii_of_string p) = list_ascii_of_string p
  /\ ~ In lineFeed (list_ascii_of_string p).

(** The shape of a slug: lower-case letters, digits and single hyphens, the
    hyphens only between other characters. *)
Definition slugOrHyphen (c : ascii) : bool :=
  Logseq.isSlugChar c || Ascii.eqb c "-".

Definition startsWithHyphen (s : list ascii) : bool :=
  match s with
  | c :: _ => Ascii.eqb c "-"
  | [] => false
  end.

Fixpoint endsWithHyphen (s : list ascii) : bool :=
  match s with
  | [] => false
  | [c] => Ascii.eqb c "-"
  | _ :: rest => endsWithHyphen rest
  end.

Fixpoint noDoubleHyphen (s : list ascii) : bool :=
  match s with
  | [] => true
  | c :: rest =>
      negb (Ascii.eqb c "-" && startsWithHyphen rest) && noDoubleHyphen rest
  end.

Definition isSlug (s : list ascii) : bool :=
  forallb slugOrHyphen s && negb (startsWithHyphen s)
  && negb (endsWithHyphen s) && noDoubleHyphen s.

(** What may follow the extension in an image URL: nothing, or the query. *)
Definition endOrQuery (s : list ascii) : Prop :=
  match s with
  | [] => True
  | c :: _ => c = "?"%char
  end.

(** [url] holds a dot, then [ext], then the end or a question mark, and
    [ext] is one of the known extensions in some letter case. *)
Definition extensionAt (url ext : list ascii) : Prop :=
  exists before after known,
    url = (before ++ "."%char :: ext ++ after)%list
    /\ endOrQuery after
    /\ In known Logseq.imageExtensions /\ sameLetters known ext.

(** Letters of both cases and digits. *)
Definition isWordChar (c : ascii) : bool :=
  let n := nat_of_ascii c in
  ((97 <=? n) && (n <=? 122))%nat || ((65 <=? n) && (n <=? 90))%nat
  || ((48 <=? n) && (n <=? 57))%nat.

Definition isFileNameChar (c : ascii) : bool :=
  isWordChar c || Ascii.eqb c "-" || Ascii.eqb c ".".

Definition countSlashes (s : string) : nat :=
  List.length (filter (Ascii.eqb "/") (list_ascii_of_string s)).

(** *** Notions for the vault *)

(** Nothing is lost from [v] to [w]: the folders and the paths of the files
    carry over. *)
Definition keepsEntries (v w : ObsidianSync.Vault) : Prop :=
  ObsidianSync.folders v ⊆ ObsidianSync.folders w
  /\ dom (ObsidianSync.files v) ⊆ dom (ObsidianSync.files w).

(** The files after a list of writes, in their order. *)
Fixpoint writes (log : list (string * string)) (m : gmap string string)
  : gmap string string :=
  match log with
  | [] => m
  | entry :: log' => writes log' (<[fst entry := snd entry]> m)
  end.

Definition overwritten (log : list (string * string)) (w : ObsidianSync.Vault)
  : ObsidianSync.Vault :=
  {| ObsidianSync.folders := ObsidianSync.folders w;
     ObsidianSync.files := writes log (ObsidianSync.files w) |}.

(** The same environment at another time. *)
Definition atTime (env : ObsidianSync.Env) (t : string) : ObsidianSync.Env :=
  {| ObsidianSync.api := ObsidianSync.api env;
     ObsidianSync.nowISO := t;
     ObsidianSync.settings := ObsidianSync.settings env |}.

(** The step of [writeFile] that looks after the parent folder. *)
Definition parentStep (parentPath : string) : ObsidianSync.V unit :=
  if String.eqb parentPath "" then ObsidianSync.ret tt
  else
    fun v =>
      match ObsidianSync.getAbstractFileByPath parentPath v with
      | Some _ => ObsidianSync.ret tt v
      | None => ObsidianSync.vault_createFolder parentPath v
      end.

(** A computation that only adds to the vault, whatever its outcome. *)
Definition OnlyAdds {A : Type} (m : ObsidianSync.V A) : Prop :=
  forall v r v1, m v = (r, v1) -> keepsEntries v v1.

(** [m'] repeats [m]: where [m] resolves, it has written a list of files and
    added folders, and [m'] started in any vault that has these entries
    resolves with the same value and only overwrites files at the same
    paths; with the same contents if [same] holds. *)
Definition Repeats {A : Type} (same : Prop) (m m' : ObsidianSync.V A) : Prop :=
  forall v a v1, m v = (inr a, v1) ->
    exists log log',
      map fst log = map fst log' /\ (same -> log' = log)
      /\ ObsidianSync.folders v ⊆ ObsidianSync.folders v1
      /\ ObsidianSync.files v1 = writes log (ObsidianSync.files v)
      /\ forall w, keepsEntries v1 w -> m' w = (inr a, overwritten log' w).

(** A vault run of the demonstration project. *)
Definition vaultEnv : ObsidianSync.Env :=
  {| ObsidianSync.api := demoRemote;
     ObsidianSync.nowISO := "2024-01-01T00:00:00.000Z";
     ObsidianSync.settings :=
       {| ObsidianSync.defaultFolder := "Zeplin";
          ObsidianSync.excludePatterns := "*-old";
          ObsidianSync.createProjectFolder := true;
          ObsidianSync.organizeBySections := true |} |}.

(** A project whose name is two dots. *)
Definition dotsProject : Zeplin.ZeplinProject :=
  {| Zeplin.project_id := "p2"; Zeplin.project_name := "..";
     Zeplin.platform := "web"; Zeplin.status := "active";
     Zeplin.number_of_screens := 0; Zeplin.number_of_components := 0;
     Zeplin.number_of_text_styles := 0; Zeplin.number_of_colors := 0 |}.

Definition vaultAfterSync : ObsidianSync.Vault :=
  snd (ObsidianSync.syncProject vaultEnv "p1" ObsidianSync.emptyVault).

(** *** Notions for the graph *)

Section GraphNotions.
Import Zeplin Logseq.

(** The number of blocks in a tree of [BlockCreateInput]. *)
Fixpoint treeSize (node : BlockCreateInput) : nat :=
  match node with
  | mkInput _ _ children => S (list_sum (map treeSize children))
  end.

(** The block that [insertBlock] makes for the root of a tree. *)
Definition rootBlock (node : BlockCreateInput) (parentUuid newUuid : nat)
  : BlockEntity :=
  match node with
  | mkInput text props _ =>
      {| uuid := newUuid; parent := parentUuid; content := text;
         properties := orEmpty props |}
  end.

(** What [createNode] does on an existing parent: the whole tree is made,
    the root first. *)
Definition makesTree (node : BlockCreateInput) : Prop :=
  forall parentUuid g,
    Editor_getBlock parentUuid g <> None ->
    exists more,
      createNode node parentUuid g
      = (inr (Some (fresh g)),
         {| pages := pages g;
            blocks := (blocks g ++ rootBlock node parentUuid (fresh g) :: more)%list;
            fresh := fresh g + treeSize node |})
      /\ S (List.length more) = treeSize node.

(** Where a block sits in the outline, and a page by name and identifier. *)
Definition blockPlace (b : BlockEntity) : nat * nat := (uuid b, parent b).

Definition pageShape (p : PageEntity) : string * nat := (page_name p, page_uuid p).

(** From [g] to [g'] the outline only grows at its end: every block keeps
    its identifier, its parent and its position, every page its name, its
    identifier and its position. *)
Definition grows (g g' : Graph) : Prop :=
  (exists more, map blockPlace (blocks g') = (map blockPlace (blocks g) ++ more)%list)
  /\ (exists more, map pageShape (pages g') = (map pageShape (pages g) ++ more)%list).

Definition Grows {A : Type} (m : M A) : Prop :=
  forall g r g', m g = (r, g') -> grows g g'.

(** Some block stands for the remote item. *)
Definition tagged (zeplinId : string) (g : Graph) : bool :=
  existsb (hasZeplinId zeplinId) (blocks g).

(** The first block of a page that exists and has blocks. *)
Definition pageFirstBlock (pageName : string) (g : Graph) : option nat :=
  match Editor_getPage pageName g with
  | Some _ => option_map uuid (head (Editor_getPageBlocksTree pageName g))
  | None => None
  end.

(** The same, read off the outline alone. *)
Definition firstBlockIn (pageShapes : list (string * nat)) (places : list (nat * nat))
  (pageName : string) : option nat :=
  match List.find (fun p => String.eqb (fst p) pageName) pageShapes with
  | Some page =>
      option_map fst (head (filter (fun b => (snd b =? snd page)%nat) places))
  | None => None
  end.

(** A remote that answers every request. *)
Definition answering (remote : Remote) : Prop :=
  (forall projectId, exists project, GET_project remote projectId = inr project)
  /\ (forall projectId, exists l, GET_components remote projectId = inr l)
  /\ (forall projectId itemId, exists c, GET_component remote projectId itemId = inr c)
  /\ (forall projectId, exists l, GET_screens remote projectId = inr l)
  /\ (forall projectId itemId, exists s, GET_screen remote projectId itemId = inr s)
  /\ (forall projectId, exists l, GET_colors remote projectId = inr l)
  /\ (forall projectId, exists l, GET_text_styles remote projectId = inr l).

End GraphNotions.

(** A path spelled from a folder: the folder, a slash and more. *)
Definition under (folder path : string) : Prop :=
  exists rest, path = folder ++ "/" ++ rest.

(** A computation that touches only files whose path is spelled from
    [folder], and makes no folder other than [folder] and folders whose
    path is spelled from it. *)
Definition WritesUnder {A : Type} (folder : string) (m : ObsidianSync.V A) : Prop :=
  forall v r v1, m v = (r, v1) ->
    (forall path, ObsidianSync.files v1 !! path <> ObsidianSync.files v !! path ->
                  under folder path)
    /\ (forall path, path ∈ ObsidianSync.folders v1 ->
          path ∈ ObsidianSync.folders v \/ path = folder \/ under folder path).

(** Is the item kept by the exclusion filter? *)
Definition included {A : Type} (patterns : list string) (name : A -> string) (x : A)
  : bool :=
  match Obsidian.shouldExclude patterns (name x) with
  | Some true => false
  | _ => true
  end.

(* ===================================================================== *)
(** * Part III.  Properties                                               *)
(* ===================================================================== *)


(** ** Sample evaluations of the embedding *)

Example retry_third_attempt_succeeds :
  Retry.retry Js.pow64
    (fun k => if (k <? 3)%nat then inl (Retry.OtherValue "busy") else inr k)
    Retry.DEFAULT_OPTIONS
  = {| Retry.settled := inr 3; Retry.invocations := 3;
       Retry.slept := [1000%Q; 2000%Q] |}.
Proof. vm_compute. reflexivity. Qed.

Example retry_gives_up :
  Retry.retry (T := nat) Js.pow64 (fun _ => inl (Retry.ErrorObject "down"))
    Retry.DEFAULT_OPTIONS
  = {| Retry.settled := inl (Retry.ErrorObject "down"); Retry.invocations := 3;
       Retry.slept := [1000%Q; 2000%Q] |}.
Proof. vm_compute. reflexivity. Qed.

(** The multiplier 1.1 (its nearest double): the third delay is the double
    1210.0000000000002, not 1210. *)
Example delay_rounded :
  Retry.delay Js.pow64
    {| Retry.maxAttempts := 5; Retry.initialDelay := 1000;
       Retry.maxDelay := 10000; Retry.backoffMultiplier := Js.fl64 (11 # 10);
       Retry.onRetry := fun _ _ => None |} 3
  = (5321636278435841 # 4398046511104)%Q.
Proof. vm_compute. reflexivity. Qed.

Example sanitizePath_sample : Obsidian.sanitizePath "  a/b   c?  " = "a-b c-".
Proof. reflexivity. Qed.

Example shouldExclude_suffix :
  Obsidian.shouldExclude ["*-old"; "test-?"] "Button-OLD" = Some true.
Proof. reflexivity. Qed.

Example shouldExclude_whole_name :
  Obsidian.shouldExclude ["*-old"; "test-?"] "Test-12" = Some false.
Proof. reflexivity. Qed.

Example shouldExclude_literal_dot : Obsidian.shouldExclude ["a.b"] "axb" = Some false.
Proof. reflexivity. Qed.

Example parseExcludePatterns_sample :
  Obsidian.parseExcludePatterns
    (" *-old " ++ Obsidian.nl ++ Obsidian.nl ++ "test-*")
  = ["*-old"; "test-*"].
Proof. reflexivity. Qed.

Example base64_sample :
  string_of_list_ascii (Logseq.base64 (list_ascii_of_string "light work."))
  = "bGlnaHQgd29yay4=".
Proof. reflexivity. Qed.

Example downloadAndFormatImage_inline_success :
  Logseq.downloadAndFormatImage
    {| Logseq.api := rejectingRemote;
       Logseq.fetch :=
         fun _ => Some {| Logseq.data := list_ascii_of_string "Man";
                          Logseq.contentType := Some "image/png" |};
       Logseq.now := 1700000000;
       Logseq.config := {| Logseq.defaultNamespace := "Zeplin";
                           Logseq.imageStorage := Logseq.inline |} |}
    "https://cdn.zeplin.io/button.png" "Button"
  = inr (Some "![Button](data:image/png;base64,TWFu)").
Proof. reflexivity. Qed.

Example upsert_scenario :
  unitsOf "c1" syncedOnce = ["A"] /\ unitsOf "c1" syncedTwice = ["B"]
  /\ childrenOf 2 syncedTwice = ["B"] /\ childrenOf 3 syncedTwice = ["child"].
Proof. vm_compute. repeat split; reflexivity. Qed.

Example testConnection_succeeds : Client.testConnection demoRemote = inr true.
Proof. reflexivity. Qed.

(** ** retry *)

Section RetryFacts.
Import Retry.
Context {T : Type} (Math_pow : Q -> nat -> Q) (fn : nat -> Thrown + T)
  (opts : RetryOptions).

Lemma loop_invocations_le remaining attempt lastError :
  invocations (loop Math_pow fn opts remaining attempt lastError) <= remaining.
Proof.
  revert attempt lastError.
  induction remaining as [|k IH]; intros attempt lastError; simpl; [lia|].
  destruct (fn attempt) as [e|v]; simpl; [|lia].
  destruct (attempt =? maxAttempts opts)%nat; simpl; [lia|].
  destruct (onRetry opts attempt (toError e)); simpl; [lia|].
  specialize (IH (S attempt) (toError e)). lia.
Qed.

Lemma loop_first_success remaining attempt lastError k v :
  attempt <= k -> k < attempt + remaining ->
  quietBefore fn opts attempt k ->
  k <= maxAttempts opts ->
  fn k = inr v ->
  settled (loop Math_pow fn opts remaining attempt lastError) = inr v
  /\ invocations (loop Math_pow fn opts remaining attempt lastError) = S k - attempt.
Proof.
  revert attempt lastError.
  induction remaining as [|m IH]; intros attempt lastError Hle Hlt Hfail Hmax Hk;
    [lia|].
  simpl. destruct (Nat.eq_dec attempt k) as [->|Hne].
  - rewrite Hk. simpl. split; [reflexivity|lia].
  - destruct (Hfail attempt) as (e & He & Hquiet); [lia|]. rewrite He.
    destruct (Nat.eqb_spec attempt (maxAttempts opts)) as [Heq|_]; [lia|].
    rewrite Hquiet.
    simpl. destruct (IH (S attempt) (toError e)) as [Hs Hi]; try lia; auto.
    + intros j Hj. apply Hfail. lia.
    + split; [exact Hs|]. rewrite Hi. lia.
Qed.

Lemma loop_all_fail remaining attempt lastError :
  1 <= remaining -> attempt + remaining = S (maxAttempts opts) ->
  quietBefore fn opts attempt (maxAttempts opts) ->
  forall e, fn (maxAttempts opts) = inl e ->
    settled (loop Math_pow fn opts remaining attempt lastError) = inl (toError e)
    /\ invocations (loop Math_pow fn opts remaining attempt lastError) = remaining.
Proof.
  revert attempt lastError.
  induction remaining as [|m IH]; intros attempt lastError Hpos Hsum Hfail e Hlast;
    [lia|].
  simpl.
  destruct (Nat.eqb_spec attempt (maxAttempts opts)) as [Heq|Hne].
  - subst attempt. rewrite Hlast. simpl. split; [reflexivity | lia].
  - destruct (Hfail attempt) as (e' & He' & Hquiet); [lia|]. rewrite He', Hquiet.
    simpl. destruct (IH (S attempt) (toError e')) with (e := e) as (H2 & H3);
      try lia; auto.
    intros j Hj. apply Hfail. lia.
Qed.

(** A notification that throws ends the run. *)
Lemma loop_callback_throws remaining attempt lastError k e thrown :
  attempt <= k -> k < attempt + remaining ->
  quietBefore fn opts attempt k ->
  k < maxAttempts opts ->
  fn k = inl e -> onRetry opts k (toError e) = Some thrown ->
  settled (loop Math_pow fn opts remaining attempt lastError) = inl thrown
  /\ invocations (loop Math_pow fn opts remaining attempt lastError) = S k - attempt.
Proof.
  revert attempt lastError.
  induction remaining as [|m IH];
    intros attempt lastError Hle Hlt Hfail Hmax Hk Hthrow; [lia|].
  simpl. destruct (Nat.eq_dec attempt k) as [->|Hne].
  - rewrite Hk.
    destruct (Nat.eqb_spec k (maxAttempts opts)) as [Heq|_]; [lia|].
    rewrite Hthrow. simpl. split; [reflexivity | lia].
  - destruct (Hfail attempt) as (e' & He' & Hquiet); [lia|]. rewrite He'.
    destruct (Nat.eqb_spec attempt (maxAttempts opts)) as [Heq|_]; [lia|].
    rewrite Hquiet.
    simpl. destruct (IH (S attempt) (toError e')) as [Hs Hi]; try lia; auto.
    + intros j Hj. apply Hfail. lia.
    + split; [exact Hs|]. rewrite Hi. lia.
Qed.

Lemma loop_invocations_pos remaining attempt lastError :
  1 <= remaining ->
  1 <= invocations (loop Math_pow fn opts remaining attempt lastError).
Proof.
  destruct remaining as [|m]; [lia|]. intros _. simpl.
  destruct (fn attempt) as [e|v]; simpl; [|lia].
  destruct (attempt =? maxAttempts opts)%nat; simpl; [lia|].
  destruct (onRetry opts attempt (toError e)); simpl; lia.
Qed.

Lemma loop_slept remaining attempt lastError :
  attempt + remaining = S (maxAttempts opts) ->
  slept (loop Math_pow fn opts remaining attempt lastError)
  = map (delay Math_pow opts)
      (seq attempt
         (invocations (loop Math_pow fn opts remaining attempt lastError) - 1)).
Proof.
  revert attempt lastError.
  induction remaining as [|m IH]; intros attempt lastError Hsum; simpl;
    [reflexivity|].
  destruct (fn attempt) as [e|v]; simpl; [|reflexivity].
  destruct (Nat.eqb_spec attempt (maxAttempts opts)) as [Heq|Hne]; simpl;
    [reflexivity|].
  destruct (onRetry opts attempt (toError e)); simpl; [reflexivity|].
  rewrite IH by lia.
  pose proof (loop_invocations_pos m (S attempt) (toError e)) as Hpos.
  destruct (invocations (loop Math_pow fn opts m (S attempt) (toError e))) as [|i];
    [lia|].
  simpl. rewrite Nat.sub_0_r. reflexivity.
Qed.

Lemma delay_le_maxDelay attempt : (delay Math_pow opts attempt <= maxDelay opts)%Q.
Proof. unfold delay. apply Q.le_min_r. Qed.

End RetryFacts.

(** C10 (as amended).  With [maxAttempts = n >= 1], [retry] invokes [fn] at
    most [n] times.  As long as the invocations fail and [onRetry] returns,
    it goes on: it resolves with the value of the first invocation that
    succeeds; when all [n] invocations fail it rejects with the error of the
    [n]-th one if that is an [Error] object, and otherwise with a new
    [Error] whose message is the [String(...)] rendering of what was thrown;
    when [onRetry] throws after the failed attempt [k < n], it rejects at
    once with what the callback threw, after [k] invocations.  There is one
    sleep between two invocations; the [k]-th one, between the attempts [k]
    and [k+1], lasts
    [Math.min(initialDelay * Math.pow(backoffMultiplier, k-1), maxDelay)],
    the product being rounded to a double, and no sleep exceeds
    [maxDelay]. *)
Theorem retry_attempts_and_backoff {T : Type} (Math_pow : Q -> nat -> Q)
  (fn : nat -> Retry.Thrown + T) (opts : Retry.RetryOptions) (n : nat) :
  Retry.maxAttempts opts = n -> 1 <= n ->
  let run := Retry.retry Math_pow fn opts in
  Retry.invocations run <= n
  /\ (forall k v, 1 <= k <= n -> quietBefore fn opts 1 k -> fn k = inr v ->
        Retry.settled run = inr v /\ Retry.invocations run = k)
  /\ (quietBefore fn opts 1 n ->
      (forall message, fn n = inl (Retry.ErrorObject message) ->
         Retry.settled run = inl (Retry.ErrorObject message)
         /\ Retry.invocations run = n)
      /\ (forall rendering, fn n = inl (Retry.OtherValue rendering) ->
            Retry.settled run = inl (Retry.ErrorObject rendering)
            /\ Retry.invocations run = n))
  /\ (forall k message thrown, 1 <= k < n -> quietBefore fn opts 1 k ->
        (fn k = inl (Retry.ErrorObject message)
         \/ fn k = inl (Retry.OtherValue message)) ->
        Retry.onRetry opts k (Retry.ErrorObject message) = Some thrown ->
        Retry.settled run = inl thrown /\ Retry.invocations run = k)
  /\ List.length (Retry.slept run) = Retry.invocations run - 1
  /\ (forall k, 1 <= k < Retry.invocations run ->
        nth_error (Retry.slept run) (k - 1)
        = Some (Qmin (Js.mul64 (Retry.initialDelay opts)
                        (Math_pow (Retry.backoffMultiplier opts) (k - 1)))
                     (Retry.maxDelay opts)))
  /\ Forall (fun d => (d <= Retry.maxDelay opts)%Q) (Retry.slept run).
Proof.
  intros Hn Hpos run. subst run. unfold Retry.retry. subst n.
  pose proof (loop_slept Math_pow fn opts (Retry.maxAttempts opts) 1
                (Retry.OtherValue "undefined") eq_refl) as Hslept.
  split; [apply loop_invocations_le|].
  split; [|split; [|split; [|split; [|split]]]].
  - intros k v Hk Hquiet Hv.
    destruct (loop_first_success Math_pow fn opts (Retry.maxAttempts opts) 1
                (Retry.OtherValue "undefined") k v) as [H1 H2];
      auto; try lia.
    split; [exact H1|]. rewrite H2. lia.
  - intros Hquiet. split.
    + intros message Hlast.
      destruct (loop_all_fail Math_pow fn opts (Retry.maxAttempts opts) 1
                  (Retry.OtherValue "undefined") Hpos eq_refl Hquiet _ Hlast)
        as [H1 H2].
      split; assumption.
    + intros rendering Hlast.
      destruct (loop_all_fail Math_pow fn opts (Retry.maxAttempts opts) 1
                  (Retry.OtherValue "undefined") Hpos eq_refl Hquiet _ Hlast)
        as [H1 H2].
      split; assumption.
  - intros k message thrown Hk Hquiet Hfail Hthrow.
    assert (Hrun : exists e, fn k = inl e
                             /\ Retry.onRetry opts k (Retry.toError e) = Some thrown).
    { destruct Hfail as [Hfail|Hfail]; eexists; (split; [exact Hfail | exact Hthrow]). }
    destruct Hrun as (e & He & Hcall).
    destruct (loop_callback_throws Math_pow fn opts (Retry.maxAttempts opts) 1
                (Retry.OtherValue "undefined") k e thrown) as [H1 H2];
      auto; try lia.
    split; [exact H1|]. rewrite H2. lia.
  - rewrite Hslept. rewrite length_map, length_seq. reflexivity.
  - intros k Hk. rewrite Hslept.
    rewrite nth_error_map.
    rewrite nth_error_seq.
    destruct (Nat.ltb_spec (k - 1)
                (Retry.invocations
                   (Retry.loop Math_pow fn opts (Retry.maxAttempts opts) 1
                      (Retry.OtherValue "undefined")) - 1)) as [_|Hge]; [|lia].
    simpl. unfold Retry.delay. replace (S (k - 1) - 1) with (k - 1) by lia.
    reflexivity.
  - rewrite Hslept. apply Forall_forall. intros d Hd.
    apply in_map_iff in Hd. destruct Hd as (k & <- & _).
    apply delay_le_maxDelay.
Qed.

(** Witness for C10: the default options and a callback that succeeds at
    its third invocation. *)
Lemma retry_attempts_and_backoff_witness :
  (Retry.maxAttempts Retry.DEFAULT_OPTIONS = 3 /\ 1 <= 3
   /\ quietBefore
        (fun k => if (k <? 3)%nat then inl (Retry.OtherValue "busy") else inr k)
        Retry.DEFAULT_OPTIONS 1 3)
  /\ Retry.settled
       (Retry.retry Js.pow64
          (fun k => if (k <? 3)%nat then inl (Retry.OtherValue "busy") else inr k)
          Retry.DEFAULT_OPTIONS) = inr 3
  /\ Retry.invocations
       (Retry.retry Js.pow64
          (fun k => if (k <? 3)%nat then inl (Retry.OtherValue "busy") else inr k)
          Retry.DEFAULT_OPTIONS) = 3.
Proof.
  assert (Hquiet : quietBefore
                     (fun k => if (k <? 3)%nat then inl (Retry.OtherValue "busy")
                               else inr k)
                     Retry.DEFAULT_OPTIONS 1 3).
  { intros j Hj. exists (Retry.OtherValue "busy").
    destruct (Nat.ltb_spec j 3) as [_|Hge]; [split; reflexivity | lia]. }
  split; [split; [reflexivity | split; [lia | exact Hquiet]]|].
  destruct (retry_attempts_and_backoff Js.pow64
              (fun k => if (k <? 3)%nat then inl (Retry.OtherValue "busy")
                        else inr k)
              Retry.DEFAULT_OPTIONS 3 eq_refl (le_S 1 2 (le_S 1 1 (le_n 1))))
    as (_ & Hfirst & _).
  apply (Hfirst 3 3); [lia | exact Hquiet | reflexivity].
Defined.

(** C10, the claim as stated, fails.  A callback that throws a string three
    times makes [retry] raise an [Error] object, which is not what the third
    invocation threw.  And when [onRetry] throws, [retry] neither returns
    the result of the invocation that would succeed nor raises the error of
    an invocation: it rejects with what [onRetry] threw, after one
    invocation. *)
Lemma retry_rethrow_counterexample :
  (Retry.settled
     (Retry.retry (T := nat) Js.pow64 (fun _ => inl (Retry.OtherValue "busy"))
        Retry.DEFAULT_OPTIONS)
   = inl (Retry.ErrorObject "busy")
   /\ Retry.ErrorObject "busy" <> Retry.OtherValue "busy")
  /\ secondTimeLucky 1 = inl (Retry.ErrorObject "down")
  /\ secondTimeLucky 2 = inr 2
  /\ Retry.retry Js.pow64 secondTimeLucky stoppingOptions
     = {| Retry.settled := inl (Retry.ErrorObject "stop");
          Retry.invocations := 1; Retry.slept := [] |}.
Proof.
  split; [split; [vm_compute; reflexivity | discriminate]|].
  repeat split.
Qed.

(** ** sanitizePath *)

Section SanitizeFacts.
Import Js Obsidian.

Lemma trimStart_startsClean s : startsClean (trimStart s).
Proof.
  induction s as [|c r IH]; simpl; [exact I|].
  destruct (isWhiteSpace c) eqn:Hc; [exact IH|]. simpl. exact Hc.
Qed.

Lemma trimStart_of_startsClean s : startsClean s -> trimStart s = s.
Proof. destruct s as [|c r]; simpl; [reflexivity|]. intros ->. reflexivity. Qed.

Lemma trimEnd_startsClean s : startsClean s -> startsClean (trimEnd s).
Proof.
  destruct s as [|c r]; simpl; [auto|]. intros Hc.
  destruct (trimEnd r); [rewrite Hc|]; simpl; exact Hc.
Qed.

Lemma trimEnd_idempotent s : trimEnd (trimEnd s) = trimEnd s.
Proof.
  induction s as [|c r IH]; simpl; [reflexivity|].
  destruct (trimEnd r) as [|x r'] eqn:Hr.
  - destruct (isWhiteSpace c) eqn:Hc; simpl; [reflexivity|]. rewrite Hc. reflexivity.
  - change (trimEnd (c :: x :: r')) with
      (match trimEnd (x :: r') with
       | [] => if isWhiteSpace c then [] else [c]
       | r'' => c :: r''
       end).
    rewrite IH. reflexivity.
Qed.

Lemma trim_idempotent s : trim (trim s) = trim s.
Proof.
  unfold trim.
  rewrite (trimStart_of_startsClean (trimEnd (trimStart s))).
  - apply trimEnd_idempotent.
  - apply trimEnd_startsClean, trimStart_startsClean.
Qed.

Lemma collapseSpaces_normal inRun s : normalSpaces inRun (collapseSpaces inRun s).
Proof.
  revert inRun. induction s as [|c r IH]; intros inRun; simpl; [exact I|].
  destruct (isWhiteSpace c) eqn:Hc.
  - destruct inRun; [apply IH|]. simpl. auto.
  - simpl. rewrite Hc. apply IH.
Qed.

Lemma collapseSpaces_of_normal inRun s :
  normalSpaces inRun s -> collapseSpaces inRun s = s.
Proof.
  revert inRun. induction s as [|c r IH]; intros inRun; simpl; [reflexivity|].
  destruct (isWhiteSpace c) eqn:Hc.
  - intros (-> & -> & Hr). rewrite (IH true Hr). reflexivity.
  - intros Hr. rewrite (IH false Hr). reflexivity.
Qed.

Lemma normalSpaces_weaken inRun s : normalSpaces inRun s -> normalSpaces false s.
Proof.
  destruct s as [|c r]; simpl; [auto|].
  destruct (isWhiteSpace c); [|auto]. intros (_ & H1 & H2). auto.
Qed.

Lemma trimStart_normal inRun s :
  normalSpaces inRun s -> normalSpaces false (trimStart s).
Proof.
  revert inRun. induction s as [|c r IH]; intros inRun; simpl; [auto|].
  destruct (isWhiteSpace c) eqn:Hc.
  - intros (_ & _ & Hr). apply (IH true Hr).
  - intros Hr. simpl. rewrite Hc. exact Hr.
Qed.

Lemma trimEnd_normal inRun s :
  normalSpaces inRun s -> normalSpaces inRun (trimEnd s).
Proof.
  revert inRun. induction s as [|c r IH]; intros inRun; simpl; [auto|].
  destruct (isWhiteSpace c) eqn:Hc.
  - intros (H1 & H2 & Hr). specialize (IH true Hr).
    destruct (trimEnd r) as [|x r']; [exact I|].
    change (normalSpaces inRun (c :: x :: r')) with
      (if isWhiteSpace c
       then inRun = false /\ c = " "%char /\ normalSpaces true (x :: r')
       else normalSpaces false (x :: r')).
    rewrite Hc. auto.
  - intros Hr. specialize (IH false Hr).
    destruct (trimEnd r) as [|x r'].
    + simpl. rewrite Hc. exact I.
    + change (normalSpaces inRun (c :: x :: r')) with
        (if isWhiteSpace c
         then inRun = false /\ c = " "%char /\ normalSpaces true (x :: r')
         else normalSpaces false (x :: r')).
      rewrite Hc. exact IH.
Qed.

Lemma replaceAll_legal s : legal (replaceAll isIllegal (fun _ => ["-"%char]) s).
Proof.
  induction s as [|c r IH]; simpl; [constructor|].
  destruct (isIllegal c) eqn:Hc; simpl; constructor; auto.
Qed.

Lemma replaceAll_of_legal s :
  legal s -> replaceAll isIllegal (fun _ => ["-"%char]) s = s.
Proof.
  induction 1 as [|c r Hc Hr IH]; simpl; [reflexivity|].
  unfold replaceAll. simpl. rewrite Hc. simpl. f_equal. exact IH.
Qed.

Lemma collapseSpaces_legal inRun s : legal s -> legal (collapseSpaces inRun s).
Proof.
  intros H. revert inRun. induction H as [|c r Hc Hr IH]; intros inRun; simpl;
    [constructor|].
  destruct (isWhiteSpace c); [destruct inRun|].
  - apply IH.
  - constructor; [reflexivity | apply IH].
  - constructor; [exact Hc | apply IH].
Qed.

Lemma trimStart_legal s : legal s -> legal (trimStart s).
Proof.
  induction 1 as [|c r Hc Hr IH]; simpl; [constructor|].
  destruct (isWhiteSpace c); [exact IH|]. constructor; auto.
Qed.

Lemma trimEnd_legal s : legal s -> legal (trimEnd s).
Proof.
  induction 1 as [|c r Hc Hr IH]; simpl; [constructor|].
  destruct (trimEnd r) as [|x r'].
  - destruct (isWhiteSpace c); constructor; auto.
  - constructor; auto.
Qed.

Lemma sanitizeChars_idempotent s : sanitizeChars (sanitizeChars s) = sanitizeChars s.
Proof.
  unfold sanitizeChars.
  set (t := collapseSpaces false (replaceAll isIllegal (fun _ => ["-"%char]) s)).
  assert (Hlegal : legal (trim t)).
  { unfold trim. apply trimEnd_legal, trimStart_legal.
    apply collapseSpaces_legal, replaceAll_legal. }
  assert (Hnormal : normalSpaces false (trim t)).
  { unfold trim. apply trimEnd_normal. eapply trimStart_normal.
    apply collapseSpaces_normal. }
  rewrite (replaceAll_of_legal _ Hlegal).
  rewrite (collapseSpaces_of_normal _ _ Hnormal).
  apply trim_idempotent.
Qed.

End SanitizeFacts.

(** C8.  Sanitizing a path segment twice is the same as sanitizing it once,
    where [sanitizePath] replaces each of the nine illegal characters by a
    hyphen, replaces every run of white space by one blank and trims both
    ends. *)
Theorem sanitizePath_idempotent (x : string) :
  Obsidian.sanitizePath (Obsidian.sanitizePath x) = Obsidian.sanitizePath x.
Proof.
  unfold Obsidian.sanitizePath.
  rewrite list_ascii_of_string_of_list_ascii.
  rewrite sanitizeChars_idempotent. reflexivity.
Qed.

(** ** The exclusion filter *)

Section GlobFacts.
Import Js RegExp Obsidian.

Lemma replaceAll_app cls by_ s1 s2 :
  replaceAll cls by_ (s1 ++ s2) = (replaceAll cls by_ s1 ++ replaceAll cls by_ s2)%list.
Proof. unfold replaceAll. apply flat_map_app. Qed.

Lemma replaced_single c : replaced [c] = encode c.
Proof. destruct c as [[] [] [] [] [] [] [] []]; reflexivity. Qed.

Lemma replaced_cons c p : replaced (c :: p) = (encode c ++ replaced p)%list.
Proof.
  rewrite <- replaced_single. unfold replaced.
  change (c :: p) with ([c] ++ p)%list.
  rewrite !replaceAll_app. reflexivity.
Qed.

Lemma tokenize_encode c rest :
  tokenize (encode c ++ rest) = fold_right consOpt (tokenize rest) (tokensOf c).
Proof. destruct c as [[] [] [] [] [] [] [] []]; reflexivity. Qed.

Lemma tokenize_replaced p :
  tokenize (replaced p ++ ["$"%char])
  = Some (flat_map tokensOf p ++ [TEnd])%list.
Proof.
  induction p as [|c p IH]; [reflexivity|].
  rewrite replaced_cons, <- app_assoc, tokenize_encode, IH.
  simpl. unfold tokensOf.
  destruct (Ascii.eqb c "*"); [reflexivity|].
  destruct (Ascii.eqb c "?"); reflexivity.
Qed.

Lemma tokens_notStarHead p : notStarHead (flat_map tokensOf p ++ [TEnd]).
Proof.
  destruct p as [|c p]; simpl; [exact I|]. unfold tokensOf.
  destruct (Ascii.eqb c "*"); [exact I|].
  destruct (Ascii.eqb c "?"); exact I.
Qed.

Lemma parseTerms_atom a ts :
  notStarHead ts -> parseTerms (TAtom a :: ts) = consOpt (One a) (parseTerms ts).
Proof. destruct ts as [|[] ts]; simpl; intros H; try reflexivity. destruct H. Qed.

Lemma parseTerms_tokens p :
  parseTerms (flat_map tokensOf p ++ [TEnd])
  = Some (map termOf p ++ [AssertEnd])%list.
Proof.
  induction p as [|c p IH]; [reflexivity|].
  change (flat_map tokensOf (c :: p)) with (tokensOf c ++ flat_map tokensOf p)%list.
  change (map termOf (c :: p)) with (termOf c :: map termOf p).
  rewrite <- app_assoc.
  unfold tokensOf at 1, termOf at 1.
  destruct (Ascii.eqb c "*").
  - change (parseTerms ([TAtom Dot; TStar] ++ flat_map tokensOf p ++ [TEnd]))
      with (consOpt (Star Dot) (parseTerms (flat_map tokensOf p ++ [TEnd]))).
    rewrite IH. reflexivity.
  - destruct (Ascii.eqb c "?").
    + change ([TAtom Dot] ++ flat_map tokensOf p ++ [TEnd])%list
        with (TAtom Dot :: (flat_map tokensOf p ++ [TEnd])%list).
      rewrite parseTerms_atom by apply tokens_notStarHead.
      rewrite IH. reflexivity.
    + change ([TAtom (Char c)] ++ flat_map tokensOf p ++ [TEnd])%list
        with (TAtom (Char c) :: (flat_map tokensOf p ++ [TEnd])%list).
      rewrite parseTerms_atom by apply tokens_notStarHead.
      rewrite IH. reflexivity.
Qed.

Lemma tokenize_globToRegexSource p :
  tokenize (globToRegexSource p) = Some (TStart :: flat_map tokensOf p ++ [TEnd])%list.
Proof.
  unfold globToRegexSource. fold (replaced p).
  change (tokenize ("^"%char :: replaced p ++ ["$"%char]))
    with (consOpt TStart (tokenize (replaced p ++ ["$"%char]))).
  rewrite tokenize_replaced. reflexivity.
Qed.

Lemma parseTerms_anchored p :
  parseTerms (TStart :: flat_map tokensOf p ++ [TEnd])
  = Some (AssertStart :: map termOf p ++ [AssertEnd])%list.
Proof.
  change (parseTerms (TStart :: (flat_map tokensOf p ++ [TEnd])%list))
    with (consOpt AssertStart (parseTerms (flat_map tokensOf p ++ [TEnd]))).
  rewrite parseTerms_tokens. reflexivity.
Qed.

Lemma compile_globToRegexSource p :
  compile (globToRegexSource p) true
  = Some {| terms := AssertStart :: (map termOf p ++ [AssertEnd])%list;
            ignoreCase := true |}.
Proof.
  unfold compile.
  rewrite tokenize_globToRegexSource, parseTerms_anchored. reflexivity.
Qed.

End GlobFacts.

Section GlobMatching.
Import Js RegExp Obsidian.

Lemma matchTerms_star ic a rest atStart s :
  matchTerms ic (Star a :: rest) atStart s
  = matchTerms ic rest atStart s
    || match s with
       | c :: s' => atomMatches ic a c && matchTerms ic (Star a :: rest) false s'
       | [] => false
       end.
Proof. destruct s; reflexivity. Qed.

Lemma searchFrom_anchored re rest s :
  terms re = AssertStart :: rest -> searchFrom re false s = false.
Proof.
  intros Hre. induction s as [|c s IH]; simpl; rewrite Hre; simpl; auto.
Qed.

Lemma test_anchored re rest s :
  terms re = AssertStart :: rest ->
  test re s = matchTerms (ignoreCase re) rest true s.
Proof.
  intros Hre. unfold test.
  destruct s as [|c s]; simpl; rewrite Hre; simpl.
  - apply orb_false_r.
  - rewrite (searchFrom_anchored re rest s Hre). apply orb_false_r.
Qed.

Lemma termOf_star : termOf "*" = Star Dot.
Proof. reflexivity. Qed.

Lemma termOf_question : termOf "?" = One Dot.
Proof. reflexivity. Qed.

Lemma termOf_literal x : x <> "*"%char -> x <> "?"%char -> termOf x = One (Char x).
Proof.
  intros H1 H2. unfold termOf.
  destruct (Ascii.eqb_spec x "*"); [contradiction|].
  destruct (Ascii.eqb_spec x "?"); [contradiction|]. reflexivity.
Qed.

Lemma glob_star_cons wild c p s :
  wild c = true -> globMatches wild ("*"%char :: p) s ->
  globMatches wild ("*"%char :: p) (c :: s).
Proof.
  intros Hc H. inversion H as [|run p' s' Hrun Hp| |x d p' s' Hx]; subst.
  - change (c :: run ++ s')%list with ((c :: run) ++ s')%list.
    apply glob_star; [simpl; rewrite Hc; exact Hrun | exact Hp].
  - contradiction.
Qed.

Lemma matchTerms_sound p :
  forall atStart s,
    matchTerms true (map termOf p ++ [AssertEnd]) atStart s = true ->
    globMatches notLineTerminator p s.
Proof.
  induction p as [|x p IH]; intros atStart s H.
  - destruct s; [constructor | discriminate].
  - change (map termOf (x :: p) ++ [AssertEnd])%list
      with (termOf x :: (map termOf p ++ [AssertEnd])%list) in H.
    destruct (Ascii.eqb_spec x "*") as [->|Hstar].
    + rewrite termOf_star in H. revert atStart H.
      induction s as [|c s IHs]; intros atStart H;
        rewrite matchTerms_star in H; apply orb_true_iff in H;
        destruct H as [H|H].
      * apply (glob_star _ [] p []); [reflexivity | eapply IH; eauto].
      * discriminate.
      * apply (glob_star _ [] p (c :: s)); [reflexivity | eapply IH; eauto].
      * apply andb_true_iff in H. destruct H as [Hc H].
        apply glob_star_cons; [exact Hc | eapply IHs; eauto].
    + destruct (Ascii.eqb_spec x "?") as [->|Hq].
      * rewrite termOf_question in H. destruct s as [|c s]; [discriminate|].
        simpl in H. apply andb_true_iff in H. destruct H as [Hc H].
        apply glob_question; [exact Hc | eapply IH; eauto].
      * rewrite termOf_literal in H by assumption.
        destruct s as [|c s]; [discriminate|].
        simpl in H. apply andb_true_iff in H. destruct H as [Hc H].
        apply glob_literal; auto.
        -- apply Ascii.eqb_eq. exact Hc.
        -- eapply IH; eauto.
Qed.

Lemma matchTerms_complete p s :
  globMatches notLineTerminator p s ->
  forall atStart, matchTerms true (map termOf p ++ [AssertEnd]) atStart s = true.
Proof.
  induction 1 as [|run p s Hrun Hp IH|c p s Hc Hp IH|x c p s Hx1 Hx2 Hc Hp IH];
    intros atStart.
  - reflexivity.
  - change (map termOf ("*"%char :: p) ++ [AssertEnd])%list
      with (Star Dot :: (map termOf p ++ [AssertEnd])%list).
    revert atStart. induction run as [|c run IHrun]; intros atStart;
      rewrite matchTerms_star.
    + simpl app. rewrite IH. reflexivity.
    + simpl in Hrun. apply andb_true_iff in Hrun. destruct Hrun as [Hc Hrun].
      simpl app. apply orb_true_iff. right.
      apply andb_true_iff. split; [exact Hc | apply IHrun; exact Hrun].
  - change (map termOf ("?"%char :: p) ++ [AssertEnd])%list
      with (One Dot :: (map termOf p ++ [AssertEnd])%list).
    simpl. apply andb_true_iff. split; [exact Hc | apply IH].
  - change (map termOf (x :: p) ++ [AssertEnd])%list
      with (termOf x :: (map termOf p ++ [AssertEnd])%list).
    rewrite termOf_literal by assumption.
    simpl. apply andb_true_iff. split; [|apply IH].
    apply Ascii.eqb_eq. exact Hc.
Qed.

(** A compiled glob accepts exactly the names that the glob matches. *)
Lemma globToRegex_test pattern :
  exists regex, globToRegex pattern = Some regex
    /\ forall name,
         test regex name = true
         <-> globMatches notLineTerminator (list_ascii_of_string pattern) name.
Proof.
  unfold globToRegex. rewrite compile_globToRegexSource.
  eexists. split; [reflexivity|]. intros name.
  erewrite test_anchored by reflexivity. simpl ignoreCase. split.
  - apply matchTerms_sound.
  - intros H. apply matchTerms_complete. exact H.
Qed.

Lemma some_total {A : Type} (f : A -> option bool) (l : list A) :
  (forall x, In x l -> exists b, f x = Some b) ->
  exists b, some f l = Some b
    /\ (b = true <-> exists x, In x l /\ f x = Some true).
Proof.
  induction l as [|x l IH]; intros Htotal.
  - exists false. split; [reflexivity|]. split; [discriminate|].
    intros (x & [] & _).
  - simpl. destruct (Htotal x (or_introl eq_refl)) as [[|] Hx]; rewrite Hx.
    + exists true. split; [reflexivity|]. split; [|reflexivity].
      intros _. exists x. split; [left; reflexivity | exact Hx].
    + destruct IH as (b & Hb & Hiff).
      { intros y Hy. apply Htotal. right. exact Hy. }
      exists b. split; [exact Hb|]. rewrite Hiff. split.
      * intros (y & Hy & Hfy). exists y. split; [right; exact Hy | exact Hfy].
      * intros (y & [<-|Hy] & Hfy); [congruence|]. exists y. split; assumption.
Qed.

Lemma shouldExclude_empty name : shouldExclude [] name = Some false.
Proof. reflexivity. Qed.

Lemma globMatches_single_line p s :
  forallb notLineTerminator s = true ->
  globMatches anyCharacter p s -> globMatches notLineTerminator p s.
Proof.
  intros Hs H. induction H as [|run p s Hrun Hp IH|c p s Hc Hp IH|x c p s Hx1 Hx2 Hc Hp IH].
  - constructor.
  - rewrite forallb_app in Hs. apply andb_true_iff in Hs. destruct Hs as [H1 H2].
    apply glob_star; auto.
  - simpl in Hs. apply andb_true_iff in Hs. destruct Hs as [H1 H2].
    apply glob_question; auto.
  - simpl in Hs. apply andb_true_iff in Hs. destruct Hs as [H1 H2].
    apply glob_literal; auto.
Qed.

Lemma globMatches_any p s :
  globMatches notLineTerminator p s -> globMatches anyCharacter p s.
Proof.
  induction 1 as [|run p s Hrun Hp IH|c p s Hc Hp IH|x c p s Hx1 Hx2 Hc Hp IH].
  - constructor.
  - apply glob_star; auto. clear -run. induction run; simpl; auto.
  - apply glob_question; auto.
  - apply glob_literal; auto.
Qed.

End GlobMatching.

(** The filter answers on every input, and what it answers. *)
Lemma shouldExclude_characterised (patterns : list string) (name : string) :
  (exists answer, Obsidian.shouldExclude patterns name = Some answer
     /\ (answer = true <-> excludedBy notLineTerminator patterns name))
  /\ Obsidian.shouldExclude [] name = Some false.
Proof.
  split; [|reflexivity].
  unfold Obsidian.shouldExclude.
  destruct patterns as [|p0 rest]; simpl List.length; cbv iota.
  - exists false. split; [reflexivity|]. split; [discriminate|].
    intros (p & [] & _).
  - change (S (List.length rest) =? 0)%nat with false. cbv iota.
    set (f := fun pattern : string =>
                match Obsidian.globToRegex pattern with
                | Some regex => Some (RegExp.test regex (list_ascii_of_string name))
                | None => None
                end).
    destruct (some_total f (p0 :: rest)) as (b & Hb & Hiff).
    { intros p _. unfold f.
      destruct (globToRegex_test p) as (regex & -> & _). eauto. }
    exists b. split; [exact Hb|]. rewrite Hiff. unfold excludedBy. split.
    + intros (p & Hin & Hp). exists p. split; [exact Hin|].
      unfold f in Hp. destruct (globToRegex_test p) as (regex & Hre & Htest).
      rewrite Hre in Hp. apply Htest. congruence.
    + intros (p & Hin & Hp). exists p. split; [exact Hin|].
      unfold f. destruct (globToRegex_test p) as (regex & -> & Htest).
      f_equal. apply Htest. exact Hp.
Qed.

Section StarPattern.
Import Js Obsidian.

Lemma shouldExclude_true_iff patterns name :
  shouldExclude patterns name = Some true
  <-> excludedBy notLineTerminator patterns name.
Proof.
  destruct (shouldExclude_characterised patterns name) as [(b & Hb & Hiff) _].
  rewrite Hb. split.
  - intros Heq. apply Hiff. congruence.
  - intros H. f_equal. apply Hiff. exact H.
Qed.

Lemma excludedBy_single wild pattern name :
  excludedBy wild [pattern] name
  <-> globMatches wild (list_ascii_of_string pattern) (list_ascii_of_string name).
Proof.
  unfold excludedBy. split.
  - intros (p & [<-|[]] & Hp). exact Hp.
  - intros H. exists pattern. split; [left; reflexivity | exact H].
Qed.

Lemma globMatches_nil wild name : globMatches wild [] name <-> name = [].
Proof.
  split; [intros H; inversion H; reflexivity | intros ->; constructor].
Qed.

Lemma globMatches_star wild q name :
  globMatches wild ("*"%char :: q) name
  <-> exists run rest, name = (run ++ rest)%list /\ forallb wild run = true
                       /\ globMatches wild q rest.
Proof.
  split.
  - intros H. inversion H as [|run p s Hrun Hp| |x c p s Hx]; subst;
      [eauto | contradiction].
  - intros (run & rest & -> & Hrun & Hq). apply glob_star; assumption.
Qed.

Lemma wildcards_all_or_some (s : list ascii) :
  forallb notLineTerminator s = negb (existsb isLineTerminator s).
Proof.
  induction s as [|c s IH]; [reflexivity|].
  simpl. rewrite IH. unfold notLineTerminator.
  destruct (isLineTerminator c); reflexivity.
Qed.

Lemma shouldExclude_star name :
  shouldExclude ["*"] name
  = Some (negb (existsb isLineTerminator (list_ascii_of_string name))).
Proof.
  destruct (shouldExclude_characterised ["*"] name) as [(b & Hb & _) _].
  rewrite Hb. f_equal.
  assert (Hiff : b = true
                 <-> forallb notLineTerminator (list_ascii_of_string name) = true).
  { assert (Hb' : b = true <-> shouldExclude ["*"] name = Some true)
      by (rewrite Hb; split; congruence).
    rewrite Hb', shouldExclude_true_iff, excludedBy_single.
    change (list_ascii_of_string "*") with ["*"%char].
    rewrite globMatches_star. split.
    - intros (run & rest & Hname & Hrun & Hrest). apply globMatches_nil in Hrest.
      subst rest. rewrite app_nil_r in Hname. rewrite Hname. exact Hrun.
    - intros Hall. exists (list_ascii_of_string name), [].
      rewrite app_nil_r. repeat split; [exact Hall | constructor]. }
  rewrite <- wildcards_all_or_some.
  destruct b; destruct (forallb notLineTerminator (list_ascii_of_string name));
    try reflexivity.
  - destruct Hiff as [H _]. symmetry. apply H. reflexivity.
  - destruct Hiff as [_ H]. apply H. reflexivity.
Qed.

End StarPattern.

(** C2.  Read as the claim words it, with [*] for any run of characters,
    the pattern [*] matches every name.  The filter does not exclude with it
    any name that holds a line feed or a carriage return: [globToRegex]
    turns [*] into [.*] and builds the RegExp with the flag [i] alone, and
    without the flag [s] a dot stops at a line terminator.  So the name made
    of [a], a line feed and [b] is not excluded by [*], while an ASCII name
    without line terminator is. *)
Theorem shouldExclude_misses_line_terminators (name : string) :
  excludedBy anyCharacter ["*"] name
  /\ (existsb Js.isLineTerminator (list_ascii_of_string name) = true ->
      Obsidian.shouldExclude ["*"] name = Some false)
  /\ (Js.asciiText name = true ->
      existsb Js.isLineTerminator (list_ascii_of_string name) = false ->
      Obsidian.shouldExclude ["*"] name = Some true)
  /\ Obsidian.shouldExclude ["*"] ("a" ++ Obsidian.nl ++ "b") = Some false
  /\ Obsidian.shouldExclude ["*"] "ab" = Some true.
Proof.
  split; [|split; [|split; [|split]]].
  - exists "*". split; [left; reflexivity|].
    apply globMatches_star. exists (list_ascii_of_string name), [].
    rewrite app_nil_r. repeat split; [|constructor].
    induction (list_ascii_of_string name) as [|c s IH]; [reflexivity | exact IH].
  - intros Hline. rewrite shouldExclude_star, Hline. reflexivity.
  - intros _ Hline. rewrite shouldExclude_star, Hline. reflexivity.
  - reflexivity.
  - reflexivity.
Qed.

(** Witness for C2: a name of two lines. *)
Lemma shouldExclude_misses_line_terminators_witness :
  existsb Js.isLineTerminator
    (list_ascii_of_string ("Header" ++ Obsidian.nl ++ "v2")) = true
  /\ excludedBy anyCharacter ["*"] ("Header" ++ Obsidian.nl ++ "v2")
  /\ Obsidian.shouldExclude ["*"] ("Header" ++ Obsidian.nl ++ "v2") = Some false.
Proof.
  split; [reflexivity|].
  destruct (shouldExclude_misses_line_terminators ("Header" ++ Obsidian.nl ++ "v2"))
    as (Hglob & Hline & _).
  split; [exact Hglob | apply Hline; reflexivity].
Defined.

(** On ASCII names without line terminators the filter agrees, for ASCII
    patterns, with the glob of the specification. *)
Corollary shouldExclude_single_line (patterns : list string) (name : string) :
  forallb Js.asciiText patterns = true -> Js.asciiText name = true ->
  forallb notLineTerminator (list_ascii_of_string name) = true ->
  (Obsidian.shouldExclude patterns name = Some true
   <-> excludedBy anyCharacter patterns name).
Proof.
  intros _ _ Hname.
  destruct (shouldExclude_characterised patterns name) as [(b & Hb & Hiff) _].
  rewrite Hb. split.
  - intros Heq. assert (b = true) as Hbt by congruence.
    apply Hiff in Hbt. destruct Hbt as (p & Hin & Hp).
    exists p. split; [exact Hin | apply globMatches_any; exact Hp].
  - intros (p & Hin & Hp). f_equal. apply Hiff.
    exists p. split; [exact Hin | apply globMatches_single_line; assumption].
Qed.

(** ** Rounding to a double *)

Section FloatFacts.
Import Js.

Lemma roundHalfEven_bounds q :
  (Qfloor q <= roundHalfEven q <= Qfloor q + 1)%Z.
Proof.
  unfold roundHalfEven.
  destruct (Qcompare (q - inject_Z (Qfloor q)) (1 # 2)); [|lia..].
  destruct (Z.even (Qfloor q)); lia.
Qed.

Lemma roundHalfEven_mono x y : (x <= y)%Q -> (roundHalfEven x <= roundHalfEven y)%Z.
Proof.
  intros Hxy. pose proof (Qfloor_resp_le x y Hxy) as Hfloor.
  destruct (Z.eq_dec (Qfloor x) (Qfloor y)) as [Heq|Hne].
  - unfold roundHalfEven. rewrite <- Heq.
    assert (Hfrac : (x - inject_Z (Qfloor x) <= y - inject_Z (Qfloor x))%Q).
    { apply Qplus_le_compat; [exact Hxy | apply Qle_refl]. }
    destruct (Qcompare_spec (x - inject_Z (Qfloor x)) (1 # 2)) as [Hx|Hx|Hx];
      destruct (Qcompare_spec (y - inject_Z (Qfloor x)) (1 # 2)) as [Hy|Hy|Hy];
      try (destruct (Z.even (Qfloor x))); try lia; exfalso; lra.
  - pose proof (roundHalfEven_bounds x). pose proof (roundHalfEven_bounds y). lia.
Qed.

Lemma roundHalfEven_inject n : roundHalfEven (inject_Z n) = n.
Proof.
  unfold roundHalfEven. rewrite Qfloor_Z.
  assert (H : (inject_Z n - inject_Z n == 0)%Q) by ring.
  destruct (Qcompare_spec (inject_Z n - inject_Z n) (1 # 2)) as [Heq|Hlt|Hgt].
  - rewrite H in Heq. discriminate.
  - reflexivity.
  - rewrite H in Hgt. discriminate.
Qed.


Lemma two_nonzero : ~ (2 == 0)%Q.
Proof. discriminate. Qed.

Lemma pow2_pos k : (0 < 2 ^ k)%Q.
Proof. apply Qpower_0_lt. reflexivity. Qed.

Lemma pow2_succ k : (2 ^ (k + 1) == 2 * 2 ^ k)%Q.
Proof. rewrite Qpower_plus by exact two_nonzero. rewrite Qpower_1_r. ring. Qed.

Lemma pow2_le a b : (a <= b)%Z -> (2 ^ a <= 2 ^ b)%Q.
Proof. intros H. apply Qpower_le_compat_l; [exact H | discriminate]. Qed.

Lemma pow2_lt_inv a b : (2 ^ a < 2 ^ b)%Q -> (a < b)%Z.
Proof. intros H. apply (Qpower_lt_compat_l_inv 2); [exact H | reflexivity]. Qed.

Lemma log2_bounds n :
  (0 < n)%Z ->
  (2 ^ Z.log2 n <= inject_Z n)%Q /\ (inject_Z n < 2 * 2 ^ Z.log2 n)%Q.
Proof.
  intros Hn. destruct (Z.log2_spec n Hn) as [Hlo Hhi].
  pose proof (Z.log2_nonneg n) as Hnn.
  split.
  - change 2%Q with (inject_Z 2). rewrite <- Zpower_Qpower by exact Hnn.
    rewrite <- Zle_Qle. exact Hlo.
  - rewrite <- pow2_succ. change 2%Q with (inject_Z 2).
    rewrite <- Zpower_Qpower by lia. rewrite <- Zlt_Qlt. exact Hhi.
Qed.

Lemma floorLog2_spec q :
  (0 < q)%Q -> (2 ^ floorLog2 q <= q)%Q /\ (q < 2 ^ (floorLog2 q + 1))%Q.
Proof.
  intros Hq. unfold floorLog2.
  assert (Hn : (0 < Qnum q)%Z).
  { destruct q as [n d]. unfold Qlt in Hq. simpl in *. lia. }
  destruct (log2_bounds (Qnum q) Hn) as [Hn1 Hn2].
  destruct (log2_bounds (Zpos (Qden q)) eq_refl) as [Hd1 Hd2].
  set (a := Z.log2 (Qnum q)) in *. set (b := Z.log2 (Zpos (Qden q))) in *.
  assert (Hq' : (q * inject_Z (Zpos (Qden q)) == inject_Z (Qnum q))%Q).
  { destruct q as [n d]. simpl. unfold Qeq, Qmult, inject_Z. simpl. lia. }
  assert (Hab : (2 ^ (a - b) * 2 ^ b == 2 ^ a)%Q).
  { rewrite <- Qpower_plus by exact two_nonzero. replace (a - b + b)%Z with a by lia.
    reflexivity. }
  pose proof (pow2_pos a) as Ha. pose proof (pow2_pos b) as Hb.
  pose proof (pow2_pos (a - b)) as Hk.
  assert (Hup : (q < 2 * 2 ^ (a - b))%Q).
  { set (D := inject_Z (Z.pos (Qden q))) in *. set (N := inject_Z (Qnum q)) in *.
    set (A := (2 ^ a)%Q) in *. set (B := (2 ^ b)%Q) in *. set (K := (2 ^ (a - b))%Q) in *.
    nra. }
  assert (Hlow : (2 ^ (a - b) < 2 * q)%Q).
  { set (D := inject_Z (Z.pos (Qden q))) in *. set (N := inject_Z (Qnum q)) in *.
    set (A := (2 ^ a)%Q) in *. set (B := (2 ^ b)%Q) in *. set (K := (2 ^ (a - b))%Q) in *.
    nra. }
  destruct (Qle_bool (2 ^ (a - b)) q) eqn:Hle.
  - apply Qle_bool_iff in Hle. split; [exact Hle|]. rewrite pow2_succ. exact Hup.
  - assert (Hlt : (q < 2 ^ (a - b))%Q).
    { apply Qnot_le_lt. intros H. apply Qle_bool_iff in H. congruence. }
    replace (a - b - 1 + 1)%Z with (a - b)%Z by lia. split; [|exact Hlt].
    assert (Hhalf : (2 * 2 ^ (a - b - 1) == 2 ^ (a - b))%Q).
    { rewrite <- pow2_succ. replace (a - b - 1 + 1)%Z with (a - b)%Z by lia.
      reflexivity. }
    set (K := (2 ^ (a - b))%Q) in *. set (K' := (2 ^ (a - b - 1))%Q) in *. lra.
Qed.

Lemma floorLog2_unique q k :
  (2 ^ k <= q)%Q -> (q < 2 ^ (k + 1))%Q -> floorLog2 q = k.
Proof.
  intros Hlo Hhi.
  assert (Hq : (0 < q)%Q) by (eapply Qlt_le_trans; [apply (pow2_pos k) | exact Hlo]).
  destruct (floorLog2_spec q Hq) as [Hlo' Hhi'].
  assert (H1 : (floorLog2 q < k + 1)%Z).
  { apply pow2_lt_inv. eapply Qle_lt_trans; [exact Hlo' | exact Hhi]. }
  assert (H2 : (k < floorLog2 q + 1)%Z).
  { apply pow2_lt_inv. eapply Qle_lt_trans; [exact Hlo | exact Hhi']. }
  lia.
Qed.

Lemma floorLog2_mono x y :
  (0 < x)%Q -> (x <= y)%Q -> (floorLog2 x <= floorLog2 y)%Z.
Proof.
  intros Hx Hxy.
  assert (Hy : (0 < y)%Q) by (eapply Qlt_le_trans; eassumption).
  destruct (floorLog2_spec x Hx) as [Hlo _].
  destruct (floorLog2_spec y Hy) as [_ Hhi].
  assert (H : (floorLog2 x < floorLog2 y + 1)%Z).
  { apply pow2_lt_inv. eapply Qle_lt_trans; [exact Hlo|].
    eapply Qle_lt_trans; [exact Hxy | exact Hhi]. }
  lia.
Qed.


Lemma pow2_split a b : (2 ^ a == 2 ^ (a - b) * 2 ^ b)%Q.
Proof.
  rewrite <- Qpower_plus by exact two_nonzero.
  replace (a - b + b)%Z with a by lia. reflexivity.
Qed.

Lemma pow2_inject k : (0 <= k)%Z -> (2 ^ k == inject_Z (2 ^ k))%Q.
Proof. intros Hk. rewrite Zpower_Qpower by exact Hk. reflexivity. Qed.

Lemma scaled_le x y e : (x <= y)%Q -> (x / 2 ^ e <= y / 2 ^ e)%Q.
Proof.
  intros H. unfold Qdiv. apply Qmult_le_compat_r; [exact H|].
  apply Qinv_le_0_compat. apply Qlt_le_weak. apply pow2_pos.
Qed.

Lemma pow2_scaled a e : (2 ^ a / 2 ^ e == 2 ^ (a - e))%Q.
Proof. rewrite Qpower_minus by exact two_nonzero. reflexivity. Qed.

Lemma fl64pos_eq q :
  (fl64pos q
   == inject_Z (roundHalfEven (q / 2 ^ Z.max (-1074) (floorLog2 q - 52)))
      * 2 ^ Z.max (-1074) (floorLog2 q - 52))%Q.
Proof. unfold fl64pos. apply Qred_correct. Qed.

Lemma fl64pos_nonneg q : (0 < q)%Q -> (0 <= fl64pos q)%Q.
Proof.
  intros Hq. rewrite fl64pos_eq.
  apply Qmult_le_0_compat; [|apply Qlt_le_weak, pow2_pos].
  change 0%Q with (inject_Z 0). rewrite <- Zle_Qle.
  etransitivity; [|apply roundHalfEven_bounds].
  change 0%Z with (Qfloor 0). apply Qfloor_resp_le.
  apply Qlt_le_weak. apply Qlt_shift_div_l; [apply pow2_pos|].
  rewrite Qmult_0_l. exact Hq.
Qed.

Lemma fl64pos_mono x y : (0 < x)%Q -> (x <= y)%Q -> (fl64pos x <= fl64pos y)%Q.
Proof.
  intros Hx Hxy.
  assert (Hy : (0 < y)%Q) by (eapply Qlt_le_trans; eassumption).
  pose proof (floorLog2_mono x y Hx Hxy) as Hk.
  rewrite !fl64pos_eq.
  set (ex := Z.max (-1074) (floorLog2 x - 52)).
  set (ey := Z.max (-1074) (floorLog2 y - 52)).
  destruct (Z.eq_dec ex ey) as [Heq|Hne].
  - rewrite <- Heq. apply Qmult_le_compat_r; [|apply Qlt_le_weak, pow2_pos].
    rewrite <- Zle_Qle. apply roundHalfEven_mono. apply scaled_le. exact Hxy.
  - assert (Hey : ey = (floorLog2 y - 52)%Z) by lia.
    assert (Hlt : (ex < ey)%Z) by lia.
    destruct (floorLog2_spec x Hx) as [_ Hxhi].
    destruct (floorLog2_spec y Hy) as [Hylo _].
    apply Qle_trans with (2 ^ floorLog2 y)%Q.
    + rewrite (pow2_split (floorLog2 y) ex).
      apply Qmult_le_compat_r; [|apply Qlt_le_weak, pow2_pos].
      rewrite (pow2_inject (floorLog2 y - ex)) by lia. rewrite <- Zle_Qle.
      rewrite <- (roundHalfEven_inject (2 ^ (floorLog2 y - ex))).
      apply roundHalfEven_mono. rewrite <- (pow2_inject (floorLog2 y - ex)) by lia.
      rewrite <- pow2_scaled. apply scaled_le.
      apply Qlt_le_weak. eapply Qlt_le_trans; [exact Hxhi|].
      apply pow2_le. lia.
    + rewrite (pow2_split (floorLog2 y) ey) at 1.
      apply Qmult_le_compat_r; [|apply Qlt_le_weak, pow2_pos].
      rewrite (pow2_inject (floorLog2 y - ey)) by lia. rewrite <- Zle_Qle.
      rewrite <- (roundHalfEven_inject (2 ^ (floorLog2 y - ey))) at 1.
      apply roundHalfEven_mono. rewrite <- (pow2_inject (floorLog2 y - ey)) by lia.
      rewrite <- pow2_scaled. apply scaled_le. exact Hylo.
Qed.

Lemma Qnum_sign q :
  match Qnum q with
  | Z0 => (q == 0)%Q
  | Zpos _ => (0 < q)%Q
  | Zneg _ => (q < 0)%Q
  end.
Proof. destruct q as [[|n|n] d]; reflexivity. Qed.

Lemma fl64_sign q :
  ((q == 0)%Q /\ fl64 q = 0%Q)
  \/ ((0 < q)%Q /\ fl64 q = fl64pos q)
  \/ ((q < 0)%Q /\ fl64 q = (- fl64pos (- q))%Q).
Proof.
  unfold fl64. pose proof (Qnum_sign q) as H.
  destruct (Qnum q); [left | right; left | right; right]; split; auto.
Qed.

(** Rounding to a double is monotone. *)
Lemma fl64_mono x y : (x <= y)%Q -> (fl64 x <= fl64 y)%Q.
Proof.
  intros Hxy.
  destruct (fl64_sign x) as [[Hx ->]|[[Hx ->]|[Hx ->]]];
    destruct (fl64_sign y) as [[Hy ->]|[[Hy ->]|[Hy ->]]]; try lra.
  - apply fl64pos_nonneg. exact Hy.
  - apply fl64pos_mono; assumption.
  - pose proof (fl64pos_nonneg (- x)). lra.
  - pose proof (fl64pos_nonneg (- x)). pose proof (fl64pos_nonneg y). lra.
  - pose proof (fl64pos_mono (- y) (- x)). lra.
Qed.

End FloatFacts.

(** ** rgbaToHex *)

Section ColorFacts.
Import Js Color.

Lemma padded_table :
  forallb (fun n => String.eqb (padded (Z.of_nat n)) (twoDigits (Z.of_nat n)))
    (seq 0 256) = true.
Proof. vm_compute. reflexivity. Qed.

Lemma padded_byte k : (0 <= k <= 255)%Z -> padded k = twoDigits k.
Proof.
  intros Hk. pose proof padded_table as Htable.
  rewrite forallb_forall in Htable.
  specialize (Htable (Z.to_nat k)).
  rewrite Z2Nat.id in Htable by lia.
  apply String.eqb_eq. apply Htable.
  apply in_seq. lia.
Qed.

Lemma mul64_channel x : (0 <= x <= 1)%Q -> (0 <= mul64 x 255 <= 255)%Q.
Proof.
  intros [H0 H1]. unfold mul64. split.
  - change 0%Q with (fl64 0). apply fl64_mono. lra.
  - change 255%Q with (fl64 255) at 2. apply fl64_mono. lra.
Qed.

Lemma Math_round_channel x :
  (0 <= x <= 1)%Q -> (0 <= Math_round (mul64 x 255) <= 255)%Z.
Proof.
  intros Hx. destruct (mul64_channel x Hx) as [H0 H1]. unfold Math_round. split.
  - apply (Qfloor_resp_le (1 # 2)). lra.
  - apply (Qfloor_resp_le _ (255 + (1 # 2))). lra.
Qed.

Lemma toHex_channel x :
  (0 <= x <= 1)%Q -> toHex x = twoDigits (Math_round (mul64 x 255)).
Proof.
  intros Hx. apply (padded_byte (Math_round (mul64 x 255))).
  apply Math_round_channel. exact Hx.
Qed.

End ColorFacts.

(** C5.  For channels in [[0,1]], [rgbaToHex] turns each channel into the
    integer [Math.round(n * 255)] (the product being the double nearest to
    the exact one), which lies in 0..255, and renders it as two lower-case
    zero-padded hex digits; the digits of the alpha channel are appended
    exactly when [a < 1], so an opaque colour is [#] plus six digits and a
    translucent one [#] plus eight; the four fixtures hold.  The rounding of
    the product shows on the double nearest to 0.3, whose product with 255
    is the double 76.5: the digits are [4d]. *)
Theorem rgbaToHex_two_digits_per_channel (r g b a : Q) :
  (0 <= r <= 1)%Q -> (0 <= g <= 1)%Q -> (0 <= b <= 1)%Q -> (0 <= a <= 1)%Q ->
  let byte := fun x : Q => Js.Math_round (Js.mul64 x 255) in
  ((0 <= byte r <= 255)%Z /\ (0 <= byte g <= 255)%Z
   /\ (0 <= byte b <= 255)%Z /\ (0 <= byte a <= 255)%Z)
  /\ ((a < 1)%Q ->
      Color.rgbaToHex r g b a
      = "#" ++ twoDigits (byte r) ++ twoDigits (byte g) ++ twoDigits (byte b)
          ++ twoDigits (byte a)
      /\ String.length (Color.rgbaToHex r g b a) = 9)
  /\ ((1 <= a)%Q ->
      Color.rgbaToHex r g b a
      = "#" ++ twoDigits (byte r) ++ twoDigits (byte g) ++ twoDigits (byte b)
      /\ String.length (Color.rgbaToHex r g b a) = 7)
  /\ Color.rgbaToHex 0 0 0 1 = "#000000"
  /\ Color.rgbaToHex 1 1 1 1 = "#ffffff"
  /\ Color.rgbaToHex 1 0 0 (1 # 2) = "#ff000080"
  /\ Color.rgbaToHex 0 1 0 1 = "#00ff00"
  /\ Color.rgbaToHex (Js.fl64 (3 # 10)) 0 0 1 = "#4d0000".
Proof.
  intros Hr Hg Hb Ha byte.
  split; [|split; [|split]].
  - repeat split; apply Math_round_channel; assumption.
  - intros Hlt. unfold Color.rgbaToHex.
    destruct (Qlt_le_dec a 1) as [_|Hge];
      [|exfalso; apply (Qlt_not_le _ _ Hlt Hge)].
    rewrite !toHex_channel by assumption. split; reflexivity.
  - intros Hge. unfold Color.rgbaToHex.
    destruct (Qlt_le_dec a 1) as [Hlt|_];
      [exfalso; apply (Qlt_not_le _ _ Hlt Hge)|].
    rewrite !toHex_channel by assumption. split; reflexivity.
  - repeat split; vm_compute; reflexivity.
Qed.

(** Witness for C5: translucent red, the third fixture. *)
Lemma rgbaToHex_two_digits_per_channel_witness :
  ((0 <= 1 <= 1)%Q /\ (0 <= 0 <= 1)%Q /\ (0 <= 1 # 2 <= 1)%Q)
  /\ String.length (Color.rgbaToHex 1 0 0 (1 # 2)) = 9.
Proof.
  assert (H1 : (0 <= 1 <= 1)%Q) by (split; discriminate).
  assert (H0 : (0 <= 0 <= 1)%Q) by (split; discriminate).
  assert (Hh : (0 <= 1 # 2 <= 1)%Q) by (split; discriminate).
  split; [auto|].
  destruct (rgbaToHex_two_digits_per_channel 1 0 0 (1 # 2) H1 H0 H0 Hh)
    as (_ & Hlt & _).
  apply Hlt. reflexivity.
Defined.

(** ** extractImageUrl *)

Section ImageFacts.
Import Zeplin.

Lemma firstPresent_None candidates :
  firstPresent candidates = None
  <-> Forall (fun c => Js.truthy c = false) candidates.
Proof.
  induction candidates as [|c rest IH]; simpl.
  - split; [constructor | reflexivity].
  - destruct (Js.truthy c) eqn:Hc.
    + split.
      * intros ->. discriminate.
      * intros H. inversion H; congruence.
    + rewrite IH. split.
      * intros H. constructor; assumption.
      * intros H. inversion H; assumption.
Qed.

Lemma Logseq_extractImageUrl_firstPresent item :
  Logseq.extractImageUrl item = firstPresent (consultedCandidates item).
Proof.
  unfold Logseq.extractImageUrl, consultedCandidates, assetCandidates,
    fallbackCandidates. simpl.
  repeat match goal with
         | |- context [Js.truthy ?c] => destruct (Js.truthy c) eqn:?
         end; try reflexivity.
  (* an empty or missing [images] array has no first entry *)
  all: destruct item as [img [[|first rest]|] lv]; simpl in *; congruence.
Qed.

Lemma Obsidian_extractImageUrl_firstPresent item :
  Obsidian.extractImageUrl item = firstPresent (assetCandidates (image item)).
Proof.
  unfold Obsidian.extractImageUrl, assetCandidates. simpl.
  repeat match goal with
         | |- context [Js.truthy ?c] => destruct (Js.truthy c) eqn:?
         end; reflexivity.
Qed.

End ImageFacts.

(** C3 (as amended).  [extractImageUrl] returns the first present
    (non-empty) field in a fixed order and [null] exactly when none of the
    fields it consults is present.  The Logseq synchronizer consults the
    primary image (large thumbnail, original URL, medium thumbnail, generic
    URL), then the latest-version image and then the first entry of
    [images], each of these two with large thumbnail, original URL and
    generic URL only; the Obsidian synchronizer consults the primary image
    alone.  In particular a present large thumbnail of the primary image is
    returned whatever the medium one is, an original URL is returned when
    the large thumbnail is missing, and an entity without image fields
    gives [null]. *)
Theorem extractImageUrl_priority (item : Zeplin.ItemImages) :
  Logseq.extractImageUrl item = firstPresent (consultedCandidates item)
  /\ (Logseq.extractImageUrl item = None
      <-> Forall (fun c => Js.truthy c = false) (consultedCandidates item))
  /\ Obsidian.extractImageUrl item
     = firstPresent (assetCandidates (Zeplin.image item))
  /\ (Obsidian.extractImageUrl item = None
      <-> Forall (fun c => Js.truthy c = false)
            (assetCandidates (Zeplin.image item)))
  /\ (forall l, Zeplin.thumb Zeplin.large (Zeplin.image item) = Some l -> l <> "" ->
        Logseq.extractImageUrl item = Some l
        /\ Obsidian.extractImageUrl item = Some l)
  /\ (forall u, Js.truthy (Zeplin.thumb Zeplin.large (Zeplin.image item)) = false ->
        Zeplin.field Zeplin.original_url (Zeplin.image item) = Some u -> u <> "" ->
        Logseq.extractImageUrl item = Some u
        /\ Obsidian.extractImageUrl item = Some u)
  /\ (Zeplin.image item = None -> Zeplin.images item = None ->
      Zeplin.latest_version item = None ->
      Logseq.extractImageUrl item = None /\ Obsidian.extractImageUrl item = None).
Proof.
  assert (Hne : forall s, s <> "" -> Js.truthy (Some s) = true).
  { intros s Hs. simpl. destruct (String.eqb_spec s ""); [contradiction|reflexivity]. }
  split; [apply Logseq_extractImageUrl_firstPresent|].
  split; [rewrite Logseq_extractImageUrl_firstPresent; apply firstPresent_None|].
  split; [apply Obsidian_extractImageUrl_firstPresent|].
  split; [rewrite Obsidian_extractImageUrl_firstPresent; apply firstPresent_None|].
  split; [|split].
  - intros l Hl Hnonempty.
    unfold Logseq.extractImageUrl, Obsidian.extractImageUrl.
    rewrite Hl, (Hne l Hnonempty). split; reflexivity.
  - intros u Hlarge Hu Hnonempty.
    unfold Logseq.extractImageUrl, Obsidian.extractImageUrl.
    rewrite Hlarge, Hu, (Hne u Hnonempty). split; reflexivity.
  - intros H1 H2 H3.
    unfold Logseq.extractImageUrl, Obsidian.extractImageUrl, Logseq.latestImage,
      Logseq.firstImage.
    rewrite H1, H2, H3. split; reflexivity.
Qed.

(** Witness for C3: the large thumbnail wins over the medium one. *)
Lemma extractImageUrl_priority_witness :
  Zeplin.thumb Zeplin.large (Zeplin.image mediumAndLarge)
  = Some "https://cdn.zeplin.io/l.png"
  /\ Logseq.extractImageUrl mediumAndLarge = Some "https://cdn.zeplin.io/l.png"
  /\ Obsidian.extractImageUrl mediumAndLarge = Some "https://cdn.zeplin.io/l.png".
Proof.
  split; [reflexivity|].
  destruct (extractImageUrl_priority mediumAndLarge) as (_ & _ & _ & _ & Hlarge & _).
  apply (Hlarge "https://cdn.zeplin.io/l.png"); [reflexivity | discriminate].
Defined.

(** C3, the claim as stated, fails: with the four fields of the
    latest-version image among the candidates, the entity above has a present
    candidate, yet [extractImageUrl] returns [null]. *)
Lemma extractImageUrl_latest_medium_counterexample :
  firstPresent (claimedCandidates onlyLatestMedium) = Some "https://cdn.zeplin.io/m.png"
  /\ Logseq.extractImageUrl onlyLatestMedium = None
  /\ Logseq.extractImageUrl onlyLatestMedium
     <> firstPresent (claimedCandidates onlyLatestMedium).
Proof. repeat split; try reflexivity. discriminate. Qed.

(** ** Rendering *)

Section RenderFacts.
Import Zeplin Obsidian.

Lemma append_assoc (s1 s2 s3 : string) : (s1 ++ s2) ++ s3 = s1 ++ s2 ++ s3.
Proof.
  induction s1 as [|x s1 IH]; [reflexivity|].
  change (String x ((s1 ++ s2) ++ s3) = String x (s1 ++ s2 ++ s3)).
  rewrite IH. reflexivity.
Qed.

Lemma append_empty_r (s : string) : s ++ "" = s.
Proof.
  induction s as [|x s IH]; [reflexivity|].
  change (String x (s ++ "") = String x s). rewrite IH. reflexivity.
Qed.

Lemma append_empty_l (s : string) : "" ++ s = s.
Proof. reflexivity. Qed.

Lemma length_append (s1 s2 : string) :
  String.length (s1 ++ s2) = String.length s1 + String.length s2.
Proof.
  induction s1 as [|x s1 IH]; [reflexivity|].
  change (S (String.length (s1 ++ s2)) = S (String.length s1 + String.length s2)).
  rewrite IH. reflexivity.
Qed.

Lemma append_longer (front extra back : string) :
  extra <> "" -> front ++ extra ++ back <> front ++ back.
Proof.
  intros Hextra Heq. apply (f_equal String.length) in Heq.
  rewrite !length_append in Heq. destruct extra; [contradiction|].
  simpl in Heq. lia.
Qed.

(** What the renderer writes, with the section line told apart. *)
Lemma buildScreenMarkdown_shape project screen now :
  exists back,
    concatTexts (screenFields project screen now)
    = typeText "Screen"
        ++ (if isSome (sectionNameOf (screen_section screen))
            then sectionText (sectionNameOf (screen_section screen)) else "")
        ++ back
    /\ concatTexts (withUndefinedSection (screenFields project screen now))
       = typeText "Screen" ++ sectionText None
           ++ (if isSome (sectionNameOf (screen_section screen))
               then sectionText (sectionNameOf (screen_section screen)) else "")
           ++ back
    /\ buildScreenMarkdown project screen now
       = typeText "Screen"
           ++ (if isSome (screen_section screen)
               then sectionText (sectionNameOf (screen_section screen)) else "")
           ++ back.
Proof.
  exists (concatTexts
            (optional (Js.nonEmpty (tags screen)) Tags (tagsText (tags screen))
             ++ [(DeepLink, screenLinkText (project_id project) (screen_id screen))]
             ++ optional (Js.truthy (screen_description screen)) Description
                  (descriptionText (screen_description screen))
             ++ optional (Js.truthy (extractImageUrl (screen_images screen))) Image
                  (imageText (screen_name screen)
                     (extractImageUrl (screen_images screen)))
             ++ [(Provenance, provenanceText now)])%list).
  unfold buildScreenMarkdown, screenFields, withUndefinedSection, optional,
    sectionText, sectionNameOf, descriptionText, imageText, provenanceText,
    typeText, tagsText, screenLinkText.
  destruct (screen_section screen) as [[sid [name|]]|];
    destruct (Js.nonEmpty (tags screen));
    destruct (Js.truthy (screen_description screen));
    destruct (Js.truthy (extractImageUrl (screen_images screen)));
    cbn [isSome section_name app]; unfold concatTexts; cbn [fold_right snd];
    rewrite ?append_empty_l, ?append_assoc, ?append_empty_r;
    repeat split; reflexivity.
Qed.

Lemma buildComponentMarkdown_shape project component now :
  exists back,
    concatTexts (componentFields project component now)
    = typeText "Component"
        ++ (if isSome (sectionNameOf (component_section component))
            then sectionText (sectionNameOf (component_section component)) else "")
        ++ back
    /\ concatTexts (withUndefinedSection (componentFields project component now))
       = typeText "Component" ++ sectionText None
           ++ (if isSome (sectionNameOf (component_section component))
               then sectionText (sectionNameOf (component_section component))
               else "")
           ++ back
    /\ buildComponentMarkdown project component now
       = typeText "Component"
           ++ (if isSome (component_section component)
               then sectionText (sectionNameOf (component_section component))
               else "")
           ++ back.
Proof.
  exists (concatTexts
            ([(DeepLink,
               componentLinkText (project_id project) (component_id component))]
             ++ optional (Js.truthy (component_description component)) Description
                  (descriptionText (component_description component))
             ++ optional (Js.truthy (extractImageUrl (component_images component)))
                  Image
                  (imageText (component_name component)
                     (extractImageUrl (component_images component)))
             ++ [(Provenance, provenanceText now)])%list).
  unfold buildComponentMarkdown, componentFields, withUndefinedSection, optional,
    sectionText, sectionNameOf, descriptionText, imageText, provenanceText,
    typeText, componentLinkText.
  destruct (component_section component) as [[sid [name|]]|];
    destruct (Js.truthy (component_description component));
    destruct (Js.truthy (extractImageUrl (component_images component)));
    cbn [isSome section_name app]; unfold concatTexts; cbn [fold_right snd];
    rewrite ?append_empty_l, ?append_assoc, ?append_empty_r;
    repeat split; reflexivity.
Qed.

(** The two cases of a section: named or absent, and present without a
    name. *)
Lemma rendering_cases (label back : string) (section : option ZeplinSection)
  (claimed undefinedAdded rendered : string) :
  claimed
  = typeText label
      ++ (if isSome (sectionNameOf section) then sectionText (sectionNameOf section)
          else "")
      ++ back ->
  undefinedAdded
  = typeText label ++ sectionText None
      ++ (if isSome (sectionNameOf section) then sectionText (sectionNameOf section)
          else "")
      ++ back ->
  rendered
  = typeText label
      ++ (if isSome section then sectionText (sectionNameOf section) else "")
      ++ back ->
  ((section = None \/ sectionNameOf section <> None) -> rendered = claimed)
  /\ ((section <> None /\ sectionNameOf section = None) ->
      rendered = undefinedAdded /\ rendered <> claimed).
Proof.
  intros -> -> ->. split.
  - intros [->|Hname]; [reflexivity|].
    destruct section as [[sid [name|]]|]; [reflexivity | | reflexivity].
    exfalso. apply Hname. reflexivity.
  - intros [Hsection Hname].
    destruct section as [[sid [name|]]|]; [discriminate Hname | | contradiction].
    cbn [isSome sectionNameOf section_name]. split; [reflexivity|].
    rewrite append_empty_l.
    apply append_longer. discriminate.
Qed.

Lemma screenFields_inOrder project screen now :
  inOrder (screenFields project screen now) = true.
Proof.
  unfold screenFields, optional.
  destruct (isSome (sectionNameOf (screen_section screen)));
    destruct (Js.nonEmpty (tags screen));
    destruct (Js.truthy (screen_description screen));
    destruct (Js.truthy (extractImageUrl (screen_images screen))); reflexivity.
Qed.

Lemma componentFields_inOrder project component now :
  inOrder (componentFields project component now) = true.
Proof.
  unfold componentFields, optional.
  destruct (isSome (sectionNameOf (component_section component)));
    destruct (Js.truthy (component_description component));
    destruct (Js.truthy (extractImageUrl (component_images component))); reflexivity.
Qed.

End RenderFacts.

Section LogseqRenderFacts.
Import Zeplin.

Lemma screenChildren_kinds link screen :
  childKinds (Logseq.screenChildren link screen)
  = ([Some DeepLink]
     ++ (if Js.truthy (screen_description screen) then [Some Description] else [])
     ++ (if Js.nonEmpty (tags screen) then [Some Tags] else [])
     ++ (if isSome (screen_section screen) then [Some SectionName] else []))%list.
Proof.
  unfold Logseq.screenChildren.
  destruct (Js.truthy (screen_description screen));
    destruct (Js.nonEmpty (tags screen));
    destruct (screen_section screen); reflexivity.
Qed.

End LogseqRenderFacts.

(** C6.  The fields of the claim ([screenFields], [componentFields]: the
    type label, the section name when the entity has one, the tags of a
    screen, the deep link, the non-empty description, the image when a URL
    was resolved, the provenance line) come in the order of the claim, and
    the Obsidian synchronizer renders exactly them for an entity without a
    section or with a named one.  For an entity whose section carries no
    name it does not leave the absent field out: it writes the line
    [**Section:** undefined] after the type label, as on the two samples.
    The Logseq synchronizer writes the children of a screen page in another
    order (deep link, description, tags, section), the section line again
    for every section, named or not. *)
Theorem section_without_name_is_rendered (project : Zeplin.ZeplinProject)
  (screen : Zeplin.ZeplinScreen) (component : Zeplin.ZeplinComponent)
  (now link : string) :
  (inOrder (screenFields project screen now) = true
   /\ inOrder (componentFields project component now) = true)
  /\ ((Zeplin.screen_section screen = None
       \/ sectionNameOf (Zeplin.screen_section screen) <> None ->
       Obsidian.buildScreenMarkdown project screen now
       = concatTexts (screenFields project screen now))
      /\ (Zeplin.screen_section screen <> None
          /\ sectionNameOf (Zeplin.screen_section screen) = None ->
          Obsidian.buildScreenMarkdown project screen now
          = concatTexts (withUndefinedSection (screenFields project screen now))
          /\ Obsidian.buildScreenMarkdown project screen now
             <> concatTexts (screenFields project screen now)))
  /\ ((Zeplin.component_section component = None
       \/ sectionNameOf (Zeplin.component_section component) <> None ->
       Obsidian.buildComponentMarkdown project component now
       = concatTexts (componentFields project component now))
      /\ (Zeplin.component_section component <> None
          /\ sectionNameOf (Zeplin.component_section component) = None ->
          Obsidian.buildComponentMarkdown project component now
          = concatTexts
              (withUndefinedSection (componentFields project component now))
          /\ Obsidian.buildComponentMarkdown project component now
             <> concatTexts (componentFields project component now)))
  /\ (Obsidian.buildScreenMarkdown homeProject strayScreen "2024-05-01T10:00:00.000Z"
      = "**Type:** Screen" ++ Obsidian.nl
          ++ "**Section:** undefined" ++ Obsidian.nl
          ++ "**Zeplin URL:** [View in Zeplin](https://app.zeplin.io/project/p1/screen/s2)"
          ++ Obsidian.nl ++ Obsidian.nl
          ++ "---" ++ Obsidian.nl
          ++ "*Synced from Zeplin on 2024-05-01T10:00:00.000Z*" ++ Obsidian.nl
      /\ map fst (screenFields homeProject strayScreen "2024-05-01T10:00:00.000Z")
         = [TypeLabel; DeepLink; Provenance])
  /\ (Obsidian.buildComponentMarkdown homeProject strayComponent
        "2024-05-01T10:00:00.000Z"
      = "**Type:** Component" ++ Obsidian.nl
          ++ "**Section:** undefined" ++ Obsidian.nl
          ++ "**Zeplin URL:** [View in Zeplin](https://app.zeplin.io/project/p1/components?coid=c2)"
          ++ Obsidian.nl ++ Obsidian.nl
          ++ "---" ++ Obsidian.nl
          ++ "*Synced from Zeplin on 2024-05-01T10:00:00.000Z*" ++ Obsidian.nl
      /\ map fst (componentFields homeProject strayComponent "2024-05-01T10:00:00.000Z")
         = [TypeLabel; DeepLink; Provenance])
  /\ (map childText (Logseq.screenChildren link screen)
      = ([("**Zeplin URL:** [View in Zeplin](" ++ link ++ ")")%string]
         ++ (if Js.truthy (Zeplin.screen_description screen)
             then [("**Description:** "
                      ++ Js.show (Zeplin.screen_description screen))%string]
             else [])
         ++ (if Js.nonEmpty (Zeplin.tags screen)
             then [("**Tags:** "
                      ++ Js.hashTags (Js.orNil (Zeplin.tags screen)))%string]
             else [])
         ++ (if isSome (Zeplin.screen_section screen)
             then [("**Section:** "
                      ++ Js.show (sectionNameOf (Zeplin.screen_section screen)))%string]
             else []))%list
      /\ childKinds (Logseq.screenChildren link screen)
         = ([Some DeepLink]
            ++ (if Js.truthy (Zeplin.screen_description screen)
                then [Some Description] else [])
            ++ (if Js.nonEmpty (Zeplin.tags screen) then [Some Tags] else [])
            ++ (if isSome (Zeplin.screen_section screen)
                then [Some SectionName] else []))%list
      /\ kindsInOrder (childKinds (Logseq.screenChildren link screen))
         = negb (Js.nonEmpty (Zeplin.tags screen)
                 || isSome (Zeplin.screen_section screen))).
Proof.
  split; [split; [apply screenFields_inOrder | apply componentFields_inOrder]|].
  split.
  { destruct (buildScreenMarkdown_shape project screen now) as (back & H1 & H2 & H3).
    exact (rendering_cases "Screen" back (Zeplin.screen_section screen) _ _ _ H1 H2 H3). }
  split.
  { destruct (buildComponentMarkdown_shape project component now)
      as (back & H1 & H2 & H3).
    exact (rendering_cases "Component" back (Zeplin.component_section component)
             _ _ _ H1 H2 H3). }
  split; [split; reflexivity|].
  split; [split; reflexivity|].
  split; [|split; [apply screenChildren_kinds|]].
  - unfold Logseq.screenChildren.
    destruct (Js.truthy (Zeplin.screen_description screen));
      destruct (Js.nonEmpty (Zeplin.tags screen));
      destruct (Zeplin.screen_section screen) as [[sid name]|]; reflexivity.
  - rewrite screenChildren_kinds.
    destruct (Js.truthy (Zeplin.screen_description screen));
      destruct (Js.nonEmpty (Zeplin.tags screen));
      destruct (isSome (Zeplin.screen_section screen)); reflexivity.
Qed.

(** Witness for C6: the screen of the sample has a section without a name,
    and the login screen a named one. *)
Lemma section_without_name_is_rendered_witness :
  (Zeplin.screen_section strayScreen <> None
   /\ sectionNameOf (Zeplin.screen_section strayScreen) = None)
  /\ Obsidian.buildScreenMarkdown homeProject strayScreen "2024-05-01T10:00:00.000Z"
     <> concatTexts (screenFields homeProject strayScreen "2024-05-01T10:00:00.000Z").
Proof.
  assert (H : Zeplin.screen_section strayScreen <> None
              /\ sectionNameOf (Zeplin.screen_section strayScreen) = None)
    by (split; [discriminate | reflexivity]).
  split; [exact H|].
  destruct (section_without_name_is_rendered homeProject strayScreen strayComponent
              "2024-05-01T10:00:00.000Z" "")
    as (_ & (_ & Hstray) & _).
  exact (proj2 (Hstray H)).
Defined.

(** On the Logseq screen page the deep link comes first, before the
    description, the tags and the section, and there is neither a type label
    nor a provenance line. *)
Lemma screen_page_order_counterexample :
  map childText
    (Logseq.screenChildren "https://app.zeplin.io/project/p1/screen/s1" loginScreen)
  = ["**Zeplin URL:** [View in Zeplin](https://app.zeplin.io/project/p1/screen/s1)";
     "**Description:** Sign-in form";
     "**Tags:** #auth";
     "**Section:** Onboarding"]
  /\ childKinds
       (Logseq.screenChildren "https://app.zeplin.io/project/p1/screen/s1" loginScreen)
     = [Some DeepLink; Some Description; Some Tags; Some SectionName]
  /\ kindsInOrder
       (childKinds
          (Logseq.screenChildren "https://app.zeplin.io/project/p1/screen/s1"
             loginScreen)) = false.
Proof. repeat split. Qed.

(** ** The Zeplin client and the propagation of its failures *)

Section ClientFacts.
Import Zeplin Client.

Lemma handleError_category error :
  categoryOfError (handleError error) = categoryOf error.
Proof.
  unfold handleError, categoryOf.
  destruct (response error) as [resp|].
  - destruct (http_status resp =? 401)%Z; [reflexivity|].
    destruct (http_status resp =? 403)%Z; [reflexivity|].
    destruct (http_status resp =? 404)%Z; [reflexivity|].
    destruct (http_status resp =? 429)%Z; reflexivity.
  - destruct (request error); reflexivity.
Qed.

End ClientFacts.

Section PropagationFacts.
Import Zeplin Logseq.

Lemma bind_abort {A B : Type} (m : M A) (k : A -> M B) g error g1 :
  m g = (inl error, g1) -> bind m k g = (inl error, g1).
Proof. intros H. unfold bind. rewrite H. reflexivity. Qed.

Lemma bind_continue {A B : Type} (m : M A) (k : A -> M B) g v g1 :
  m g = (inr v, g1) -> bind m k g = k v g1.
Proof. intros H. unfold bind. rewrite H. reflexivity. Qed.

Lemma catch_rethrow {A : Type} (m : M A) g :
  catch m (fun error => throw error) g = m g.
Proof. unfold catch, throw. destruct (m g) as [[error|v] g1]; reflexivity. Qed.

(** A loop stops at the first element whose step rejects. *)
Lemma forEach_abort {A : Type} (f : A -> M unit) x rest g error g1 :
  f x g = (inl error, g1) -> forEach f (x :: rest) g = (inl error, g1).
Proof. intros H. simpl. apply bind_abort. exact H. Qed.

Lemma forEach_succeeds {A : Type} (f : A -> M unit) l :
  (forall x, succeeds (f x)) -> succeeds (forEach f l).
Proof.
  intros Hf. induction l as [|x rest IH]; intros g; simpl.
  - exists tt, g. reflexivity.
  - destruct (Hf x g) as (v & g1 & Hx).
    rewrite (bind_continue _ _ _ _ _ Hx). apply IH.
Qed.

Lemma ensurePage_succeeds pageName props : succeeds (ensurePage pageName props).
Proof.
  intros g. unfold ensurePage. rewrite catch_rethrow.
  destruct (Editor_getPage pageName g) as [page|].
  - assert (Hup : succeeds (match props with
                            | Some props => upsertAll (page_uuid page) props
                            | None => ret tt
                            end)).
    { destruct props as [props|].
      - apply forEach_succeeds. intros kv g0. eexists _, _. reflexivity.
      - intros g0. eexists _, _. reflexivity. }
    destruct (Hup g) as (v & g1 & Hv).
    rewrite (bind_continue _ _ _ _ _ Hv). eexists _, _. reflexivity.
  - eexists _, _. reflexivity.
Qed.

Lemma createProjectStructure_succeeds env project :
  succeeds (createProjectStructure env project).
Proof.
  intros g. unfold createProjectStructure.
  destruct (ensurePage_succeeds
              (defaultNamespace (config env) ++ "/" ++ project_name project)
              (Some (<["zeplin-synced" := PNum (now env)]>
                       (<["zeplin-platform" := PStr (platform project)]>
                          (<["zeplin-type" := PStr "project"]>
                             (<["zeplin-id" := PStr (project_id project)]> ∅)))))
              g) as (u1 & g1 & H1).
  rewrite (bind_continue _ _ _ _ _ H1).
  destruct (ensurePage_succeeds
              ((defaultNamespace (config env) ++ "/" ++ project_name project)
                 ++ "/Components") None g1) as (u2 & g2 & H2).
  rewrite (bind_continue _ _ _ _ _ H2).
  destruct (ensurePage_succeeds
              ((defaultNamespace (config env) ++ "/" ++ project_name project)
                 ++ "/Screens") None g2) as (u3 & g3 & H3).
  rewrite (bind_continue _ _ _ _ _ H3).
  destruct (ensurePage_succeeds
              ((defaultNamespace (config env) ++ "/" ++ project_name project)
                 ++ "/Design Tokens") None g3) as (u4 & g4 & H4).
  rewrite (bind_continue _ _ _ _ _ H4).
  eexists _, _. reflexivity.
Qed.

Lemma syncProject_getProject_fails env projectId error g :
  GET_project (api env) projectId = inl error ->
  syncProject env projectId g = (inl (handleError error), g).
Proof.
  intros H. unfold syncProject. rewrite catch_rethrow.
  apply bind_abort. unfold call, getProject. rewrite H. reflexivity.
Qed.

Lemma syncComponents_getComponents_fails env project error g :
  GET_components (api env) (project_id project) = inl error ->
  syncComponents env project g = (inl (handleError error), g).
Proof.
  intros H. unfold syncComponents.
  apply bind_abort. unfold call, getComponents. rewrite H. reflexivity.
Qed.

Lemma syncComponent_getComponent_fails env project component parentUuid error g :
  GET_component (api env) (project_id project) (component_id component) = inl error ->
  syncComponent env project component parentUuid g = (inl (handleError error), g).
Proof.
  intros H. unfold syncComponent.
  apply bind_abort. unfold call, getComponent. rewrite H. reflexivity.
Qed.

Lemma syncScreenAsPage_getScreen_fails env project screen indexUuid error g :
  GET_screen (api env) (project_id project) (screen_id screen) = inl error ->
  syncScreenAsPage env project screen indexUuid g = (inl (handleError error), g).
Proof.
  intros H. unfold syncScreenAsPage.
  apply bind_abort. unfold call, getScreen. rewrite H. reflexivity.
Qed.

Lemma syncProject_getComponents_fails env projectId project error g :
  GET_project (api env) projectId = inr project ->
  0 < number_of_components project ->
  GET_components (api env) (project_id project) = inl error ->
  exists g1, syncProject env projectId g = (inl (handleError error), g1).
Proof.
  intros Hproject Hcount Hfail. unfold syncProject. rewrite catch_rethrow.
  erewrite bind_continue; [|unfold call, getProject; rewrite Hproject; reflexivity].
  destruct (createProjectStructure_succeeds env project g) as (u & g1 & Hcreate).
  rewrite (bind_continue _ _ _ _ _ Hcreate).
  exists g1. apply bind_abort.
  destruct (Nat.ltb_spec 0 (number_of_components project)) as [_|Hle]; [|lia].
  apply syncComponents_getComponents_fails. exact Hfail.
Qed.

Lemma syncScreens_getScreens_fails env project error g :
  GET_screens (api env) (project_id project) = inl error ->
  syncScreens env project g = (inl (handleError error), g).
Proof.
  intros H. unfold syncScreens.
  apply bind_abort. unfold call, getScreens. rewrite H. reflexivity.
Qed.

Lemma syncDesignTokens_getColors_fails env project error g pageUuid g1 :
  getPageFirstBlockUuid
    (defaultNamespace (config env) ++ "/" ++ project_name project ++ "/Design Tokens")
    g = (inr (Some pageUuid), g1) ->
  0 < number_of_colors project ->
  GET_colors (api env) (project_id project) = inl error ->
  syncDesignTokens env project g = (inl (handleError error), g1).
Proof.
  intros Hpage Hcount Hfail. unfold syncDesignTokens.
  rewrite (bind_continue _ _ _ _ _ Hpage).
  apply bind_abort.
  destruct (Nat.ltb_spec 0 (number_of_colors project)) as [_|Hle]; [|lia].
  apply bind_abort. unfold call, getColors. rewrite Hfail. reflexivity.
Qed.

Lemma syncDesignTokens_getTextStyles_fails env project error g pageUuid g1 :
  getPageFirstBlockUuid
    (defaultNamespace (config env) ++ "/" ++ project_name project ++ "/Design Tokens")
    g = (inr (Some pageUuid), g1) ->
  number_of_colors project = 0 ->
  0 < number_of_text_styles project ->
  GET_text_styles (api env) (project_id project) = inl error ->
  syncDesignTokens env project g = (inl (handleError error), g1).
Proof.
  intros Hpage Hnone Hcount Hfail. unfold syncDesignTokens.
  rewrite (bind_continue _ _ _ _ _ Hpage).
  rewrite Hnone. simpl Nat.ltb. cbv iota.
  erewrite bind_continue by reflexivity.
  destruct (Nat.ltb_spec 0 (number_of_text_styles project)) as [_|Hle]; [|lia].
  apply bind_abort. unfold call, getTextStyles. rewrite Hfail. reflexivity.
Qed.

(** A loop stops at the first element whose step rejects, after the steps
    of the elements before it. *)
Lemma forEach_abort_at {A : Type} (f : A -> M unit) before x after g g1 error g2 :
  forEach f before g = (inr tt, g1) ->
  f x g1 = (inl error, g2) ->
  forEach f (before ++ x :: after)%list g = (inl error, g2).
Proof.
  revert g. induction before as [|y before IH]; intros g Hbefore Hx.
  - simpl in Hbefore. injection Hbefore as <-. apply forEach_abort. exact Hx.
  - simpl in *. unfold bind in *.
    destruct (f y g) as [[e|u] g']; [discriminate Hbefore|].
    apply IH; assumption.
Qed.

Lemma syncProject_unfold env projectId g :
  syncProject env projectId g
  = (await project <- call (getProject (api env) projectId) ;
     await_ createProjectStructure env project ;
     await_ componentsStage env project ;
     await_ screensStage env project ;
     await_ syncDesignTokens env project ;
     ret tt) g.
Proof. unfold syncProject. rewrite catch_rethrow. reflexivity. Qed.

Lemma syncDesignTokens_unfold env project g :
  syncDesignTokens env project g
  = (await pageUuid <- getPageFirstBlockUuid (pageNamed env project "/Design Tokens") ;
     match pageUuid with
     | None => throw (mkError "Failed to get design tokens page first block")
     | Some pageUuid =>
         await_ colorsPart env project pageUuid ;
         if (0 <? number_of_text_styles project)%nat then
           await textStyles <- call (getTextStyles (api env) (project_id project)) ;
           await_ createBlock pageUuid
                    ("## Text Styles (" ++ Js.show_nat (List.length textStyles) ++ ")")
                    None [] ;
           forEach
             (fun style =>
                let styleInfo :=
                  style_name style ++ ": " ++ font_family style ++ " "
                    ++ Js.show_Z (font_size style) ++ "px / "
                    ++ Js.show_Z (font_weight style) in
                await_ createBlock pageUuid styleInfo
                         (Some (<["zeplin-type" := PStr "text-style"]>
                                  (<["zeplin-id" := PStr (style_id style)]> ∅)))
                         [] ;
                ret tt) textStyles
         else ret tt
     end) g.
Proof. reflexivity. Qed.

(** A stage that rejects ends the run with its error. *)
Lemma syncProject_componentsStage_fails env projectId project g g1 error g' :
  afterStructure env projectId project g g1 ->
  componentsStage env project g1 = (inl error, g') ->
  syncProject env projectId g = (inl error, g').
Proof.
  intros [Hproject Hcreate] Hstage. rewrite syncProject_unfold.
  erewrite bind_continue; [|unfold call, getProject; rewrite Hproject; reflexivity].
  rewrite (bind_continue _ _ _ _ _ Hcreate).
  apply bind_abort. exact Hstage.
Qed.

Lemma syncProject_screensStage_fails env projectId project g g2 error g' :
  afterComponents env projectId project g g2 ->
  screensStage env project g2 = (inl error, g') ->
  syncProject env projectId g = (inl error, g').
Proof.
  intros (g1 & [Hproject Hcreate] & Hcomponents) Hstage. rewrite syncProject_unfold.
  erewrite bind_continue; [|unfold call, getProject; rewrite Hproject; reflexivity].
  rewrite (bind_continue _ _ _ _ _ Hcreate).
  rewrite (bind_continue _ _ _ _ _ Hcomponents).
  apply bind_abort. exact Hstage.
Qed.

Lemma syncProject_syncDesignTokens_fails env projectId project g g3 error g' :
  afterScreens env projectId project g g3 ->
  syncDesignTokens env project g3 = (inl error, g') ->
  syncProject env projectId g = (inl error, g').
Proof.
  intros (g2 & (g1 & [Hproject Hcreate] & Hcomponents) & Hscreens) Hstage.
  rewrite syncProject_unfold.
  erewrite bind_continue; [|unfold call, getProject; rewrite Hproject; reflexivity].
  rewrite (bind_continue _ _ _ _ _ Hcreate).
  rewrite (bind_continue _ _ _ _ _ Hcomponents).
  rewrite (bind_continue _ _ _ _ _ Hscreens).
  apply bind_abort. exact Hstage.
Qed.

Lemma componentsStage_getComponent_fails env project before component after
  pageUuid error g1 g2 g3 :
  0 < number_of_components project ->
  GET_components (api env) (project_id project)
  = inr (before ++ component :: after)%list ->
  getPageFirstBlockUuid (pageNamed env project "/Components") g1
  = (inr (Some pageUuid), g2) ->
  forEach (fun c => syncComponent env project c pageUuid) before g2 = (inr tt, g3) ->
  GET_component (api env) (project_id project) (component_id component) = inl error ->
  componentsStage env project g1 = (inl (handleError error), g3).
Proof.
  intros Hcount Hlist Hpage Hbefore Hfail. unfold componentsStage.
  destruct (Nat.ltb_spec 0 (number_of_components project)) as [_|Hle]; [|lia].
  unfold syncComponents.
  erewrite bind_continue; [|unfold call, getComponents; rewrite Hlist; reflexivity].
  cbv zeta. unfold pageNamed in Hpage.
  rewrite (bind_continue _ _ _ _ _ Hpage).
  eapply forEach_abort_at; [exact Hbefore|].
  apply syncComponent_getComponent_fails. exact Hfail.
Qed.

Lemma screensStage_getScreens_fails env project error g :
  0 < number_of_screens project ->
  GET_screens (api env) (project_id project) = inl error ->
  screensStage env project g = (inl (handleError error), g).
Proof.
  intros Hcount Hfail. unfold screensStage.
  destruct (Nat.ltb_spec 0 (number_of_screens project)) as [_|Hle]; [|lia].
  apply syncScreens_getScreens_fails. exact Hfail.
Qed.

Lemma screensStage_getScreen_fails env project before screen after indexPage
  indexUuid error g2 g3 g4 g5 :
  0 < number_of_screens project ->
  GET_screens (api env) (project_id project) = inr (before ++ screen :: after)%list ->
  ensurePage (pageNamed env project "/Screens") None g2 = (inr indexPage, g3) ->
  getPageFirstBlockUuid (pageNamed env project "/Screens") g3
  = (inr (Some indexUuid), g4) ->
  forEach (fun s => syncScreenAsPage env project s indexUuid) before g4 = (inr tt, g5) ->
  GET_screen (api env) (project_id project) (screen_id screen) = inl error ->
  screensStage env project g2 = (inl (handleError error), g5).
Proof.
  intros Hcount Hlist Hensure Hpage Hbefore Hfail. unfold screensStage.
  destruct (Nat.ltb_spec 0 (number_of_screens project)) as [_|Hle]; [|lia].
  unfold syncScreens.
  erewrite bind_continue; [|unfold call, getScreens; rewrite Hlist; reflexivity].
  cbv zeta. unfold pageNamed in Hensure, Hpage.
  rewrite (bind_continue _ _ _ _ _ Hensure).
  rewrite (bind_continue _ _ _ _ _ Hpage).
  eapply forEach_abort_at; [exact Hbefore|].
  apply syncScreenAsPage_getScreen_fails. exact Hfail.
Qed.

Lemma syncDesignTokens_colors_fail env project pageUuid error g3 g4 :
  getPageFirstBlockUuid (pageNamed env project "/Design Tokens") g3
  = (inr (Some pageUuid), g4) ->
  0 < number_of_colors project ->
  GET_colors (api env) (project_id project) = inl error ->
  syncDesignTokens env project g3 = (inl (handleError error), g4).
Proof.
  intros Hpage Hcount Hfail.
  apply (syncDesignTokens_getColors_fails env project error g3 pageUuid g4);
    assumption.
Qed.

Lemma syncDesignTokens_textStyles_fail env project pageUuid error g3 g4 g5 :
  getPageFirstBlockUuid (pageNamed env project "/Design Tokens") g3
  = (inr (Some pageUuid), g4) ->
  colorsPart env project pageUuid g4 = (inr tt, g5) ->
  0 < number_of_text_styles project ->
  GET_text_styles (api env) (project_id project) = inl error ->
  syncDesignTokens env project g3 = (inl (handleError error), g5).
Proof.
  intros Hpage Hcolors Hcount Hfail. rewrite syncDesignTokens_unfold.
  rewrite (bind_continue _ _ _ _ _ Hpage).
  rewrite (bind_continue _ _ _ _ _ Hcolors).
  destruct (Nat.ltb_spec 0 (number_of_text_styles project)) as [_|Hle]; [|lia].
  apply bind_abort. unfold call, getTextStyles. rewrite Hfail. reflexivity.
Qed.

End PropagationFacts.

(** C7 (as amended).  Each of the nine fetching operations of the client
    ([getProjects], [getProject], [getComponents], [getComponent],
    [getScreens], [getScreen], [getColors], [getTextStyles], [getSections]),
    when its request fails, raises the [Error] built by [handleError], whose
    message tells the category: unauthorized for 401, forbidden for 403,
    not-found for 404, rate-limited for 429, other for any other status,
    transport-unreachable when the request was sent and no response arrived,
    other when the request could not be set up.  [testConnection] does not
    raise: it catches the failure and answers [false].  [syncProject] hands
    a failure of the client to its caller unchanged and stops there, at each
    of the seven places where it calls the client, directly or through the
    steps for components, screens and design tokens: the run of
    [syncProject] itself rejects with the client's error, and the graph is
    the one reached when the request was made.  So it is when the project
    cannot be fetched (nothing is written), when the component list cannot,
    when the details of a component cannot (after the components before it),
    when the screen list cannot, when the details of a screen cannot (after
    the screens before it), when the colours cannot, and when the text
    styles cannot (after the colours). *)
Theorem remote_failures_raise_and_propagate (remote : Client.Remote)
  (error : Client.AxiosError) (projectId itemId : string) :
  categoryOfError (Client.handleError error) = categoryOf error
  /\ (Client.GET_projects remote = inl error ->
      Client.getProjects remote = inl (Client.handleError error))
  /\ (Client.GET_project remote projectId = inl error ->
      Client.getProject remote projectId = inl (Client.handleError error))
  /\ (Client.GET_components remote projectId = inl error ->
      Client.getComponents remote projectId = inl (Client.handleError error))
  /\ (Client.GET_component remote projectId itemId = inl error ->
      Client.getComponent remote projectId itemId = inl (Client.handleError error))
  /\ (Client.GET_screens remote projectId = inl error ->
      Client.getScreens remote projectId = inl (Client.handleError error))
  /\ (Client.GET_screen remote projectId itemId = inl error ->
      Client.getScreen remote projectId itemId = inl (Client.handleError error))
  /\ (Client.GET_colors remote projectId = inl error ->
      Client.getColors remote projectId = inl (Client.handleError error))
  /\ (Client.GET_text_styles remote projectId = inl error ->
      Client.getTextStyles remote projectId = inl (Client.handleError error))
  /\ (Client.GET_screen_sections remote projectId = inl error ->
      Client.getSections remote projectId = inl (Client.handleError error))
  /\ (Client.GET_projects remote = inl error ->
      Client.testConnection remote = inr false)
  /\ (forall env g,
        Logseq.api env = remote ->
        Client.GET_project remote projectId = inl error ->
        Logseq.syncProject env projectId g = (inl (Client.handleError error), g))
  /\ (forall env g project,
        Logseq.api env = remote ->
        Client.GET_project remote projectId = inr project ->
        0 < Zeplin.number_of_components project ->
        Client.GET_components remote (Zeplin.project_id project) = inl error ->
        exists g1,
          Logseq.createProjectStructure env project g = (inr tt, g1)
          /\ Logseq.syncProject env projectId g
             = (inl (Client.handleError error), g1))
  /\ (forall env g project before component after pageUuid g1 g2 g3,
        Logseq.api env = remote ->
        afterStructure env projectId project g g1 ->
        0 < Zeplin.number_of_components project ->
        Client.GET_components remote (Zeplin.project_id project)
        = inr (before ++ component :: after)%list ->
        Logseq.getPageFirstBlockUuid (pageNamed env project "/Components") g1
        = (inr (Some pageUuid), g2) ->
        Logseq.forEach (fun c => Logseq.syncComponent env project c pageUuid)
          before g2
        = (inr tt, g3) ->
        Client.GET_component remote (Zeplin.project_id project)
          (Zeplin.component_id component) = inl error ->
        Logseq.syncProject env projectId g = (inl (Client.handleError error), g3))
  /\ (forall env g project g2,
        Logseq.api env = remote ->
        afterComponents env projectId project g g2 ->
        0 < Zeplin.number_of_screens project ->
        Client.GET_screens remote (Zeplin.project_id project) = inl error ->
        Logseq.syncProject env projectId g = (inl (Client.handleError error), g2))
  /\ (forall env g project before screen after indexPage indexUuid g2 g3 g4 g5,
        Logseq.api env = remote ->
        afterComponents env projectId project g g2 ->
        0 < Zeplin.number_of_screens project ->
        Client.GET_screens remote (Zeplin.project_id project)
        = inr (before ++ screen :: after)%list ->
        Logseq.ensurePage (pageNamed env project "/Screens") None g2
        = (inr indexPage, g3) ->
        Logseq.getPageFirstBlockUuid (pageNamed env project "/Screens") g3
        = (inr (Some indexUuid), g4) ->
        Logseq.forEach (fun s => Logseq.syncScreenAsPage env project s indexUuid)
          before g4
        = (inr tt, g5) ->
        Client.GET_screen remote (Zeplin.project_id project)
          (Zeplin.screen_id screen) = inl error ->
        Logseq.syncProject env projectId g = (inl (Client.handleError error), g5))
  /\ (forall env g project pageUuid g3 g4,
        Logseq.api env = remote ->
        afterScreens env projectId project g g3 ->
        Logseq.getPageFirstBlockUuid (pageNamed env project "/Design Tokens") g3
        = (inr (Some pageUuid), g4) ->
        0 < Zeplin.number_of_colors project ->
        Client.GET_colors remote (Zeplin.project_id project) = inl error ->
        Logseq.syncProject env projectId g = (inl (Client.handleError error), g4))
  /\ (forall env g project pageUuid g3 g4 g5,
        Logseq.api env = remote ->
        afterScreens env projectId project g g3 ->
        Logseq.getPageFirstBlockUuid (pageNamed env project "/Design Tokens") g3
        = (inr (Some pageUuid), g4) ->
        colorsPart env project pageUuid g4 = (inr tt, g5) ->
        0 < Zeplin.number_of_text_styles project ->
        Client.GET_text_styles remote (Zeplin.project_id project) = inl error ->
        Logseq.syncProject env projectId g = (inl (Client.handleError error), g5)).
Proof.
  split; [apply handleError_category|].
  do 9 (split; [intros H;
                unfold Client.getProjects, Client.getProject, Client.getComponents,
                  Client.getComponent, Client.getScreens, Client.getScreen,
                  Client.getColors, Client.getTextStyles, Client.getSections;
                rewrite H; reflexivity|]).
  split; [intros H; unfold Client.testConnection, Client.getProjects;
          rewrite H; reflexivity|].
  split; [|split; [|split; [|split; [|split; [|split]]]]].
  - intros env g <- H. apply syncProject_getProject_fails. exact H.
  - intros env g project <- Hp Hn Hc.
    destruct (createProjectStructure_succeeds env project g) as ([] & g1 & Hcreate).
    exists g1. split; [exact Hcreate|].
    apply (syncProject_componentsStage_fails env projectId project g g1);
      [split; assumption|].
    unfold componentsStage.
    destruct (Nat.ltb_spec 0 (Zeplin.number_of_components project)) as [_|Hle];
      [|lia].
    apply syncComponents_getComponents_fails. exact Hc.
  - intros env g project before component after pageUuid g1 g2 g3 <-
      Hstructure Hn Hlist Hpage Hbefore Hfail.
    apply (syncProject_componentsStage_fails _ _ _ _ _ _ _ Hstructure).
    eapply componentsStage_getComponent_fails; eauto.
  - intros env g project g2 <- Hcomponents Hn Hfail.
    apply (syncProject_screensStage_fails _ _ _ _ _ _ _ Hcomponents).
    apply screensStage_getScreens_fails; assumption.
  - intros env g project before screen after indexPage indexUuid g2 g3 g4 g5 <-
      Hcomponents Hn Hlist Hensure Hpage Hbefore Hfail.
    apply (syncProject_screensStage_fails _ _ _ _ _ _ _ Hcomponents).
    eapply screensStage_getScreen_fails; eauto.
  - intros env g project pageUuid g3 g4 <- Hscreens Hpage Hn Hfail.
    apply (syncProject_syncDesignTokens_fails _ _ _ _ _ _ _ Hscreens).
    eapply syncDesignTokens_colors_fail; eauto.
  - intros env g project pageUuid g3 g4 g5 <- Hscreens Hpage Hcolors Hn Hfail.
    apply (syncProject_syncDesignTokens_fails _ _ _ _ _ _ _ Hscreens).
    eapply syncDesignTokens_textStyles_fail; eauto.
Qed.

(** Witness for C7: the details of the screen cannot be fetched; the run
    has written the pages of the project and the component by then, and it
    ends with the client's error. *)
Lemma remote_failures_raise_and_propagate_witness :
  (afterComponents screenFailingEnv "p1" demoProject Logseq.emptyGraph
     componentsGraph
   /\ Client.GET_screens screenFailingRemote "p1" = inr ([] ++ loginScreen :: [])%list
   /\ Client.GET_screen screenFailingRemote "p1" "s1" = inl unauthorized)
  /\ Logseq.syncProject screenFailingEnv "p1" Logseq.emptyGraph
     = (inl (Client.mkError "Invalid Zeplin API token. Please check your settings."),
        indexGraph).
Proof.
  assert (Hcomponents : afterComponents screenFailingEnv "p1" demoProject
                          Logseq.emptyGraph componentsGraph).
  { exists structureGraph. split; [split|]; vm_compute; reflexivity. }
  split; [split; [exact Hcomponents | split; reflexivity]|].
  destruct (remote_failures_raise_and_propagate screenFailingRemote unauthorized
              "p1" "s1")
    as (_ & _ & _ & _ & _ & _ & _ & _ & _ & _ & _ & _ & _ & _ & _ & Hscreen & _).
  apply (Hscreen screenFailingEnv Logseq.emptyGraph demoProject [] loginScreen []
           5 6 componentsGraph
           (snd (Logseq.ensurePage "Zeplin/Demo/Screens" None componentsGraph))
           indexGraph indexGraph);
    try reflexivity; try exact Hcomponents; try lia;
    vm_compute; reflexivity.
Defined.

(** Whichever of its seven requests fails, the run rejects with the error
    of the client; the later the request, the more is written by then. *)
Example syncProject_rejects_at_each_request :
  map (fun failing =>
         (fst (Logseq.syncProject (envFailingAt failing) "p1" Logseq.emptyGraph),
          List.length
            (Logseq.blocks
               (snd (Logseq.syncProject (envFailingAt failing) "p1"
                       Logseq.emptyGraph)))))
    [RProject; RComponents; RComponent; RScreens; RScreen; RColors; RTextStyles]
  = map (fun written =>
           (inl (Client.mkError
                   "Invalid Zeplin API token. Please check your settings."),
            written))
      [0; 4; 4; 7; 7; 13; 15].
Proof. vm_compute. reflexivity. Qed.

(** C7, the claim as stated, fails for [testConnection]: on a failed request
    it resolves with [false] and raises nothing. *)
Lemma testConnection_counterexample :
  Client.GET_projects rejectingRemote = inl unauthorized
  /\ Client.testConnection rejectingRemote = inr false
  /\ ~ (exists error, Client.testConnection rejectingRemote = inl error).
Proof.
  split; [reflexivity|]. split; [reflexivity|].
  intros [error H]. discriminate H.
Qed.

(** ** upsertBlock *)

Section UpsertFacts.
Import Zeplin Logseq.

Lemma find_uuid_of_In (l : list BlockEntity) b :
  In b l -> exists b0, List.find (fun x => (uuid x =? uuid b)%nat) l = Some b0.
Proof.
  induction l as [|x l IH]; intros Hin; [destruct Hin|].
  simpl. destruct (uuid x =? uuid b)%nat eqn:Hx; [eauto|].
  destruct Hin as [->|Hin]; [rewrite Nat.eqb_refl in Hx; discriminate|].
  apply IH. exact Hin.
Qed.

Lemma find_uuid_map (f : BlockEntity -> BlockEntity) (l : list BlockEntity) u :
  (forall b, uuid (f b) = uuid b) ->
  List.find (fun x => (uuid x =? u)%nat) (map f l)
  = option_map f (List.find (fun x => (uuid x =? u)%nat) l).
Proof.
  intros Hf. induction l as [|x l IH]; [reflexivity|].
  simpl. rewrite Hf. destruct (uuid x =? u)%nat; [reflexivity | exact IH].
Qed.

Lemma setContent_uuid u text b : uuid (setContent u text b) = uuid b.
Proof. unfold setContent. destruct (uuid b =? u)%nat; reflexivity. Qed.

Lemma query_head_In zeplinId g first others :
  DB_q_zeplin_id zeplinId g = first :: others -> In first (blocks g).
Proof.
  intros H. unfold DB_q_zeplin_id in H.
  assert (Hin : In first (filter (hasZeplinId zeplinId) (blocks g)))
    by (rewrite H; left; reflexivity).
  apply filter_In in Hin. tauto.
Qed.

Lemma upsertBlock_existing env parentUuid text zeplinId props children g first others :
  DB_q_zeplin_id zeplinId g = first :: others ->
  upsertBlock env parentUuid text zeplinId props children g
  = (inr (Some (uuid first)),
     {| pages :=
          match props with
          | Some _ =>
              map (setPageProperty (uuid first) "zeplin-updated" (PNum (now env)))
                (pages g)
          | None => pages g
          end;
        blocks := map (refreshed env (uuid first) text props) (blocks g);
        fresh := fresh g |}).
Proof.
  intros Hq. pose proof (query_head_In _ _ _ _ Hq) as Hin.
  destruct (find_uuid_of_In _ _ Hin) as (b0 & Hfind).
  unfold upsertBlock, findBlockByZeplinId, bind, catch, ret. rewrite Hq.
  unfold updateBlock, catch, bind, ret, Editor_updateBlock, Editor_getBlock.
  rewrite Hfind. simpl.
  destruct props as [props|].
  - unfold Editor_getBlock. simpl blocks.
    rewrite (find_uuid_map _ _ _ (setContent_uuid (uuid first) text)), Hfind.
    simpl. unfold Editor_upsertBlockProperty. simpl.
    assert (Hext : map (setBlockProperty (uuid first) "zeplin-updated" (PNum (now env)))
                     (map (setContent (uuid first) text) (blocks g))
                   = map (refreshed env (uuid first) text (Some props)) (blocks g)).
    { rewrite map_map. apply map_ext. intros b.
      unfold setBlockProperty, setContent, refreshed.
      destruct (uuid b =? uuid first)%nat eqn:Hb; simpl; rewrite Hb; reflexivity. }
    rewrite Hext. reflexivity.
  - assert (Hext : map (setContent (uuid first) text) (blocks g)
                   = map (refreshed env (uuid first) text None) (blocks g)).
    { apply map_ext. intros b. unfold setContent, refreshed.
      destruct (uuid b =? uuid first)%nat; reflexivity. }
    rewrite Hext. reflexivity.
Qed.

End UpsertFacts.

(** C9.  When a block tagged with the given remote ID exists, [upsertBlock]
    returns the identifier of the first such block and changes nothing but
    that block's content and its [zeplin-updated] property: no block is
    added (neither under the parent nor for any of the supplied children),
    every block keeps its place, identifier and parent, every other block is
    unchanged, every property other than [zeplin-updated], [zeplin-synced]
    in particular, keeps its value, and pages that do not share the block's
    identifier are untouched.  [zeplin-updated] is set to the current time
    when properties were supplied. *)
Theorem upsertBlock_existing_frame (env : Logseq.Env) (parentUuid : nat)
  (text zeplinId : string) (props : option (gmap string Logseq.PropVal))
  (children : list Logseq.BlockCreateInput) (g : Logseq.Graph)
  (first : Logseq.BlockEntity) (others : list Logseq.BlockEntity) :
  Logseq.DB_q_zeplin_id zeplinId g = first :: others ->
  let existing := Logseq.uuid first in
  let outcome := Logseq.upsertBlock env parentUuid text zeplinId props children g in
  let g' := snd outcome in
  fst outcome = inr (Some existing)
  /\ List.length (Logseq.blocks g') = List.length (Logseq.blocks g)
  /\ Logseq.fresh g' = Logseq.fresh g
  /\ (forall i b, nth_error (Logseq.blocks g) i = Some b ->
        exists b', nth_error (Logseq.blocks g') i = Some b'
          /\ Logseq.uuid b' = Logseq.uuid b
          /\ Logseq.parent b' = Logseq.parent b
          /\ (Logseq.uuid b <> existing -> b' = b)
          /\ (Logseq.uuid b = existing -> Logseq.content b' = text)
          /\ (forall key, key <> "zeplin-updated" ->
                Logseq.properties b' !! key = Logseq.properties b !! key)
          /\ Logseq.properties b' !! "zeplin-synced"
             = Logseq.properties b !! "zeplin-synced"
          /\ (Logseq.uuid b = existing -> props <> None ->
              Logseq.properties b' !! "zeplin-updated"
              = Some (Logseq.PNum (Logseq.now env))))
  /\ ((forall p, In p (Logseq.pages g) -> Logseq.page_uuid p <> existing) ->
      Logseq.pages g' = Logseq.pages g).
Proof.
  intros Hq existing outcome g'. subst outcome g' existing.
  rewrite (upsertBlock_existing env parentUuid text zeplinId props children g
             first others Hq).
  simpl fst. simpl snd. simpl Logseq.blocks. simpl Logseq.fresh. simpl Logseq.pages.
  split; [reflexivity|]. split; [apply length_map|]. split; [reflexivity|].
  assert (Hkeys : forall b key, key <> "zeplin-updated" ->
            Logseq.properties (refreshed env (Logseq.uuid first) text props b) !! key
            = Logseq.properties b !! key).
  { intros b key Hkey. unfold refreshed.
    destruct (Logseq.uuid b =? Logseq.uuid first)%nat; [|reflexivity].
    destruct props; simpl; [|reflexivity].
    apply lookup_insert_ne. congruence. }
  split.
  - intros i b Hb. exists (refreshed env (Logseq.uuid first) text props b).
    split; [rewrite nth_error_map, Hb; reflexivity|].
    split; [unfold refreshed;
            destruct (Logseq.uuid b =? Logseq.uuid first)%nat; reflexivity|].
    split; [unfold refreshed;
            destruct (Logseq.uuid b =? Logseq.uuid first)%nat; reflexivity|].
    split.
    { intros Hne. unfold refreshed.
      destruct (Nat.eqb_spec (Logseq.uuid b) (Logseq.uuid first));
        [contradiction | reflexivity]. }
    split.
    { intros Heq. unfold refreshed. rewrite Heq, Nat.eqb_refl. reflexivity. }
    split; [apply Hkeys|].
    split; [apply Hkeys; discriminate|].
    intros Heq Hprops. unfold refreshed. rewrite Heq, Nat.eqb_refl.
    destruct props; [|contradiction]. simpl. apply lookup_insert_eq.
  - intros Hpages. destruct props; [|reflexivity].
    rewrite <- (map_id (Logseq.pages g)) at 2. apply map_ext_in.
    intros p Hp. unfold Logseq.setPageProperty.
    destruct (Nat.eqb_spec (Logseq.page_uuid p) (Logseq.uuid first)) as [Heq|_];
      [exfalso; eapply Hpages; eauto | reflexivity].
Qed.

(** Witness for C9: the second upsert of the scenario of the
    specification. *)
Lemma upsertBlock_existing_frame_witness :
  Logseq.DB_q_zeplin_id "c1" syncedOnce
  = hd (Logseq.Build_BlockEntity 0 0 "" ∅) (Logseq.DB_q_zeplin_id "c1" syncedOnce)
    :: tl (Logseq.DB_q_zeplin_id "c1" syncedOnce)
  /\ List.length (Logseq.blocks syncedTwice) = List.length (Logseq.blocks syncedOnce).
Proof.
  assert (H : Logseq.DB_q_zeplin_id "c1" syncedOnce
              = hd (Logseq.Build_BlockEntity 0 0 "" ∅)
                  (Logseq.DB_q_zeplin_id "c1" syncedOnce)
                :: tl (Logseq.DB_q_zeplin_id "c1" syncedOnce))
    by (vm_compute; reflexivity).
  split; [exact H|].
  exact (proj1 (proj2
    (upsertBlock_existing_frame laterEnv 2 "B" "c1" (Some ∅)
       [Logseq.mkInput "child" (Some ∅) []] syncedOnce _ _ H))).
Defined.

Section UpsertTwice.
Import Zeplin Logseq.

Lemma hasZeplinId_refreshed env existing text props zeplinId b :
  hasZeplinId zeplinId (refreshed env existing text props b) = hasZeplinId zeplinId b.
Proof.
  unfold hasZeplinId, refreshed.
  destruct (uuid b =? existing)%nat; [|reflexivity].
  destruct props; simpl; [|reflexivity].
  rewrite lookup_insert_ne by discriminate. reflexivity.
Qed.

Lemma filter_map_refreshed env existing text props zeplinId l :
  filter (hasZeplinId zeplinId) (map (refreshed env existing text props) l)
  = map (refreshed env existing text props) (filter (hasZeplinId zeplinId) l).
Proof.
  induction l as [|b l IH]; [reflexivity|].
  simpl. rewrite hasZeplinId_refreshed.
  destruct (hasZeplinId zeplinId b); simpl; rewrite IH; reflexivity.
Qed.

Lemma upsertBlock_fresh env parentUuid text zeplinId props g parentBlock :
  Editor_getBlock parentUuid g = Some parentBlock ->
  DB_q_zeplin_id zeplinId g = [] ->
  let created :=
    {| uuid := fresh g; parent := parentUuid; content := text;
       properties :=
         <["zeplin-synced" := PNum (now env)]>
           (<["zeplin-id" := PStr zeplinId]> (orEmpty props)) |} in
  upsertBlock env parentUuid text zeplinId props [] g
  = (inr (Some (fresh g)),
     {| pages := pages g; blocks := (blocks g ++ [created])%list;
        fresh := S (fresh g) |})
  /\ DB_q_zeplin_id zeplinId
       {| pages := pages g; blocks := (blocks g ++ [created])%list;
          fresh := S (fresh g) |} = [created].
Proof.
  intros Hparent Hq created. split.
  - unfold upsertBlock, findBlockByZeplinId, bind, catch, ret. rewrite Hq.
    unfold createBlock. simpl. unfold Editor_insertBlock. rewrite Hparent.
    reflexivity.
  - unfold DB_q_zeplin_id in *. simpl blocks.
    rewrite filter_app, Hq. simpl.
    assert (Htag : hasZeplinId zeplinId created = true).
    { unfold hasZeplinId, created. simpl.
      rewrite lookup_insert_ne by discriminate.
      rewrite lookup_insert_eq. apply String.eqb_refl. }
    rewrite Htag. reflexivity.
Qed.

(** Upsert is idempotent on the remote ID: after [upsert(parent, "A", id)]
    and [upsert(parent, "B", id)] exactly one block carries the ID, it hangs
    under the parent and its content is the second one. *)
Lemma upsertBlock_twice_one_unit env1 env2 parentUuid textA textB zeplinId
  props1 props2 children2 g parentBlock :
  Editor_getBlock parentUuid g = Some parentBlock ->
  DB_q_zeplin_id zeplinId g = [] ->
  let g1 := snd (upsertBlock env1 parentUuid textA zeplinId props1 [] g) in
  let second := upsertBlock env2 parentUuid textB zeplinId props2 children2 g1 in
  exists block,
    DB_q_zeplin_id zeplinId (snd second) = [block]
    /\ content block = textB
    /\ parent block = parentUuid
    /\ fst second = inr (Some (uuid block))
    /\ List.length (blocks (snd second)) = S (List.length (blocks g)).
Proof.
  intros Hparent Hq g1 second. subst second g1.
  destruct (upsertBlock_fresh env1 parentUuid textA zeplinId props1 g parentBlock
              Hparent Hq) as [Hfirst Hq1].
  rewrite Hfirst. simpl snd.
  rewrite (upsertBlock_existing env2 parentUuid textB zeplinId props2 children2 _ _ _ Hq1).
  simpl fst. simpl snd.
  eexists. split.
  - unfold DB_q_zeplin_id in *. simpl blocks in *.
    rewrite filter_map_refreshed, Hq1. reflexivity.
  - unfold refreshed. simpl. rewrite Nat.eqb_refl. simpl.
    repeat split. rewrite length_map, length_app. simpl. lia.
Qed.

End UpsertTwice.

(** ** Runs of [syncProject] on a small project *)

(** C1, at the failing input: both runs succeed; the component, synced
    through [upsertBlock], keeps one unit, but the second run adds a second
    unit for the colour and a second index entry for the screen, both
    created through [createBlock] with the same remote ID. *)
Theorem resync_duplicates_color_and_screen_units :
  fst firstRun = inr tt /\ fst secondRun = inr tt
  /\ unitsOf "c1" (snd firstRun) = ["**Button**"]
  /\ unitsOf "c1" (snd secondRun) = ["**Button**"]
  /\ unitsOf "col1" (snd firstRun) = ["Red: `#ff0000`"]
  /\ unitsOf "col1" (snd secondRun) = ["Red: `#ff0000`"; "Red: `#ff0000`"]
  /\ unitsOf "s1" (snd firstRun) = ["[[Zeplin/Demo/Screens/Login]]"]
  /\ unitsOf "s1" (snd secondRun)
     = ["[[Zeplin/Demo/Screens/Login]]"; "[[Zeplin/Demo/Screens/Login]]"].
Proof. vm_compute. repeat split; reflexivity. Qed.

(** C4, at the failing input: with inline storage and a failing fetch,
    [downloadImage] swallows the failure and answers [null], so
    [downloadAndFormatImage] answers [null] without reaching its fallback;
    the run succeeds and the component block is created, but its only child
    is the description: no image reference is written, whereas direct-link
    storage writes one. *)
Theorem inline_fetch_failure_leaves_no_image_reference :
  Logseq.downloadImage (demoEnv Logseq.inline) "https://cdn.zeplin.io/button.png"
  = inr None
  /\ Logseq.downloadAndFormatImage (demoEnv Logseq.inline)
       "https://cdn.zeplin.io/button.png" "Button" = inr None
  /\ fst inlineRun = inr tt
  /\ map (fun b => (Logseq.uuid b, Logseq.content b))
       (Logseq.DB_q_zeplin_id "c1" (snd inlineRun)) = [(9, "**Button**")]
  /\ childrenOf 9 (snd inlineRun) = ["Primary"]
  /\ existsb (fun b => String.prefix "![" (Logseq.content b))
       (Logseq.blocks (snd inlineRun)) = false
  /\ childrenOf 9 (snd firstRun)
     = ["Primary"; "![Button](https://cdn.zeplin.io/button.png)"].
Proof. vm_compute. repeat split; reflexivity. Qed.

(** The fallback is out of reach for every URL: in inline mode a failed
    fetch always makes [downloadAndFormatImage] answer [null]. *)
Lemma downloadAndFormatImage_inline_failure env imageUrl itemName :
  Logseq.imageStorage (Logseq.config env) = Logseq.inline ->
  Logseq.fetch env imageUrl = None ->
  Logseq.downloadAndFormatImage env imageUrl itemName = inr None.
Proof.
  intros Hmode Hfetch.
  unfold Logseq.downloadAndFormatImage, Logseq.downloadImage.
  rewrite Hmode, Hfetch. reflexivity.
Qed.

(** * Further properties of the code *)

(** ** retry: the shape of the back-off *)

Section BackoffFacts.
Import Retry.
Context {T : Type} (Math_pow : Q -> nat -> Q) (fn : nat -> Thrown + T)
  (opts : RetryOptions).

Lemma delay_nondecreasing k :
  (0 <= initialDelay opts)%Q ->
  (Math_pow (backoffMultiplier opts) (k - 1)
   <= Math_pow (backoffMultiplier opts) (S k - 1))%Q ->
  (delay Math_pow opts k <= delay Math_pow opts (S k))%Q.
Proof.
  intros Hinit Hpow. unfold delay.
  apply Q.min_le_compat_r. unfold Js.mul64. apply fl64_mono.
  rewrite (Qmult_comm (initialDelay opts)
             (Math_pow (backoffMultiplier opts) (k - 1))).
  rewrite (Qmult_comm (initialDelay opts)
             (Math_pow (backoffMultiplier opts) (S k - 1))).
  apply Qmult_le_compat_r; [exact Hpow | exact Hinit].
Qed.

Lemma delay_monotone i j :
  (0 <= initialDelay opts)%Q ->
  (forall k, S k < j ->
     (Math_pow (backoffMultiplier opts) k
      <= Math_pow (backoffMultiplier opts) (S k))%Q) ->
  1 <= i -> i <= j -> (delay Math_pow opts i <= delay Math_pow opts j)%Q.
Proof.
  intros Hinit Hpow Hi Hij. induction Hij as [|j Hij IH]; [apply Qle_refl|].
  eapply Qle_trans; [apply IH; intros k Hk; apply Hpow; lia|].
  apply delay_nondecreasing; [exact Hinit|].
  replace (S j - 1) with (S (j - 1)) by lia. apply Hpow. lia.
Qed.

Lemma totalSlept_bound (delays : list Q) (bound : Q) (count : nat) :
  Forall (fun d => (d <= bound)%Q) delays -> (0 <= bound)%Q ->
  List.length delays <= count ->
  (totalSlept delays <= inject_Z (Z.of_nat count) * bound)%Q.
Proof.
  intros Hall Hbound. revert count.
  induction Hall as [|d rest Hd Hrest IH]; intros count Hlen; simpl.
  - apply Qmult_le_0_compat; [|exact Hbound].
    change 0%Q with (inject_Z 0). rewrite <- Zle_Qle. lia.
  - destruct count as [|count]; [simpl in Hlen; lia|].
    rewrite Nat2Z.inj_succ. unfold Z.succ. rewrite inject_Z_plus.
    rewrite Qmult_plus_distr_l, Qmult_1_l, Qplus_comm.
    apply Qplus_le_compat; [|exact Hd].
    apply IH. simpl in Hlen. lia.
Qed.

(** A base of at least one: the correctly rounded power does not decrease
    with the exponent. *)
Lemma pow64_nondecreasing (base : Q) (k : nat) :
  (1 <= base)%Q -> (Js.pow64 base k <= Js.pow64 base (S k))%Q.
Proof.
  intros Hbase. unfold Js.pow64. apply fl64_mono.
  apply Qpower_le_compat_l; [lia | exact Hbase].
Qed.

End BackoffFacts.

(** X1.  With a non-negative initial delay and a multiplier whose powers,
    as [Math.pow] computes them, do not decrease with the exponent (so it is
    for a multiplier of at least one when [Math.pow] rounds the exact power),
    the sleeps of a run of [retry] never get shorter: a later sleep lasts at
    least as long as every earlier one. *)
Theorem retry_sleeps_nondecreasing {T : Type} (Math_pow : Q -> nat -> Q)
  (fn : nat -> Retry.Thrown + T) (opts : Retry.RetryOptions) (i j : nat)
  (di dj : Q) :
  (0 <= Retry.initialDelay opts)%Q ->
  (forall k, S k < Retry.maxAttempts opts ->
     (Math_pow (Retry.backoffMultiplier opts) k
      <= Math_pow (Retry.backoffMultiplier opts) (S k))%Q) ->
  i <= j ->
  nth_error (Retry.slept (Retry.retry Math_pow fn opts)) i = Some di ->
  nth_error (Retry.slept (Retry.retry Math_pow fn opts)) j = Some dj ->
  (di <= dj)%Q.
Proof.
  intros Hinit Hpow Hij Hi Hj. unfold Retry.retry in *.
  pose proof (loop_invocations_le Math_pow fn opts (Retry.maxAttempts opts) 1
                (Retry.OtherValue "undefined")) as Hle.
  rewrite (loop_slept Math_pow fn opts (Retry.maxAttempts opts) 1
             (Retry.OtherValue "undefined") eq_refl) in Hi, Hj.
  rewrite nth_error_map in Hi, Hj.
  destruct (nth_error (seq 1 _) i) as [a|] eqn:Ha; [|discriminate].
  destruct (nth_error (seq 1 _) j) as [b|] eqn:Hb; [|discriminate].
  simpl in Hi, Hj. injection Hi as <-. injection Hj as <-.
  rewrite nth_error_seq in Ha, Hb.
  destruct (Nat.ltb_spec i
              (Retry.invocations
                 (Retry.loop Math_pow fn opts (Retry.maxAttempts opts) 1
                    (Retry.OtherValue "undefined")) - 1)) as [Hi'|_];
    [|discriminate].
  destruct (Nat.ltb_spec j
              (Retry.invocations
                 (Retry.loop Math_pow fn opts (Retry.maxAttempts opts) 1
                    (Retry.OtherValue "undefined")) - 1)) as [Hj'|_];
    [|discriminate].
  injection Ha as <-. injection Hb as <-.
  apply delay_monotone; auto; [|lia|lia].
  intros k Hk. apply Hpow. lia.
Qed.

(** Witness for X1: the default options, two sleeps. *)
Lemma retry_sleeps_nondecreasing_witness :
  ((0 <= Retry.initialDelay Retry.DEFAULT_OPTIONS)%Q
   /\ (forall k, S k < Retry.maxAttempts Retry.DEFAULT_OPTIONS ->
         (Js.pow64 (Retry.backoffMultiplier Retry.DEFAULT_OPTIONS) k
          <= Js.pow64 (Retry.backoffMultiplier Retry.DEFAULT_OPTIONS) (S k))%Q))
  /\ (1000 <= 2000)%Q.
Proof.
  assert (H0 : (0 <= Retry.initialDelay Retry.DEFAULT_OPTIONS)%Q) by discriminate.
  assert (H1 : forall k, S k < Retry.maxAttempts Retry.DEFAULT_OPTIONS ->
                 (Js.pow64 (Retry.backoffMultiplier Retry.DEFAULT_OPTIONS) k
                  <= Js.pow64 (Retry.backoffMultiplier Retry.DEFAULT_OPTIONS) (S k))%Q).
  { intros k Hk. apply pow64_nondecreasing. discriminate. }
  split; [auto|].
  exact (retry_sleeps_nondecreasing (T := nat) Js.pow64
           (fun _ => inl (Retry.ErrorObject "down")) Retry.DEFAULT_OPTIONS
           0 1 1000%Q 2000%Q H0 H1 (le_S 0 0 (le_n 0)) eq_refl eq_refl).
Defined.

(** X2.  With a non-negative [maxDelay], a run of [retry] with
    [maxAttempts = n >= 1] sleeps at most [(n - 1) * maxDelay] in all,
    whatever the callback does. *)
Theorem retry_total_sleep_bounded {T : Type} (Math_pow : Q -> nat -> Q)
  (fn : nat -> Retry.Thrown + T) (opts : Retry.RetryOptions) (n : nat) :
  Retry.maxAttempts opts = n -> 1 <= n -> (0 <= Retry.maxDelay opts)%Q ->
  (totalSlept (Retry.slept (Retry.retry Math_pow fn opts))
   <= inject_Z (Z.of_nat (n - 1)) * Retry.maxDelay opts)%Q.
Proof.
  intros Hn Hpos Hmax. unfold Retry.retry.
  pose proof (loop_slept Math_pow fn opts (Retry.maxAttempts opts) 1
                (Retry.OtherValue "undefined") eq_refl) as Hslept.
  pose proof (loop_invocations_le Math_pow fn opts (Retry.maxAttempts opts) 1
                (Retry.OtherValue "undefined")) as Hle.
  apply totalSlept_bound; [|exact Hmax|].
  - rewrite Hslept. apply Forall_forall. intros d Hd.
    apply in_map_iff in Hd. destruct Hd as (k & <- & _).
    apply delay_le_maxDelay.
  - rewrite Hslept, length_map, length_seq. lia.
Qed.

(** Witness for X2: the default options, at most twenty seconds. *)
Lemma retry_total_sleep_bounded_witness :
  (Retry.maxAttempts Retry.DEFAULT_OPTIONS = 3 /\ 1 <= 3
   /\ (0 <= Retry.maxDelay Retry.DEFAULT_OPTIONS)%Q)
  /\ (totalSlept
        (Retry.slept
           (Retry.retry (T := nat) Js.pow64 (fun _ => inl (Retry.ErrorObject "down"))
              Retry.DEFAULT_OPTIONS))
      <= inject_Z (Z.of_nat (3 - 1)) * Retry.maxDelay Retry.DEFAULT_OPTIONS)%Q.
Proof.
  assert (H0 : (0 <= Retry.maxDelay Retry.DEFAULT_OPTIONS)%Q) by discriminate.
  split; [repeat split; [lia | exact H0]|].
  exact (retry_total_sleep_bounded (T := nat) Js.pow64
           (fun _ => inl (Retry.ErrorObject "down")) Retry.DEFAULT_OPTIONS 3
           eq_refl (le_S 1 2 (le_S 1 1 (le_n 1))) H0).
Defined.

(** ** sanitizePath: what comes out *)

Section SanitizeOutputFacts.
Import Js Obsidian.

Lemma normalSpaces_blank inRun s c :
  normalSpaces inRun s -> In c s -> isWhiteSpace c = true -> c = " "%char.
Proof.
  revert inRun. induction s as [|x s IH]; intros inRun Hn Hin Hc; [destruct Hin|].
  simpl in Hn. destruct (isWhiteSpace x) eqn:Hx.
  - destruct Hn as (_ & Hx' & Hn). destruct Hin as [<-|Hin]; [exact Hx'|].
    eapply IH; eauto.
  - destruct Hin as [<-|Hin]; [congruence|]. eapply IH; eauto.
Qed.

Lemma normalSpaces_no_double_blank inRun front back :
  ~ normalSpaces inRun (front ++ " "%char :: " "%char :: back).
Proof.
  revert inRun. induction front as [|x front IH]; intros inRun Hn.
  - simpl in Hn. destruct Hn as (_ & _ & Hn & _). discriminate.
  - simpl in Hn. destruct (isWhiteSpace x).
    + destruct Hn as (_ & _ & Hn). eapply IH; eauto.
    + eapply IH; eauto.
Qed.

Lemma trimEnd_last s front c :
  trimEnd s = (front ++ [c])%list -> isWhiteSpace c = false.
Proof.
  revert front. induction s as [|x s IH]; intros front H.
  - destruct front; discriminate.
  - simpl in H. destruct (trimEnd s) as [|y rest] eqn:Hs.
    + destruct (isWhiteSpace x) eqn:Hx.
      * destruct front; discriminate.
      * destruct front as [|z [|? ?]]; try discriminate.
        simpl in H. congruence.
    + destruct front as [|z front]; [discriminate|].
      simpl in H. injection H as _ H. eapply IH. exact H.
Qed.

Lemma sanitizeChars_legal s : legal (sanitizeChars s).
Proof.
  unfold sanitizeChars, trim. apply trimEnd_legal, trimStart_legal.
  apply collapseSpaces_legal, replaceAll_legal.
Qed.

Lemma sanitizeChars_normal s : normalSpaces false (sanitizeChars s).
Proof.
  unfold sanitizeChars, trim. apply trimEnd_normal. eapply trimStart_normal.
  apply collapseSpaces_normal.
Qed.

Lemma sanitizeChars_of_clean s :
  legal s -> normalSpaces false s -> trim s = s -> sanitizeChars s = s.
Proof.
  intros Hlegal Hnormal Htrim. unfold sanitizeChars.
  rewrite (replaceAll_of_legal _ Hlegal).
  rewrite (collapseSpaces_of_normal _ _ Hnormal). exact Htrim.
Qed.

End SanitizeOutputFacts.

(** X3.  A sanitized path segment holds none of the nine illegal characters
    (so no path separator), its only white space are single blanks between
    other characters, and it neither starts nor ends with white space. *)
Theorem sanitizePath_output_clean (x : string) :
  let y := list_ascii_of_string (Obsidian.sanitizePath x) in
  (forall c, In c y -> Obsidian.isIllegal c = false)
  /\ ~ In "/"%char y
  /\ (forall c, In c y -> Js.isWhiteSpace c = true -> c = " "%char)
  /\ (forall front back, y <> (front ++ " "%char :: " "%char :: back)%list)
  /\ (forall c rest, y = c :: rest -> Js.isWhiteSpace c = false)
  /\ (forall front c, y = (front ++ [c])%list -> Js.isWhiteSpace c = false).
Proof.
  intros y. subst y. unfold Obsidian.sanitizePath.
  rewrite list_ascii_of_string_of_list_ascii.
  set (s := list_ascii_of_string x).
  pose proof (sanitizeChars_legal s) as Hlegal.
  pose proof (sanitizeChars_normal s) as Hnormal.
  assert (Hall : forall c, In c (Obsidian.sanitizeChars s) ->
                           Obsidian.isIllegal c = false).
  { intros c Hc. unfold legal in Hlegal. rewrite Forall_forall in Hlegal. auto. }
  split; [exact Hall|].
  split; [intros Hin; apply Hall in Hin; discriminate|].
  split; [intros c Hin Hc; eapply normalSpaces_blank; eauto|].
  split; [intros front back Heq; rewrite Heq in Hnormal;
          eapply normalSpaces_no_double_blank; eauto|].
  split.
  - intros c rest Heq.
    assert (Hstart : startsClean (Obsidian.sanitizeChars s)).
    { unfold Obsidian.sanitizeChars, Js.trim.
      apply trimEnd_startsClean, trimStart_startsClean. }
    rewrite Heq in Hstart. exact Hstart.
  - intros front c Heq. unfold Obsidian.sanitizeChars, Js.trim in Heq.
    eapply trimEnd_last. exact Heq.
Qed.

(** X4.  [sanitizePath] leaves an ASCII name as it is exactly when the name
    is already clean: no illegal character, white space only as single
    blanks, nothing to trim. *)
Theorem sanitizePath_fixed_points (x : string) :
  Js.asciiText x = true ->
  (Obsidian.sanitizePath x = x
   <-> legal (list_ascii_of_string x)
       /\ normalSpaces false (list_ascii_of_string x)
       /\ Js.trim (list_ascii_of_string x) = list_ascii_of_string x).
Proof.
  intros _. unfold Obsidian.sanitizePath. split.
  - intros Heq.
    assert (Hs : Obsidian.sanitizeChars (list_ascii_of_string x)
                 = list_ascii_of_string x).
    { rewrite <- Heq at 2. rewrite list_ascii_of_string_of_list_ascii. reflexivity. }
    rewrite <- Hs. split; [apply sanitizeChars_legal|].
    split; [apply sanitizeChars_normal|].
    unfold Obsidian.sanitizeChars. apply trim_idempotent.
  - intros (Hlegal & Hnormal & Htrim).
    rewrite sanitizeChars_of_clean by assumption.
    apply string_of_list_ascii_of_string.
Qed.

(** Witness for X4: a clean name, and one with a slash. *)
Lemma sanitizePath_fixed_points_witness :
  Js.asciiText "Login form" = true
  /\ (Obsidian.sanitizePath "Login form" = "Login form"
      <-> legal (list_ascii_of_string "Login form")
          /\ normalSpaces false (list_ascii_of_string "Login form")
          /\ Js.trim (list_ascii_of_string "Login form")
             = list_ascii_of_string "Login form").
Proof.
  split; [reflexivity|].
  exact (sanitizePath_fixed_points "Login form" eq_refl).
Defined.

(** ** The exclude patterns of the settings *)

Section PatternFacts.
Import Js Obsidian.

Lemma chars_append (s1 s2 : string) :
  list_ascii_of_string (s1 ++ s2)
  = (list_ascii_of_string s1 ++ list_ascii_of_string s2)%list.
Proof.
  induction s1 as [|c s1 IH]; [reflexivity|].
  change (c :: list_ascii_of_string (s1 ++ s2)
          = c :: (list_ascii_of_string s1 ++ list_ascii_of_string s2)%list).
  rewrite IH. reflexivity.
Qed.

Lemma splitLines_pieces s cur piece :
  ~ In lineFeed cur -> In piece (splitLines s cur) -> ~ In lineFeed piece.
Proof.
  revert cur. induction s as [|c s IH]; intros cur Hcur Hin; simpl in Hin.
  - destruct Hin as [<-|[]]. intros H. apply Hcur, in_rev. exact H.
  - destruct (Ascii.eqb_spec c (ascii_of_nat 10)) as [->|Hc].
    + destruct Hin as [<-|Hin]; [intros H; apply Hcur, in_rev; exact H|].
      eapply IH; [|exact Hin]. intros [].
    + eapply IH; [|exact Hin]. intros [Heq|Hin']; [apply Hc; exact Heq|auto].
Qed.

Lemma trimStart_In s c : In c (trimStart s) -> In c s.
Proof.
  induction s as [|x s IH]; simpl; [auto|].
  destruct (isWhiteSpace x); [intros H; right; auto | auto].
Qed.

Lemma trimEnd_In s c : In c (trimEnd s) -> In c s.
Proof.
  induction s as [|x s IH]; simpl; [auto|].
  destruct (trimEnd s) as [|y rest].
  - destruct (isWhiteSpace x); [intros [] | intros [<-|[]]; left; reflexivity].
  - intros [<-|Hin]; [left; reflexivity | right; apply IH; exact Hin].
Qed.

Lemma splitLines_line p s cur :
  ~ In lineFeed p ->
  splitLines (p ++ s) cur = splitLines s (rev p ++ cur).
Proof.
  revert cur. induction p as [|c p IH]; intros cur Hp; [reflexivity|].
  simpl. destruct (Ascii.eqb_spec c (ascii_of_nat 10)) as [->|Hc].
  - exfalso. apply Hp. left. reflexivity.
  - rewrite IH by (intros Hin; apply Hp; right; exact Hin).
    rewrite <- app_assoc. reflexivity.
Qed.

Lemma splitLines_feed s cur :
  splitLines ([ascii_of_nat 10] ++ s) cur = rev cur :: splitLines s [].
Proof. reflexivity. Qed.

Lemma splitLines_join patterns :
  patterns <> [] ->
  (forall p, In p patterns -> ~ In lineFeed (list_ascii_of_string p)) ->
  splitLines (list_ascii_of_string (Js.join nl patterns)) []
  = map list_ascii_of_string patterns.
Proof.
  induction patterns as [|p rest IH]; intros Hne Hclean; [contradiction|].
  destruct rest as [|q rest].
  - simpl. rewrite <- (app_nil_r (list_ascii_of_string p)).
    rewrite splitLines_line by (apply Hclean; left; reflexivity).
    rewrite !app_nil_r. simpl. rewrite List.rev_involutive. reflexivity.
  - change (Js.join nl (p :: q :: rest)) with (p ++ nl ++ Js.join nl (q :: rest)).
    rewrite !chars_append.
    rewrite splitLines_line by (apply Hclean; left; reflexivity).
    change (list_ascii_of_string nl) with [ascii_of_nat 10].
    rewrite splitLines_feed, app_nil_r, List.rev_involutive.
    rewrite IH; [reflexivity | discriminate |].
    intros p' Hp'. apply Hclean. right. exact Hp'.
Qed.

Lemma string_of_chars_nonempty (l : list ascii) :
  (0 <? List.length l)%nat = true -> string_of_list_ascii l <> "".
Proof. destruct l; [discriminate | intros _; discriminate]. Qed.

End PatternFacts.

(** X5.  Every pattern that the constructor keeps from the settings text is
    tidy: not empty, without white space at its ends and without a line
    feed. *)
Theorem parseExcludePatterns_tidy (setting pattern : string) :
  In pattern (Obsidian.parseExcludePatterns setting) -> tidyPattern pattern.
Proof.
  unfold Obsidian.parseExcludePatterns. intros Hin.
  apply in_map_iff in Hin. destruct Hin as (chars & <- & Hin).
  apply filter_In in Hin. destruct Hin as [Hin Hlen].
  apply in_map_iff in Hin. destruct Hin as (piece & <- & Hpiece).
  unfold tidyPattern. rewrite list_ascii_of_string_of_list_ascii.
  split; [apply string_of_chars_nonempty; exact Hlen|].
  split; [apply trim_idempotent|].
  intros Hlf. unfold Js.trim in Hlf.
  apply trimEnd_In, trimStart_In in Hlf.
  revert Hlf. eapply splitLines_pieces; [|exact Hpiece]. intros [].
Qed.

(** Witness for X5. *)
Lemma parseExcludePatterns_tidy_witness :
  In "*-old" (Obsidian.parseExcludePatterns (" *-old " ++ Obsidian.nl ++ "test-*"))
  /\ tidyPattern "*-old".
Proof.
  assert (H : In "*-old"
                (Obsidian.parseExcludePatterns (" *-old " ++ Obsidian.nl ++ "test-*")))
    by (left; reflexivity).
  split; [exact H|].
  exact (parseExcludePatterns_tidy _ _ H).
Defined.

(** X6.  Writing tidy ASCII patterns one per line and parsing the text gives
    the patterns back, in order. *)
Theorem parseExcludePatterns_join (patterns : list string) :
  (forall p, In p patterns -> Js.asciiText p = true) ->
  (forall p, In p patterns -> tidyPattern p) ->
  Obsidian.parseExcludePatterns (Js.join Obsidian.nl patterns) = patterns.
Proof.
  intros _ Htidy. destruct patterns as [|p0 rest] eqn:Hpatterns; [reflexivity|].
  rewrite <- Hpatterns in *. unfold Obsidian.parseExcludePatterns.
  rewrite splitLines_join.
  - assert (Htrim : map Js.trim (map list_ascii_of_string patterns)
                    = map list_ascii_of_string patterns).
    { rewrite map_map. apply map_ext_in. intros p Hp.
      destruct (Htidy p Hp) as (_ & Ht & _). exact Ht. }
    rewrite Htrim.
    assert (Hkeep : filter (fun p => (0 <? List.length p)%nat)
                      (map list_ascii_of_string patterns)
                    = map list_ascii_of_string patterns).
    { clear Htrim Hpatterns. induction patterns as [|p ps IH]; [reflexivity|].
      simpl. destruct (Htidy p (or_introl eq_refl)) as (Hne & _ & _).
      destruct p as [|c p]; [contradiction|]. simpl. f_equal.
      apply IH. intros q Hq. apply Htidy. right. exact Hq. }
    rewrite Hkeep, map_map. rewrite <- (map_id patterns) at 2.
    apply map_ext. intros p. apply string_of_list_ascii_of_string.
  - rewrite Hpatterns. discriminate.
  - intros p Hp. destruct (Htidy p Hp) as (_ & _ & Hlf). exact Hlf.
Qed.

(** Witness for X6. *)
Lemma parseExcludePatterns_join_witness :
  ((forall p, In p ["*-old"; "test-*"] -> Js.asciiText p = true)
   /\ (forall p, In p ["*-old"; "test-*"] -> tidyPattern p))
  /\ Obsidian.parseExcludePatterns (Js.join Obsidian.nl ["*-old"; "test-*"])
     = ["*-old"; "test-*"].
Proof.
  assert (Hascii : forall p, In p ["*-old"; "test-*"] -> Js.asciiText p = true).
  { intros p [<-|[<-|[]]]; reflexivity. }
  assert (H : forall p, In p ["*-old"; "test-*"] -> tidyPattern p).
  { intros p [<-|[<-|[]]]; (split; [discriminate|]; split; [reflexivity|]);
      intros Hin; repeat (destruct Hin as [Hin|Hin]; [discriminate Hin|]);
      destruct Hin. }
  split; [split; [exact Hascii | exact H]|].
  exact (parseExcludePatterns_join _ Hascii H).
Defined.

(** ** The exclusion filter: several patterns, literal patterns, the
    patterns of the README *)

Section GlobShapes.
Import Js Obsidian.

Lemma excludedBy_app wild patterns1 patterns2 name :
  excludedBy wild (patterns1 ++ patterns2) name
  <-> excludedBy wild patterns1 name \/ excludedBy wild patterns2 name.
Proof.
  unfold excludedBy. split.
  - intros (p & Hin & Hp). apply in_app_or in Hin.
    destruct Hin as [Hin|Hin]; [left | right]; exists p; auto.
  - intros [(p & Hin & Hp)|(p & Hin & Hp)]; exists p; split; auto;
      apply in_or_app; auto.
Qed.

Lemma literalPattern_cons x p :
  literalPattern (x :: p) = true
  <-> x <> "*"%char /\ x <> "?"%char /\ literalPattern p = true.
Proof.
  unfold literalPattern. simpl. rewrite !andb_true_iff, !negb_true_iff.
  split.
  - intros [[H1 H2] H3]. repeat split; auto; intros ->; discriminate.
  - intros (H1 & H2 & H3). repeat split; auto;
      [destruct (Ascii.eqb_spec x "*") | destruct (Ascii.eqb_spec x "?")];
      congruence.
Qed.

(** A literal prefix of a pattern stands for itself, letter case aside. *)
Lemma globMatches_literal_prefix wild p q name :
  literalPattern p = true ->
  (globMatches wild (p ++ q) name
   <-> exists s rest, name = (s ++ rest)%list /\ sameLetters p s
                      /\ globMatches wild q rest).
Proof.
  intros Hp. revert name. induction p as [|x p IH]; intros name.
  - simpl. split.
    + intros H. exists [], name. repeat split; auto.
    + intros (s & rest & -> & Hs & Hq). destruct s; [exact Hq | discriminate Hs].
  - apply literalPattern_cons in Hp. destruct Hp as (Hx1 & Hx2 & Hp).
    simpl. split.
    + intros H. inversion H as [|? ? ? ? ?| |x' c p' s' Hc1 Hc2 Hc Hrest]; subst;
        try contradiction.
      apply IH in Hrest; [|exact Hp].
      destruct Hrest as (s & rest & -> & Hs & Hq).
      exists (c :: s), rest. repeat split; auto.
      unfold sameLetters in *. simpl. rewrite Hc, Hs. reflexivity.
    + intros (s & rest & -> & Hs & Hq). destruct s as [|c s]; [discriminate Hs|].
      unfold sameLetters in Hs. simpl in Hs. injection Hs as Hc Hs.
      simpl. apply glob_literal; auto.
      apply IH; [exact Hp|]. exists s, rest. repeat split; auto.
Qed.

End GlobShapes.

(** X7.  The patterns are alternatives: a name is excluded by the patterns
    of two lists together exactly when one of the two lists excludes it. *)
Theorem shouldExclude_app (patterns1 patterns2 : list string) (name : string) :
  Obsidian.shouldExclude (patterns1 ++ patterns2) name = Some true
  <-> Obsidian.shouldExclude patterns1 name = Some true
      \/ Obsidian.shouldExclude patterns2 name = Some true.
Proof.
  rewrite !shouldExclude_true_iff. apply excludedBy_app.
Qed.

(** X8.  On ASCII text, a pattern without wildcards excludes exactly the
    names equal to it up to the case of letters, whatever regex
    metacharacters it holds. *)
Theorem shouldExclude_literal_pattern (pattern name : string) :
  Js.asciiText pattern = true -> Js.asciiText name = true ->
  literalPattern (list_ascii_of_string pattern) = true ->
  (Obsidian.shouldExclude [pattern] name = Some true
   <-> sameLetters (list_ascii_of_string pattern) (list_ascii_of_string name)).
Proof.
  intros _ _ Hlit. rewrite shouldExclude_true_iff, excludedBy_single.
  rewrite <- (app_nil_r (list_ascii_of_string pattern)) at 1.
  rewrite (globMatches_literal_prefix _ _ _ _ Hlit). split.
  - intros (s & rest & Hname & Hs & Hrest). apply globMatches_nil in Hrest.
    subst rest. rewrite app_nil_r in Hname. rewrite Hname. exact Hs.
  - intros Hs. exists (list_ascii_of_string name), [].
    rewrite app_nil_r. repeat split; [exact Hs | constructor].
Qed.

(** Witness for X8: a name with brackets and a dot. *)
Lemma shouldExclude_literal_pattern_witness :
  (Js.asciiText "Card (v1.2)" = true /\ Js.asciiText "CARD (V1.2)" = true
   /\ literalPattern (list_ascii_of_string "Card (v1.2)") = true)
  /\ (Obsidian.shouldExclude ["Card (v1.2)"] "CARD (V1.2)" = Some true
      <-> sameLetters (list_ascii_of_string "Card (v1.2)")
            (list_ascii_of_string "CARD (V1.2)")).
Proof.
  split; [repeat split|].
  exact (shouldExclude_literal_pattern "Card (v1.2)" "CARD (V1.2)"
           eq_refl eq_refl eq_refl).
Defined.

(** X9.  The patterns of the README, on ASCII text: for a text [p] without
    wildcards, the pattern [*p] excludes exactly the names that end with [p]
    (letter case aside) after a part without line terminators, and the
    pattern [p*] excludes exactly the names that start with [p] and go on
    without line terminators. *)
Theorem shouldExclude_suffix_and_prefix_patterns (p name : string) :
  Js.asciiText p = true -> Js.asciiText name = true ->
  literalPattern (list_ascii_of_string p) = true ->
  (Obsidian.shouldExclude [String "*" p] name = Some true
   <-> exists front back,
         list_ascii_of_string name = (front ++ back)%list
         /\ forallb notLineTerminator front = true
         /\ sameLetters (list_ascii_of_string p) back)
  /\ (Obsidian.shouldExclude [p ++ "*"] name = Some true
      <-> exists front back,
            list_ascii_of_string name = (front ++ back)%list
            /\ sameLetters (list_ascii_of_string p) front
            /\ forallb notLineTerminator back = true).
Proof.
  intros _ _ Hlit. split.
  - rewrite shouldExclude_true_iff, excludedBy_single.
    change (list_ascii_of_string (String "*" p))
      with ("*"%char :: list_ascii_of_string p).
    rewrite globMatches_star. split.
    + intros (run & rest & Hname & Hrun & Hrest). exists run, rest.
      repeat split; auto.
      rewrite <- (app_nil_r (list_ascii_of_string p)) in Hrest.
      apply (globMatches_literal_prefix _ _ _ _ Hlit) in Hrest.
      destruct Hrest as (s & rest' & -> & Hs & Hnil).
      apply globMatches_nil in Hnil. subst rest'. rewrite app_nil_r. exact Hs.
    + intros (front & back & Hname & Hfront & Hback). exists front, back.
      repeat split; auto.
      rewrite <- (app_nil_r (list_ascii_of_string p)).
      apply (globMatches_literal_prefix _ _ _ _ Hlit).
      exists back, []. rewrite app_nil_r. repeat split; [exact Hback | constructor].
  - rewrite shouldExclude_true_iff, excludedBy_single, chars_append.
    change (list_ascii_of_string "*") with ["*"%char].
    rewrite (globMatches_literal_prefix _ _ _ _ Hlit). split.
    + intros (s & rest & Hname & Hs & Hrest). exists s, rest.
      repeat split; auto.
      apply globMatches_star in Hrest.
      destruct Hrest as (run & rest' & -> & Hrun & Hnil).
      apply globMatches_nil in Hnil. subst rest'. rewrite app_nil_r. exact Hrun.
    + intros (front & back & Hname & Hfront & Hback). exists front, back.
      repeat split; auto.
      apply globMatches_star. exists back, []. rewrite app_nil_r.
      repeat split; [exact Hback | constructor].
Qed.

(** Witness for X9: the pattern [*-old] of the README. *)
Lemma shouldExclude_suffix_and_prefix_patterns_witness :
  (Js.asciiText "-old" = true /\ Js.asciiText "Button-Old" = true
   /\ literalPattern (list_ascii_of_string "-old") = true)
  /\ (Obsidian.shouldExclude ["*-old"] "Button-Old" = Some true
      <-> exists front back,
            list_ascii_of_string "Button-Old" = (front ++ back)%list
            /\ forallb notLineTerminator front = true
            /\ sameLetters (list_ascii_of_string "-old") back).
Proof.
  split; [repeat split|].
  exact (proj1 (shouldExclude_suffix_and_prefix_patterns "-old" "Button-Old"
                  eq_refl eq_refl eq_refl)).
Defined.

(** ** extractImageUrl: the two synchronizers side by side *)

Section ImageAgreement.
Import Zeplin.

Lemma firstPresent_Some candidates u :
  firstPresent candidates = Some u -> u <> "" /\ In (Some u) candidates.
Proof.
  induction candidates as [|c rest IH]; [discriminate|].
  simpl. destruct (Js.truthy c) eqn:Hc.
  - intros ->. split; [|left; reflexivity].
    simpl in Hc. intros ->. discriminate.
  - intros H. destruct (IH H) as [H1 H2]. split; [exact H1 | right; exact H2].
Qed.

Lemma firstPresent_app l1 l2 :
  firstPresent (l1 ++ l2)
  = match firstPresent l1 with
    | Some u => Some u
    | None => firstPresent l2
    end.
Proof.
  induction l1 as [|c l1 IH]; [reflexivity|].
  simpl. destruct (Js.truthy c) eqn:Hc; [|exact IH].
  destruct c as [u|]; [reflexivity | discriminate].
Qed.

End ImageAgreement.

(** X10.  [extractImageUrl] never answers an empty URL, and the two
    synchronizers agree wherever the Obsidian one finds an image: what it
    returns, the Logseq one returns too; so when the Logseq one finds no
    image, neither does the Obsidian one. *)
Theorem extractImageUrl_nonempty_and_agreeing (item : Zeplin.ItemImages) :
  (forall u, Logseq.extractImageUrl item = Some u -> u <> "")
  /\ (forall u, Obsidian.extractImageUrl item = Some u ->
        u <> "" /\ Logseq.extractImageUrl item = Some u)
  /\ (Logseq.extractImageUrl item = None -> Obsidian.extractImageUrl item = None).
Proof.
  rewrite Logseq_extractImageUrl_firstPresent, Obsidian_extractImageUrl_firstPresent.
  unfold consultedCandidates. rewrite firstPresent_app.
  split; [|split].
  - intros u Hu.
    destruct (firstPresent (assetCandidates (Zeplin.image item))) as [w|] eqn:Hw.
    + injection Hu as ->. apply firstPresent_Some in Hw. tauto.
    + apply firstPresent_Some in Hu. tauto.
  - intros u Hu. rewrite Hu. split; [|reflexivity].
    apply firstPresent_Some in Hu. tauto.
  - destruct (firstPresent (assetCandidates (Zeplin.image item))); [discriminate|].
    reflexivity.
Qed.

(** Witness for X10. *)
Lemma extractImageUrl_nonempty_and_agreeing_witness :
  Obsidian.extractImageUrl mediumAndLarge = Some "https://cdn.zeplin.io/l.png"
  /\ Logseq.extractImageUrl mediumAndLarge = Some "https://cdn.zeplin.io/l.png".
Proof.
  split; [reflexivity|].
  destruct (extractImageUrl_nonempty_and_agreeing mediumAndLarge) as (_ & H & _).
  exact (proj2 (H "https://cdn.zeplin.io/l.png" eq_refl)).
Defined.

(** ** logseq/assets.ts: file names *)

Section SlugFacts.
Import Logseq.

Lemma isSlugChar_not_hyphen c : isSlugChar c = true -> Ascii.eqb c "-" = false.
Proof. destruct c as [[] [] [] [] [] [] [] []]; vm_compute; congruence. Qed.

Lemma toLowerCase_slugOrHyphen c : slugOrHyphen c = true -> Js.toLowerCase c = c.
Proof. destruct c as [[] [] [] [] [] [] [] []]; vm_compute; congruence. Qed.

Lemma hyphenate_chars inRun s : forallb slugOrHyphen (hyphenate inRun s) = true.
Proof.
  revert inRun. induction s as [|c rest IH]; intros inRun; [reflexivity|].
  simpl. destruct (isSlugChar c) eqn:Hc.
  - simpl. unfold slugOrHyphen at 1. rewrite Hc. simpl. apply IH.
  - destruct inRun; [apply IH|]. simpl. apply IH.
Qed.

Lemma hyphenate_single inRun s :
  noDoubleHyphen (hyphenate inRun s) = true
  /\ (inRun = true -> startsWithHyphen (hyphenate inRun s) = false).
Proof.
  revert inRun. induction s as [|c rest IH]; intros inRun; [split; reflexivity|].
  simpl. destruct (isSlugChar c) eqn:Hc.
  - destruct (IH false) as [IH1 _]. simpl.
    rewrite (isSlugChar_not_hyphen c Hc). simpl. split; [exact IH1 | reflexivity].
  - destruct (IH true) as [IH1 IH2]. destruct inRun.
    + split; [exact IH1 | intros _; apply IH2; reflexivity].
    + simpl. rewrite (IH2 eq_refl). simpl. split; [exact IH1 | discriminate].
Qed.

Lemma noDoubleHyphen_tail c s : noDoubleHyphen (c :: s) = true -> noDoubleHyphen s = true.
Proof. simpl. intros H. apply andb_true_iff in H. tauto. Qed.

Lemma stripLeadingHyphens_keeps (P : list ascii -> bool) s :
  (forall c rest, P (c :: rest) = true -> P rest = true) ->
  P s = true -> P (stripLeadingHyphens s) = true.
Proof.
  intros Htail. induction s as [|c rest IH]; intros Hs; [exact Hs|].
  simpl. destruct (Ascii.eqb c "-"); [|exact Hs].
  apply IH. exact (Htail _ _ Hs).
Qed.

Lemma stripLeadingHyphens_start s : startsWithHyphen (stripLeadingHyphens s) = false.
Proof.
  induction s as [|c rest IH]; [reflexivity|].
  simpl. destruct (Ascii.eqb c "-") eqn:Hc; [exact IH | simpl; exact Hc].
Qed.

(** Stripping at the end leaves a prefix. *)
Lemma stripTrailingHyphens_prefix s :
  exists hyphens, s = (stripTrailingHyphens s ++ hyphens)%list.
Proof.
  induction s as [|c rest [hyphens IH]]; [exists []; reflexivity|].
  simpl. destruct (stripTrailingHyphens rest) as [|r rest'] eqn:Hrest.
  - destruct (Ascii.eqb c "-").
    + exists (c :: rest). reflexivity.
    + exists rest. reflexivity.
  - exists hyphens. simpl. rewrite IH at 1. reflexivity.
Qed.

Lemma stripTrailingHyphens_chars s :
  forallb slugOrHyphen s = true -> forallb slugOrHyphen (stripTrailingHyphens s) = true.
Proof.
  intros Hs. destruct (stripTrailingHyphens_prefix s) as [hyphens Heq].
  rewrite Heq, forallb_app in Hs. apply andb_true_iff in Hs. tauto.
Qed.

Lemma stripTrailingHyphens_start s :
  startsWithHyphen s = false -> startsWithHyphen (stripTrailingHyphens s) = false.
Proof.
  intros Hs. destruct (stripTrailingHyphens_prefix s) as [hyphens Heq].
  destruct (stripTrailingHyphens s) as [|c rest]; [reflexivity|].
  rewrite Heq in Hs. exact Hs.
Qed.

Lemma noDoubleHyphen_prefix s t :
  noDoubleHyphen (s ++ t) = true -> noDoubleHyphen s = true.
Proof.
  induction s as [|c rest IH]; [reflexivity|].
  simpl. intros H. apply andb_true_iff in H. destruct H as [H1 H2].
  rewrite (IH H2), andb_true_r.
  destruct rest as [|r rest']; [rewrite andb_false_r; reflexivity | exact H1].
Qed.

Lemma stripTrailingHyphens_single s :
  noDoubleHyphen s = true -> noDoubleHyphen (stripTrailingHyphens s) = true.
Proof.
  intros Hs. destruct (stripTrailingHyphens_prefix s) as [hyphens Heq].
  rewrite Heq in Hs. exact (noDoubleHyphen_prefix _ _ Hs).
Qed.

Lemma stripTrailingHyphens_end s : endsWithHyphen (stripTrailingHyphens s) = false.
Proof.
  induction s as [|c rest IH]; [reflexivity|].
  simpl. destruct (stripTrailingHyphens rest) as [|r rest'] eqn:Hrest.
  - destruct (Ascii.eqb c "-") eqn:Hc; [reflexivity | simpl; exact Hc].
  - exact IH.
Qed.

Lemma sanitizeFilenameChars_slug name : isSlug (sanitizeFilenameChars name) = true.
Proof.
  unfold isSlug, sanitizeFilenameChars.
  set (h := hyphenate false (map Js.toLowerCase name)).
  assert (Hchars : forallb slugOrHyphen (stripLeadingHyphens h) = true).
  { apply stripLeadingHyphens_keeps; [|apply hyphenate_chars].
    intros c rest H. simpl in H. apply andb_true_iff in H. tauto. }
  assert (Hsingle : noDoubleHyphen (stripLeadingHyphens h) = true).
  { apply stripLeadingHyphens_keeps; [exact noDoubleHyphen_tail|].
    apply hyphenate_single. }
  rewrite (stripTrailingHyphens_chars _ Hchars).
  rewrite (stripTrailingHyphens_start _ (stripLeadingHyphens_start h)).
  rewrite stripTrailingHyphens_end.
  rewrite (stripTrailingHyphens_single _ Hsingle). reflexivity.
Qed.

Lemma map_toLowerCase_slug s :
  forallb slugOrHyphen s = true -> map Js.toLowerCase s = s.
Proof.
  induction s as [|c rest IH]; [reflexivity|].
  simpl. intros H. apply andb_true_iff in H. destruct H as [Hc Hrest].
  rewrite (toLowerCase_slugOrHyphen c Hc), (IH Hrest). reflexivity.
Qed.

Lemma hyphenate_of_slug inRun s :
  forallb slugOrHyphen s = true -> noDoubleHyphen s = true ->
  (inRun = true -> startsWithHyphen s = false) ->
  hyphenate inRun s = s.
Proof.
  revert inRun. induction s as [|c rest IH]; intros inRun Hchars Hsingle Hstart;
    [reflexivity|].
  simpl in Hchars, Hsingle.
  apply andb_true_iff in Hchars. destruct Hchars as [Hc Hrest].
  apply andb_true_iff in Hsingle. destruct Hsingle as [Hcs Hsingle].
  simpl. destruct (isSlugChar c) eqn:Hslug.
  - rewrite (IH false Hrest Hsingle); [reflexivity | discriminate].
  - unfold slugOrHyphen in Hc. rewrite Hslug in Hc. simpl in Hc.
    destruct inRun.
    + specialize (Hstart eq_refl). simpl in Hstart. congruence.
    + rewrite Hc in Hcs. simpl in Hcs. apply negb_true_iff in Hcs.
      rewrite (IH true Hrest Hsingle (fun _ => Hcs)).
      apply Ascii.eqb_eq in Hc. rewrite Hc. reflexivity.
Qed.

Lemma stripLeadingHyphens_of_slug s :
  startsWithHyphen s = false -> stripLeadingHyphens s = s.
Proof.
  destruct s as [|c rest]; [reflexivity|]. simpl. intros ->. reflexivity.
Qed.

Lemma stripTrailingHyphens_of_slug s :
  endsWithHyphen s = false -> stripTrailingHyphens s = s.
Proof.
  induction s as [|c rest IH]; [reflexivity|].
  destruct rest as [|r rest'].
  - simpl. intros ->. reflexivity.
  - intros H. change (endsWithHyphen (r :: rest') = false) in H.
    change (stripTrailingHyphens (c :: r :: rest'))
      with (match stripTrailingHyphens (r :: rest') with
            | [] => if Ascii.eqb c "-" then [] else [c]
            | rest'' => c :: rest''
            end).
    rewrite (IH H). reflexivity.
Qed.

Lemma sanitizeFilenameChars_of_slug s :
  isSlug s = true -> sanitizeFilenameChars s = s.
Proof.
  unfold isSlug. rewrite !andb_true_iff, !negb_true_iff.
  intros [[[Hchars Hstart] Hend] Hsingle].
  unfold sanitizeFilenameChars.
  rewrite (map_toLowerCase_slug s Hchars).
  rewrite (hyphenate_of_slug false s Hchars Hsingle); [|discriminate].
  rewrite (stripLeadingHyphens_of_slug s Hstart).
  apply stripTrailingHyphens_of_slug. exact Hend.
Qed.

End SlugFacts.

(** X11.  What [sanitizeFilename] returns is a slug: lower-case letters,
    digits and hyphens only, no hyphen at either end and no two hyphens in
    a row. *)
Theorem sanitizeFilename_slug (name : string) :
  isSlug (list_ascii_of_string (Logseq.sanitizeFilename name)) = true.
Proof.
  unfold Logseq.sanitizeFilename. rewrite list_ascii_of_string_of_list_ascii.
  apply sanitizeFilenameChars_slug.
Qed.

(** X12.  [sanitizeFilename] is idempotent, and the names it leaves as they
    are are exactly the slugs. *)
Theorem sanitizeFilename_fixed_points (name : string) :
  Logseq.sanitizeFilename (Logseq.sanitizeFilename name) = Logseq.sanitizeFilename name
  /\ (Logseq.sanitizeFilename name = name
      <-> isSlug (list_ascii_of_string name) = true).
Proof.
  assert (Hfix : forall x, isSlug (list_ascii_of_string x) = true ->
                           Logseq.sanitizeFilename x = x).
  { intros x Hx. unfold Logseq.sanitizeFilename.
    rewrite (sanitizeFilenameChars_of_slug _ Hx).
    apply string_of_list_ascii_of_string. }
  split; [|split].
  - apply Hfix. unfold Logseq.sanitizeFilename at 1.
    rewrite list_ascii_of_string_of_list_ascii. apply sanitizeFilenameChars_slug.
  - intros Heq. rewrite <- Heq. unfold Logseq.sanitizeFilename.
    rewrite list_ascii_of_string_of_list_ascii. apply sanitizeFilenameChars_slug.
  - apply Hfix.
Qed.

Section ExtensionFacts.
Import Logseq.

Lemma matchAlternative_sound alternative s matched rest :
  matchAlternative alternative s = Some (matched, rest) ->
  s = (matched ++ rest)%list /\ sameLetters alternative matched.
Proof.
  revert s matched rest.
  induction alternative as [|a alternative' IH]; intros s matched rest.
  - simpl. intros [= <- <-]. split; reflexivity.
  - simpl. destruct s as [|c s']; [discriminate|].
    destruct (Ascii.eqb (Js.Canonicalize a) (Js.Canonicalize c)) eqn:Hc;
      [|discriminate].
    destruct (matchAlternative alternative' s') as [[matched' rest']|] eqn:Hm;
      [|discriminate].
    intros [= <- <-]. destruct (IH _ _ _ Hm) as [-> Hsame].
    apply Ascii.eqb_eq in Hc. split; [reflexivity|].
    unfold sameLetters in *. simpl. rewrite Hc, Hsame. reflexivity.
Qed.

Lemma matchAlternative_complete alternative matched rest :
  sameLetters alternative matched ->
  matchAlternative alternative (matched ++ rest) = Some (matched, rest).
Proof.
  revert matched. induction alternative as [|a alternative' IH]; intros matched Hsame.
  - destruct matched; [reflexivity | discriminate Hsame].
  - destruct matched as [|c matched']; [discriminate Hsame|].
    unfold sameLetters in Hsame. simpl in Hsame. injection Hsame as Hc Hsame.
    simpl. rewrite Hc, Ascii.eqb_refl, (IH matched' Hsame). reflexivity.
Qed.

Lemma matchExtension_sound alternatives s matched :
  matchExtension alternatives s = Some matched ->
  exists after known,
    s = (matched ++ after)%list /\ endOrQuery after
    /\ In known alternatives /\ sameLetters known matched.
Proof.
  induction alternatives as [|alternative others IH]; [discriminate|].
  simpl.
  assert (Hothers : matchExtension others s = Some matched ->
    exists after known,
      s = (matched ++ after)%list /\ endOrQuery after
      /\ (alternative = known \/ In known others) /\ sameLetters known matched).
  { intros H. destruct (IH H) as (after & known & H1 & H2 & H3 & H4).
    exists after, known. auto. }
  destruct (matchAlternative alternative s) as [[m rest]|] eqn:Hm; [|exact Hothers].
  destruct (matchAlternative_sound _ _ _ _ Hm) as [Hs Hsame].
  destruct rest as [|c rest'].
  - intros [= <-]. exists [], alternative. simpl. auto.
  - destruct (Ascii.eqb c "?") eqn:Hc; [|exact Hothers].
    apply Ascii.eqb_eq in Hc. intros [= <-].
    exists (c :: rest'), alternative. simpl. auto.
Qed.

Lemma matchExtension_complete alternatives known matched after :
  In known alternatives -> sameLetters known matched -> endOrQuery after ->
  matchExtension alternatives (matched ++ after) <> None.
Proof.
  intros Hin Hsame Hafter.
  induction alternatives as [|alternative others IH]; [destruct Hin|].
  simpl.
  destruct (matchAlternative alternative (matched ++ after)) as [[m rest]|] eqn:Hm.
  - destruct rest as [|c rest']; [discriminate|].
    destruct (Ascii.eqb c "?") eqn:Hc; [discriminate|].
    destruct Hin as [->|Hin]; [|exact (IH Hin)].
    rewrite (matchAlternative_complete known matched after Hsame) in Hm.
    injection Hm as <- Hrest. rewrite Hrest in Hafter. simpl in Hafter.
    rewrite Hafter in Hc. discriminate.
  - destruct Hin as [->|Hin]; [|exact (IH Hin)].
    rewrite (matchAlternative_complete known matched after Hsame) in Hm.
    discriminate.
Qed.

Lemma matchImageExtension_cons c rest :
  matchImageExtension (c :: rest)
  = if Ascii.eqb c "." then
      match matchExtension imageExtensions rest with
      | Some matched => Some matched
      | None => matchImageExtension rest
      end
    else matchImageExtension rest.
Proof. reflexivity. Qed.

Lemma matchImageExtension_sound url matched :
  matchImageExtension url = Some matched -> extensionAt url matched.
Proof.
  induction url as [|c rest IH]; [discriminate|].
  assert (Hrest : matchImageExtension rest = Some matched ->
                  extensionAt (c :: rest) matched).
  { intros H. destruct (IH H) as (before & after & known & -> & H2 & H3 & H4).
    exists (c :: before), after, known. auto. }
  rewrite matchImageExtension_cons.
  destruct (Ascii.eqb c ".") eqn:Hc; [|exact Hrest].
  destruct (matchExtension imageExtensions rest) as [m|] eqn:Hm; [|exact Hrest].
  intros [= <-]. apply Ascii.eqb_eq in Hc. subst c.
  destruct (matchExtension_sound _ _ _ Hm) as (after & known & -> & H2 & H3 & H4).
  exists [], after, known. auto.
Qed.

Lemma matchImageExtension_complete url ext :
  extensionAt url ext -> matchImageExtension url <> None.
Proof.
  intros (before & after & known & -> & Hafter & Hin & Hsame).
  induction before as [|c before' IH].
  - change ([] ++ "."%char :: ext ++ after)%list with ("."%char :: ext ++ after)%list.
    rewrite matchImageExtension_cons.
    change (Ascii.eqb "." ".") with true. cbv iota.
    pose proof (matchExtension_complete _ _ _ _ Hin Hsame Hafter) as Hm.
    destruct (matchExtension imageExtensions (ext ++ after)); [discriminate|].
    contradiction.
  - change ((c :: before') ++ "."%char :: ext ++ after)%list
      with (c :: (before' ++ "."%char :: ext ++ after))%list.
    rewrite matchImageExtension_cons.
    destruct (Ascii.eqb c "."); [|exact IH].
    destruct (matchExtension imageExtensions (before' ++ "."%char :: ext ++ after));
      [discriminate | exact IH].
Qed.

Lemma sameLetters_length s1 s2 : sameLetters s1 s2 -> List.length s1 = List.length s2.
Proof.
  unfold sameLetters. intros H.
  rewrite <- (length_map Js.Canonicalize s1), H. apply length_map.
Qed.

Lemma known_extension_nonempty known ext :
  In known imageExtensions -> sameLetters known ext -> string_of_list_ascii ext <> "".
Proof.
  intros Hin Hsame Hempty.
  apply sameLetters_length in Hsame.
  destruct ext as [|c ext']; [|discriminate Hempty].
  simpl in Hin.
  repeat (destruct Hin as [<-|Hin]; [discriminate Hsame|]). destruct Hin.
Qed.

Lemma or_else_nonempty s d : s <> "" -> Js.or_else (Some s) d = s.
Proof.
  intros Hs. simpl. destruct (String.eqb_spec s ""); [contradiction | reflexivity].
Qed.

Lemma getImageExtension_found url matched :
  matchImageExtension (list_ascii_of_string url) = Some matched ->
  getImageExtension url = string_of_list_ascii matched.
Proof.
  intros Hm. unfold getImageExtension. rewrite Hm. simpl option_map.
  destruct (matchImageExtension_sound _ _ Hm) as (_ & _ & known & _ & _ & Hin & Hsame).
  apply or_else_nonempty. exact (known_extension_nonempty _ _ Hin Hsame).
Qed.

Lemma Canonicalize_isWordChar c : isWordChar (Js.Canonicalize c) = isWordChar c.
Proof. destruct c as [[] [] [] [] [] [] [] []]; reflexivity. Qed.

Lemma sameLetters_word s1 s2 :
  sameLetters s1 s2 -> forallb isWordChar s1 = forallb isWordChar s2.
Proof.
  unfold sameLetters. revert s2.
  induction s1 as [|a s1 IH]; intros [|c s2] H; try discriminate; [reflexivity|].
  simpl in H. injection H as Hc H. simpl.
  rewrite <- (Canonicalize_isWordChar a), Hc, Canonicalize_isWordChar.
  rewrite (IH s2 H). reflexivity.
Qed.

End ExtensionFacts.

Lemma getImageExtension_among (url : string) :
  exists known,
    In known Logseq.imageExtensions
    /\ sameLetters known (list_ascii_of_string (Logseq.getImageExtension url)).
Proof.
  destruct (Logseq.matchImageExtension (list_ascii_of_string url)) as [m|] eqn:Hm.
  - rewrite (getImageExtension_found url m Hm), list_ascii_of_string_of_list_ascii.
    destruct (matchImageExtension_sound _ _ Hm) as (_ & _ & known & _ & _ & Hin & Hsame).
    exists known. split; assumption.
  - unfold Logseq.getImageExtension. rewrite Hm.
    exists (list_ascii_of_string "png"). split; [left; reflexivity | reflexivity].
Qed.

(** X13.  The extension that [getImageExtension] answers is never empty and
    never unknown: it is one of png, jpg, jpeg, gif, svg and webp, up to the
    case of the letters. *)
Theorem getImageExtension_known (url : string) :
  exists known,
    In known Logseq.imageExtensions
    /\ sameLetters known (list_ascii_of_string (Logseq.getImageExtension url)).
Proof. exact (getImageExtension_among url). Qed.

(** X14.  Where the extension comes from: if the URL holds a dot, a known
    extension and then its end or a question mark, the answer is such an
    extension as it is written in the URL; otherwise the answer is png. *)
Theorem getImageExtension_from_url (url : string) :
  ((exists ext, extensionAt (list_ascii_of_string url) ext) ->
   extensionAt (list_ascii_of_string url)
     (list_ascii_of_string (Logseq.getImageExtension url)))
  /\ ((forall ext, ~ extensionAt (list_ascii_of_string url) ext) ->
      Logseq.getImageExtension url = "png").
Proof.
  split.
  - intros [ext Hext].
    destruct (Logseq.matchImageExtension (list_ascii_of_string url)) as [m|] eqn:Hm.
    + rewrite (getImageExtension_found url m Hm), list_ascii_of_string_of_list_ascii.
      exact (matchImageExtension_sound _ _ Hm).
    + exfalso. exact (matchImageExtension_complete _ _ Hext Hm).
  - intros Hnone.
    destruct (Logseq.matchImageExtension (list_ascii_of_string url)) as [m|] eqn:Hm.
    + exfalso. exact (Hnone m (matchImageExtension_sound _ _ Hm)).
    + unfold Logseq.getImageExtension. rewrite Hm. reflexivity.
Qed.

Section FileNameFacts.
Import Logseq.

Lemma slugOrHyphen_fileName c : slugOrHyphen c = true -> isFileNameChar c = true.
Proof. destruct c as [[] [] [] [] [] [] [] []]; vm_compute; congruence. Qed.

Lemma isWordChar_fileName c : isWordChar c = true -> isFileNameChar c = true.
Proof. unfold isFileNameChar. intros ->. reflexivity. Qed.

Lemma forallb_weaken {A : Type} (p q : A -> bool) (l : list A) :
  (forall x, p x = true -> q x = true) -> forallb p l = true -> forallb q l = true.
Proof.
  intros Hpq. rewrite !forallb_forall. auto.
Qed.

Lemma string_of_uint_fileName d :
  forallb isFileNameChar (list_ascii_of_string (NilEmpty.string_of_uint d))
  = true.
Proof. induction d; simpl; auto. Qed.

Lemma show_Z_fileName z :
  forallb isFileNameChar (list_ascii_of_string (Js.show_Z z)) = true.
Proof.
  unfold Js.show_Z, NilZero.string_of_int.
  assert (H : forall d, forallb isFileNameChar
                (list_ascii_of_string (NilZero.string_of_uint d)) = true).
  { intros d. unfold NilZero.string_of_uint.
    destruct d; try apply string_of_uint_fileName. reflexivity. }
  destruct (Z.to_int z) as [d|d]; [apply H|].
  simpl. apply H.
Qed.

Lemma sanitizeFilename_fileName name :
  forallb isFileNameChar (list_ascii_of_string (sanitizeFilename name)) = true.
Proof.
  unfold sanitizeFilename. rewrite list_ascii_of_string_of_list_ascii.
  pose proof (sanitizeFilenameChars_slug (list_ascii_of_string name)) as H.
  unfold isSlug in H. rewrite !andb_true_iff in H.
  destruct H as [[[H _] _] _].
  exact (forallb_weaken _ _ _ slugOrHyphen_fileName H).
Qed.

Lemma imageExtensions_word known :
  In known imageExtensions -> forallb isWordChar known = true.
Proof.
  simpl. intros H.
  repeat (destruct H as [<-|H]; [reflexivity|]). destruct H.
Qed.

Lemma countSlashes_append s1 s2 :
  countSlashes (s1 ++ s2) = (countSlashes s1 + countSlashes s2)%nat.
Proof.
  unfold countSlashes. rewrite chars_append, filter_app. apply length_app.
Qed.

Lemma replaceAll_slash_free l :
  filter (Ascii.eqb "/") (Js.replaceAll (Ascii.eqb "/") (fun _ => ["-"%char]) l) = [].
Proof.
  unfold Js.replaceAll. induction l as [|c rest IH]; [reflexivity|].
  cbn [flat_map]. rewrite filter_app, IH, app_nil_r.
  destruct (Ascii.eqb "/" c) eqn:Hc; [reflexivity|].
  cbn [filter]. rewrite Hc. reflexivity.
Qed.

Lemma countSlashes_sanitized name : countSlashes (sanitized name) = 0%nat.
Proof.
  unfold countSlashes, sanitized.
  rewrite list_ascii_of_string_of_list_ascii, replaceAll_slash_free. reflexivity.
Qed.

End FileNameFacts.

(** X15.  The file name that [buildImageFilename] gives an image holds
    letters, digits, hyphens and dots only, whatever the names of the
    project and of the item and whatever the URL: no path separator and no
    white space can come in. *)
Theorem buildImageFilename_safe (env : Logseq.Env) (projectName : string)
  (itemType : Logseq.ItemType) (itemName imageUrl : string) :
  forallb isFileNameChar
    (list_ascii_of_string
       (Logseq.buildImageFilename env projectName itemType itemName imageUrl))
  = true.
Proof.
  unfold Logseq.buildImageFilename.
  rewrite !chars_append, !forallb_app.
  rewrite !sanitizeFilename_fileName, show_Z_fileName.
  destruct (getImageExtension_among imageUrl) as (known & Hin & Hsame).
  assert (Hext : forallb isFileNameChar
                   (list_ascii_of_string (Logseq.getImageExtension imageUrl)) = true).
  { apply (forallb_weaken _ _ _ isWordChar_fileName).
    rewrite <- (sameLetters_word _ _ Hsame). exact (imageExtensions_word known Hin). }
  rewrite Hext. destruct itemType; reflexivity.
Qed.

(** ** logseq/pages.ts: page names *)

(** X16.  [buildZeplinPageName] adds exactly two levels to the namespace,
    and a third one for the item: a slash in the name of the project or of
    the item never opens a level of its own. *)
Theorem buildZeplinPageName_levels (namespace projectName : string)
  (itemType : Logseq.PageKind) (itemName : option string) :
  countSlashes (Logseq.buildZeplinPageName namespace projectName itemType itemName)
  = (countSlashes namespace + if Js.truthy itemName then 3 else 2)%nat.
Proof.
  unfold Logseq.buildZeplinPageName.
  assert (Hkind : countSlashes (Logseq.showPageKind itemType) = 0%nat)
    by (destruct itemType; reflexivity).
  destruct (Js.truthy itemName);
    rewrite !countSlashes_append, !countSlashes_sanitized, Hkind;
    change (countSlashes "/") with 1%nat; lia.
Qed.

(** ** sync/obsidian-synchronizer.ts: the vault *)

#[local] Set Warnings "-clear-no-such-hyp".

Section VaultFacts.
Import Zeplin ObsidianSync.

Lemma keepsEntries_refl v : keepsEntries v v.
Proof. split; reflexivity. Qed.

Lemma keepsEntries_trans u v w :
  keepsEntries u v -> keepsEntries v w -> keepsEntries u w.
Proof. intros [H1 H2] [H3 H4]. split; set_solver. Qed.

Lemma writes_app log1 log2 m : writes (log1 ++ log2) m = writes log2 (writes log1 m).
Proof.
  revert m. induction log1 as [|entry log1 IH]; intros m; [reflexivity|].
  simpl. apply IH.
Qed.

Lemma dom_writes log m : dom (writes log m) = list_to_set (map fst log) ∪ dom m.
Proof.
  revert m. induction log as [|entry log IH]; intros m; simpl.
  - set_solver.
  - rewrite IH, dom_insert_L. set_solver.
Qed.

Lemma writes_agree log m m' :
  (forall p, p ∉ map fst log -> m !! p = m' !! p) -> writes log m = writes log m'.
Proof.
  revert m m'. induction log as [|[k c] log IH]; intros m m' H.
  - simpl. apply map_eq. intros p. apply H. apply not_elem_of_nil.
  - simpl. apply IH. intros p Hp.
    destruct (decide (p = k)) as [->|Hne].
    + rewrite !lookup_insert_eq. reflexivity.
    + rewrite !lookup_insert_ne by congruence.
      apply H. simpl. apply not_elem_of_cons. split; assumption.
Qed.

Lemma writes_lookup_other log m p : p ∉ map fst log -> writes log m !! p = m !! p.
Proof.
  revert m. induction log as [|[k c] log IH]; intros m Hp; [reflexivity|].
  simpl in *. apply not_elem_of_cons in Hp. destruct Hp as [Hne Hp].
  rewrite (IH _ Hp). apply lookup_insert_ne. congruence.
Qed.

Lemma writes_twice log m : writes log (writes log m) = writes log m.
Proof. apply writes_agree. intros p Hp. apply writes_lookup_other. exact Hp. Qed.

Lemma overwritten_nil w : overwritten [] w = w.
Proof. destruct w. reflexivity. Qed.

Lemma getAbstractFileByPath_file path w content :
  files w !! path = Some content -> getAbstractFileByPath path w = Some TFile.
Proof. unfold getAbstractFileByPath. intros ->. reflexivity. Qed.

Lemma getAbstractFileByPath_None path v :
  getAbstractFileByPath path v = None <-> files v !! path = None /\ path ∉ folders v.
Proof.
  unfold getAbstractFileByPath. destruct (files v !! path) as [c|].
  - split; [discriminate | intros [H _]; discriminate].
  - destruct (decide (path ∈ folders v)) as [Hin|Hout].
    + split; [discriminate | intros [_ H]; contradiction].
    + split; auto.
Qed.

Lemma getAbstractFileByPath_kept path v w :
  keepsEntries v w -> getAbstractFileByPath path v <> None ->
  getAbstractFileByPath path w <> None.
Proof.
  intros [Hfolders Hfiles] Hv Hw. apply Hv.
  apply getAbstractFileByPath_None in Hw. destruct Hw as [Hw1 Hw2].
  apply getAbstractFileByPath_None. split.
  - apply not_elem_of_dom. apply not_elem_of_dom in Hw1. set_solver.
  - set_solver.
Qed.

Lemma parentStep_run parentPath v :
  exists v', parentStep parentPath v = (inr tt, v')
    /\ files v' = files v /\ folders v ⊆ folders v'
    /\ folders v' ⊆ {[parentPath]} ∪ folders v
    /\ (v' = v \/ (parentPath <> "" /\ getAbstractFileByPath parentPath v = None
                   /\ folders v' = {[parentPath]} ∪ folders v)).
Proof.
  unfold parentStep. destruct (String.eqb_spec parentPath "") as [Heq|Hne].
  - exists v. repeat split; auto; set_solver.
  - destruct (getAbstractFileByPath parentPath v) eqn:Hget.
    + exists v. repeat split; auto; set_solver.
    + unfold vault_createFolder. rewrite Hget.
      eexists. split; [reflexivity|]. simpl. repeat split; auto; try set_solver.
Qed.

Lemma writeFile_unfold path content v :
  writeFile path content v
  = match getAbstractFileByPath path v with
    | Some TFile => vault_modify path content v
    | _ => bind (parentStep (parentPathOf path)) (fun _ => vault_create path content) v
    end.
Proof. reflexivity. Qed.

Lemma writeFile_over path content w old :
  files w !! path = Some old ->
  writeFile path content w = (inr tt, overwritten [(path, content)] w).
Proof.
  intros Hold. rewrite writeFile_unfold, (getAbstractFileByPath_file _ _ _ Hold).
  reflexivity.
Qed.

Lemma writeFile_run path content v r v1 :
  writeFile path content v = (r, v1) ->
  folders v ⊆ folders v1
  /\ folders v1 ⊆ {[parentPathOf path]} ∪ folders v
  /\ match r with
     | inr _ => files v1 = <[path := content]> (files v)
     | inl _ => files v1 = files v /\ getAbstractFileByPath path v = Some TFolder
     end.
Proof.
  rewrite writeFile_unfold.
  assert (Hother : getAbstractFileByPath path v <> Some TFile ->
    bind (parentStep (parentPathOf path)) (fun _ => vault_create path content) v
    = (r, v1) ->
    folders v ⊆ folders v1
    /\ folders v1 ⊆ {[parentPathOf path]} ∪ folders v
    /\ match r with
       | inr _ => files v1 = <[path := content]> (files v)
       | inl _ => files v1 = files v /\ getAbstractFileByPath path v = Some TFolder
       end).
  { intros Hnot. unfold bind.
    destruct (parentStep_run (parentPathOf path) v)
      as (v' & -> & Hfiles & Hsub & Hsup & Hshape).
    unfold vault_create.
    destruct (getAbstractFileByPath path v') as [x|] eqn:Hget'.
    - intros [= <- <-]. repeat split; auto.
      destruct (getAbstractFileByPath path v) as [[]|] eqn:Hget;
        [contradiction | reflexivity |].
      exfalso. destruct Hshape as [->|(Hne & Hparent & Hfolders)]; [congruence|].
      apply getAbstractFileByPath_None in Hget. destruct Hget as [Hg1 Hg2].
      unfold getAbstractFileByPath in Hget'. rewrite Hfiles, Hg1 in Hget'.
      destruct (decide (path ∈ folders v')) as [Hin|]; [|discriminate].
      rewrite Hfolders in Hin. apply elem_of_union in Hin.
      destruct Hin as [Hin|Hin]; [|contradiction].
      apply elem_of_singleton in Hin.
      (* the parent path is shorter than the path *)
      revert Hin Hne. unfold parentPathOf.
      destruct (beforeLastSlash (list_ascii_of_string path)) as [before|] eqn:Hb;
        [|congruence].
      intros Hin _.
      assert (Hlen : forall s b, beforeLastSlash s = Some b ->
                                 (List.length b < List.length s)%nat).
      { clear. induction s as [|c s IH]; intros b; [discriminate|].
        simpl. destruct (beforeLastSlash s) as [b'|].
        - intros [= <-]. simpl. specialize (IH b' eq_refl). lia.
        - destruct (Ascii.eqb c "/"); [|discriminate].
          intros [= <-]. simpl. lia. }
      apply Hlen in Hb. rewrite Hin, list_ascii_of_string_of_list_ascii in Hb. lia.
    - intros [= <- <-]. simpl. rewrite Hfiles. repeat split; auto. }
  destruct (getAbstractFileByPath path v) as [[]|] eqn:Hget.
  - unfold vault_modify. intros [= <- <-]. simpl. repeat split; set_solver.
  - apply Hother. discriminate.
  - apply Hother. discriminate.
Qed.

Lemma writeFile_keeps path content : OnlyAdds (writeFile path content).
Proof.
  intros v r v1 Hrun. destruct (writeFile_run _ _ _ _ _ Hrun) as (H1 & _ & H3).
  split; [exact H1|]. destruct r as [e|u].
  - destruct H3 as [-> _]. reflexivity.
  - rewrite H3, dom_insert_L. set_solver.
Qed.

Lemma ensureFolder_run path v :
  exists v', ensureFolder path v = (inr tt, v')
    /\ files v' = files v /\ folders v ⊆ folders v'
    /\ getAbstractFileByPath path v' <> None.
Proof.
  unfold ensureFolder. destruct (getAbstractFileByPath path v) eqn:Hget.
  - exists v. repeat split; auto. congruence.
  - unfold vault_createFolder. rewrite Hget. eexists. split; [reflexivity|].
    simpl. repeat split; [set_solver|].
    intros Hnone. apply getAbstractFileByPath_None in Hnone. simpl in Hnone.
    set_solver.
Qed.

Lemma ensureFolder_keeps path : OnlyAdds (ensureFolder path).
Proof.
  intros v r v1 Hrun.
  destruct (ensureFolder_run path v) as (v' & Hv' & Hfiles & Hfolders & _).
  rewrite Hv' in Hrun. injection Hrun as <- <-.
  split; [exact Hfolders | rewrite Hfiles; reflexivity].
Qed.

(** *** Only adding *)

Lemma OnlyAdds_ret {A : Type} (x : A) : OnlyAdds (ret x).
Proof. intros v r v1 [= <- <-]. apply keepsEntries_refl. Qed.

Lemma OnlyAdds_call {A : Type} (answer : Error + A) : OnlyAdds (call answer).
Proof. intros v r v1 [= <- <-]. apply keepsEntries_refl. Qed.

Lemma OnlyAdds_bind {A B : Type} (m : V A) (k : A -> V B) :
  OnlyAdds m -> (forall a, OnlyAdds (k a)) -> OnlyAdds (bind m k).
Proof.
  intros Hm Hk v r v2. unfold bind.
  destruct (m v) as [[e|a] v1] eqn:Hmv.
  - intros [= <- <-]. exact (Hm _ _ _ Hmv).
  - intros Hrun. exact (keepsEntries_trans _ _ _ (Hm _ _ _ Hmv) (Hk _ _ _ _ Hrun)).
Qed.

Lemma OnlyAdds_rethrow {A : Type} (m : V A) :
  OnlyAdds m -> OnlyAdds (catch m (fun error => throw error)).
Proof.
  intros Hm v r v1. unfold catch, throw.
  destruct (m v) as [[e|a] v'] eqn:Hmv; intros [= <- <-]; exact (Hm _ _ _ Hmv).
Qed.

Lemma componentLoop_keeps env project sectionMap basePath components indexContent :
  OnlyAdds (componentLoop env project sectionMap basePath components indexContent).
Proof.
  revert indexContent. induction components as [|c rest IH]; intros indexContent.
  - apply OnlyAdds_ret.
  - cbn [componentLoop]. apply OnlyAdds_bind; [apply OnlyAdds_call|].
    intros full. cbv zeta.
    apply OnlyAdds_bind; [apply writeFile_keeps|]. intros _. apply IH.
Qed.

Lemma screenLoop_keeps env project sectionMap basePath screens indexContent :
  OnlyAdds (screenLoop env project sectionMap basePath screens indexContent).
Proof.
  revert indexContent. induction screens as [|c rest IH]; intros indexContent.
  - apply OnlyAdds_ret.
  - cbn [screenLoop]. apply OnlyAdds_bind; [apply OnlyAdds_call|].
    intros full. cbv zeta.
    apply OnlyAdds_bind; [apply writeFile_keeps|]. intros _. apply IH.
Qed.

Lemma syncProject_keeps env projectId : OnlyAdds (syncProject env projectId).
Proof.
  unfold syncProject. apply OnlyAdds_rethrow.
  apply OnlyAdds_bind; [apply OnlyAdds_call|]. intros project.
  apply OnlyAdds_bind.
  { unfold createProjectStructure. cbv zeta.
    repeat (apply OnlyAdds_bind; [apply ensureFolder_keeps | intros _]).
    apply writeFile_keeps. }
  intros _. apply OnlyAdds_bind.
  { destruct (0 <? number_of_components project)%nat; [|apply OnlyAdds_ret].
    unfold syncComponents.
    apply OnlyAdds_bind; [apply OnlyAdds_call | intros sections]. cbv zeta.
    apply OnlyAdds_bind; [apply OnlyAdds_call | intros components].
    apply OnlyAdds_bind; [apply OnlyAdds_call | intros filtered].
    apply OnlyAdds_bind; [apply componentLoop_keeps | intros indexContent].
    apply writeFile_keeps. }
  intros _. apply OnlyAdds_bind.
  { destruct (0 <? number_of_screens project)%nat; [|apply OnlyAdds_ret].
    unfold syncScreens.
    apply OnlyAdds_bind; [apply OnlyAdds_call | intros sections]. cbv zeta.
    apply OnlyAdds_bind; [apply OnlyAdds_call | intros screens].
    apply OnlyAdds_bind; [apply OnlyAdds_call | intros filtered].
    apply OnlyAdds_bind; [apply screenLoop_keeps | intros indexContent].
    apply writeFile_keeps. }
  intros _. apply OnlyAdds_bind; [|intros _; apply OnlyAdds_ret].
  unfold syncDesignTokens. cbv zeta.
  apply OnlyAdds_bind.
  { destruct (0 <? number_of_colors project)%nat; [|apply OnlyAdds_ret].
    apply OnlyAdds_bind; [apply OnlyAdds_call | intros colors]. apply OnlyAdds_ret. }
  intros content. apply OnlyAdds_bind.
  { destruct (0 <? number_of_text_styles project)%nat; [|apply OnlyAdds_ret].
    apply OnlyAdds_bind; [apply OnlyAdds_call | intros styles]. apply OnlyAdds_ret. }
  intros content'. apply writeFile_keeps.
Qed.

(** *** Repeating a run *)

Section Repeating.
Variable same : Prop.

Lemma Repeats_ret {A : Type} (x : A) : Repeats same (ret x) (ret x).
Proof.
  intros v a v1 [= <- <-]. exists [], []. repeat split; auto.
  intros w _. rewrite overwritten_nil. reflexivity.
Qed.

Lemma Repeats_call {A : Type} (answer : Error + A) :
  Repeats same (call answer) (call answer).
Proof.
  intros v a v1 [= -> <-]. exists [], []. repeat split; auto.
  intros w _. rewrite overwritten_nil. reflexivity.
Qed.

Lemma Repeats_bind {A B : Type} (m m' : V A) (k k' : A -> V B) :
  Repeats same m m' -> (forall a, Repeats same (k a) (k' a)) ->
  Repeats same (bind m k) (bind m' k').
Proof.
  intros Hm Hk v b v2 Hrun. unfold bind in Hrun.
  destruct (m v) as [[e|a] v1] eqn:Hmv; [discriminate|].
  destruct (Hm v a v1 Hmv) as (log1 & log1' & Hp1 & Hs1 & Hf1 & Hw1 & Hr1).
  destruct (Hk a v1 b v2 Hrun) as (log2 & log2' & Hp2 & Hs2 & Hf2 & Hw2 & Hr2).
  exists (log1 ++ log2)%list, (log1' ++ log2')%list.
  split; [rewrite !map_app; congruence|].
  split; [intros Hs; rewrite (Hs1 Hs), (Hs2 Hs); reflexivity|].
  split; [set_solver|].
  split; [rewrite writes_app, <- Hw1; exact Hw2|].
  intros w Hw. unfold bind.
  assert (Hv12 : keepsEntries v1 v2).
  { split; [exact Hf2 | rewrite Hw2, dom_writes; set_solver]. }
  rewrite (Hr1 w (keepsEntries_trans _ _ _ Hv12 Hw)).
  rewrite (Hr2 (overwritten log1' w)).
  - unfold overwritten. simpl. rewrite writes_app. reflexivity.
  - destruct Hw as [Hw1' Hw2']. split; simpl; [exact Hw1'|].
    rewrite dom_writes. set_solver.
Qed.

Lemma Repeats_rethrow {A : Type} (m m' : V A) :
  Repeats same m m' ->
  Repeats same (catch m (fun error => throw error)) (catch m' (fun error => throw error)).
Proof.
  intros Hm v a v1 Hrun. unfold catch, throw in Hrun.
  destruct (m v) as [[e|a'] v'] eqn:Hmv; [discriminate|].
  injection Hrun as <- <-.
  destruct (Hm v a' v' Hmv) as (log & log' & Hp & Hs & Hf & Hw & Hr).
  exists log, log'. repeat split; auto.
  intros w Hkeep. unfold catch. rewrite (Hr w Hkeep). reflexivity.
Qed.

Lemma Repeats_ensureFolder path : Repeats same (ensureFolder path) (ensureFolder path).
Proof.
  intros v a v1 Hrun.
  destruct (ensureFolder_run path v) as (v' & Hv' & Hfiles & Hfolders & Hthere).
  rewrite Hv' in Hrun. injection Hrun as <- <-.
  exists [], []. repeat split; auto.
  intros w Hkeep. rewrite overwritten_nil.
  pose proof (getAbstractFileByPath_kept path v' w Hkeep Hthere) as Hw.
  unfold ensureFolder. destruct (getAbstractFileByPath path w); [reflexivity|].
  contradiction.
Qed.

Lemma Repeats_writeFile path content content' :
  (same -> content' = content) ->
  Repeats same (writeFile path content) (writeFile path content').
Proof.
  intros Hsame v a v1 Hrun.
  destruct (writeFile_run _ _ _ _ _ Hrun) as (Hsub & _ & Hfiles).
  exists [(path, content)], [(path, content')]. split; [reflexivity|].
  split; [intros Hs; rewrite (Hsame Hs); reflexivity|].
  split; [exact Hsub|]. split; [exact Hfiles|].
  intros w [_ Hdom]. destruct a.
  assert (Hin : path ∈ dom (files w)).
  { apply Hdom. rewrite Hfiles, dom_insert_L. set_solver. }
  apply elem_of_dom in Hin. destruct Hin as [old Hold].
  exact (writeFile_over path content' w old Hold).
Qed.

End Repeating.

Section Rerun.
Variables (env : Env) (t : string).

Lemma componentLoop_repeats project sectionMap basePath components indexContent :
  Repeats (t = nowISO env)
    (componentLoop env project sectionMap basePath components indexContent)
    (componentLoop (atTime env t) project sectionMap basePath components indexContent).
Proof.
  revert indexContent. induction components as [|c rest IH]; intros indexContent.
  - apply Repeats_ret.
  - cbn [componentLoop]. apply Repeats_bind; [apply Repeats_call|].
    intros full. cbv zeta.
    apply Repeats_bind; [|intros _; apply IH].
    apply Repeats_writeFile. intros Hs. unfold atTime. cbn [nowISO].
    rewrite Hs. reflexivity.
Qed.

Lemma screenLoop_repeats project sectionMap basePath screens indexContent :
  Repeats (t = nowISO env)
    (screenLoop env project sectionMap basePath screens indexContent)
    (screenLoop (atTime env t) project sectionMap basePath screens indexContent).
Proof.
  revert indexContent. induction screens as [|c rest IH]; intros indexContent.
  - apply Repeats_ret.
  - cbn [screenLoop]. apply Repeats_bind; [apply Repeats_call|].
    intros full. cbv zeta.
    apply Repeats_bind; [|intros _; apply IH].
    apply Repeats_writeFile. intros Hs. unfold atTime. cbn [nowISO].
    rewrite Hs. reflexivity.
Qed.

Lemma syncProject_repeats projectId :
  Repeats (t = nowISO env) (syncProject env projectId) (syncProject (atTime env t) projectId).
Proof.
  unfold syncProject. apply Repeats_rethrow.
  apply Repeats_bind; [apply Repeats_call|]. intros project.
  apply Repeats_bind.
  { unfold createProjectStructure. cbv zeta.
    repeat (apply Repeats_bind; [apply Repeats_ensureFolder | intros _]).
    apply Repeats_writeFile. intros Hs. unfold atTime. cbn [nowISO].
    rewrite Hs. reflexivity. }
  intros _. apply Repeats_bind.
  { destruct (0 <? number_of_components project)%nat; [|apply Repeats_ret].
    unfold syncComponents.
    apply Repeats_bind; [apply Repeats_call | intros sections]. cbv zeta.
    apply Repeats_bind; [apply Repeats_call | intros components].
    apply Repeats_bind; [apply Repeats_call | intros filtered].
    apply Repeats_bind; [apply componentLoop_repeats | intros indexContent].
    apply Repeats_writeFile. reflexivity. }
  intros _. apply Repeats_bind.
  { destruct (0 <? number_of_screens project)%nat; [|apply Repeats_ret].
    unfold syncScreens.
    apply Repeats_bind; [apply Repeats_call | intros sections]. cbv zeta.
    apply Repeats_bind; [apply Repeats_call | intros screens].
    apply Repeats_bind; [apply Repeats_call | intros filtered].
    apply Repeats_bind; [apply screenLoop_repeats | intros indexContent].
    apply Repeats_writeFile. reflexivity. }
  intros _. apply Repeats_bind; [|intros _; apply Repeats_ret].
  unfold syncDesignTokens. cbv zeta.
  apply Repeats_bind.
  { destruct (0 <? number_of_colors project)%nat; [|apply Repeats_ret].
    apply Repeats_bind; [apply Repeats_call | intros colors]. apply Repeats_ret. }
  intros content. apply Repeats_bind.
  { destruct (0 <? number_of_text_styles project)%nat; [|apply Repeats_ret].
    apply Repeats_bind; [apply Repeats_call | intros styles]. apply Repeats_ret. }
  intros content'. apply Repeats_writeFile. reflexivity.
Qed.

End Rerun.

End VaultFacts.

(** X17.  [writeFile] rejects exactly when a folder is at the path.
    Otherwise the file holds the content afterwards and no other file has
    changed, whether the file was there before or not.  Either way no
    folder is lost, and the only folder that can be new is the parent of
    the path: it is created even when the call then rejects. *)
Theorem writeFile_outcome (path content : string) (v : ObsidianSync.Vault) :
  let outcome := ObsidianSync.writeFile path content v in
  ((exists error, fst outcome = inl error)
   <-> ObsidianSync.getAbstractFileByPath path v = Some ObsidianSync.TFolder)
  /\ (fst outcome = inr tt ->
      ObsidianSync.files (snd outcome) = <[path := content]> (ObsidianSync.files v))
  /\ ObsidianSync.folders v ⊆ ObsidianSync.folders (snd outcome)
  /\ ObsidianSync.folders (snd outcome)
       ⊆ {[ObsidianSync.parentPathOf path]} ∪ ObsidianSync.folders v.
Proof.
  intros outcome. subst outcome.
  destruct (ObsidianSync.writeFile path content v) as [r v1] eqn:Hrun.
  destruct (writeFile_run _ _ _ _ _ Hrun) as (Hsub & Hsup & Hr). simpl.
  split; [|split; [|split; assumption]].
  - split.
    + intros [error ->]. tauto.
    + intros Hfolder. destruct r as [e|u]; [exists e; reflexivity|].
      exfalso. rewrite writeFile_unfold, Hfolder in Hrun.
      unfold ObsidianSync.bind in Hrun.
      destruct (parentStep_run (ObsidianSync.parentPathOf path) v)
        as (v' & Hstep & Hfiles & Hsub' & _).
      rewrite Hstep in Hrun. unfold ObsidianSync.vault_create in Hrun.
      assert (Hthere : ObsidianSync.getAbstractFileByPath path v' <> None).
      { apply (getAbstractFileByPath_kept path v v').
        - split; [exact Hsub' | rewrite Hfiles; reflexivity].
        - congruence. }
      destruct (ObsidianSync.getAbstractFileByPath path v'); [discriminate|].
      contradiction.
  - intros ->. exact Hr.
Qed.

(** X18.  Whether it resolves or rejects, a sync of a project removes
    nothing from the vault: every folder is still there, and so is every
    file path. *)
Theorem syncProject_removes_nothing (env : ObsidianSync.Env) (projectId : string)
  (v : ObsidianSync.Vault) :
  keepsEntries v (snd (ObsidianSync.syncProject env projectId v)).
Proof.
  destruct (ObsidianSync.syncProject env projectId v) as [r v1] eqn:Hrun.
  exact (syncProject_keeps env projectId v r v1 Hrun).
Qed.

(** X19.  Syncing again is safe: after a sync that resolved, a second sync
    against the same remote data resolves too, adds no folder and no file,
    and, when the clock shows the same time, leaves the vault exactly as it
    is. *)
Theorem syncProject_again (env : ObsidianSync.Env) (projectId t : string)
  (v v1 : ObsidianSync.Vault) :
  ObsidianSync.syncProject env projectId v = (inr tt, v1) ->
  exists v2,
    ObsidianSync.syncProject (atTime env t) projectId v1 = (inr tt, v2)
    /\ ObsidianSync.folders v2 = ObsidianSync.folders v1
    /\ dom (ObsidianSync.files v2) = dom (ObsidianSync.files v1)
    /\ (t = ObsidianSync.nowISO env -> v2 = v1).
Proof.
  intros Hrun.
  destruct (syncProject_repeats env t projectId v tt v1 Hrun)
    as (log & log' & Hpaths & Hsame & Hsub & Hfiles & Hagain).
  exists (overwritten log' v1). split; [apply Hagain, keepsEntries_refl|].
  split; [reflexivity|]. split.
  - simpl. rewrite dom_writes, Hfiles, dom_writes, Hpaths. set_solver.
  - intros Ht. rewrite (Hsame Ht). unfold overwritten.
    rewrite Hfiles, writes_twice, <- Hfiles. destruct v1. reflexivity.
Qed.

(** Witness for X19: the demonstration project, synced into an empty vault
    and then once more later. *)
Lemma syncProject_again_witness :
  exists v2,
    ObsidianSync.syncProject (atTime vaultEnv "2024-06-01T00:00:00.000Z") "p1"
      vaultAfterSync = (inr tt, v2)
    /\ ObsidianSync.folders v2 = ObsidianSync.folders vaultAfterSync
    /\ dom (ObsidianSync.files v2) = dom (ObsidianSync.files vaultAfterSync)
    /\ ("2024-06-01T00:00:00.000Z" = ObsidianSync.nowISO vaultEnv -> v2 = vaultAfterSync).
Proof.
  apply (syncProject_again vaultEnv "p1" "2024-06-01T00:00:00.000Z"
           ObsidianSync.emptyVault vaultAfterSync).
  vm_compute. reflexivity.
Defined.

(** ** The Logseq graph: blocks and pages *)

Section GraphFacts.
Import Zeplin Logseq.

Lemma BlockCreateInput_nested_ind (P : BlockCreateInput -> Prop) :
  (forall text props children,
     Forall P children -> P (mkInput text props children)) ->
  forall node, P node.
Proof.
  intros H. fix IH 1. intros [text props children]. apply H.
  induction children as [|child rest IHrest]; constructor;
    [apply IH | exact IHrest].
Qed.

Lemma createNode_unfold text props children parentUuid g :
  createNode (mkInput text props children) parentUuid g
  = match Editor_insertBlock parentUuid text props g with
    | (inr (Some block), g1) =>
        (inr (Some (uuid block)),
         fold_left (fun g child => snd (createNode child (uuid block) g)) children g1)
    | (inr None, g1) => (inr None, g1)
    | (inl _, g1) => (inr None, g1)
    end.
Proof.
  simpl. destruct (Editor_insertBlock parentUuid text props g) as [[e|[block|]] g1];
    reflexivity.
Qed.

Lemma find_over_app {A : Type} (f : A -> bool) (l1 l2 : list A) :
  List.find f (l1 ++ l2)
  = match List.find f l1 with
    | Some x => Some x
    | None => List.find f l2
    end.
Proof.
  induction l1 as [|x l1 IH]; [reflexivity|].
  simpl. destruct (f x); [reflexivity | exact IH].
Qed.

Lemma getBlock_app u pages1 pages2 blocks1 more fresh1 fresh2 :
  Editor_getBlock u {| pages := pages1; blocks := blocks1; fresh := fresh1 |} <> None ->
  Editor_getBlock u {| pages := pages2; blocks := (blocks1 ++ more)%list;
                       fresh := fresh2 |} <> None.
Proof.
  unfold Editor_getBlock. simpl. rewrite find_over_app.
  destruct (List.find _ blocks1); [discriminate | contradiction].
Qed.

Lemma getBlock_last u pages1 blocks1 fresh1 b :
  uuid b = u ->
  Editor_getBlock u {| pages := pages1; blocks := (blocks1 ++ [b])%list;
                       fresh := fresh1 |} <> None.
Proof.
  intros Hu. unfold Editor_getBlock. simpl. rewrite find_over_app.
  destruct (List.find _ blocks1); [discriminate|].
  simpl. rewrite Hu, Nat.eqb_refl. discriminate.
Qed.

Lemma createChildren_tree children :
  Forall makesTree children ->
  forall u g,
    Editor_getBlock u g <> None ->
    exists more,
      fold_left (fun g child => snd (createNode child u g)) children g
      = {| pages := pages g; blocks := (blocks g ++ more)%list;
           fresh := fresh g + list_sum (map treeSize children) |}
      /\ List.length more = list_sum (map treeSize children).
Proof.
  induction 1 as [|child rest Hchild _ IH]; intros u g Hu.
  - exists []. simpl. rewrite app_nil_r, Nat.add_0_r. destruct g. split; reflexivity.
  - destruct (Hchild u g Hu) as (more1 & Hrun & Hlen).
    cbn [fold_left]. rewrite Hrun. cbn [snd].
    destruct (IH u _ (getBlock_app u (pages g) (pages g) (blocks g)
                        (rootBlock child u (fresh g) :: more1) (fresh g)
                        (fresh g + treeSize child)
                        ltac:(destruct g; exact Hu)))
      as (more2 & Hfold & Hlen2).
    exists (rootBlock child u (fresh g) :: more1 ++ more2)%list.
    rewrite Hfold. cbn [pages blocks fresh].
    change (list_sum (map treeSize (child :: rest)))
      with (treeSize child + list_sum (map treeSize rest)).
    split.
    + rewrite <- app_assoc, Nat.add_assoc. reflexivity.
    + cbn [List.length]. rewrite length_app. lia.
Qed.

Lemma createNode_tree node : makesTree node.
Proof.
  induction node as [text props children IH] using BlockCreateInput_nested_ind.
  intros parentUuid g Hparent. rewrite createNode_unfold.
  unfold Editor_insertBlock.
  destruct (Editor_getBlock parentUuid g) as [parentBlock|]; [|contradiction].
  cbn [uuid].
  destruct (createChildren_tree children IH (fresh g)
              {| pages := pages g;
                 blocks := (blocks g ++ [rootBlock (mkInput text props children)
                                           parentUuid (fresh g)])%list;
                 fresh := S (fresh g) |}
              (getBlock_last _ _ _ _ _ eq_refl))
    as (more & Hfold & Hlen).
  exists more. cbn [rootBlock] in *. rewrite Hfold.
  cbn [pages blocks fresh treeSize]. split.
  - rewrite <- app_assoc. rewrite <- Nat.add_succ_comm. reflexivity.
  - lia.
Qed.

Lemma createNode_orphan node parentUuid g :
  Editor_getBlock parentUuid g = None ->
  createNode node parentUuid g = (inr None, g).
Proof.
  intros Hnone. destruct node as [text props children].
  rewrite createNode_unfold. unfold Editor_insertBlock. rewrite Hnone. reflexivity.
Qed.

End GraphFacts.


(** ** The Logseq graph: a run only adds *)

Section GrowthFacts.
Import Zeplin Logseq.

Lemma grows_refl g : grows g g.
Proof. split; exists []; rewrite app_nil_r; reflexivity. Qed.

Lemma grows_trans g1 g2 g3 : grows g1 g2 -> grows g2 g3 -> grows g1 g3.
Proof.
  intros [[b1 Hb1] [p1 Hp1]] [[b2 Hb2] [p2 Hp2]]. split.
  - exists (b1 ++ b2)%list. rewrite Hb2, Hb1, app_assoc. reflexivity.
  - exists (p1 ++ p2)%list. rewrite Hp2, Hp1, app_assoc. reflexivity.
Qed.

Lemma grows_same g g' :
  map blockPlace (blocks g') = map blockPlace (blocks g) ->
  map pageShape (pages g') = map pageShape (pages g) ->
  grows g g'.
Proof.
  intros Hb Hp. split; exists []; rewrite app_nil_r; assumption.
Qed.

Lemma Grows_ret {A : Type} (x : A) : Grows (ret x).
Proof. intros g r g' [= <- <-]. apply grows_refl. Qed.

Lemma Grows_throw {A : Type} (error : Error) : Grows (throw (A := A) error).
Proof. intros g r g' [= <- <-]. apply grows_refl. Qed.

Lemma Grows_call {A : Type} (answer : Error + A) : Grows (call answer).
Proof. intros g r g' [= <- <-]. apply grows_refl. Qed.

Lemma Grows_bind {A B : Type} (m : M A) (k : A -> M B) :
  Grows m -> (forall a, Grows (k a)) -> Grows (bind m k).
Proof.
  intros Hm Hk g r g2. unfold bind.
  destruct (m g) as [[e|a] g1] eqn:Hmg.
  - intros [= <- <-]. exact (Hm _ _ _ Hmg).
  - intros Hrun. exact (grows_trans _ _ _ (Hm _ _ _ Hmg) (Hk _ _ _ _ Hrun)).
Qed.

Lemma Grows_catch {A : Type} (m : M A) (handler : Error -> M A) :
  Grows m -> (forall error, Grows (handler error)) -> Grows (catch m handler).
Proof.
  intros Hm Hh g r g2. unfold catch.
  destruct (m g) as [[e|a] g1] eqn:Hmg.
  - intros Hrun. exact (grows_trans _ _ _ (Hm _ _ _ Hmg) (Hh _ _ _ _ Hrun)).
  - intros [= <- <-]. exact (Hm _ _ _ Hmg).
Qed.

Lemma Grows_forEach {A : Type} (f : A -> M unit) (l : list A) :
  (forall x, Grows (f x)) -> Grows (forEach f l).
Proof.
  intros Hf. induction l as [|x rest IH]; [apply Grows_ret|].
  cbn [forEach]. apply Grows_bind; [apply Hf | intros _; exact IH].
Qed.

Lemma Grows_createPage pageName props : Grows (Editor_createPage pageName props).
Proof.
  intros g r g' [= <- <-]. split; eexists; cbn [blocks pages];
    rewrite map_app; reflexivity.
Qed.

Lemma Grows_appendBlockInPage pageName text :
  Grows (Editor_appendBlockInPage pageName text).
Proof.
  intros g r g'. unfold Editor_appendBlockInPage.
  destruct (Editor_getPage pageName g); intros [= <- <-]; [|apply grows_refl].
  split; eexists; cbn [blocks pages]; [rewrite map_app|rewrite app_nil_r];
    reflexivity.
Qed.

Lemma Grows_insertBlock parentUuid text props :
  Grows (Editor_insertBlock parentUuid text props).
Proof.
  intros g r g'. unfold Editor_insertBlock.
  destruct (Editor_getBlock parentUuid g); intros [= <- <-]; [|apply grows_refl].
  split; eexists; cbn [blocks pages]; [rewrite map_app|rewrite app_nil_r];
    reflexivity.
Qed.

Lemma blockPlace_setContent u text b : blockPlace (setContent u text b) = blockPlace b.
Proof. unfold setContent. destruct (uuid b =? u)%nat; reflexivity. Qed.

Lemma blockPlace_setBlockProperty u key value b :
  blockPlace (setBlockProperty u key value b) = blockPlace b.
Proof. unfold setBlockProperty. destruct (uuid b =? u)%nat; reflexivity. Qed.

Lemma pageShape_setPageProperty u key value p :
  pageShape (setPageProperty u key value p) = pageShape p.
Proof. unfold setPageProperty. destruct (page_uuid p =? u)%nat; reflexivity. Qed.

Lemma map_map_same {A B : Type} (shape : A -> B) (f : A -> A) (l : list A) :
  (forall x, shape (f x) = shape x) -> map shape (map f l) = map shape l.
Proof. intros H. rewrite map_map. apply map_ext. exact H. Qed.

Lemma Grows_updateBlock blockUuid text : Grows (Editor_updateBlock blockUuid text).
Proof.
  intros g r g'. unfold Editor_updateBlock.
  destruct (Editor_getBlock blockUuid g); intros [= <- <-]; [|apply grows_refl].
  apply grows_same; cbn [blocks pages]; [|reflexivity].
  apply map_map_same. apply blockPlace_setContent.
Qed.

Lemma Grows_upsertBlockProperty entityUuid key value :
  Grows (Editor_upsertBlockProperty entityUuid key value).
Proof.
  intros g r g' [= <- <-]. apply grows_same; cbn [blocks pages]; apply map_map_same.
  - apply blockPlace_setBlockProperty.
  - apply pageShape_setPageProperty.
Qed.

Lemma Grows_createNode node parentUuid : Grows (createNode node parentUuid).
Proof.
  intros g r g' Hrun.
  destruct (Editor_getBlock parentUuid g) as [parentBlock|] eqn:Hparent.
  - destruct (createNode_tree node parentUuid g) as (more & Hnode & _);
      [congruence|].
    rewrite Hnode in Hrun. injection Hrun as <- <-.
    split; eexists; cbn [blocks pages]; [rewrite map_app|rewrite app_nil_r];
      reflexivity.
  - rewrite (createNode_orphan node parentUuid g Hparent) in Hrun.
    injection Hrun as <- <-. apply grows_refl.
Qed.

Ltac grows :=
  repeat first
    [ apply Grows_ret | apply Grows_throw | apply Grows_call
    | apply Grows_createPage | apply Grows_appendBlockInPage
    | apply Grows_insertBlock | apply Grows_updateBlock
    | apply Grows_upsertBlockProperty | apply Grows_createNode
    | apply Grows_bind; [|intros ?]
    | apply Grows_catch; [|intros ?]
    | apply Grows_forEach; intros ?
    | match goal with
      | |- Grows (match ?x with _ => _ end) => destruct x
      end ].

Lemma Grows_ensurePage pageName props : Grows (ensurePage pageName props).
Proof.
  unfold ensurePage. apply Grows_catch; [|intros error; apply Grows_throw].
  intros g r g'. destruct (Editor_getPage pageName g) as [page|].
  - revert g r g'. unfold upsertAll. grows.
  - revert g r g'. grows.
Qed.

Lemma Grows_getPageFirstBlockUuid pageName : Grows (getPageFirstBlockUuid pageName).
Proof.
  unfold getPageFirstBlockUuid. apply Grows_catch; [|intros error; apply Grows_ret].
  intros g r g'. destruct (Editor_getPage pageName g) as [page|].
  - destruct (Editor_getPageBlocksTree pageName g); revert g r g'; grows.
  - revert g r g'. grows.
Qed.

Lemma Grows_createBlock parentUuid text props children :
  Grows (createBlock parentUuid text props children).
Proof. unfold createBlock. apply Grows_createNode. Qed.

Lemma Grows_upsertBlock env parentUuid text zeplinId props children :
  Grows (upsertBlock env parentUuid text zeplinId props children).
Proof.
  unfold upsertBlock. apply Grows_bind.
  - unfold findBlockByZeplinId. apply Grows_catch; [|intros error; apply Grows_ret].
    intros g r g'. destruct (DB_q_zeplin_id zeplinId g); revert g r g'; grows.
  - intros [existing|]; [|apply Grows_createBlock].
    apply Grows_bind; [unfold updateBlock; grows|]. intros _.
    apply Grows_bind; [|intros _; apply Grows_ret].
    destruct props; [|apply Grows_ret].
    intros g r g'. destruct (Editor_getBlock existing g); revert g r g'; grows.
Qed.

Lemma Grows_imageChild env imageUrl itemName : Grows (imageChild env imageUrl itemName).
Proof.
  unfold imageChild. destruct (Js.truthy imageUrl); [|apply Grows_ret].
  apply Grows_bind; [apply Grows_call|]. intros imageContent.
  destruct (Js.truthy imageContent); apply Grows_ret.
Qed.

Lemma Grows_createBlockTree parentUuid tree : Grows (createBlockTree parentUuid tree).
Proof.
  unfold createBlockTree. apply Grows_forEach. intros [text props children].
  apply Grows_bind; [apply Grows_createBlock | intros _; apply Grows_ret].
Qed.

Lemma Grows_syncComponent env project component parentUuid :
  Grows (syncComponent env project component parentUuid).
Proof.
  unfold syncComponent. apply Grows_bind; [apply Grows_call|]. intros full.
  cbv zeta. apply Grows_bind; [apply Grows_imageChild|]. intros image.
  apply Grows_bind; [apply Grows_upsertBlock | intros _; apply Grows_ret].
Qed.

Lemma Grows_syncComponents env project : Grows (syncComponents env project).
Proof.
  unfold syncComponents. apply Grows_bind; [apply Grows_call|]. intros components.
  cbv zeta. apply Grows_bind; [apply Grows_getPageFirstBlockUuid|].
  intros [pageUuid|]; [|apply Grows_throw].
  apply Grows_forEach. intros component. apply Grows_syncComponent.
Qed.

Lemma Grows_syncScreenAsPage env project screen indexUuid :
  Grows (syncScreenAsPage env project screen indexUuid).
Proof.
  unfold syncScreenAsPage. apply Grows_bind; [apply Grows_call|]. intros full.
  cbv zeta. apply Grows_bind; [apply Grows_ensurePage|]. intros _.
  apply Grows_bind; [apply Grows_getPageFirstBlockUuid|].
  intros [blockUuid|]; [|apply Grows_throw].
  apply Grows_bind; [apply Grows_createBlock|]. intros _.
  apply Grows_bind; [apply Grows_imageChild|]. intros image.
  apply Grows_createBlockTree.
Qed.

Lemma Grows_syncScreens env project : Grows (syncScreens env project).
Proof.
  unfold syncScreens. apply Grows_bind; [apply Grows_call|]. intros screens.
  cbv zeta. apply Grows_bind; [apply Grows_ensurePage|]. intros _.
  apply Grows_bind; [apply Grows_getPageFirstBlockUuid|].
  intros [indexUuid|]; [|apply Grows_throw].
  apply Grows_forEach. intros screen. apply Grows_syncScreenAsPage.
Qed.

Lemma Grows_syncDesignTokens env project : Grows (syncDesignTokens env project).
Proof.
  unfold syncDesignTokens. cbv zeta.
  apply Grows_bind; [apply Grows_getPageFirstBlockUuid|].
  intros [pageUuid|]; [|apply Grows_throw].
  apply Grows_bind.
  - destruct (0 <? number_of_colors project)%nat; [|apply Grows_ret].
    apply Grows_bind; [apply Grows_call|]. intros colors.
    apply Grows_bind; [apply Grows_createBlock|]. intros _.
    apply Grows_forEach. intros color. cbv zeta.
    apply Grows_bind; [apply Grows_createBlock | intros _; apply Grows_ret].
  - intros _. destruct (0 <? number_of_text_styles project)%nat; [|apply Grows_ret].
    apply Grows_bind; [apply Grows_call|]. intros styles.
    apply Grows_bind; [apply Grows_createBlock|]. intros _.
    apply Grows_forEach. intros style. cbv zeta.
    apply Grows_bind; [apply Grows_createBlock | intros _; apply Grows_ret].
Qed.

Lemma Grows_createProjectStructure env project :
  Grows (createProjectStructure env project).
Proof.
  unfold createProjectStructure. cbv zeta.
  repeat (apply Grows_bind; [apply Grows_ensurePage | intros _]).
  apply Grows_ret.
Qed.

Lemma Grows_syncProject env projectId : Grows (syncProject env projectId).
Proof.
  unfold syncProject. apply Grows_catch; [|intros error; apply Grows_throw].
  apply Grows_bind; [apply Grows_call|]. intros project.
  apply Grows_bind; [apply Grows_createProjectStructure|]. intros _.
  apply Grows_bind.
  { destruct (0 <? number_of_components project)%nat;
      [apply Grows_syncComponents | apply Grows_ret]. }
  intros _. apply Grows_bind.
  { destruct (0 <? number_of_screens project)%nat;
      [apply Grows_syncScreens | apply Grows_ret]. }
  intros _. apply Grows_bind; [apply Grows_syncDesignTokens|].
  intros _. apply Grows_ret.
Qed.

End GrowthFacts.

(** ** The Logseq graph: pages and their first blocks *)

Section PageFacts.
Import Zeplin Logseq.

Lemma getPage_shape pageName g :
  option_map pageShape (Editor_getPage pageName g)
  = List.find (fun p => String.eqb (fst p) pageName) (map pageShape (pages g)).
Proof.
  unfold Editor_getPage. induction (pages g) as [|p l IH]; [reflexivity|].
  cbn [List.find map pageShape fst].
  destruct (String.eqb (page_name p) pageName); [reflexivity | exact IH].
Qed.

Lemma getBlock_place u g :
  option_map blockPlace (Editor_getBlock u g)
  = List.find (fun b => (fst b =? u)%nat) (map blockPlace (blocks g)).
Proof.
  unfold Editor_getBlock. induction (blocks g) as [|b l IH]; [reflexivity|].
  cbn [List.find map blockPlace fst].
  destruct (uuid b =? u)%nat; [reflexivity | exact IH].
Qed.

Lemma grows_getPage g g' pageName page :
  grows g g' -> Editor_getPage pageName g = Some page ->
  exists page', Editor_getPage pageName g' = Some page'
                /\ page_uuid page' = page_uuid page.
Proof.
  intros [_ [more Hp]] Hget. pose proof (getPage_shape pageName g') as H'.
  rewrite Hp, find_over_app, <- getPage_shape, Hget in H'. cbn [option_map] in H'.
  destruct (Editor_getPage pageName g') as [page'|]; [|discriminate].
  injection H' as _ Huuid. exists page'. split; [reflexivity | exact Huuid].
Qed.

Lemma grows_page_there g g' pageName :
  grows g g' -> Editor_getPage pageName g <> None -> Editor_getPage pageName g' <> None.
Proof.
  intros Hgrows Hthere. destruct (Editor_getPage pageName g) as [page|] eqn:Hget;
    [|contradiction].
  destruct (grows_getPage _ _ _ _ Hgrows Hget) as (page' & -> & _). discriminate.
Qed.

Lemma grows_getBlock g g' u :
  grows g g' -> Editor_getBlock u g <> None -> Editor_getBlock u g' <> None.
Proof.
  intros [[more Hb] _] Hthere. pose proof (getBlock_place u g') as H'.
  rewrite Hb, find_over_app, <- getBlock_place in H'.
  destruct (Editor_getBlock u g) as [b|]; [|contradiction].
  cbn [option_map] in H'. destruct (Editor_getBlock u g'); discriminate.
Qed.

Lemma pageFirstBlock_shape pageName g :
  pageFirstBlock pageName g
  = firstBlockIn (map pageShape (pages g)) (map blockPlace (blocks g)) pageName.
Proof.
  unfold pageFirstBlock, firstBlockIn, Editor_getPageBlocksTree.
  rewrite <- getPage_shape.
  destruct (Editor_getPage pageName g) as [page|]; [|reflexivity].
  cbn [option_map pageShape snd].
  induction (blocks g) as [|b l IH]; [reflexivity|].
  cbn [filter map blockPlace snd].
  destruct (parent b =? page_uuid page)%nat; [reflexivity | exact IH].
Qed.

Lemma grows_pageFirstBlock g g' pageName u :
  grows g g' -> pageFirstBlock pageName g = Some u ->
  pageFirstBlock pageName g' = Some u.
Proof.
  intros [[moreBlocks Hb] [morePages Hp]]. rewrite !pageFirstBlock_shape, Hb, Hp.
  unfold firstBlockIn. rewrite find_over_app.
  destruct (List.find _ (map pageShape (pages g))) as [page|]; [|discriminate].
  rewrite filter_app.
  destruct (filter _ (map blockPlace (blocks g))) as [|b rest]; [discriminate|].
  intros H. exact H.
Qed.

Lemma getPageFirstBlockUuid_missing pageName g :
  Editor_getPage pageName g = None ->
  getPageFirstBlockUuid pageName g = (inr None, g).
Proof. intros H. unfold getPageFirstBlockUuid, catch. rewrite H. reflexivity. Qed.

Lemma getPageFirstBlockUuid_found pageName g u :
  pageFirstBlock pageName g = Some u ->
  getPageFirstBlockUuid pageName g = (inr (Some u), g).
Proof.
  unfold pageFirstBlock, getPageFirstBlockUuid, catch.
  destruct (Editor_getPage pageName g) as [page|]; [|discriminate].
  destruct (Editor_getPageBlocksTree pageName g) as [|first rest]; [discriminate|].
  intros [= <-]. reflexivity.
Qed.

Lemma getPageFirstBlockUuid_exists pageName g page :
  Editor_getPage pageName g = Some page ->
  exists u g',
    getPageFirstBlockUuid pageName g = (inr (Some u), g')
    /\ pageFirstBlock pageName g' = Some u
    /\ Editor_getBlock u g' <> None
    /\ ((pageFirstBlock pageName g = Some u /\ g' = g)
        \/ (pageFirstBlock pageName g = None
            /\ pages g' = pages g
            /\ blocks g'
               = (blocks g ++ [{| uuid := fresh g; parent := page_uuid page;
                                  content := ""; properties := ∅ |}])%list)).
Proof.
  intros Hget.
  destruct (pageFirstBlock pageName g) as [u|] eqn:Hfirst.
  - exists u, g. split; [apply getPageFirstBlockUuid_found; exact Hfirst|].
    split; [exact Hfirst|]. split; [|left; split; reflexivity].
    unfold pageFirstBlock, Editor_getPageBlocksTree in Hfirst. rewrite Hget in Hfirst.
    destruct (filter _ (blocks g)) as [|first rest] eqn:Hfilter; [discriminate|].
    injection Hfirst as <-.
    assert (Hin : In first (filter (fun b => (parent b =? page_uuid page)%nat) (blocks g)))
      by (rewrite Hfilter; left; reflexivity).
    apply filter_In in Hin. destruct Hin as [Hin _].
    destruct (find_uuid_of_In _ _ Hin) as (b0 & Hb0).
    unfold Editor_getBlock. rewrite Hb0. discriminate.
  - unfold pageFirstBlock, Editor_getPageBlocksTree in Hfirst. rewrite Hget in Hfirst.
    destruct (filter (fun b => (parent b =? page_uuid page)%nat) (blocks g))
      as [|first rest] eqn:Hfilter; [|discriminate].
    eexists (fresh g), _. split.
    + unfold getPageFirstBlockUuid, catch, Editor_getPageBlocksTree.
      rewrite Hget, Hfilter. unfold bind, Editor_appendBlockInPage. rewrite Hget.
      reflexivity.
    + split; [|split; [apply getBlock_last; reflexivity|]].
      * unfold pageFirstBlock, Editor_getPageBlocksTree, Editor_getPage.
        cbn [pages blocks]. unfold Editor_getPage in Hget. rewrite Hget.
        rewrite filter_app, Hfilter. cbn [filter parent app].
        rewrite Nat.eqb_refl. reflexivity.
      * right. repeat split.
Qed.

Lemma ensurePage_run pageName props g :
  exists u g',
    ensurePage pageName props g = (inr u, g')
    /\ exists page, Editor_getPage pageName g' = Some page /\ page_uuid page = u.
Proof.
  destruct (Editor_getPage pageName g) as [page|] eqn:Hget.
  - pose (m := match props with
               | Some props => upsertAll (page_uuid page) props
               | None => ret tt
               end).
    assert (Hup : succeeds m).
    { subst m. destruct props as [props|].
      - apply forEach_succeeds. intros kv g0. eexists _, _. reflexivity.
      - intros g0. eexists _, _. reflexivity. }
    assert (Hgrows : Grows m).
    { subst m. destruct props as [props|]; [|apply Grows_ret].
      apply Grows_forEach. intros kv. apply Grows_upsertBlockProperty. }
    destruct (Hup g) as (v & g1 & Hv).
    exists (page_uuid page), g1. split.
    + unfold ensurePage. rewrite catch_rethrow, Hget.
      fold m. rewrite (bind_continue _ _ _ _ _ Hv). reflexivity.
    + destruct (grows_getPage _ _ _ _ (Hgrows _ _ _ Hv) Hget) as (page' & H1 & H2).
      exists page'. split; assumption.
  - eexists _, _. split.
    + unfold ensurePage. rewrite catch_rethrow, Hget. reflexivity.
    + eexists. split; [|reflexivity].
      unfold Editor_getPage in *. cbn [pages]. rewrite find_over_app, Hget.
      cbn [List.find page_name]. rewrite String.eqb_refl. reflexivity.
Qed.

(** *** Runs that resolve *)

Lemma succeeds_ret {A : Type} (x : A) : succeeds (ret x).
Proof. intros g. eexists _, _. reflexivity. Qed.

Lemma succeeds_bind {A B : Type} (m : M A) (k : A -> M B) :
  succeeds m -> (forall a, succeeds (k a)) -> succeeds (bind m k).
Proof.
  intros Hm Hk g. destruct (Hm g) as (a & g1 & Ha).
  rewrite (bind_continue _ _ _ _ _ Ha). apply Hk.
Qed.

Lemma succeeds_catch {A : Type} (m : M A) (handler : Error -> M A) :
  (forall error, succeeds (handler error)) -> succeeds (catch m handler).
Proof.
  intros Hh g. unfold catch. destruct (m g) as [[e|a] g1]; [apply Hh|].
  eexists _, _. reflexivity.
Qed.

Lemma succeeds_createNode node parentUuid : succeeds (createNode node parentUuid).
Proof.
  intros g. destruct (Editor_getBlock parentUuid g) as [parentBlock|] eqn:Hparent.
  - destruct (createNode_tree node parentUuid g) as (more & Hnode & _);
      [congruence|]. rewrite Hnode. eexists _, _. reflexivity.
  - rewrite (createNode_orphan node parentUuid g Hparent). eexists _, _. reflexivity.
Qed.

Lemma succeeds_upsertBlock env parentUuid text zeplinId props children :
  succeeds (upsertBlock env parentUuid text zeplinId props children).
Proof.
  unfold upsertBlock. apply succeeds_bind.
  - unfold findBlockByZeplinId. apply succeeds_catch. intros _. apply succeeds_ret.
  - intros [existing|]; [|apply succeeds_createNode].
    apply succeeds_bind.
    { unfold updateBlock. apply succeeds_catch. intros _. apply succeeds_ret. }
    intros _. apply succeeds_bind; [|intros _; apply succeeds_ret].
    destruct props; [|apply succeeds_ret].
    intros g. destruct (Editor_getBlock existing g); eexists _, _; reflexivity.
Qed.

Lemma downloadAndFormatImage_resolves env imageUrl itemName :
  exists content, downloadAndFormatImage env imageUrl itemName = inr content.
Proof.
  unfold downloadAndFormatImage, tryCatch.
  destruct (imageStorage (config env)); [|eexists; reflexivity].
  destruct (downloadImage env imageUrl) as [e|dataUrl]; [eexists; reflexivity|].
  destruct (Js.truthy dataUrl); eexists; reflexivity.
Qed.

Lemma succeeds_imageChild env imageUrl itemName :
  succeeds (imageChild env imageUrl itemName).
Proof.
  unfold imageChild. destruct (Js.truthy imageUrl); [|apply succeeds_ret].
  destruct (downloadAndFormatImage_resolves env (Js.show imageUrl) itemName)
    as [content ->].
  apply succeeds_bind; [intros g; eexists _, _; reflexivity|].
  intros imageContent. destruct (Js.truthy imageContent); apply succeeds_ret.
Qed.

Lemma succeeds_createBlockTree parentUuid tree :
  succeeds (createBlockTree parentUuid tree).
Proof.
  unfold createBlockTree. apply forEach_succeeds. intros [text props children].
  apply succeeds_bind; [apply succeeds_createNode | intros _; apply succeeds_ret].
Qed.

Lemma succeeds_answer {A : Type} (answer : AxiosError + A) :
  (exists v, answer = inr v) ->
  succeeds (call (tryCatch (get answer) (fun error => inl error))).
Proof. intros [v ->] g. eexists _, _. reflexivity. Qed.

Section Answering.
Variable env : Env.
Hypothesis Hanswers : answering (api env).

Lemma succeeds_syncComponent project component parentUuid :
  succeeds (syncComponent env project component parentUuid).
Proof.
  destruct Hanswers as (_ & _ & Hcomponent & _).
  unfold syncComponent. apply succeeds_bind; [apply succeeds_answer, Hcomponent|].
  intros full. cbv zeta. apply succeeds_bind; [apply succeeds_imageChild|].
  intros image. apply succeeds_bind; [apply succeeds_upsertBlock|].
  intros _. apply succeeds_ret.
Qed.

Lemma syncComponents_resolves project g :
  Editor_getPage
    (defaultNamespace (config env) ++ "/" ++ project_name project ++ "/Components") g
  <> None ->
  exists g', syncComponents env project g = (inr tt, g').
Proof.
  intros Hpage. destruct Hanswers as (_ & Hcomponents & _).
  unfold syncComponents. destruct (Hcomponents (project_id project)) as [l Hl].
  rewrite (bind_continue _ _ g l g)
    by (unfold call, getComponents; rewrite Hl; reflexivity).
  cbv zeta.
  destruct (Editor_getPage _ g) as [page|] eqn:Hget; [|contradiction].
  destruct (getPageFirstBlockUuid_exists _ _ _ Hget) as (u & g1 & Hfirst & _).
  rewrite (bind_continue _ _ _ _ _ Hfirst).
  destruct (forEach_succeeds (fun component => syncComponent env project component u) l
              (fun component => succeeds_syncComponent project component u) g1)
    as ([] & g2 & Hloop).
  exists g2. exact Hloop.
Qed.

Lemma succeeds_syncScreenAsPage project screen indexUuid :
  succeeds (syncScreenAsPage env project screen indexUuid).
Proof.
  destruct Hanswers as (_ & _ & _ & _ & Hscreen & _).
  unfold syncScreenAsPage. apply succeeds_bind; [apply succeeds_answer, Hscreen|].
  intros full. cbv zeta. intros g.
  match goal with
  | |- context [ensurePage ?name ?props] =>
      destruct (ensurePage_run name props g) as (u & g1 & Hensure & page & Hget & _)
  end.
  rewrite (bind_continue _ _ _ _ _ Hensure).
  destruct (getPageFirstBlockUuid_exists _ _ _ Hget) as (b & g2 & Hfirst & _).
  rewrite (bind_continue _ _ _ _ _ Hfirst).
  revert g2 Hfirst. clear. intros g2 _. revert g2.
  apply succeeds_bind; [apply succeeds_createNode|]. intros _.
  apply succeeds_bind; [apply succeeds_imageChild|]. intros image.
  apply succeeds_createBlockTree.
Qed.

Lemma succeeds_syncScreens project : succeeds (syncScreens env project).
Proof.
  destruct Hanswers as (_ & _ & _ & Hscreens & _).
  unfold syncScreens. apply succeeds_bind; [apply succeeds_answer, Hscreens|].
  intros screens. cbv zeta. intros g.
  match goal with
  | |- context [ensurePage ?name ?props] =>
      destruct (ensurePage_run name props g) as (u & g1 & Hensure & page & Hget & _)
  end.
  rewrite (bind_continue _ _ _ _ _ Hensure).
  destruct (getPageFirstBlockUuid_exists _ _ _ Hget) as (b & g2 & Hfirst & _).
  rewrite (bind_continue _ _ _ _ _ Hfirst).
  destruct (forEach_succeeds (fun screen => syncScreenAsPage env project screen b) screens
              (fun screen => succeeds_syncScreenAsPage project screen b) g2)
    as ([] & g3 & Hloop).
  exists tt, g3. exact Hloop.
Qed.

Lemma syncDesignTokens_resolves project g :
  Editor_getPage
    (defaultNamespace (config env) ++ "/" ++ project_name project ++ "/Design Tokens") g
  <> None ->
  exists g', syncDesignTokens env project g = (inr tt, g').
Proof.
  intros Hpage. destruct Hanswers as (_ & _ & _ & _ & _ & Hcolors & Hstyles).
  unfold syncDesignTokens. cbv zeta.
  destruct (Editor_getPage _ g) as [page|] eqn:Hget; [|contradiction].
  destruct (getPageFirstBlockUuid_exists _ _ _ Hget) as (u & g1 & Hfirst & _).
  rewrite (bind_continue _ _ _ _ _ Hfirst).
  assert (Hrest : succeeds
    (await_ (if (0 <? number_of_colors project)%nat then
               await colors <- call (getColors (api env) (project_id project)) ;
               await_ createBlock u
                        ("## Colors (" ++ Js.show_nat (List.length colors) ++ ")")
                        None [] ;
               forEach
                 (fun color =>
                    let colorName := Js.or_else (color_name color) "Unnamed" in
                    let hexColor :=
                      Color.rgbaToHex (r color) (Zeplin.g color) (b color) (a color) in
                    await_ createBlock u (colorName ++ ": `" ++ hexColor ++ "`")
                             (Some (<["zeplin-type" := PStr "color"]>
                                      (<["zeplin-id" := PStr (color_id color)]> ∅)))
                             [] ;
                    ret tt) colors
             else ret tt) ;
     if (0 <? number_of_text_styles project)%nat then
       await textStyles <- call (getTextStyles (api env) (project_id project)) ;
       await_ createBlock u
                ("## Text Styles (" ++ Js.show_nat (List.length textStyles) ++ ")")
                None [] ;
       forEach
         (fun style =>
            let styleInfo :=
              style_name style ++ ": " ++ font_family style ++ " "
                ++ Js.show_Z (font_size style) ++ "px / "
                ++ Js.show_Z (font_weight style) in
            await_ createBlock u styleInfo
                     (Some (<["zeplin-type" := PStr "text-style"]>
                              (<["zeplin-id" := PStr (style_id style)]> ∅)))
                     [] ;
            ret tt) textStyles
     else ret tt)).
  { apply succeeds_bind.
    - destruct (0 <? number_of_colors project)%nat; [|apply succeeds_ret].
      apply succeeds_bind; [apply succeeds_answer, Hcolors|]. intros colors.
      apply succeeds_bind; [apply succeeds_createNode|]. intros _.
      apply forEach_succeeds. intros color. cbv zeta.
      apply succeeds_bind; [apply succeeds_createNode | intros _; apply succeeds_ret].
    - intros _. destruct (0 <? number_of_text_styles project)%nat; [|apply succeeds_ret].
      apply succeeds_bind; [apply succeeds_answer, Hstyles|]. intros styles.
      apply succeeds_bind; [apply succeeds_createNode|]. intros _.
      apply forEach_succeeds. intros style. cbv zeta.
      apply succeeds_bind; [apply succeeds_createNode | intros _; apply succeeds_ret]. }
  destruct (Hrest g1) as ([] & g2 & Hrun). exists g2. exact Hrun.
Qed.

End Answering.

End PageFacts.

Section ProjectFacts.
Import Zeplin Logseq.

Lemma name_assoc (a b c d : string) : (a ++ b ++ c) ++ d = a ++ b ++ c ++ d.
Proof. rewrite !append_assoc. reflexivity. Qed.

Lemma forEach_same {A : Type} (f : A -> M unit) (l : list A) g r g' :
  (forall x g0, exists g1, f x g0 = (inr tt, g1)
     /\ map blockPlace (blocks g1) = map blockPlace (blocks g0)
     /\ map pageShape (pages g1) = map pageShape (pages g0)) ->
  forEach f l g = (r, g') ->
  r = inr tt
  /\ map blockPlace (blocks g') = map blockPlace (blocks g)
  /\ map pageShape (pages g') = map pageShape (pages g).
Proof.
  intros Hf. revert g. induction l as [|x rest IH]; intros g.
  - intros [= <- <-]. repeat split.
  - cbn [forEach]. destruct (Hf x g) as (g1 & Hx & Hb & Hp).
    rewrite (bind_continue _ _ _ _ _ Hx). intros Hrest.
    destruct (IH _ Hrest) as (-> & Hb' & Hp'). rewrite Hb', Hp'. auto.
Qed.

Lemma upsertAll_same u props g r g' :
  upsertAll u props g = (r, g') ->
  r = inr tt
  /\ map blockPlace (blocks g') = map blockPlace (blocks g)
  /\ map pageShape (pages g') = map pageShape (pages g).
Proof.
  unfold upsertAll. apply forEach_same. intros kv g0. eexists. split; [reflexivity|].
  cbn [blocks pages]. split; apply map_map_same.
  - apply blockPlace_setBlockProperty.
  - apply pageShape_setPageProperty.
Qed.

Lemma ensurePage_existing pageName props g page :
  Editor_getPage pageName g = Some page ->
  exists g',
    ensurePage pageName props g = (inr (page_uuid page), g')
    /\ map blockPlace (blocks g') = map blockPlace (blocks g)
    /\ map pageShape (pages g') = map pageShape (pages g).
Proof.
  intros Hget. unfold ensurePage. rewrite catch_rethrow, Hget. unfold bind.
  destruct props as [props|].
  - destruct (upsertAll (page_uuid page) props g) as [r g'] eqn:Hup.
    destruct (upsertAll_same _ _ _ _ _ Hup) as (-> & Hb & Hp).
    exists g'. repeat split; assumption.
  - exists g. repeat split.
Qed.

Lemma ensurePage_missing pageName props g :
  Editor_getPage pageName g = None ->
  ensurePage pageName props g
  = (inr (fresh g),
     {| pages := (pages g ++ [{| page_name := pageName; page_uuid := fresh g;
                                 page_properties := orEmpty props |}])%list;
        blocks := (blocks g ++ [{| uuid := S (fresh g); parent := fresh g;
                                   content := ""; properties := ∅ |}])%list;
        fresh := S (S (fresh g)) |}).
Proof.
  intros Hget. unfold ensurePage. rewrite catch_rethrow, Hget. reflexivity.
Qed.

Lemma createProjectStructure_run env project g :
  exists g1,
    createProjectStructure env project g = (inr tt, g1)
    /\ Editor_getPage
         (defaultNamespace (config env) ++ "/" ++ project_name project ++ "/Components")
         g1 <> None
    /\ Editor_getPage
         (defaultNamespace (config env) ++ "/" ++ project_name project
            ++ "/Design Tokens") g1 <> None.
Proof.
  unfold createProjectStructure. cbv zeta.
  rewrite <- !name_assoc.
  set (projectPage := defaultNamespace (config env) ++ "/" ++ project_name project).
  match goal with
  | |- context [ensurePage projectPage ?props] =>
      destruct (ensurePage_run projectPage props g) as (u1 & g1 & H1 & _)
  end.
  rewrite (bind_continue _ _ _ _ _ H1).
  destruct (ensurePage_run (projectPage ++ "/Components") None g1)
    as (u2 & g2 & H2 & page2 & Hpage2 & _).
  rewrite (bind_continue _ _ _ _ _ H2).
  destruct (ensurePage_run (projectPage ++ "/Screens") None g2)
    as (u3 & g3 & H3 & _).
  rewrite (bind_continue _ _ _ _ _ H3).
  destruct (ensurePage_run (projectPage ++ "/Design Tokens") None g3)
    as (u4 & g4 & H4 & page4 & Hpage4 & _).
  rewrite (bind_continue _ _ _ _ _ H4).
  exists g4. split; [reflexivity|]. split; [|congruence].
  apply (grows_page_there g3 g4); [exact (Grows_ensurePage _ _ _ _ _ H4)|].
  apply (grows_page_there g2 g3); [exact (Grows_ensurePage _ _ _ _ _ H3)|].
  congruence.
Qed.

Lemma syncProject_resolves env projectId :
  answering (api env) -> succeeds (syncProject env projectId).
Proof.
  intros Hanswers g. unfold syncProject. rewrite catch_rethrow.
  destruct Hanswers as (Hproject & Hrest).
  destruct (Hproject projectId) as [project Hp].
  rewrite (bind_continue _ _ g project g)
    by (unfold call, getProject; rewrite Hp; reflexivity).
  destruct (createProjectStructure_run env project g) as (g1 & Hcreate & Hc & Hd).
  rewrite (bind_continue _ _ _ _ _ Hcreate).
  assert (Hcomponents : exists g2,
    (if (0 <? number_of_components project)%nat then syncComponents env project
     else ret tt) g1 = (inr tt, g2) /\ grows g1 g2).
  { destruct (0 <? number_of_components project)%nat.
    - destruct (syncComponents_resolves env (conj Hproject Hrest) project g1 Hc)
        as (g2 & Hrun).
      exists g2. split; [exact Hrun | exact (Grows_syncComponents _ _ _ _ _ Hrun)].
    - exists g1. split; [reflexivity | apply grows_refl]. }
  destruct Hcomponents as (g2 & Hrun2 & Hgrows2).
  rewrite (bind_continue _ _ _ _ _ Hrun2).
  assert (Hscreens : exists g3,
    (if (0 <? number_of_screens project)%nat then syncScreens env project
     else ret tt) g2 = (inr tt, g3) /\ grows g2 g3).
  { destruct (0 <? number_of_screens project)%nat.
    - destruct (succeeds_syncScreens env (conj Hproject Hrest) project g2)
        as ([] & g3 & Hrun).
      exists g3. split; [exact Hrun | exact (Grows_syncScreens _ _ _ _ _ Hrun)].
    - exists g2. split; [reflexivity | apply grows_refl]. }
  destruct Hscreens as (g3 & Hrun3 & Hgrows3).
  rewrite (bind_continue _ _ _ _ _ Hrun3).
  destruct (syncDesignTokens_resolves env (conj Hproject Hrest) project g3)
    as (g4 & Hrun4).
  { apply (grows_page_there g2 g3 _ Hgrows3).
    apply (grows_page_there g1 g2 _ Hgrows2). exact Hd. }
  rewrite (bind_continue _ _ _ _ _ Hrun4). exists tt, g4. reflexivity.
Qed.

End ProjectFacts.

(** X21.  [getPageFirstBlockUuid] never rejects.  It answers [null] exactly
    when the page does not exist, and changes nothing then.  On a page that
    exists it answers a block that is in the graph and is the first block
    of the page afterwards; it adds a block only when the page had none,
    and asking again gives the same block and changes nothing. *)
Theorem getPageFirstBlockUuid_outcome (pageName : string) (g : Logseq.Graph) :
  let outcome := Logseq.getPageFirstBlockUuid pageName g in
  (Logseq.Editor_getPage pageName g = None -> outcome = (inr None, g))
  /\ (Logseq.Editor_getPage pageName g <> None ->
      exists u,
        fst outcome = inr (Some u)
        /\ pageFirstBlock pageName (snd outcome) = Some u
        /\ Logseq.Editor_getBlock u (snd outcome) <> None
        /\ (pageFirstBlock pageName g <> None -> snd outcome = g)
        /\ List.length (Logseq.blocks (snd outcome))
           <= S (List.length (Logseq.blocks g))
        /\ Logseq.getPageFirstBlockUuid pageName (snd outcome)
           = (inr (Some u), snd outcome)).
Proof.
  intros outcome. subst outcome. split; [apply getPageFirstBlockUuid_missing|].
  intros Hpage.
  destruct (Logseq.Editor_getPage pageName g) as [page|] eqn:Hget; [|contradiction].
  destruct (getPageFirstBlockUuid_exists pageName g page Hget)
    as (u & g' & Hrun & Hfirst & Hblock & Hshape).
  exists u. rewrite Hrun. cbn [fst snd].
  split; [reflexivity|]. split; [exact Hfirst|]. split; [exact Hblock|].
  split; [|split; [|apply getPageFirstBlockUuid_found; exact Hfirst]].
  - intros Hhad. destruct Hshape as [[_ ->]|[Hnone _]]; [reflexivity | contradiction].
  - destruct Hshape as [[_ ->]|(_ & _ & ->)]; [lia|].
    rewrite length_app. cbn [List.length]. lia.
Qed.

(** X22.  With the host editor of the model above, whose [createPage]
    answers the page it creates (the editor of Logseq may answer [null], and
    [ensurePage] then rejects with [Failed to create page]), [ensurePage]
    does not reject, and the identifier it answers is that of the page found
    under the name afterwards.  A page that exists is kept: no page and no
    block is added, whatever properties are given.  A page that is missing
    is created, with its first block: one page and one block more.  Calling
    it again answers the same identifier. *)
Theorem ensurePage_outcome (pageName : string)
  (props : option (gmap string Logseq.PropVal)) (g : Logseq.Graph) :
  exists u g',
    Logseq.ensurePage pageName props g = (inr u, g')
    /\ (exists page, Logseq.Editor_getPage pageName g' = Some page
                     /\ Logseq.page_uuid page = u)
    /\ (Logseq.Editor_getPage pageName g <> None ->
        map pageShape (Logseq.pages g') = map pageShape (Logseq.pages g)
        /\ map blockPlace (Logseq.blocks g') = map blockPlace (Logseq.blocks g))
    /\ (Logseq.Editor_getPage pageName g = None ->
        List.length (Logseq.pages g') = S (List.length (Logseq.pages g))
        /\ List.length (Logseq.blocks g') = S (List.length (Logseq.blocks g)))
    /\ (exists g'', Logseq.ensurePage pageName props g' = (inr u, g'')
                    /\ map pageShape (Logseq.pages g'') = map pageShape (Logseq.pages g')
                    /\ map blockPlace (Logseq.blocks g'')
                       = map blockPlace (Logseq.blocks g')).
Proof.
  destruct (ensurePage_run pageName props g) as (u & g' & Hrun & page & Hget & Hu).
  exists u, g'. split; [exact Hrun|]. split; [exists page; split; assumption|].
  split; [|split].
  - intros Hthere.
    destruct (Logseq.Editor_getPage pageName g) as [page0|] eqn:Hget0; [|contradiction].
    destruct (ensurePage_existing pageName props g page0 Hget0) as (g1 & Hrun1 & Hb & Hp).
    rewrite Hrun in Hrun1. injection Hrun1 as _ <-. split; assumption.
  - intros Hmissing. rewrite (ensurePage_missing pageName props g Hmissing) in Hrun.
    injection Hrun as _ <-. cbn [Logseq.pages Logseq.blocks].
    rewrite !length_app. cbn [List.length]. lia.
  - destruct (ensurePage_existing pageName props g' page Hget) as (g'' & Hrun2 & Hb & Hp).
    exists g''. rewrite Hu in Hrun2. repeat split; assumption.
Qed.

(** X23.  Whether it resolves or rejects, a sync of a project into the
    graph only adds to the outline: every block keeps its identifier, its
    parent and its position, every page its name, its identifier and its
    position; new blocks and pages come after them. *)
Theorem syncProject_only_adds (env : Logseq.Env) (projectId : string)
  (g : Logseq.Graph) :
  grows g (snd (Logseq.syncProject env projectId g)).
Proof.
  destruct (Logseq.syncProject env projectId g) as [r g'] eqn:Hrun.
  exact (Grows_syncProject env projectId g r g' Hrun).
Qed.

(** X24.  Only the remote makes a sync fail: when the remote answers every
    request, [syncProject] resolves from every graph, whatever the graph
    holds already and whether the images can be fetched or not.  (The
    calls of the host editor are those of the model above, which do not
    reject.) *)
Theorem syncProject_resolves_when_remote_answers (env : Logseq.Env)
  (projectId : string) (g : Logseq.Graph) :
  answering (Logseq.api env) ->
  exists g', Logseq.syncProject env projectId g = (inr tt, g').
Proof.
  intros Hanswers.
  destruct (syncProject_resolves env projectId Hanswers g) as ([] & g' & Hrun).
  exists g'. exact Hrun.
Qed.

(** Witness for X24: the demonstration remote answers every request. *)
Lemma syncProject_resolves_when_remote_answers_witness :
  answering demoRemote
  /\ exists g',
       Logseq.syncProject (demoEnv Logseq.inline) "p1" Logseq.emptyGraph = (inr tt, g').
Proof.
  assert (H : answering demoRemote).
  { repeat split; intros; eexists; reflexivity. }
  split; [exact H|].
  exact (syncProject_resolves_when_remote_answers (demoEnv Logseq.inline) "p1"
           Logseq.emptyGraph H).
Defined.

(** ** Syncing the components again *)

Section ComponentsAgain.
Import Zeplin Logseq.

Lemma tagged_query zeplinId g :
  tagged zeplinId g = true ->
  exists first others, DB_q_zeplin_id zeplinId g = first :: others.
Proof.
  unfold tagged, DB_q_zeplin_id. induction (blocks g) as [|b l IH]; [discriminate|].
  cbn [existsb filter]. destruct (hasZeplinId zeplinId b); [eauto | exact IH].
Qed.

Lemma tagged_app zeplinId g pages' more fresh' :
  tagged zeplinId g = true ->
  tagged zeplinId {| pages := pages'; blocks := (blocks g ++ more)%list;
                     fresh := fresh' |} = true.
Proof.
  unfold tagged. cbn [blocks]. rewrite existsb_app. intros ->. reflexivity.
Qed.

Lemma tagged_refreshed env existing text props zeplinId g pages' fresh' :
  tagged zeplinId {| pages := pages';
                     blocks := map (refreshed env existing text props) (blocks g);
                     fresh := fresh' |}
  = tagged zeplinId g.
Proof.
  unfold tagged. cbn [blocks]. induction (blocks g) as [|b l IH]; [reflexivity|].
  cbn [map existsb]. rewrite hasZeplinId_refreshed, IH. reflexivity.
Qed.

Lemma blockPlace_refreshed env existing text props b :
  blockPlace (refreshed env existing text props b) = blockPlace b.
Proof. unfold refreshed. destruct (uuid b =? existing)%nat; reflexivity. Qed.

Lemma imageChild_pure env imageUrl itemName g :
  exists children, imageChild env imageUrl itemName g = (inr children, g).
Proof.
  unfold imageChild. destruct (Js.truthy imageUrl); [|eexists; reflexivity].
  destruct (downloadAndFormatImage_resolves env (Js.show imageUrl) itemName)
    as [content ->].
  unfold bind, call. destruct (Js.truthy content); eexists; reflexivity.
Qed.

Lemma upsertBlock_absent env parentUuid text zeplinId props children g :
  DB_q_zeplin_id zeplinId g = [] ->
  upsertBlock env parentUuid text zeplinId props children g
  = createBlock parentUuid text
      (Some (<["zeplin-synced" := PNum (now env)]>
               (<["zeplin-id" := PStr zeplinId]> (orEmpty props))))
      children g.
Proof.
  intros Hq. unfold upsertBlock, findBlockByZeplinId, bind, catch, ret.
  rewrite Hq. reflexivity.
Qed.

(** What one [upsertBlock] leaves behind. *)
Lemma upsertBlock_tags env parentUuid text zeplinId props children g r g' :
  upsertBlock env parentUuid text zeplinId props children g = (r, g') ->
  Editor_getBlock parentUuid g <> None ->
  tagged zeplinId g' = true
  /\ (forall other, tagged other g = true -> tagged other g' = true).
Proof.
  intros Hrun Hparent.
  destruct (DB_q_zeplin_id zeplinId g) as [|first others] eqn:Hq.
  - rewrite (upsertBlock_absent _ _ _ _ _ _ _ Hq) in Hrun. unfold createBlock in Hrun.
    match type of Hrun with
    | createNode ?node _ _ = _ =>
        destruct (createNode_tree node parentUuid g Hparent) as (more & Hnode & _)
    end.
    rewrite Hnode in Hrun. injection Hrun as _ <-. split.
    + unfold tagged. cbn [blocks]. rewrite existsb_app. cbn [existsb].
      match goal with
      | |- context [hasZeplinId zeplinId ?root] =>
          assert (Htag : hasZeplinId zeplinId root = true)
      end.
      { unfold hasZeplinId. cbn [rootBlock properties orEmpty].
        rewrite lookup_insert_ne by discriminate.
        rewrite lookup_insert_eq. apply String.eqb_refl. }
      rewrite Htag. apply orb_true_r.
    + intros other Hother. apply tagged_app. exact Hother.
  - rewrite (upsertBlock_existing env parentUuid text zeplinId props children g
               first others Hq) in Hrun.
    injection Hrun as _ <-.
    assert (Hhere : tagged zeplinId g = true).
    { unfold tagged, DB_q_zeplin_id in *.
      apply existsb_exists. exists first.
      assert (Hin : In first (filter (hasZeplinId zeplinId) (blocks g)))
        by (rewrite Hq; left; reflexivity).
      apply filter_In in Hin. exact Hin. }
    split; [|intros other Hother]; rewrite tagged_refreshed; assumption.
Qed.

(** An [upsertBlock] for an item that has its block already. *)
Lemma upsertBlock_kept env parentUuid text zeplinId props children g :
  tagged zeplinId g = true ->
  exists u g',
    upsertBlock env parentUuid text zeplinId props children g = (inr (Some u), g')
    /\ map blockPlace (blocks g') = map blockPlace (blocks g)
    /\ map pageShape (pages g') = map pageShape (pages g)
    /\ (forall other, tagged other g' = tagged other g).
Proof.
  intros Htag. destruct (tagged_query _ _ Htag) as (first & others & Hq).
  rewrite (upsertBlock_existing env parentUuid text zeplinId props children g
             first others Hq).
  eexists _, _. split; [reflexivity|]. cbn [blocks pages]. split; [|split].
  - apply map_map_same. apply blockPlace_refreshed.
  - destruct props; [|reflexivity]. apply map_map_same. apply pageShape_setPageProperty.
  - intros other. apply tagged_refreshed.
Qed.

Lemma syncComponent_first env project component parentUuid g g' :
  syncComponent env project component parentUuid g = (inr tt, g') ->
  Editor_getBlock parentUuid g <> None ->
  (exists full, getComponent (api env) (project_id project) (component_id component)
                = inr full)
  /\ tagged (component_id component) g' = true
  /\ (forall other, tagged other g = true -> tagged other g' = true).
Proof.
  unfold syncComponent. intros Hrun Hparent. unfold bind at 1, call in Hrun.
  destruct (getComponent (api env) (project_id project) (component_id component))
    as [e|full]; [discriminate|].
  split; [eexists; reflexivity|]. cbv zeta in Hrun.
  match type of Hrun with
  | context [imageChild ?e ?u ?n] =>
      destruct (imageChild_pure e u n g) as [image Himage]
  end.
  rewrite (bind_continue _ _ _ _ _ Himage) in Hrun. unfold bind in Hrun.
  match type of Hrun with
  | context [upsertBlock ?e ?p ?t ?z ?pr ?ch g] =>
      destruct (upsertBlock e p t z pr ch g) as [r0 g0] eqn:Hupsert;
      pose proof (upsertBlock_tags _ _ _ _ _ _ _ _ _ Hupsert Hparent) as Htags
  end.
  destruct r0 as [e|u]; [discriminate|]. injection Hrun as <-. exact Htags.
Qed.

Lemma syncComponents_loop_first env project parentUuid components g g' :
  forEach (fun component => syncComponent env project component parentUuid)
    components g = (inr tt, g') ->
  Editor_getBlock parentUuid g <> None ->
  (forall component, In component components ->
     (exists full, getComponent (api env) (project_id project) (component_id component)
                   = inr full)
     /\ tagged (component_id component) g' = true)
  /\ (forall other, tagged other g = true -> tagged other g' = true).
Proof.
  revert g. induction components as [|c rest IH]; intros g Hrun Hparent.
  - injection Hrun as <-. split; [intros component []|auto].
  - cbn [forEach] in Hrun. unfold bind in Hrun.
    destruct (syncComponent env project c parentUuid g) as [[e|[]] g1] eqn:Hstep;
      [discriminate|].
    destruct (syncComponent_first _ _ _ _ _ _ Hstep Hparent) as (Hfull & Hc & Hkeep).
    pose proof (grows_getBlock _ _ _ (Grows_syncComponent _ _ _ _ _ _ _ Hstep) Hparent)
      as Hparent1.
    destruct (IH g1 Hrun Hparent1) as (Hrest & Hkeep1).
    split; [|auto].
    intros component [<-|Hin]; [split; auto | apply Hrest; exact Hin].
Qed.

Lemma syncComponent_again env project component parentUuid g full :
  getComponent (api env) (project_id project) (component_id component) = inr full ->
  tagged (component_id component) g = true ->
  exists g',
    syncComponent env project component parentUuid g = (inr tt, g')
    /\ map blockPlace (blocks g') = map blockPlace (blocks g)
    /\ map pageShape (pages g') = map pageShape (pages g)
    /\ (forall other, tagged other g' = tagged other g).
Proof.
  intros Hfull Htag. unfold syncComponent.
  rewrite (bind_continue _ _ g full g) by (unfold call; rewrite Hfull; reflexivity).
  cbv zeta.
  match goal with
  | |- context [imageChild ?e ?u ?n] =>
      destruct (imageChild_pure e u n g) as [image Himage]
  end.
  rewrite (bind_continue _ _ _ _ _ Himage).
  match goal with
  | |- context [upsertBlock ?e ?p ?t ?z ?pr ?ch] =>
      destruct (upsertBlock_kept e p t z pr ch g Htag)
        as (u & g' & Hupsert & Hb & Hp & Htags)
  end.
  rewrite (bind_continue _ _ _ _ _ Hupsert). exists g'. auto.
Qed.

Lemma syncComponents_loop_again env project parentUuid components g :
  (forall component, In component components ->
     (exists full, getComponent (api env) (project_id project) (component_id component)
                   = inr full)
     /\ tagged (component_id component) g = true) ->
  exists g',
    forEach (fun component => syncComponent env project component parentUuid)
      components g = (inr tt, g')
    /\ map blockPlace (blocks g') = map blockPlace (blocks g)
    /\ map pageShape (pages g') = map pageShape (pages g).
Proof.
  revert g. induction components as [|c rest IH]; intros g Hall.
  - exists g. repeat split.
  - destruct (Hall c (or_introl eq_refl)) as ([full Hfull] & Htag).
    destruct (syncComponent_again env project c parentUuid g full Hfull Htag)
      as (g1 & Hstep & Hb & Hp & Htags).
    destruct (IH g1) as (g' & Hloop & Hb' & Hp').
    { intros component Hin. destruct (Hall component (or_intror Hin)) as [H1 H2].
      split; [exact H1 | rewrite Htags; exact H2]. }
    exists g'. cbn [forEach]. rewrite (bind_continue _ _ _ _ _ Hstep).
    split; [exact Hloop|]. rewrite Hb', Hp'. auto.
Qed.

End ComponentsAgain.

(** X25.  Components are synced in place.  After a [syncComponents] that
    resolved, every component of the list has a block that carries its
    remote ID; and a second [syncComponents] against the same remote data,
    at any later time and with any image fetching, resolves and adds
    nothing: no block and no page more, every block where it was. *)
Theorem syncComponents_again (env later : Logseq.Env)
  (project : Zeplin.ZeplinProject) (g g1 : Logseq.Graph) :
  Logseq.syncComponents env project g = (inr tt, g1) ->
  Logseq.api later = Logseq.api env ->
  Logseq.defaultNamespace (Logseq.config later)
  = Logseq.defaultNamespace (Logseq.config env) ->
  (forall components component,
     Client.getComponents (Logseq.api env) (Zeplin.project_id project) = inr components ->
     In component components ->
     tagged (Zeplin.component_id component) g1 = true)
  /\ exists g2,
       Logseq.syncComponents later project g1 = (inr tt, g2)
       /\ map blockPlace (Logseq.blocks g2) = map blockPlace (Logseq.blocks g1)
       /\ map pageShape (Logseq.pages g2) = map pageShape (Logseq.pages g1).
Proof.
  intros Hrun Hapi Hnamespace. unfold Logseq.syncComponents in *.
  rewrite Hapi, Hnamespace. unfold Logseq.bind at 1, Logseq.call in Hrun.
  destruct (Client.getComponents (Logseq.api env) (Zeplin.project_id project))
    as [e|components] eqn:Hlist; [discriminate|].
  cbv zeta in Hrun. unfold Logseq.bind in Hrun.
  set (pageName := Logseq.defaultNamespace (Logseq.config env) ++ "/"
                     ++ Zeplin.project_name project ++ "/Components") in *.
  destruct (Logseq.Editor_getPage pageName g) as [page|] eqn:Hget.
  2: { rewrite (getPageFirstBlockUuid_missing pageName g Hget) in Hrun.
       discriminate. }
  destruct (getPageFirstBlockUuid_exists pageName g page Hget)
    as (u & ga & Hfirst & Hpage & Hblock & _).
  rewrite Hfirst in Hrun.
  fold (Logseq.forEach (fun component => Logseq.syncComponent env project component u)
          components) in Hrun.
  destruct (syncComponents_loop_first env project u components ga g1 Hrun Hblock)
    as (Hall & _).
  split.
  - intros l component [= <-] Hin. apply Hall. exact Hin.
  - rewrite (bind_continue _ _ g1 components g1) by reflexivity.
    cbv zeta.
    assert (Hgrows : grows ga g1).
    { apply (Grows_forEach
               (fun component => Logseq.syncComponent env project component u)
               components (fun c => Grows_syncComponent env project c u)
               ga (inr tt) g1 Hrun). }
    rewrite (bind_continue _ _ _ _ _
               (getPageFirstBlockUuid_found pageName g1 u
                  (grows_pageFirstBlock ga g1 pageName u Hgrows Hpage))).
    apply syncComponents_loop_again.
    intros component Hin. destruct (Hall component Hin) as [Hfull Htag].
    rewrite Hapi. split; assumption.
Qed.

(** Witness for X25: the demonstration project, its components synced
    twice, the second time with inline images. *)
Lemma syncComponents_again_witness :
  exists g2,
    Logseq.syncComponents (demoEnv Logseq.inline) demoProject
      (snd (Logseq.syncComponents (demoEnv Logseq.assets) demoProject
              (snd (Logseq.createProjectStructure (demoEnv Logseq.assets) demoProject
                      Logseq.emptyGraph))))
    = (inr tt, g2)
    /\ map blockPlace (Logseq.blocks g2)
       = map blockPlace
           (Logseq.blocks
              (snd (Logseq.syncComponents (demoEnv Logseq.assets) demoProject
                      (snd (Logseq.createProjectStructure (demoEnv Logseq.assets)
                              demoProject Logseq.emptyGraph)))))
    /\ map pageShape (Logseq.pages g2)
       = map pageShape
           (Logseq.pages
              (snd (Logseq.syncComponents (demoEnv Logseq.assets) demoProject
                      (snd (Logseq.createProjectStructure (demoEnv Logseq.assets)
                              demoProject Logseq.emptyGraph))))).
Proof.
  refine (proj2 (syncComponents_again (demoEnv Logseq.assets) (demoEnv Logseq.inline)
                   demoProject
                   (snd (Logseq.createProjectStructure (demoEnv Logseq.assets)
                           demoProject Logseq.emptyGraph))
                   _ _ eq_refl eq_refl)).
  vm_compute. reflexivity.
Defined.

(** ** The vault: filtering, paths and sections *)

Section VaultPaths.
Import Zeplin ObsidianSync.

Lemma filterIncluded_filter {A : Type} patterns (name : A -> string) items :
  filterIncluded patterns name items = inr (filter (included patterns name) items).
Proof.
  induction items as [|x rest IH]; [reflexivity|].
  cbn [filterIncluded filter]. rewrite IH.
  destruct (shouldExclude_characterised patterns (name x)) as [(answer & Heq & _) _].
  assert (Hinc : included patterns name x = negb answer)
    by (unfold included; rewrite Heq; destruct answer; reflexivity).
  rewrite Heq, Hinc. destruct answer; reflexivity.
Qed.


Lemma sectionMapOf_lookup sections (m0 : gmap string string) key :
  fold_left
    (fun m s => <[section_id s := Js.or_else (section_name s) "Unknown"]> m)
    sections m0 !! key
  = match List.find (fun s => String.eqb (section_id s) key) (rev sections) with
    | Some s => Some (Js.or_else (section_name s) "Unknown")
    | None => m0 !! key
    end.
Proof.
  revert m0. induction sections as [|s rest IH]; intros m0; [reflexivity|].
  cbn [fold_left rev]. rewrite IH, find_over_app.
  destruct (List.find _ (rev rest)); [reflexivity|].
  cbn [List.find]. destruct (String.eqb_spec (section_id s) key) as [<-|Hne].
  - apply lookup_insert_eq.
  - apply lookup_insert_ne. exact Hne.
Qed.

Lemma find_none_iff {A : Type} (f : A -> bool) (l : list A) :
  List.find f l = None <-> forall x, In x l -> f x = false.
Proof.
  induction l as [|y l IH]; [split; [intros _ x []|reflexivity]|].
  cbn [List.find]. destruct (f y) eqn:Hy.
  - split; [discriminate|]. intros H. rewrite (H y (or_introl eq_refl)) in Hy.
    discriminate.
  - rewrite IH. split.
    + intros H x [<-|Hin]; auto.
    + intros H x Hin. apply H. right. exact Hin.
Qed.

(** *** Staying below the default folder *)

Lemma beforeLastSlash_app front back :
  beforeLastSlash (front ++ "/"%char :: back)
  = Some (front ++ match beforeLastSlash back with
                   | Some before => "/"%char :: before
                   | None => []
                   end)%list.
Proof.
  induction front as [|c front IH].
  - cbn [app beforeLastSlash]. destruct (beforeLastSlash back); reflexivity.
  - cbn [app beforeLastSlash]. rewrite IH. reflexivity.
Qed.

Lemma string_of_chars_app (l1 l2 : list ascii) :
  string_of_list_ascii (l1 ++ l2) = string_of_list_ascii l1 ++ string_of_list_ascii l2.
Proof.
  induction l1 as [|c l1 IH]; [reflexivity|].
  cbn [app string_of_list_ascii]. rewrite IH. reflexivity.
Qed.

Lemma parentPathOf_under folder rest :
  parentPathOf (folder ++ "/" ++ rest) = folder
  \/ under folder (parentPathOf (folder ++ "/" ++ rest)).
Proof.
  unfold parentPathOf. rewrite chars_append.
  change (list_ascii_of_string ("/" ++ rest))
    with ("/"%char :: list_ascii_of_string rest).
  rewrite beforeLastSlash_app, string_of_chars_app, string_of_list_ascii_of_string.
  destruct (beforeLastSlash (list_ascii_of_string rest)) as [before|].
  - right. exists (string_of_list_ascii before). reflexivity.
  - left. apply append_empty_r.
Qed.

Lemma under_below folder base x :
  base = folder \/ under folder base -> under folder (base ++ "/" ++ x).
Proof.
  intros [->|[rest ->]]; [exists x; reflexivity|].
  exists (rest ++ "/" ++ x). rewrite !append_assoc. reflexivity.
Qed.

Lemma under_below_suffix folder base x y :
  base = folder \/ under folder base -> under folder ((base ++ "/" ++ x) ++ y).
Proof.
  intros H. rewrite name_assoc. apply under_below. exact H.
Qed.

Lemma projectBase_cases env project :
  projectBase env project = defaultFolder (settings env)
  \/ under (defaultFolder (settings env)) (projectBase env project).
Proof.
  unfold projectBase. destruct (createProjectFolder (settings env)); [right | left].
  - eexists. reflexivity.
  - reflexivity.
Qed.

Lemma itemPath_below env basePath name section :
  exists x, itemPath env basePath name section = basePath ++ "/" ++ x.
Proof.
  unfold itemPath. cbv zeta. destruct section as [s|]; [|eexists; reflexivity].
  destruct (organizeBySections (settings env) && Js.truthy (section_name s));
    eexists; reflexivity.
Qed.

Section Under.
Variable folder : string.

Lemma WritesUnder_ret {A : Type} (x : A) : WritesUnder folder (ret x).
Proof. intros v r v1 [= <- <-]. split; [intros path H; contradiction | auto]. Qed.

Lemma WritesUnder_call {A : Type} (answer : Error + A) : WritesUnder folder (call answer).
Proof. intros v r v1 [= <- <-]. split; [intros path H; contradiction | auto]. Qed.

Lemma WritesUnder_bind {A B : Type} (m : V A) (k : A -> V B) :
  WritesUnder folder m -> (forall a, WritesUnder folder (k a)) ->
  WritesUnder folder (bind m k).
Proof.
  intros Hm Hk v r v2. unfold bind.
  destruct (m v) as [[e|a] v1] eqn:Hmv.
  - intros [= <- <-]. exact (Hm _ _ _ Hmv).
  - intros Hrun. destruct (Hm _ _ _ Hmv) as [Hf1 Hd1].
    destruct (Hk _ _ _ _ Hrun) as [Hf2 Hd2]. split.
    + intros path Hchanged.
      destruct (decide (files v1 !! path = files v !! path)) as [Heq|Hne];
        [|exact (Hf1 path Hne)].
      apply Hf2. rewrite Heq. exact Hchanged.
    + intros path Hin. destruct (Hd2 path Hin) as [Hin1|Hnew]; [|auto].
      exact (Hd1 path Hin1).
Qed.

Lemma WritesUnder_rethrow {A : Type} (m : V A) :
  WritesUnder folder m -> WritesUnder folder (catch m (fun error => throw error)).
Proof.
  intros Hm v r v1. unfold catch, throw.
  destruct (m v) as [[e|a] v'] eqn:Hmv; intros [= <- <-]; exact (Hm _ _ _ Hmv).
Qed.

Lemma WritesUnder_ensureFolder path :
  path = folder \/ under folder path -> WritesUnder folder (ensureFolder path).
Proof.
  intros Hpath v r v1. unfold ensureFolder.
  destruct (getAbstractFileByPath path v) eqn:Hget.
  - intros [= <- <-]. split; [intros p H; contradiction | auto].
  - unfold vault_createFolder. rewrite Hget. intros [= <- <-]. cbn [files folders].
    split; [intros p H; contradiction|].
    intros p Hin. apply elem_of_union in Hin. destruct Hin as [Hin|Hin]; [|auto].
    apply elem_of_singleton in Hin. subst p. right. exact Hpath.
Qed.

Lemma WritesUnder_writeFile path content :
  under folder path -> WritesUnder folder (writeFile path content).
Proof.
  intros Hpath v r v1 Hrun.
  destruct (writeFile_run _ _ _ _ _ Hrun) as (_ & Hsup & Hfiles). split.
  - intros p Hchanged. destruct (decide (p = path)) as [->|Hne]; [exact Hpath|].
    exfalso. apply Hchanged. destruct r as [e|u].
    + destruct Hfiles as [-> _]. reflexivity.
    + rewrite Hfiles. apply lookup_insert_ne. congruence.
  - intros p Hin. apply Hsup in Hin. apply elem_of_union in Hin.
    destruct Hin as [Hin|Hin]; [|auto].
    apply elem_of_singleton in Hin. subst p. right.
    destruct Hpath as [rest ->]. apply parentPathOf_under.
Qed.

End Under.

Lemma componentLoop_under env project sectionMap basePath components indexContent :
  under (defaultFolder (settings env)) basePath ->
  WritesUnder (defaultFolder (settings env))
    (componentLoop env project sectionMap basePath components indexContent).
Proof.
  intros Hbase. revert indexContent.
  induction components as [|c rest IH]; intros indexContent.
  - apply WritesUnder_ret.
  - cbn [componentLoop]. apply WritesUnder_bind; [apply WritesUnder_call|].
    intros full. cbv zeta.
    apply WritesUnder_bind; [|intros _; apply IH].
    apply WritesUnder_writeFile.
    match goal with
    | |- under _ (itemPath ?e ?b ?n ?s) =>
        destruct (itemPath_below e b n s) as [x ->]
    end.
    apply under_below. right. exact Hbase.
Qed.

Lemma screenLoop_under env project sectionMap basePath screens indexContent :
  under (defaultFolder (settings env)) basePath ->
  WritesUnder (defaultFolder (settings env))
    (screenLoop env project sectionMap basePath screens indexContent).
Proof.
  intros Hbase. revert indexContent.
  induction screens as [|c rest IH]; intros indexContent.
  - apply WritesUnder_ret.
  - cbn [screenLoop]. apply WritesUnder_bind; [apply WritesUnder_call|].
    intros full. cbv zeta.
    apply WritesUnder_bind; [|intros _; apply IH].
    apply WritesUnder_writeFile.
    match goal with
    | |- under _ (itemPath ?e ?b ?n ?s) =>
        destruct (itemPath_below e b n s) as [x ->]
    end.
    apply under_below. right. exact Hbase.
Qed.

Lemma syncProject_under env projectId :
  WritesUnder (defaultFolder (settings env)) (syncProject env projectId).
Proof.
  unfold syncProject. apply WritesUnder_rethrow.
  apply WritesUnder_bind; [apply WritesUnder_call|]. intros project.
  pose proof (projectBase_cases env project) as Hbase.
  apply WritesUnder_bind.
  { unfold createProjectStructure. cbv zeta.
    apply WritesUnder_bind; [apply WritesUnder_ensureFolder; exact Hbase | intros _].
    do 3 (apply WritesUnder_bind;
          [apply WritesUnder_ensureFolder; right;
           apply (under_below _ _ _ Hbase) | intros _]).
    apply WritesUnder_writeFile. apply (under_below _ _ _ Hbase). }
  intros _. apply WritesUnder_bind.
  { destruct (0 <? number_of_components project)%nat; [|apply WritesUnder_ret].
    unfold syncComponents.
    apply WritesUnder_bind; [apply WritesUnder_call | intros sections]. cbv zeta.
    apply WritesUnder_bind; [apply WritesUnder_call | intros components].
    apply WritesUnder_bind; [apply WritesUnder_call | intros filtered].
    apply WritesUnder_bind; [|intros indexContent].
    - apply componentLoop_under. apply (under_below _ _ _ Hbase).
    - apply WritesUnder_writeFile. apply (under_below_suffix _ _ _ _ Hbase). }
  intros _. apply WritesUnder_bind.
  { destruct (0 <? number_of_screens project)%nat; [|apply WritesUnder_ret].
    unfold syncScreens.
    apply WritesUnder_bind; [apply WritesUnder_call | intros sections]. cbv zeta.
    apply WritesUnder_bind; [apply WritesUnder_call | intros screens].
    apply WritesUnder_bind; [apply WritesUnder_call | intros filtered].
    apply WritesUnder_bind; [|intros indexContent].
    - apply screenLoop_under. apply (under_below _ _ _ Hbase).
    - apply WritesUnder_writeFile. apply (under_below_suffix _ _ _ _ Hbase). }
  intros _. apply WritesUnder_bind; [|intros _; apply WritesUnder_ret].
  unfold syncDesignTokens. cbv zeta.
  apply WritesUnder_bind.
  { destruct (0 <? number_of_colors project)%nat; [|apply WritesUnder_ret].
    apply WritesUnder_bind; [apply WritesUnder_call | intros colors].
    apply WritesUnder_ret. }
  intros content. apply WritesUnder_bind.
  { destruct (0 <? number_of_text_styles project)%nat; [|apply WritesUnder_ret].
    apply WritesUnder_bind; [apply WritesUnder_call | intros styles].
    apply WritesUnder_ret. }
  intros content'. apply WritesUnder_writeFile.
  apply (under_below_suffix _ _ _ _ Hbase).
Qed.

End VaultPaths.

(** X26.  The exclusion filter of a sync never throws, whatever the
    patterns are: every pattern compiles.  It keeps exactly the items that
    [shouldExclude] does not exclude, in their order, so that the kept and
    the skipped items of the index add up to the fetched ones. *)
Theorem filterIncluded_keeps_the_others {A : Type} (patterns : list string)
  (name : A -> string) (items : list A) :
  exists kept,
    ObsidianSync.filterIncluded patterns name items = inr kept
    /\ kept = filter (included patterns name) items
    /\ (forall x, In x kept
          <-> In x items /\ Obsidian.shouldExclude patterns (name x) = Some false)
    /\ List.length kept + (List.length items - List.length kept) = List.length items.
Proof.
  exists (filter (included patterns name) items).
  split; [apply filterIncluded_filter|]. split; [reflexivity|]. split.
  - intros x. rewrite filter_In. unfold included.
    destruct (shouldExclude_characterised patterns (name x)) as [(answer & -> & _) _].
    destruct answer; split; intros [H1 H2]; split; auto; discriminate.
  - pose proof (filter_length_le (included patterns name) items). lia.
Qed.

(** X27.  The paths of a sync are spelled from the default folder: whether
    [syncProject] resolves or rejects, the path of every file that it
    creates or changes is the text of the default folder, a slash and more,
    and every folder it makes is the default folder or has such a path.
    This is about the spelling only: [sanitizePath] keeps dots, so a
    project named [..] is written to the default folder, a slash and
    [..]. *)
Theorem syncProject_paths_spelled_from_default_folder (env : ObsidianSync.Env)
  (projectId : string) (v : ObsidianSync.Vault) :
  let v1 := snd (ObsidianSync.syncProject env projectId v) in
  let folder := ObsidianSync.defaultFolder (ObsidianSync.settings env) in
  (forall path,
     ObsidianSync.files v1 !! path <> ObsidianSync.files v !! path ->
     exists rest, path = folder ++ "/" ++ rest)
  /\ (forall path,
        path ∈ ObsidianSync.folders v1 ->
        path ∈ ObsidianSync.folders v \/ path = folder
        \/ exists rest, path = folder ++ "/" ++ rest)
  /\ Obsidian.sanitizePath ".." = ".."
  /\ (forall project,
        ObsidianSync.createProjectFolder (ObsidianSync.settings env) = true ->
        Zeplin.project_name project = ".." ->
        ObsidianSync.projectBase env project = folder ++ "/..").
Proof.
  intros v1 folder. subst v1 folder.
  destruct (ObsidianSync.syncProject env projectId v) as [r v1] eqn:Hrun.
  destruct (syncProject_under env projectId v r v1 Hrun) as [Hfiles Hfolders].
  split; [exact Hfiles|]. split; [exact Hfolders|]. split; [reflexivity|].
  intros project Hcreate Hname. unfold ObsidianSync.projectBase.
  rewrite Hcreate, Hname. reflexivity.
Qed.

(** Witness for X27: the project named by two dots. *)
Lemma syncProject_paths_spelled_from_default_folder_witness :
  (ObsidianSync.createProjectFolder (ObsidianSync.settings vaultEnv) = true
   /\ Zeplin.project_name dotsProject = "..")
  /\ ObsidianSync.projectBase vaultEnv dotsProject = "Zeplin/..".
Proof.
  split; [split; reflexivity|].
  destruct (syncProject_paths_spelled_from_default_folder vaultEnv "p2"
              ObsidianSync.emptyVault) as (_ & _ & _ & Hdots).
  exact (Hdots dotsProject eq_refl eq_refl).
Defined.


(** X29.  Where the section name of a note comes from.  For an item whose
    section has a non-empty id, the name that the item itself carries is
    dropped: the name is that of the last fetched section with this id
    ([Unknown] if that one has no name), and it is undefined when no
    fetched section has the id.  A section with an empty id is left as it
    is. *)
Theorem populateSection_lookup (sections : list Zeplin.ZeplinSection)
  (s : Zeplin.ZeplinSection) :
  (Zeplin.section_id s = "" ->
   ObsidianSync.populateSection (ObsidianSync.sectionMapOf sections) (Some s) = Some s)
  /\ (Zeplin.section_id s <> "" ->
      (forall other, In other sections ->
                     Zeplin.section_id other <> Zeplin.section_id s) ->
      ObsidianSync.populateSection (ObsidianSync.sectionMapOf sections) (Some s)
      = Some {| Zeplin.section_id := Zeplin.section_id s;
                Zeplin.section_name := None |})
  /\ (forall before last after,
        Zeplin.section_id s <> "" ->
        sections = (before ++ last :: after)%list ->
        Zeplin.section_id last = Zeplin.section_id s ->
        (forall other, In other after ->
                       Zeplin.section_id other <> Zeplin.section_id s) ->
        ObsidianSync.populateSection (ObsidianSync.sectionMapOf sections) (Some s)
        = Some {| Zeplin.section_id := Zeplin.section_id s;
                  Zeplin.section_name :=
                    Some (Js.or_else (Zeplin.section_name last) "Unknown") |}).
Proof.
  unfold ObsidianSync.populateSection, ObsidianSync.sectionMapOf.
  split; [intros ->; reflexivity|].
  split.
  - intros Hid Hnone.
    destruct (String.eqb_spec (Zeplin.section_id s) "") as [|_]; [contradiction|].
    rewrite sectionMapOf_lookup.
    assert (Hfind : List.find
                      (fun s0 => String.eqb (Zeplin.section_id s0) (Zeplin.section_id s))
                      (rev sections) = None).
    { apply find_none_iff. intros x Hin. apply in_rev in Hin.
      apply String.eqb_neq. apply Hnone. exact Hin. }
    rewrite Hfind. reflexivity.
  - intros before last after Hid -> Hlast Hafter.
    destruct (String.eqb_spec (Zeplin.section_id s) "") as [|_]; [contradiction|].
    rewrite sectionMapOf_lookup.
    rewrite rev_app_distr. cbn [rev]. rewrite <- app_assoc, find_over_app.
    assert (Hfind : List.find
                      (fun s0 => String.eqb (Zeplin.section_id s0) (Zeplin.section_id s))
                      (rev after) = None).
    { apply find_none_iff. intros x Hin. apply in_rev in Hin.
      apply String.eqb_neq. apply Hafter. exact Hin. }
    rewrite Hfind. cbn [app List.find]. rewrite Hlast, String.eqb_refl. reflexivity.
Qed.

(** Witness for X29: an item filed under a section that was not among the
    fetched ones loses the name it came with. *)
Lemma populateSection_lookup_witness :
  ObsidianSync.populateSection
    (ObsidianSync.sectionMapOf
       [{| Zeplin.section_id := "sec1"; Zeplin.section_name := Some "Onboarding" |}])
    (Some {| Zeplin.section_id := "sec2"; Zeplin.section_name := Some "Settings" |})
  = Some {| Zeplin.section_id := "sec2"; Zeplin.section_name := None |}.
Proof.
  refine (proj1 (proj2 (populateSection_lookup
            [{| Zeplin.section_id := "sec1"; Zeplin.section_name := Some "Onboarding" |}]
            {| Zeplin.section_id := "sec2"; Zeplin.section_name := Some "Settings" |}))
          _ _).
  - discriminate.
  - intros other [<-|[]]. discriminate.
Defined.

(** ** Images of the Logseq adapter *)

(** X30.  [downloadAndFormatImage] never rejects and has three outcomes.
    With direct links it is always the link to the URL.  With inline
    storage it is the embedded data URL when the fetch succeeds, with the
    content type of the response or [image/png], and [null] when the fetch
    fails.  The reference into the assets folder that [createImageMarkdown]
    can build and the fallback of the catch block are never reached. *)
Theorem downloadAndFormatImage_outcomes (env : Logseq.Env) (imageUrl itemName : string) :
  Logseq.downloadAndFormatImage env imageUrl itemName
  = inr match Logseq.imageStorage (Logseq.config env) with
        | Logseq.assets => Some ("![" ++ itemName ++ "](" ++ imageUrl ++ ")")
        | Logseq.inline =>
            match Logseq.fetch env imageUrl with
            | Some response =>
                Some ("![" ++ itemName ++ "](data:"
                        ++ Js.or_else (Logseq.contentType response) "image/png"
                        ++ ";base64,"
                        ++ string_of_list_ascii (Logseq.base64 (Logseq.data response))
                        ++ ")")
            | None => None
            end
        end.
Proof.
  unfold Logseq.downloadAndFormatImage, Logseq.downloadImage.
  destruct (Logseq.imageStorage (Logseq.config env)); [|reflexivity].
  destruct (Logseq.fetch env imageUrl) as [response|]; [|reflexivity].
  cbn [Client.tryCatch]. cbv zeta.
  set (mime := Js.or_else (Logseq.contentType response) "image/png").
  set (payload := string_of_list_ascii (Logseq.base64 (Logseq.data response))).
  change (Js.truthy (Some ("data:" ++ mime ++ ";base64," ++ payload))) with true.
  cbv iota. unfold Logseq.createImageMarkdown. cbn [Js.show].
  change (String.prefix "data:" ("data:" ++ mime ++ ";base64," ++ payload)) with
    (String.prefix "" (mime ++ ";base64," ++ payload)).
  replace (String.prefix "" (mime ++ ";base64," ++ payload)) with true
    by (destruct (mime ++ ";base64," ++ payload); reflexivity).
  rewrite !append_assoc. reflexivity.
Qed.
